(** * Webhook requestors of the feature server

    A shallow embedding of [lib/utils/ws-requestor.js] and
    [lib/utils/http-requestor-optimized.js]: the retry configuration read
    from the hook fragment, the back-off schedule, the HTTP status handling,
    the transport handover, and the ack-tracked WebSocket channel with its
    in-flight table, timers and promises.

    JavaScript values are modelled as follows: numbers that the code computes
    with are [number] (an integer or NaN), a possibly-undefined value is an
    [option], JSON documents are [json], a [Map] is an insertion-ordered
    association list ([JsMap]), promises and timers live in tables of the
    [World] keyed by allocation counters. *)

From Stdlib Require Import ZArith String Ascii List Lia Bool.
From stdpp Require Import base strings list gmap pretty.

Set Warnings "-register-all".

Open Scope string_scope.
Open Scope Z_scope.
Open Scope list_scope.

(** ** JavaScript strings *)

Module JsString.

(** [s.startsWith(p)] *)
Fixpoint startsWith (s p : string) : bool :=
  match p, s with
  | EmptyString, _ => true
  | String a p', String b s' => if Ascii.eqb a b then startsWith s' p' else false
  | String _ _, EmptyString => false
  end.

(** [s.includes(p)] *)
Fixpoint includes (s p : string) : bool :=
  startsWith s p ||
  match s with
  | EmptyString => false
  | String _ s' => includes s' p
  end.

(** [arr.includes(s)] for an array of strings *)
Definition array_includes (arr : list string) (s : string) : bool :=
  existsb (String.eqb s) arr.

(** [s.trim()]'s leading half, as used by [parseInt] (StrWhiteSpaceChar) *)
Definition is_space (a : ascii) : bool :=
  let n := nat_of_ascii a in
  (n =? 32)%nat || (n =? 9)%nat || (n =? 10)%nat || (n =? 11)%nat
  || (n =? 12)%nat || (n =? 13)%nat.

Fixpoint trimStart (s : string) : string :=
  match s with
  | String a s' => if is_space a then trimStart s' else s
  | EmptyString => EmptyString
  end.

Fixpoint rev_acc (s acc : string) : string :=
  match s with
  | EmptyString => acc
  | String a s' => rev_acc s' (String a acc)
  end.

Definition trim (s : string) : string :=
  rev_acc (trimStart (rev_acc (trimStart s) "")) "".

(** [s.split(c)] for a one-character separator *)
Fixpoint split_go (c : ascii) (s cur : string) : list string :=
  match s with
  | EmptyString => [rev_acc cur ""]
  | String a s' =>
      if Ascii.eqb a c then rev_acc cur "" :: split_go c s' ""
      else split_go c s' (String a cur)
  end.

Definition split (c : ascii) (s : string) : list string := split_go c s "".

End JsString.

(** ** JavaScript numbers: an integer or NaN *)

Inductive number :=
| NaN
| Num (z : Z).

Module JsNumber.

(** truthiness of a number: [NaN] and [0] are falsy *)
Definition truthy (x : number) : bool :=
  match x with
  | NaN => false
  | Num z => negb (z =? 0)
  end.

(** [x || d] on numbers *)
Definition or (x d : number) : number := if truthy x then x else d.

(** [Math.abs] *)
Definition abs (x : number) : number :=
  match x with
  | NaN => NaN
  | Num z => Num (Z.abs z)
  end.

(** [Math.min] *)
Definition min (x y : number) : number :=
  match x, y with
  | Num a, Num b => Num (Z.min a b)
  | _, _ => NaN
  end.

(** [a <= b]: every comparison with NaN is false *)
Definition leb (a b : number) : bool :=
  match a, b with
  | Num x, Num y => x <=? y
  | _, _ => false
  end.

Definition digit (base : Z) (a : ascii) : option Z :=
  let n := Z.of_nat (nat_of_ascii a) in
  let v :=
    if (48 <=? n) && (n <=? 57) then Some (n - 48)
    else if (97 <=? n) && (n <=? 122) then Some (n - 87)
    else if (65 <=? n) && (n <=? 90) then Some (n - 55)
    else None in
  match v with
  | Some d => if d <? base then Some d else None
  | None => None
  end.

(** the longest prefix of digits, read left to right; [acc] is [NaN] until
    a first digit has been seen *)
Fixpoint digits (base : Z) (s : string) (acc : number) : number :=
  match s with
  | EmptyString => acc
  | String a s' =>
      match digit base a with
      | Some d =>
          digits base s'
            (Num (base * (match acc with Num v => v | NaN => 0 end) + d))
      | None => acc
      end
  end.

(** the sign of [parseInt]: [-NaN] is [NaN] *)
Definition negate (x : number) : number :=
  match x with
  | NaN => NaN
  | Num z => Num (- z)
  end.

(** the digits after the sign: hexadecimal after [0x] or [0X], decimal
    otherwise *)
Definition magnitude (s : string) : number :=
  match s with
  | String "0" (String "x" r) => digits 16 r NaN
  | String "0" (String "X" r) => digits 16 r NaN
  | _ => digits 10 s NaN
  end.

(** [parseInt(s)] without a radix argument: leading white space, an
    optional sign, an optional [0x] prefix, then digits; [NaN] when no digit
    can be read.  Values are kept exact, where the engine rounds to a double:
    rounding is monotone and fixes every integer below 2^53, so each
    comparison of the result with a small constant is unaffected. *)
Definition parseInt (s : string) : number :=
  match JsString.trimStart s with
  | String "-" r => negate (magnitude r)
  | String "+" r => magnitude r
  | s1 => magnitude s1
  end.

(** [parseInt(v)] when [v] may be undefined: ["undefined"] has no digit *)
Definition parseInt_opt (v : option string) : number :=
  match v with
  | Some s => parseInt s
  | None => NaN
  end.

End JsNumber.

(** ** JSON documents and possibly-undefined values *)

Inductive json :=
| JNull
| JBool (b : bool)
| JNum (z : Z)
| JStr (s : string)
| JArr (items : list json)
| JObj (fields : list (string * json)).

(** a JavaScript value that may be [undefined] *)
Definition value := option json.

Module Js.

(** truthiness of a value *)
Definition truthy (v : value) : bool :=
  match v with
  | None => false
  | Some JNull => false
  | Some (JBool b) => b
  | Some (JNum z) => negb (z =? 0)
  | Some (JStr s) => negb (String.eqb s "")
  | Some (JArr _) => true
  | Some (JObj _) => true
  end.

(** property read [obj.k] on an object literal: the last binding wins *)
Fixpoint field (k : string) (fs : list (string * json)) : value :=
  match fs with
  | [] => None
  | (k', v) :: fs' =>
      match field k fs' with
      | Some v' => Some v'
      | None => if String.eqb k k' then Some v else None
      end
  end.

(** [obj.k] on an arbitrary non-null value: only objects carry fields *)
Definition get (k : string) (j : json) : value :=
  match j with
  | JObj fs => field k fs
  | _ => None
  end.

End Js.

(** ** Errors *)

(** What the requestors throw or reject with.  The WebSocket requestor rejects
    in-flight sends with plain strings ([StringError]). *)
Inductive error :=
| HTTPResponseError (statusCode : Z)
| TransportError (code : string)
| HandshakeError (statusCode : Z)
| TypeError (msg : string)
| AssertionError (msg : string)
| SyntaxError (msg : string)
| StringError (msg : string).

(** [`timeout from far end for msgid ${msgid}`] *)
Definition timeout_message (msgid : string) : string :=
  "timeout from far end for msgid " +:+ msgid.

(** [`abandoning msgid ${msgid} since socket is closed`] *)
Definition abandon_message (msgid : string) : string :=
  "abandoning msgid " +:+ msgid +:+ " since socket is closed".

(** ** [Map]: insertion-ordered, one binding per key *)

Module JsMap.
Section WithValue.
Context {V : Type}.

Definition t := list (string * V).

Fixpoint get (k : string) (m : t) : option V :=
  match m with
  | [] => None
  | (k', v) :: m' => if String.eqb k k' then Some v else get k m'
  end.

Definition has (k : string) (m : t) : bool :=
  match get k m with Some _ => true | None => false end.

(** [m.delete(k)] *)
Fixpoint delete (k : string) (m : t) : t :=
  match m with
  | [] => []
  | (k', v) :: m' =>
      if String.eqb k k' then delete k m' else (k', v) :: delete k m'
  end.

(** [m.set(k, v)]: an existing key keeps its place, a new one is appended *)
Fixpoint set (k : string) (v : V) (m : t) : t :=
  match m with
  | [] => [(k, v)]
  | (k', v') :: m' =>
      if String.eqb k k' then (k, v) :: delete k m'
      else (k', v') :: set k v m'
  end.

End WithValue.
Arguments t : clear implicits.
End JsMap.

(** ** Hooks, configuration and the pieces shared by both requestors *)

(** A hook is a bare URL or an object [{url, method?, username?, password?}]. *)
Inductive Hook :=
| HookString (url : string)
| HookObject (url : string) (method username password : option string).

(** [hook.url || hook], when that is a string; [None] stands for an object
    hook without a usable [url], where the expression yields the object. *)
Definition hook_url (h : Hook) : option string :=
  match h with
  | HookString u => Some u
  | HookObject u _ _ _ => if String.eqb u "" then None else Some u
  end.

(** [hook.method] *)
Definition hook_method (h : Hook) : option string :=
  match h with
  | HookString _ => None
  | HookObject _ m _ _ => m
  end.

(** [typeof hook === 'object' ? hook : {url: hook}] *)
Definition hook_as_object (h : Hook) : Hook :=
  match h with
  | HookString u => HookObject u None None None
  | HookObject _ _ _ _ => h
  end.

Definition headers := list (string * string).

Fixpoint header (k : string) (hs : headers) : option string :=
  match hs with
  | [] => None
  | (k', v) :: hs' => if String.eqb k k' then Some v else header k hs'
  end.

(** [{...hs, [k]: v}] *)
Fixpoint set_header (k v : string) (hs : headers) : headers :=
  match hs with
  | [] => [(k, v)]
  | (k', v') :: hs' =>
      if String.eqb k k' then (k, v) :: hs' else (k', v') :: set_header k v hs'
  end.

(** The options of a URL fragment, [hashObj.rc] and [hashObj.rp]. *)
Record HashParams := mkHashParams {
  rc : option string;
  rp : option string
}.

(** The values the requestors import from [../config] and
    [./constants.json]; neither file is part of the sources at hand, so they
    are parameters of the development. *)
Record Config := mkConfig {
  RESPONSE_TIMEOUT_MS : Z;
  MAX_RECONNECTS : number;
  HTTP_POOL : option string;
  HTTP_PROXY_IP : option string;
  HTTP_USER_AGENT_HEADER : option string;
  HookMsgTypes : list string
}.

Inductive Transport := Http | Ws.

(** A requestor built by [new HttpRequestor(logger, account_sid, h, secret)]
    or [new WsRequestor(logger, account_sid, h, secret)] during a handover. *)
Record Constructed := mkConstructed {
  c_kind : Transport;
  c_account_sid : string;
  c_hook : Hook;
  c_secret : option string
}.

(** The exclusion list both requestors pass to [snakeCaseKeys]. *)
Definition SNAKE_EXCLUDES : list string := ["customerData"; "sip"; "env_vars"; "args"].

Module BaseRequestor.

(** Modelled from the spec: [_isAbsoluteUrl] of [./base-requestor], which is
    not among the sources; a URL is absolute when it starts with one of the
    four recognised schemes. *)
Definition _isAbsoluteUrl (u : string) : bool :=
  JsString.startsWith u "https://" || JsString.startsWith u "http://"
  || JsString.startsWith u "ws://" || JsString.startsWith u "wss://".

(** Modelled from the spec: [_isRelativeUrl] of [./base-requestor]; a
    relative URL is a path that resolves against the base URL. *)
Definition _isRelativeUrl (u : string) : bool := JsString.startsWith u "/".

(** Modelled from the spec: [_shouldRetry] of [./base-requestor] (section
    4.4): a policy token matches the class of the error. *)
Definition token_matches (e : error) (tok : string) : bool :=
  String.eqb tok "all" ||
  match e with
  | TransportError _ => String.eqb tok "ct"
  | HandshakeError _ => String.eqb tok "ct"
  | HTTPResponseError c =>
      (String.eqb tok "4xx" && (400 <=? c) && (c <? 500))
      || (String.eqb tok "5xx" && (500 <=? c) && (c <? 600))
  | StringError _ => String.eqb tok "rt"
  | _ => false
  end.

Definition shouldRetry_spec (e : error) (tokens : list string) : bool :=
  existsb (token_matches e) tokens.

(** Modelled from the spec: the fragment of a URL, [parseUrl(u).hash]
    followed by [_parseHashParams]: the text after the first [#], split at
    [&] into [key=value] options. *)
Fixpoint after_hash (u : string) : option string :=
  match u with
  | EmptyString => None
  | String a u' => if Ascii.eqb a "#" then Some u' else after_hash u'
  end.

Fixpoint drop_prefix (p s : string) : option string :=
  match p, s with
  | EmptyString, _ => Some s
  | String a p', String b s' => if Ascii.eqb a b then drop_prefix p' s' else None
  | String _ _, EmptyString => None
  end.

Fixpoint option_value (k : string) (opts : list string) : option string :=
  match opts with
  | [] => None
  | o :: opts' =>
      match drop_prefix (k +:+ "=") o with
      | Some v => Some v
      | None => option_value k opts'
      end
  end.

Definition fragment_spec (u : string) : HashParams :=
  match after_hash u with
  | None => mkHashParams None None
  | Some h =>
      let opts := JsString.split "&" h in
      mkHashParams (option_value "rc" opts) (option_value "rp" opts)
  end.

End BaseRequestor.

(** Modelled from the spec: [snakeCaseKeys] of [./snakecase-keys], which is
    not among the sources: every key is rewritten with [snakeCase], at every
    depth, except that a field whose name is in [excludes] is kept as it is,
    name and content. *)
Fixpoint snakeCaseKeys (snakeCase : string -> string) (excludes : list string)
    (j : json) : json :=
  match j with
  | JArr items => JArr (map (snakeCaseKeys snakeCase excludes) items)
  | JObj fs =>
      JObj (map (fun kv =>
                   if JsString.array_includes excludes (fst kv) then kv
                   else (snakeCase (fst kv),
                         snakeCaseKeys snakeCase excludes (snd kv))) fs)
  | _ => j
  end.

(** [params ? snakeCaseKeys(params, ['customerData', 'sip', 'env_vars',
    'args']) : null], the payload both requestors compute *)
Definition payload_of (snakeCase : string -> string) (params : value) : json :=
  match params with
  | Some p =>
      if Js.truthy params then snakeCaseKeys snakeCase SNAKE_EXCLUDES p
      else JNull
  | None => JNull
  end.

(** [hook.method || 'POST'] *)
Definition method_or_POST (hook : Hook) : string :=
  match hook_method hook with
  | Some m => if String.eqb m "" then "POST" else m
  | None => "POST"
  end.

(** [{...httpHeaders, ...(HTTP_USER_AGENT_HEADER && {'user-agent': ...})}] *)
Definition with_user_agent (cfg : Config) (httpHeaders : headers) : headers :=
  match HTTP_USER_AGENT_HEADER cfg with
  | Some ua =>
      if String.eqb ua "" then httpHeaders
      else set_header "user-agent" ua httpHeaders
  | None => httpHeaders
  end.

(** ** Retry configuration and back-off *)

Module Retry.

(** [hashObj.rp || 'ct'], then [split(',').map(v => v.trim())] *)
Definition retryPolicyValues (h : HashParams) : list string :=
  let retryPolicy :=
    match rp h with
    | Some s => if String.eqb s "" then "ct" else s
    | None => "ct"
    end in
  map JsString.trim (JsString.split "," retryPolicy).

(** ws-requestor.js, constructor:
    [Math.min(Math.abs(parseInt(hashObj.rc) || MAX_RECONNECTS), 5)] *)
Definition maxReconnects (cfg : Config) (h : HashParams) : number :=
  JsNumber.min
    (JsNumber.abs (JsNumber.or (JsNumber.parseInt_opt (rc h)) (MAX_RECONNECTS cfg)))
    (Num 5).

(** http-requestor-optimized.js, request:
    [Math.min(Math.abs(parseInt(hashObj.rc || '0')), 5)] *)
Definition maxRetries (h : HashParams) : number :=
  let s :=
    match rc h with
    | Some s => if String.eqb s "" then "0" else s
    | None => "0"
    end in
  JsNumber.min (JsNumber.abs (JsNumber.parseInt s)) (Num 5).

(** ws-requestor.js:
    [this.backoffMs < 2000 ? this.backoffMs * 2 : (this.backoffMs + 2000)] *)
Definition next_backoff (backoffMs : Z) : Z :=
  if backoffMs <? 2000 then backoffMs * 2 else backoffMs + 2000.

(** http-requestor-optimized.js:
    [this.backoffMs * Math.pow(2, retryCount - 1)] *)
Definition http_delay (backoffMs : Z) (retryCount : nat) : Z :=
  backoffMs * 2 ^ (Z.of_nat retryCount - 1).

(** The rule of the specification: start at 500, double while below 2000,
    then add 2000; [rule_delay k] is the wait before retry [k+1]. *)
Fixpoint rule_delay (k : nat) : Z :=
  match k with
  | O => 500
  | S k' => next_backoff (rule_delay k')
  end.

(** An upper bound on the iterations of a [while (retryCount <= max)] loop
    whose counter starts at 0 and grows by one: the fuel of the loops below. *)
Definition loop_bound (max : number) : nat :=
  match max with
  | Num z => S (S (Z.to_nat z))
  | NaN => 1%nat
  end.

End Retry.

(** ** Events the requestors emit to their owner *)

Record Command := mkCommand {
  cmd_msgid : value;
  cmd_command : value;
  cmd_call_sid : value;
  cmd_queueCommand : value;
  cmd_tool_call_id : value;
  cmd_data : value
}.

Inductive Event :=
| Handover (requestor : Constructed)
| CommandReceived (c : Command)
| SocketClosed
| ConnectionDropped
| Ready (ws : nat)
| NotReady (e : error)
| ConnectionFailure.

(** ** The HTTP requestor, [http-requestor-optimized.js] *)

Module OptimizedHttpRequestor.

Record Stats := mkStats {
  totalRequests : nat;
  successfulRequests : nat;
  failedRequests : nat;
  stats_retryCount : nat
}.

(** The fields of the object that [request] and [makeRequest] read.
    [poolManager] tells whether the property was assigned. *)
Record t := mk {
  account_sid : string;
  secret : option string;
  url : string;
  baseUrl : string;
  method : string;
  backoffMs : Z;
  _usePools : bool;
  poolManager : bool;
  stats : Stats
}.

(** The object together with what it has done to the outside. *)
Record World := mkWorld {
  self : t;
  emitted : list Event;
  closeCalls : nat;
  sleeps : list Z;
  alerts : list error;
  requestsSent : list (string * option json)
}.

Definition with_stats (f : Stats -> Stats) (w : World) : World :=
  let r := self w in
  mkWorld (mk (account_sid r) (secret r) (url r) (baseUrl r) (method r)
             (backoffMs r) (_usePools r) (poolManager r) (f (stats r)))
    (emitted w) (closeCalls w) (sleeps w) (alerts w) (requestsSent w).

Definition emit (e : Event) (w : World) : World :=
  mkWorld (self w) (emitted w ++ [e]) (closeCalls w) (sleeps w) (alerts w)
    (requestsSent w).

(** [close()]: the body is empty, the call is only counted *)
Definition close (w : World) : World :=
  mkWorld (self w) (emitted w) (S (closeCalls w)) (sleeps w) (alerts w)
    (requestsSent w).

(** [await this.sleep(ms)] *)
Definition sleep (ms : Z) (w : World) : World :=
  mkWorld (self w) (emitted w) (closeCalls w) (sleeps w ++ [ms]) (alerts w)
    (requestsSent w).

(** [handleError]: one alert is written for the error *)
Definition handleError (e : error) (w : World) : World :=
  mkWorld (self w) (emitted w) (closeCalls w) (sleeps w) (alerts w ++ [e])
    (requestsSent w).

(** one request put on the network: the method and, for a POST, the
    payload that [JSON.stringify] turns into the body *)
Definition sent (method : string) (payload : json) (w : World) : World :=
  mkWorld (self w) (emitted w) (closeCalls w) (sleeps w) (alerts w)
    (requestsSent w ++
       [(method, if String.eqb method "POST" then Some payload else None)]).

(** [HTTP_POOL && parseInt(HTTP_POOL)], as a condition *)
Definition usePools (cfg : Config) : bool :=
  match HTTP_POOL cfg with
  | Some s => negb (String.eqb s "") && JsNumber.truthy (JsNumber.parseInt s)
  | None => false
  end.

(** Modelled from the spec: the origin of an absolute URL, which the
    constructor of [./base-requestor] stores as [baseUrl]: scheme, host and
    port. *)
Fixpoint until_path (s : string) : string :=
  match s with
  | EmptyString => EmptyString
  | String a s' =>
      if Ascii.eqb a "/" || Ascii.eqb a "?" || Ascii.eqb a "#" then EmptyString
      else String a (until_path s')
  end.

Fixpoint origin (u : string) : string :=
  match u with
  | String ":" (String "/" (String "/" r)) => "://" +:+ until_path r
  | String a u' => String a (origin u')
  | EmptyString => EmptyString
  end.

(** [new OptimizedHttpRequestor(logger, account_sid, hook, secret)] *)
Definition constructor (cfg : Config) (account_sid : string) (hook : Hook)
    (secret : option string) : error + t :=
  match hook_url hook with
  | None => inl (TypeError "hook has no url")
  | Some u =>
      let m := method_or_POST hook in
      if negb (BaseRequestor._isAbsoluteUrl u) then
        inl (AssertionError "_isAbsoluteUrl(this.url)")
      else if negb (JsString.array_includes ["GET"; "POST"] m) then
        inl (AssertionError "['GET', 'POST'].includes(this.method)")
      else
        inr (mk account_sid secret u (origin u) m 500
               (usePools cfg) (usePools cfg) (mkStats 0 0 0 0)%nat)
  end.

Definition initial (r : t) : World := mkWorld r [] 0%nat [] [] [].

(** What the server answered: the status, the [content-type] header and the
    outcome of [body.json()] ([None] when the body is not JSON and the call
    throws). *)
Record Response := mkResponse {
  statusCode : Z;
  content_type : option string;
  body_json : option json
}.

(** One attempt on the network: a transport error or a response. *)
Inductive NetOutcome :=
| NetError (e : error)
| NetResponse (r : Response).

(** What [request] gives back: a value, an exception, or the promise of
    [requestor.request(...)] on a requestor constructed for a handover. *)
Inductive Result :=
| Return (v : value)
| Throw (e : error)
| Delegate (requestor : Constructed) (type : string) (hook : Hook)
    (params : value) (httpHeaders : headers).

(** [getClientConfig]: both branches go through [this.poolManager], which
    is undefined unless the constructor assigned it. *)
Definition getClientConfig (r : t) (url : string) : error + string :=
  let absUrl :=
    if BaseRequestor._isRelativeUrl url then baseUrl r +:+ url else url in
  if _usePools r then
    if poolManager r then inr absUrl
    else inl (TypeError "Cannot read properties of undefined (reading 'getPool')")
  else
    if poolManager r then inr absUrl
    else inl (TypeError "Cannot read properties of undefined (reading 'getClient')").

(** Lines 242 to 253 of [makeRequest]: what is made of a response. *)
Definition handleResponse (resp : Response) : error + json :=
  if negb (existsb (Z.eqb (statusCode resp)) [200; 202; 204]) then
    inl (HTTPResponseError (statusCode resp))
  else
    match content_type resp with
    | Some ct =>
        if JsString.includes ct "application/json" then
          match body_json resp with
          | Some j => inr j
          | None => inl (SyntaxError "Unexpected token in JSON")
          end
        else inr (JStr "")
    | None => inr (JStr "")
    end.

(** [makeRequest(url, method, payload, httpHeaders, span)]; [o] is what the
    network does with this attempt. *)
Definition makeRequest (w : World) (url method : string) (payload : json)
    (o : NetOutcome) : World * (error + json) :=
  match getClientConfig (self w) url with
  | inl e => (w, inl e)
  | inr _ =>
      match o with
      | NetError e => (sent method payload w, inl e)
      | NetResponse resp => (sent method payload w, handleResponse resp)
      end
  end.

Section Request.
Variable snakeCase : string -> string.
Variable cfg : Config.
Variable fragment : string -> HashParams.
Variable _shouldRetry : error -> list string -> bool.

(** The [while (retryCount <= maxRetries)] loop of [request]; the result
    is the world, [lastError] and [response] on leaving the loop. *)
Fixpoint retry_loop (fuel : nat) (w : World) (url method : string)
    (payload : json) (net : nat -> NetOutcome) (maxRetries : number)
    (retryPolicyValues : list string) (retryCount : nat)
    (lastError : option error) : option (World * option error * json) :=
  match fuel with
  | O => None
  | S fuel' =>
      if JsNumber.leb (Num (Z.of_nat retryCount)) maxRetries then
        match makeRequest w url method payload (net retryCount) with
        | (w1, inr response) => Some (w1, lastError, response)
        | (w1, inl e) =>
            let retryCount' := S retryCount in
            if JsNumber.leb (Num (Z.of_nat retryCount')) maxRetries
               && _shouldRetry e retryPolicyValues
            then
              let w2 :=
                with_stats (fun s => mkStats (totalRequests s)
                                       (successfulRequests s)
                                       (failedRequests s)
                                       (S (stats_retryCount s))) w1 in
              let delay :=
                Retry.http_delay (backoffMs (self w2)) retryCount' in
              retry_loop fuel' (sleep delay w2) url method payload net maxRetries
                retryPolicyValues retryCount' (Some e)
            else Some (w1, Some e, JNull)
        end
      else Some (w, lastError, JNull)
  end.

(** [updateStats(response !== null, responseTime)] *)
Definition updateStats (success : bool) (w : World) : World :=
  with_stats (fun s =>
    if success then
      mkStats (totalRequests s) (S (successfulRequests s))
        (failedRequests s) (stats_retryCount s)
    else
      mkStats (totalRequests s) (successfulRequests s)
        (S (failedRequests s)) (stats_retryCount s)) w.

Definition is_null (j : json) : bool :=
  match j with JNull => true | _ => false end.

(** [request(type, hook, params, httpHeaders, span)] *)
Definition request (w : World) (type : string) (hook : Hook)
    (params : value) (httpHeaders : headers) (net : nat -> NetOutcome)
    : option (World * Result) :=
  if String.eqb type "jambonz:error" then Some (w, Return None)
  else if negb (JsString.array_includes (HookMsgTypes cfg) type) then
    Some (w, Throw (AssertionError "HookMsgTypes.includes(type)"))
  else
    let payload := payload_of snakeCase params in
    let w := with_stats (fun s => mkStats (S (totalRequests s))
                           (successfulRequests s) (failedRequests s)
                           (stats_retryCount s)) w in
    let httpHeaders := with_user_agent cfg httpHeaders in
    match hook_url hook with
    | None => Some (w, Throw (TypeError "url is not a string"))
    | Some url =>
        let method := method_or_POST hook in
        if String.eqb url "" then
          Some (w, Throw (AssertionError "url was not provided"))
        else if negb (JsString.array_includes ["GET"; "POST"] method) then
          Some (w, Throw (AssertionError "method must be 'GET' or 'POST'"))
        else if BaseRequestor._isAbsoluteUrl url && JsString.startsWith url "ws"
        then
          let h := hook_as_object hook in
          let requestor :=
            mkConstructed Ws (account_sid (self w)) h (secret (self w)) in
          let w :=
            if String.eqb type "session:redirect"
            then emit (Handover requestor) (close w) else w in
          Some (w, Delegate requestor "session:new" hook params httpHeaders)
        else
          let absUrl :=
            if BaseRequestor._isRelativeUrl url
            then baseUrl (self w) +:+ url else url in
          let hashObj := fragment absUrl in
          let maxRetries := Retry.maxRetries hashObj in
          let retryPolicyValues := Retry.retryPolicyValues hashObj in
          match retry_loop (Retry.loop_bound maxRetries) w url method payload
                  net maxRetries retryPolicyValues 0 None
          with
          | None => None
          | Some (w, lastError, response) =>
              let w := updateStats (negb (is_null response)) w in
              match lastError with
              | Some e =>
                  if negb (Js.truthy (Some response)) then
                    Some (handleError e w, Throw e)
                  else Some (w, Return (Some response))
              | None => Some (w, Return (Some response))
              end
          end
    end.

End Request.

End OptimizedHttpRequestor.


(** ** The WebSocket requestor, [ws-requestor.js] *)

Module WsRequestor.

(** The types whose send does not wait for an ack (the source names the
    list [MTYPE_WANTS_ACK] and negates the membership test). *)
Definition MTYPE_WANTS_ACK : list string :=
  ["call:status"; "verb:status"; "jambonz:error"; "llm:event"; "llm:tool-call";
   "tts:streaming-event"; "tts:tokens-result"].

Definition MTYPE_NO_DATA : list string :=
  ["llm:tool-output"; "tts:flush"; "tts:clear"].

(** The types whose frame carries the [hook] field. *)
Definition HOOK_FIELD_TYPES : list string :=
  ["verb:hook"; "dial:confirm"; "session:redirect"; "llm:event"; "llm:tool-call"].

(** An entry of [messagesInFlight]: [{timer, success, failure}].  The two
    closures are determined by the timer and by the promise whose [resolve]
    and [reject] they capture. *)
Record Entry := mkEntry {
  timer : nat;
  promise : nat
}.

(** An element of [queuedMsg]. *)
Record Queued := mkQueued {
  q_type : string;
  q_hook : Hook;
  q_params : value;
  q_httpHeaders : headers;
  q_promise : option nat
}.

(** An outbound frame [{type, msgid, call_sid, hook, data, b3}]. *)
Record Frame := mkFrame {
  f_type : string;
  f_msgid : string;
  f_call_sid : value;
  f_hook : option string;
  f_data : json;
  f_b3 : option string
}.

Inductive Settled :=
| Resolved (v : value)
| Rejected (e : error).

(** A pending [setTimeout]: the ack timer of a send, which captures the
    [msgid] of that send, or the reconnect timer of [_scheduleReconnect]. *)
Inductive Timer :=
| AckTimeout (msgid : string) (delay : Z)
| Reconnect (delay : Z).

(** The completion callback handed to [ws.send]: both flush [queuedMsg]
    through [request], the second after awaiting [_reconnectPromise].  The
    model records them and does not run them. *)
Inductive SendCallback :=
| AfterNotification (msgid : string)
| AfterAckedSend (msgid : string).

(** The fields of the object. *)
Record t := mk {
  account_sid : string;
  secret : option string;
  url : string;
  connections : nat;
  messagesInFlight : JsMap.t (option Entry);
  maliciousClient : bool;
  closedGracefully : bool;
  backoffMs : Z;
  connectInProgress : bool;
  queuedMsg : list Queued;
  maxReconnects : number;
  retryPolicyValues : list string;
  ws : option nat;
  call_sid : value;
  _initMsgId : option string;
  _sessionData : option json;
  _reconnectPromise : option nat
}.

(** The object together with the promises it has created, the timers it has
    armed, and what it has done to the outside: frames written to a socket,
    sockets closed, events emitted, alerts written, waits between connection
    attempts. *)
Record World := mkWorld {
  self : t;
  promises : gmap nat Settled;
  nextPromise : nat;
  timers : gmap nat Timer;
  nextTimer : nat;
  nextSocket : nat;
  uuids : nat;
  wire : list (nat * Frame);
  closes : list (nat * option Z);
  emitted : list Event;
  alerts : list string;
  sleeps : list Z;
  sendCallbacks : list SendCallback
}.

Definition set_connections (v : nat) (r : t) : t :=
  mk (account_sid r) (secret r) (url r) v (messagesInFlight r)
    (maliciousClient r) (closedGracefully r) (backoffMs r)
    (connectInProgress r) (queuedMsg r) (maxReconnects r)
    (retryPolicyValues r) (ws r) (call_sid r) (_initMsgId r) (_sessionData
    r) (_reconnectPromise r).
Definition set_messagesInFlight (v : JsMap.t (option Entry)) (r : t) : t :=
  mk (account_sid r) (secret r) (url r) (connections r) v (maliciousClient
    r) (closedGracefully r) (backoffMs r) (connectInProgress r) (queuedMsg
    r) (maxReconnects r) (retryPolicyValues r) (ws r) (call_sid r)
    (_initMsgId r) (_sessionData r) (_reconnectPromise r).
Definition set_maliciousClient (v : bool) (r : t) : t :=
  mk (account_sid r) (secret r) (url r) (connections r) (messagesInFlight
    r) v (closedGracefully r) (backoffMs r) (connectInProgress r)
    (queuedMsg r) (maxReconnects r) (retryPolicyValues r) (ws r) (call_sid
    r) (_initMsgId r) (_sessionData r) (_reconnectPromise r).
Definition set_closedGracefully (v : bool) (r : t) : t :=
  mk (account_sid r) (secret r) (url r) (connections r) (messagesInFlight
    r) (maliciousClient r) v (backoffMs r) (connectInProgress r)
    (queuedMsg r) (maxReconnects r) (retryPolicyValues r) (ws r) (call_sid
    r) (_initMsgId r) (_sessionData r) (_reconnectPromise r).
Definition set_backoffMs (v : Z) (r : t) : t :=
  mk (account_sid r) (secret r) (url r) (connections r) (messagesInFlight
    r) (maliciousClient r) (closedGracefully r) v (connectInProgress r)
    (queuedMsg r) (maxReconnects r) (retryPolicyValues r) (ws r) (call_sid
    r) (_initMsgId r) (_sessionData r) (_reconnectPromise r).
Definition set_connectInProgress (v : bool) (r : t) : t :=
  mk (account_sid r) (secret r) (url r) (connections r) (messagesInFlight
    r) (maliciousClient r) (closedGracefully r) (backoffMs r) v (queuedMsg
    r) (maxReconnects r) (retryPolicyValues r) (ws r) (call_sid r)
    (_initMsgId r) (_sessionData r) (_reconnectPromise r).
Definition set_queuedMsg (v : list Queued) (r : t) : t :=
  mk (account_sid r) (secret r) (url r) (connections r) (messagesInFlight
    r) (maliciousClient r) (closedGracefully r) (backoffMs r)
    (connectInProgress r) v (maxReconnects r) (retryPolicyValues r) (ws r)
    (call_sid r) (_initMsgId r) (_sessionData r) (_reconnectPromise r).
Definition set_ws (v : option nat) (r : t) : t :=
  mk (account_sid r) (secret r) (url r) (connections r) (messagesInFlight
    r) (maliciousClient r) (closedGracefully r) (backoffMs r)
    (connectInProgress r) (queuedMsg r) (maxReconnects r)
    (retryPolicyValues r) v (call_sid r) (_initMsgId r) (_sessionData r)
    (_reconnectPromise r).
Definition set_call_sid (v : value) (r : t) : t :=
  mk (account_sid r) (secret r) (url r) (connections r) (messagesInFlight
    r) (maliciousClient r) (closedGracefully r) (backoffMs r)
    (connectInProgress r) (queuedMsg r) (maxReconnects r)
    (retryPolicyValues r) (ws r) v (_initMsgId r) (_sessionData r)
    (_reconnectPromise r).
Definition set_initMsgId (v : option string) (r : t) : t :=
  mk (account_sid r) (secret r) (url r) (connections r) (messagesInFlight
    r) (maliciousClient r) (closedGracefully r) (backoffMs r)
    (connectInProgress r) (queuedMsg r) (maxReconnects r)
    (retryPolicyValues r) (ws r) (call_sid r) v (_sessionData r)
    (_reconnectPromise r).
Definition set_sessionData (v : option json) (r : t) : t :=
  mk (account_sid r) (secret r) (url r) (connections r) (messagesInFlight
    r) (maliciousClient r) (closedGracefully r) (backoffMs r)
    (connectInProgress r) (queuedMsg r) (maxReconnects r)
    (retryPolicyValues r) (ws r) (call_sid r) (_initMsgId r) v
    (_reconnectPromise r).
Definition set_reconnectPromise (v : option nat) (r : t) : t :=
  mk (account_sid r) (secret r) (url r) (connections r) (messagesInFlight
    r) (maliciousClient r) (closedGracefully r) (backoffMs r)
    (connectInProgress r) (queuedMsg r) (maxReconnects r)
    (retryPolicyValues r) (ws r) (call_sid r) (_initMsgId r) (_sessionData
    r) v.

Definition set_self (v : t) (w : World) : World :=
  mkWorld v (promises w) (nextPromise w) (timers w) (nextTimer w)
    (nextSocket w) (uuids w) (wire w) (closes w) (emitted w) (alerts w)
    (sleeps w) (sendCallbacks w).
Definition set_promises (v : gmap nat Settled) (w : World) : World :=
  mkWorld (self w) v (nextPromise w) (timers w) (nextTimer w) (nextSocket
    w) (uuids w) (wire w) (closes w) (emitted w) (alerts w) (sleeps w)
    (sendCallbacks w).
Definition set_nextPromise (v : nat) (w : World) : World :=
  mkWorld (self w) (promises w) v (timers w) (nextTimer w) (nextSocket w)
    (uuids w) (wire w) (closes w) (emitted w) (alerts w) (sleeps w)
    (sendCallbacks w).
Definition set_timers (v : gmap nat Timer) (w : World) : World :=
  mkWorld (self w) (promises w) (nextPromise w) v (nextTimer w)
    (nextSocket w) (uuids w) (wire w) (closes w) (emitted w) (alerts w)
    (sleeps w) (sendCallbacks w).
Definition set_nextTimer (v : nat) (w : World) : World :=
  mkWorld (self w) (promises w) (nextPromise w) (timers w) v (nextSocket
    w) (uuids w) (wire w) (closes w) (emitted w) (alerts w) (sleeps w)
    (sendCallbacks w).
Definition set_nextSocket (v : nat) (w : World) : World :=
  mkWorld (self w) (promises w) (nextPromise w) (timers w) (nextTimer w) v
    (uuids w) (wire w) (closes w) (emitted w) (alerts w) (sleeps w)
    (sendCallbacks w).
Definition set_uuids (v : nat) (w : World) : World :=
  mkWorld (self w) (promises w) (nextPromise w) (timers w) (nextTimer w)
    (nextSocket w) v (wire w) (closes w) (emitted w) (alerts w) (sleeps w)
    (sendCallbacks w).
Definition set_wire (v : list (nat * Frame)) (w : World) : World :=
  mkWorld (self w) (promises w) (nextPromise w) (timers w) (nextTimer w)
    (nextSocket w) (uuids w) v (closes w) (emitted w) (alerts w) (sleeps
    w) (sendCallbacks w).
Definition set_closes (v : list (nat * option Z)) (w : World) : World :=
  mkWorld (self w) (promises w) (nextPromise w) (timers w) (nextTimer w)
    (nextSocket w) (uuids w) (wire w) v (emitted w) (alerts w) (sleeps w)
    (sendCallbacks w).
Definition set_emitted (v : list Event) (w : World) : World :=
  mkWorld (self w) (promises w) (nextPromise w) (timers w) (nextTimer w)
    (nextSocket w) (uuids w) (wire w) (closes w) v (alerts w) (sleeps w)
    (sendCallbacks w).
Definition set_alerts (v : list string) (w : World) : World :=
  mkWorld (self w) (promises w) (nextPromise w) (timers w) (nextTimer w)
    (nextSocket w) (uuids w) (wire w) (closes w) (emitted w) v (sleeps w)
    (sendCallbacks w).
Definition set_sleeps (v : list Z) (w : World) : World :=
  mkWorld (self w) (promises w) (nextPromise w) (timers w) (nextTimer w)
    (nextSocket w) (uuids w) (wire w) (closes w) (emitted w) (alerts w) v
    (sendCallbacks w).
Definition set_sendCallbacks (v : list SendCallback) (w : World) : World :=
  mkWorld (self w) (promises w) (nextPromise w) (timers w) (nextTimer w)
    (nextSocket w) (uuids w) (wire w) (closes w) (emitted w) (alerts w)
    (sleeps w) v.

Definition on_self (f : t -> t) (w : World) : World := set_self (f (self w)) w.

(** [new Promise(...)]: a fresh, pending promise *)
Definition new_promise (w : World) : nat * World :=
  (nextPromise w, set_nextPromise (S (nextPromise w)) w).

(** [resolve(v)] and [reject(e)]: only the first settlement counts *)
Definition settle (p : nat) (s : Settled) (w : World) : World :=
  match promises w !! p with
  | Some _ => w
  | None => set_promises (<[p := s]> (promises w)) w
  end.

Definition setTimeout (cb : Timer) (w : World) : nat * World :=
  (nextTimer w,
   set_nextTimer (S (nextTimer w)) (set_timers (<[nextTimer w := cb]> (timers w)) w)).

Definition clearTimeout (id : nat) (w : World) : World :=
  set_timers (delete id (timers w)) w.

Definition emit (e : Event) (w : World) : World :=
  set_emitted (emitted w ++ [e]) w.

(** truthiness of a string-valued property that may be null *)
Definition str_truthy (o : option string) : bool :=
  match o with
  | Some s => negb (String.eqb s "")
  | None => false
  end.

(** [messagesInFlight.get(k)]: undefined for a missing key and for a key
    bound to undefined *)
Definition inflight (k : string) (r : t) : option Entry :=
  match JsMap.get k (messagesInFlight r) with
  | Some (Some e) => Some e
  | _ => None
  end.

(** the [success] closure of an entry *)
Definition success (e : Entry) (response : value) (w : World) : World :=
  let w := clearTimeout (timer e) w in
  let w := settle (promise e) (Resolved response) w in
  match _reconnectPromise (self w) with
  | Some p => settle p (Resolved None) w
  | None => w
  end.

(** the [failure] closure of an entry *)
Definition failure (e : Entry) (err : error) (w : World) : World :=
  let w := match _reconnectPromise (self w) with
           | Some p => settle p (Rejected err) w
           | None => w
           end in
  let w := clearTimeout (timer e) w in
  settle (promise e) (Rejected err) w.

(** the loop of [_clearPendingMessages]; destructuring an undefined entry
    throws and leaves the loop *)
Fixpoint clear_loop (entries : list (string * option Entry)) (w : World)
    : World * option error :=
  match entries with
  | [] => (w, None)
  | (msgid, None) :: _ =>
      (w, Some (TypeError "Cannot destructure property 'timer' of 'obj'"))
  | (msgid, Some e) :: rest =>
      let w := clearTimeout (timer e) w in
      let w :=
        if negb (str_truthy (_initMsgId (self w)))
        then failure e (StringError (abandon_message msgid)) w else w in
      clear_loop rest w
  end.

Definition _clearPendingMessages (w : World) : World * option error :=
  match clear_loop (messagesInFlight (self w)) w with
  | (w, None) => (on_self (set_messagesInFlight []) w, None)
  | (w, Some e) => (w, Some e)
  end.

(** [close(code = WS_CLOSE_CODES.NormalClosure)]; an exception of the body is
    caught and logged *)
Definition close (code : option Z) (w : World) : World :=
  let w := on_self (set_closedGracefully true) w in
  let w :=
    match ws (self w) with
    | Some s =>
        on_self (set_ws None)
          (set_closes (closes w ++ [(s, Some (default 1000 code))]) w)
    | None => w
    end in
  fst (_clearPendingMessages w).

(** What a call of [request] gives back: the promise of the async function
    resolved with a value, a promise of the world that is still to settle, a
    rejection, the promise of [requestor.request(...)] on a requestor
    constructed for a handover, or a promise that nothing will settle. *)
Inductive Result :=
| Return (v : value)
| Pending (p : nat)
| Throw (e : error)
| Delegate (requestor : Constructed) (type : string) (hook : Hook)
    (params : value) (httpHeaders : headers)
| Stalled.

(** the [queueMsg] closure of [request] *)
Definition queueMsg (type : string) (hook : Hook) (params : value)
    (httpHeaders : headers) (w : World) : World * Result :=
  let wantsAck := negb (JsString.array_includes MTYPE_WANTS_ACK type) in
  if wantsAck then
    let '(p, w) := new_promise w in
    (on_self (fun r => set_queuedMsg
                (queuedMsg r ++ [mkQueued type hook params httpHeaders (Some p)]) r) w,
     Pending p)
  else
    (on_self (fun r => set_queuedMsg
                (queuedMsg r ++ [mkQueued type hook params httpHeaders None]) r) w,
     Return None).

(** [ws.send(JSON.stringify(obj), callback)] *)
Definition send (sock : nat) (f : Frame) (cb : SendCallback) (w : World) : World :=
  set_sendCallbacks (sendCallbacks w ++ [cb]) (set_wire (wire w ++ [(sock, f)]) w).

(** [{...payload}]: the own enumerable properties of the payload; an array
    or a string spreads into its indices *)
Definition spread (payload : option json) : json :=
  match payload with
  | Some (JObj fs) => JObj fs
  | Some (JArr items) => JObj (imap (fun i x => (pretty i, x)) items)
  | Some (JStr s) =>
      JObj (imap (fun i c => (pretty i, JStr (String c EmptyString)))
              (list_ascii_of_string s))
  | _ => JObj []
  end.

(** What opening a socket leads to: the [open] event, an [error] event, or
    an [unexpected-response] with a status code. *)
Inductive ConnOutcome :=
| ConnOpen
| ConnError (e : error)
| ConnUnexpected (statusCode : Z).

(** How the promise of [_connect()], or the connection loop, ends. *)
Inductive ConnectResult :=
| Proceed
| Failed (e : error)
| NeverSettles.

Section Model.
Variable snakeCase : string -> string.
Variable cfg : Config.
Variable _shouldRetry : error -> list string -> bool.
Variable short_generate : nat -> string.

(** [request], lines 73 to 127: up to the point where a connection is needed.
    [Some r] is the result when the call ends here; [None] means the call
    goes on, by connecting first when [this.ws] is unset. *)
Definition request_entry (w : World) (type : string) (hook : Hook)
    (params : value) (httpHeaders : headers) : World * option Result :=
  if negb (JsString.array_includes (HookMsgTypes cfg) type) then
    (w, Some (Throw (AssertionError "HookMsgTypes.includes(type)")))
  else if maliciousClient (self w) then (w, Some (Return None))
  else if closedGracefully (self w) then (w, Some (Return None))
  else
    let step1 : World + error :=
      if String.eqb type "session:new" then
        match params with
        | None | Some JNull =>
            inr (TypeError "Cannot read properties of undefined (reading 'callSid')")
        | Some p => inl (on_self (set_call_sid (Js.get "callSid" p)) w)
        end
      else inl w in
    match step1 with
    | inr e => (w, Some (Throw e))
    | inl w =>
        let w :=
          if String.eqb type "session:reconnect" then
            let '(p, w) := new_promise w in
            on_self (set_reconnectPromise (Some p)) w
          else w in
        match hook_url hook with
        | None => (w, Some (Throw (TypeError "url is not a string")))
        | Some url =>
            if BaseRequestor._isAbsoluteUrl url && JsString.startsWith url "http"
            then
              let h := hook_as_object hook in
              let requestor :=
                mkConstructed Http (account_sid (self w)) h (secret (self w)) in
              let w :=
                if String.eqb type "session:redirect"
                then emit (Handover requestor) (close None w) else w in
              (w, Some (Delegate requestor type hook params httpHeaders))
            else
              match ws (self w) with
              | None =>
                  if connectInProgress (self w) then
                    let '(w, r) := queueMsg type hook params httpHeaders w in
                    (w, Some r)
                  else (on_self (set_connectInProgress true) w, None)
              | Some _ => (w, None)
              end
        end
    end.

(** [request], lines 182 to 314: what follows the connection. *)
Definition request_send (w : World) (type : string) (hook : Hook)
    (params : value) (httpHeaders : headers) : World * Result :=
  let wantsAck := negb (JsString.array_includes MTYPE_WANTS_ACK type) in
  if negb (String.eqb type "session:reconnect")
     && bool_decide (is_Some (_reconnectPromise (self w)))
  then queueMsg type hook params httpHeaders w
  else
    match ws (self w), hook_url hook with
    | None, _ => (w, Throw (AssertionError "this.ws"))
    | Some _, None => (w, Throw (TypeError "url is not a string"))
    | Some sock, Some url =>
        let payload := payload_of snakeCase params in
        let w :=
          if String.eqb type "session:new" || String.eqb type "session:adulting"
          then on_self (set_sessionData (Some payload)) w else w in
        let payload :=
          if String.eqb type "session:reconnect"
          then _sessionData (self w) else Some payload in
        if String.eqb url "" then
          (w, Throw (AssertionError "WsRequestor:request url was not provided"))
        else
          let msgid := short_generate (uuids w) in
          let w := set_uuids (S (uuids w)) w in
          let w :=
            if String.eqb type "session:new"
            then on_self (set_initMsgId (Some msgid)) w else w in
          let b3 :=
            match header "b3" httpHeaders with
            | Some v => if String.eqb v "" then None else Some v
            | None => None
            end in
          let obj :=
            mkFrame type msgid (call_sid (self w))
              (if JsString.array_includes HOOK_FIELD_TYPES type
               then Some url else None)
              (spread payload) b3 in
          let reconnectingWithoutAck :=
            String.eqb type "session:reconnect"
            && str_truthy (_initMsgId (self w)) in
          let w :=
            if reconnectingWithoutAck then
              let old := default "" (_initMsgId (self w)) in
              let obj := inflight old (self w) in
              on_self (fun r =>
                set_initMsgId (Some msgid)
                  (set_messagesInFlight
                     (JsMap.set msgid obj (JsMap.delete old (messagesInFlight r)))
                     r)) w
            else w in
          if negb wantsAck || reconnectingWithoutAck then
            (send sock obj (AfterNotification msgid) w, Return None)
          else
            let '(p, w) := new_promise w in
            let '(tid, w) :=
              setTimeout (AckTimeout msgid (RESPONSE_TIMEOUT_MS cfg)) w in
            let w :=
              on_self (fun r =>
                set_messagesInFlight
                  (JsMap.set msgid (Some (mkEntry tid p)) (messagesInFlight r)) r) w in
            (send sock obj (AfterAckedSend msgid) w, Pending p)
    end.

(** the call [this.request('session:reconnect', this.url)] of the [ready]
    handler; [this.ws] has just been assigned, so the call does not connect *)
Definition reconnect_request (w : World) : World :=
  let hook := HookString (url (self w)) in
  match request_entry w "session:reconnect" hook None [] with
  | (w, Some _) => w
  | (w, None) => fst (request_send w "session:reconnect" hook None [])
  end.

(** [_onOpen(ws)], with the [ready] handler that [_connect] registered *)
Definition _onOpen (sock : nat) (w : World) : World :=
  let w :=
    on_self (fun r =>
      set_connections (S (connections r))
        (set_connectInProgress false (set_ws (Some sock) r))) w in
  let w := emit (Ready sock) w in
  if (1 <? connections (self w))%nat then reconnect_request w else w.

(** [_onError(err)]; the promise of [_connect] is rejected when [not-ready]
    is emitted, and stays pending otherwise *)
Definition _onError (err : error) (w : World) : World * ConnectResult :=
  if connectInProgress (self w) then (emit (NotReady err) w, Failed err)
  else if (connections (self w) =? 0)%nat then (emit (NotReady err) w, Failed err)
  else (w, NeverSettles).

(** [_onUnexpectedResponse(ws, req, res)] *)
Definition _onUnexpectedResponse (statusCode : Z) (w : World)
    : World * ConnectResult :=
  let w := emit ConnectionFailure w in
  let w := on_self (set_connectInProgress false) w in
  (emit (NotReady (HandshakeError statusCode)) w, Failed (HandshakeError statusCode)).

(** [_connect()], together with the event the new socket answers with *)
Definition _connect (o : ConnOutcome) (w : World) : World * ConnectResult :=
  match ws (self w) with
  | Some _ => (w, Failed (AssertionError "!this.ws"))
  | None =>
      let sock := nextSocket w in
      let w := set_nextSocket (S sock) w in
      match o with
      | ConnOpen => (_onOpen sock w, Proceed)
      | ConnError e => _onError e w
      | ConnUnexpected c => _onUnexpectedResponse c w
      end
  end.

(** The [while (retryCount <= this.maxReconnects)] loop of [request]. *)
Fixpoint connect_loop (fuel : nat) (w : World) (conn : nat -> ConnOutcome)
    (retryCount : nat) : option (World * ConnectResult) :=
  match fuel with
  | O => None
  | S fuel' =>
      if JsNumber.leb (Num (Z.of_nat retryCount)) (maxReconnects (self w)) then
        let w := on_self (set_ws None) w in
        match _connect (conn retryCount) w with
        | (w, Failed e) =>
            let retryCount' := S retryCount in
            if JsNumber.leb (Num (Z.of_nat retryCount')) (maxReconnects (self w))
               && (0 <? length (retryPolicyValues (self w)))%nat
               && _shouldRetry e (retryPolicyValues (self w))
            then
              let delay := backoffMs (self w) in
              let w := on_self (set_backoffMs (Retry.next_backoff delay)) w in
              let w := set_sleeps (sleeps w ++ [delay]) w in
              connect_loop fuel' w conn retryCount'
            else Some (w, Failed e)
        | (w, r) => Some (w, r)
        end
      else Some (w, Proceed)
  end.

(** [request(type, hook, params, httpHeaders, span)]; [conn] tells what each
    connection attempt leads to *)
Definition request (w : World) (type : string) (hook : Hook) (params : value)
    (httpHeaders : headers) (conn : nat -> ConnOutcome) : option (World * Result) :=
  match request_entry w type hook params httpHeaders with
  | (w, Some r) => Some (w, r)
  | (w, None) =>
      match ws (self w) with
      | Some _ => Some (request_send w type hook params httpHeaders)
      | None =>
          match connect_loop (Retry.loop_bound (maxReconnects (self w))) w conn 0 with
          | None => None
          | Some (w, Proceed) => Some (request_send w type hook params httpHeaders)
          | Some (w, Failed e) =>
              Some (on_self (set_connectInProgress false) w, Throw e)
          | Some (w, NeverSettles) => Some (w, Stalled)
          end
      end
  end.

(** [_recvAck(msgid, data)]; a [msgid] that is not a string is no key of the
    map *)
Definition _recvAck (msgid : value) (data : value) (w : World) : World :=
  let w := on_self (set_initMsgId None) w in
  match msgid with
  | Some (JStr k) =>
      match inflight k (self w) with
      | None => w
      | Some e =>
          let w :=
            on_self (fun r =>
              set_messagesInFlight (JsMap.delete k (messagesInFlight r)) r) w in
          success e data w
      end
  | _ => w
  end.

(** [_recvCommand(...)] *)
Definition _recvCommand (c : Command) (w : World) : World :=
  emit (CommandReceived c) w.

(** [this.isBinary]: the object has no property of that name, since none of
    its methods assigns one; the read yields undefined. *)
Definition this_isBinary (r : t) : value := None.

(** An inbound frame: its text and what [JSON.parse] makes of it ([None]
    when it throws). *)
Record Inbound := mkInbound {
  raw : string;
  parsed : option json
}.

(** The [try] block of [_onMessage] up to the dispatch: an ack, a command,
    or the message of the exception thrown. *)
Inductive Dispatch :=
| IsAck (msgid data : value)
| IsCommand (c : Command)
| Invalid (message : string).

Definition is_string (s : string) (v : value) : bool :=
  match v with
  | Some (JStr s') => String.eqb s s'
  | _ => false
  end.

Definition dispatch (r : t) (content : Inbound) : Dispatch :=
  match parsed content with
  | None => Invalid "Unexpected token in JSON"
  | Some JNull => Invalid "Cannot destructure property 'type' of 'obj' as it is null."
  | Some obj =>
      let type := Js.get "type" obj in
      let msgid := Js.get "msgid" obj in
      let command := Js.get "command" obj in
      let queueCommand :=
        match Js.get "queueCommand" obj with
        | None => Some (JBool false)
        | v => v
        end in
      let tool_call_id := Js.get "tool_call_id" obj in
      let data := Js.get "data" obj in
      let call_sid :=
        if Js.truthy (Js.get "callSid" obj) then Js.get "callSid" obj
        else call_sid r in
      if negb (Js.truthy type) then Invalid "type property not supplied"
      else if is_string "ack" type then
        if negb (Js.truthy msgid) then Invalid "msgid not supplied"
        else IsAck msgid data
      else if is_string "command" type then
        if negb (Js.truthy command) then Invalid "command property not supplied"
        else if negb (Js.truthy data
                      || match command with
                         | Some (JStr c) => JsString.array_includes MTYPE_NO_DATA c
                         | _ => false
                         end)
        then Invalid "data property not supplied"
        else IsCommand (mkCommand msgid command call_sid queueCommand tool_call_id data)
      else Invalid "invalid type property"
  end.

(** [_onMessage(content, isBinary)] *)
Definition _onMessage (content : Inbound) (isBinary : bool)
    (conn : nat -> ConnOutcome) (w : World) : option World :=
  if Js.truthy (this_isBinary (self w)) then
    let w := on_self (set_maliciousClient true) w in
    match ws (self w) with
    | Some s => Some (set_closes (closes w ++ [(s, None)]) w)
    | None => Some w
    end
  else
    match dispatch (self w) content with
    | IsAck msgid data => Some (_recvAck msgid data w)
    | IsCommand c => Some (_recvCommand c w)
    | Invalid message =>
        let params :=
          JObj [("msg", JStr "InvalidMessage"); ("details", JStr message);
                ("content", JStr (raw content))] in
        let w := set_alerts (alerts w ++ [message]) w in
        match request w "jambonz:error" (HookString "/error") (Some params) [] conn
        with
        | Some (w, _) => Some w
        | None => None
        end
    end.

(** [_scheduleReconnect(source)] *)
Definition _scheduleReconnect (w : World) : World :=
  let '(_, w) := setTimeout (Reconnect (backoffMs (self w))) w in
  on_self (fun r => set_backoffMs (Retry.next_backoff (backoffMs r)) r) w.

Definition lt_number (n : nat) (x : number) : bool :=
  match x with
  | Num z => Z.of_nat n <? z
  | NaN => false
  end.

(** [_onSocketClosed()], the listener of [socket-closed]; an exception of
    [_clearPendingMessages] leaves the handler *)
Definition _onSocketClosed (w : World) : World * option error :=
  let w := on_self (set_ws None) w in
  let w := emit ConnectionDropped w in
  if (0 <? connections (self w))%nat
     && lt_number (connections (self w)) (maxReconnects (self w))
     && negb (closedGracefully (self w))
  then
    let '(w, thrown) :=
      if negb (str_truthy (_initMsgId (self w)))
      then _clearPendingMessages w else (w, None) in
    match thrown with
    | Some e => (w, Some e)
    | None => (_scheduleReconnect w, None)
    end
  else (w, None).

(** [_onClose(code)] *)
Definition _onClose (code : Z) (w : World) : World :=
  if (0 <? connections (self w))%nat && negb (code =? 1000) then
    let w := emit SocketClosed w in
    match _onSocketClosed w with
    | (w, Some _) => w
    | (w, None) => on_self (set_ws None) w
    end
  else
    let w :=
      if code =? 1000 then on_self (set_closedGracefully true) w else w in
    on_self (set_ws None) w.

(** A timer reaches its delay.  A cleared timer is no longer in the table
    and nothing happens.  [o] is what the socket of a reconnection leads to. *)
Definition fire (id : nat) (o : ConnOutcome) (w : World) : World :=
  match timers w !! id with
  | None => w
  | Some cb =>
      let w := clearTimeout id w in
      match cb with
      | AckTimeout msgid _ =>
          let w :=
            match inflight msgid (self w) with
            | Some e => failure e (StringError (timeout_message msgid)) w
            | None => w
            end in
          on_self (fun r =>
            set_messagesInFlight (JsMap.delete msgid (messagesInFlight r)) r) w
      | Reconnect _ =>
          match ws (self w) with
          | None =>
              if connectInProgress (self w) then w
              else
                let w := on_self (set_connectInProgress true) w in
                match _connect o w with
                | (w, NeverSettles) => w
                | (w, _) => on_self (set_connectInProgress false) w
                end
          | Some _ => w
          end
      end
  end.

(** What can happen to a requestor: a call of [request] or [close] by the
    owner, a frame or a close from the socket, a timer reaching its delay. *)
Inductive Action :=
| CallRequest (type : string) (hook : Hook) (params : value)
    (httpHeaders : headers) (conn : nat -> ConnOutcome)
| CallClose (code : option Z)
| OnMessage (content : Inbound) (isBinary : bool) (conn : nat -> ConnOutcome)
| OnClose (code : Z)
| TimerFires (id : nat) (o : ConnOutcome).

Definition step (w : World) (a : Action) : option World :=
  match a with
  | CallRequest type hook params httpHeaders conn =>
      match request w type hook params httpHeaders conn with
      | Some (w, _) => Some w
      | None => None
      end
  | CallClose code => Some (close code w)
  | OnMessage content isBinary conn => _onMessage content isBinary conn w
  | OnClose code => Some (_onClose code w)
  | TimerFires id o => Some (fire id o w)
  end.

Fixpoint run (w : World) (acts : list Action) : option World :=
  match acts with
  | [] => Some w
  | a :: acts' =>
      match step w a with
      | Some w' => run w' acts'
      | None => None
      end
  end.

End Model.

(** [new WsRequestor(logger, account_sid, hook, secret)]; [fragment] reads
    the options of the URL fragment *)
Definition constructor (cfg : Config) (fragment : string -> HashParams)
    (account_sid : string) (hook : Hook) (secret : option string) : error + t :=
  match hook_url hook with
  | None => inl (TypeError "hook has no url")
  | Some u =>
      if negb (BaseRequestor._isAbsoluteUrl u) then
        inl (AssertionError "_isAbsoluteUrl(this.url)")
      else
        let hashObj := fragment u in
        inr (mk account_sid secret u 0 [] false false 500 false []
               (Retry.maxReconnects cfg hashObj) (Retry.retryPolicyValues hashObj)
               None None None None None)
  end.

Definition initial (r : t) : World :=
  mkWorld r ∅ 0 ∅ 0 0 0 [] [] [] [] [] [].

End WsRequestor.
(** * The connection pool manager

    A shallow embedding of [lib/utils/connection-pool-manager.js].  The
    manager keeps two [Map]s keyed by base URL, the pools and their usage
    statistics.  A pool of undici is a record with the number of its creation;
    closing it is recorded in the world.  [Date.now()] reads a clock given as
    the sequence of its successive values. *)

Module ConnectionPoolManager.

(** Modelled from the spec: [HTTP_POOLSIZE] and [HTTP_PIPELINING] of
    [../config], which is not among the sources; each is a number or
    undefined. *)
Record PoolConfig := mkPoolConfig {
  HTTP_POOLSIZE : option number;
  HTTP_PIPELINING : option number
}.

(** The [options] of the constructor; each is a number or undefined. *)
Record Options := mkOptions {
  o_maxConnections : option number;
  o_pipelining : option number;
  o_keepAliveTimeout : option number;
  o_idleTimeout : option number;
  o_cleanupInterval : option number
}.

(** [{}], the default of [options] *)
Definition no_options : Options := mkOptions None None None None None.

(** [a || d] where [a] is a number or undefined and [d] a number other
    than 0 and NaN: the result is such a number as well *)
Definition or_default (a : option number) (d : Z) : Z :=
  match a with
  | Some (Num z) => if z =? 0 then d else z
  | _ => d
  end.

(** [new Pool(baseUrl, {connections, pipelining, keepAliveTimeout, ...})] *)
Record Pool := mkPool {
  pool_id : nat;
  pool_origin : string;
  pool_connections : Z;
  pool_pipelining : Z;
  pool_keepAliveTimeout : Z
}.

(** A value of [poolStats]. *)
Record PoolStats := mkPoolStats {
  created : Z;
  lastUsed : Z;
  requestCount : nat
}.

(** The fields of the object. *)
Record t := mk {
  pools : JsMap.t Pool;
  maxConnections : Z;
  pipelining : Z;
  keepAliveTimeout : Z;
  idleTimeout : Z;
  cleanupInterval : Z;
  cleanupTimer : option nat;
  poolStats : JsMap.t PoolStats
}.

(** What is outside the object: how often the clock was read, the pools
    created and closed so far, and the intervals that are armed, each with its
    period. *)
Record Env := mkEnv {
  reads : nat;
  nextPool : nat;
  closed : list nat;
  intervals : list (nat * Z);
  nextTimer : nat
}.

Record World := mkWorld {
  self : t;
  env : Env
}.

Definition set_pools (v : JsMap.t Pool) (r : t) : t :=
  mk v (maxConnections r) (pipelining r) (keepAliveTimeout r) (idleTimeout r)
    (cleanupInterval r) (cleanupTimer r) (poolStats r).
Definition set_poolStats (v : JsMap.t PoolStats) (r : t) : t :=
  mk (pools r) (maxConnections r) (pipelining r) (keepAliveTimeout r)
    (idleTimeout r) (cleanupInterval r) (cleanupTimer r) v.
Definition set_cleanupTimer (v : option nat) (r : t) : t :=
  mk (pools r) (maxConnections r) (pipelining r) (keepAliveTimeout r)
    (idleTimeout r) (cleanupInterval r) v (poolStats r).

Definition set_reads (v : nat) (e : Env) : Env :=
  mkEnv v (nextPool e) (closed e) (intervals e) (nextTimer e).
Definition set_nextPool (v : nat) (e : Env) : Env :=
  mkEnv (reads e) v (closed e) (intervals e) (nextTimer e).
Definition set_closed (v : list nat) (e : Env) : Env :=
  mkEnv (reads e) (nextPool e) v (intervals e) (nextTimer e).
Definition set_intervals (v : list (nat * Z)) (e : Env) : Env :=
  mkEnv (reads e) (nextPool e) (closed e) v (nextTimer e).
Definition set_nextTimer (v : nat) (e : Env) : Env :=
  mkEnv (reads e) (nextPool e) (closed e) (intervals e) v.

Definition on_self (f : t -> t) (w : World) : World := mkWorld (f (self w)) (env w).
Definition on_env (f : Env -> Env) (w : World) : World := mkWorld (self w) (f (env w)).

Section Model.
Variable cfg : PoolConfig.
(** the successive values of [Date.now()] *)
Variable clock : nat -> Z.

(** [Date.now()] *)
Definition Date_now (w : World) : Z * World :=
  (clock (reads (env w)), on_env (set_reads (S (reads (env w)))) w).

(** [pool.close()] *)
Definition pool_close (p : Pool) (w : World) : World :=
  on_env (fun e => set_closed (closed e ++ [pool_id p]) e) w.

(** [new ConnectionPoolManager(options)] in the environment [e] *)
Definition constructor (options : Options) (e : Env) : World :=
  let cleanupInterval := or_default (o_cleanupInterval options) 60000 in
  let r :=
    mk []
       (or_default (o_maxConnections options) (or_default (HTTP_POOLSIZE cfg) 10))
       (or_default (o_pipelining options) (or_default (HTTP_PIPELINING cfg) 1))
       (or_default (o_keepAliveTimeout options) 30000)
       (or_default (o_idleTimeout options) 300000)
       cleanupInterval
       (Some (nextTimer e))
       [] in
  mkWorld r
    (set_nextTimer (S (nextTimer e))
       (set_intervals (intervals e ++ [(nextTimer e, cleanupInterval)]) e)).

(** [createPool(baseUrl)]; the two handlers it registers on the pool only
    write to the console *)
Definition createPool (baseUrl : string) (w : World) : World :=
  let pool :=
    mkPool (nextPool (env w)) baseUrl (maxConnections (self w))
      (pipelining (self w)) (keepAliveTimeout (self w)) in
  let w := on_env (fun e => set_nextPool (S (nextPool e)) e) w in
  let w := on_self (fun r => set_pools (JsMap.set baseUrl pool (pools r)) r) w in
  let '(c, w) := Date_now w in
  let '(l, w) := Date_now w in
  on_self (fun r =>
    set_poolStats (JsMap.set baseUrl (mkPoolStats c l 0) (poolStats r)) r) w.

(** [getPool(baseUrl)]: the pool, or undefined *)
Definition getPool (baseUrl : string) (w : World) : option Pool * World :=
  let w := if negb (JsMap.has baseUrl (pools (self w)))
           then createPool baseUrl w else w in
  let '(stats, w) :=
    match JsMap.get baseUrl (poolStats (self w)) with
    | Some s => (s, w)
    | None =>
        let '(c, w) := Date_now w in
        let '(l, w) := Date_now w in
        (mkPoolStats c l 0, w)
    end in
  let '(now, w) := Date_now w in
  let stats := mkPoolStats (created stats) now (S (requestCount stats)) in
  let w := on_self (fun r =>
             set_poolStats (JsMap.set baseUrl stats (poolStats r)) r) w in
  (JsMap.get baseUrl (pools (self w)), w).

(** [destroyPool(baseUrl)] *)
Definition destroyPool (baseUrl : string) (w : World) : World :=
  match JsMap.get baseUrl (pools (self w)) with
  | Some pool =>
      let w := pool_close pool w in
      let w := on_self (fun r => set_pools (JsMap.delete baseUrl (pools r)) r) w in
      on_self (fun r => set_poolStats (JsMap.delete baseUrl (poolStats r)) r) w
  | None => w
  end.

(** The loop of [cleanup] over the entries of [poolStats].  The loop
    deletes no key but the one it is at, so the iteration over the [Map]
    visits the entries the [Map] had when the loop began. *)
Fixpoint cleanup_loop (entries : list (string * PoolStats)) (idleThreshold : Z)
    (w : World) : World :=
  match entries with
  | [] => w
  | (baseUrl, stats) :: rest =>
      let w := if lastUsed stats <? idleThreshold
               then destroyPool baseUrl w else w in
      cleanup_loop rest idleThreshold w
  end.

(** [cleanup()] *)
Definition cleanup (w : World) : World :=
  let '(now, w) := Date_now w in
  let idleThreshold := now - idleTimeout (self w) in
  cleanup_loop (poolStats (self w)) idleThreshold w.

(** An entry of the [pools] object that [getStats] returns. *)
Record Report := mkReport {
  r_created : Z;
  r_lastUsed : Z;
  r_requestCount : nat;
  r_age : Z;
  r_idle : Z
}.

Fixpoint getStats_loop (entries : list (string * PoolStats)) (w : World)
    : list (string * Report) * World :=
  match entries with
  | [] => ([], w)
  | (baseUrl, s) :: rest =>
      let '(n1, w) := Date_now w in
      let '(n2, w) := Date_now w in
      let '(reports, w) := getStats_loop rest w in
      ((baseUrl,
        mkReport (created s) (lastUsed s) (requestCount s)
          (n1 - created s) (n2 - lastUsed s)) :: reports, w)
  end.

(** [getStats()]: [totalPools] and the entries of [pools] *)
Definition getStats (w : World) : (nat * list (string * Report)) * World :=
  let total := length (pools (self w)) in
  let '(reports, w) := getStats_loop (poolStats (self w)) w in
  ((total, reports), w).

(** [clearInterval(id)] *)
Definition clearInterval (id : nat) (w : World) : World :=
  on_env (fun e =>
    set_intervals (List.filter (fun iv => negb (Nat.eqb (fst iv) id)) (intervals e)) e) w.

(** [destroy()] *)
Definition destroy (w : World) : World :=
  let w :=
    match cleanupTimer (self w) with
    | Some id => on_self (set_cleanupTimer None) (clearInterval id w)
    | None => w
    end in
  let w := fold_left (fun w kv => pool_close (snd kv) w) (pools (self w)) w in
  on_self (fun r => set_poolStats [] (set_pools [] r)) w.

(** The interval [id] reaches its period: the callback of the constructor
    runs [cleanup], provided the interval is still armed. *)
Definition interval_fires (id : nat) (w : World) : World :=
  if existsb (fun iv => Nat.eqb (fst iv) id) (intervals (env w))
     && match cleanupTimer (self w) with
        | Some id' => Nat.eqb id id'
        | None => false
        end
  then cleanup w else w.

(** What can be done with a manager. *)
Inductive Action :=
| GetPool (baseUrl : string)
| CreatePool (baseUrl : string)
| Cleanup
| DestroyPool (baseUrl : string)
| GetStats
| Destroy
| IntervalFires (id : nat).

Definition step (w : World) (a : Action) : World :=
  match a with
  | GetPool b => snd (getPool b w)
  | CreatePool b => createPool b w
  | Cleanup => cleanup w
  | DestroyPool b => destroyPool b w
  | GetStats => snd (getStats w)
  | Destroy => destroy w
  | IntervalFires id => interval_fires id w
  end.

Definition run (w : World) (acts : list Action) : World := fold_left step acts w.

(** The module: its variable [instance] and the environment. *)
Record Module := mkModule {
  instance : option t;
  menv : Env
}.

(** [getConnectionPoolManager(options)]: the module afterwards; its
    [instance] is the manager returned *)
Definition getConnectionPoolManager (options : Options) (m : Module) : Module :=
  match instance m with
  | Some _ => m
  | None =>
      let w := constructor options (menv m) in
      mkModule (Some (self w)) (env w)
  end.

(** a method called on the instance of the module *)
Definition on_instance (f : World -> World) (m : Module) : Module :=
  match instance m with
  | Some r =>
      let w := f (mkWorld r (menv m)) in
      mkModule (Some (self w)) (env w)
  | None => m
  end.

End Model.

(** the environment before anything has happened *)
Definition fresh : Env := mkEnv 0 0 [] [] 0.

End ConnectionPoolManager.

(** * The task loader

    A shallow embedding of the class [TaskLoader] (the second module of
    [lib/utils/http-requestor-optimized.js] as staged).  The file system and
    [require] are given as sequences: what the k-th [readdir] yields, and what
    the k-th [require] makes of a path.  An [async] method is cut at its
    [await]s: each piece runs without interruption, and pieces of different
    calls may alternate. *)

Module TaskLoader.

(** [s.endsWith(suffix)] *)
Fixpoint endsWith (s suffix : string) : bool :=
  String.eqb s suffix ||
  match s with
  | String _ s' => endsWith s' suffix
  | EmptyString => false
  end.

(** [s.slice(0, -n)] for a positive [n] *)
Definition slice_end (n : nat) (s : string) : string :=
  String.substring 0 (String.length s - n) s.

(** What is thrown or rejected with: [new Error(message)], or whatever the
    file system or [require] threw. *)
Inductive failure :=
| Error (message : string)
| Thrown (what : string).

(** The literal [taskNameMappings]. *)
Definition taskNameMappings : list (string * string) :=
  [("sip_decline", "sip:decline"); ("sip_refer", "sip:refer");
   ("sip_request", "sip:request"); ("rest_dial", "rest:dial");
   ("say-legacy", "say:legacy"); ("stt-task", "stt"); ("tts-task", "tts")].

(** The properties an object literal inherits from [Object.prototype]:
    reading one of them from [taskNameMappings] yields a function (for
    [__proto__] the prototype itself), which is truthy. *)
Definition OBJECT_PROTOTYPE : list string :=
  ["constructor"; "__defineGetter__"; "__defineSetter__"; "hasOwnProperty";
   "__lookupGetter__"; "__lookupSetter__"; "isPrototypeOf";
   "propertyIsEnumerable"; "toString"; "valueOf"; "__proto__"; "toLocaleString"].

(** A task name as [getTaskNameFromFile] gives it: a string, or the value of
    an inherited property. *)
Inductive TaskName :=
| Name (s : string)
| Inherited (property : string).

Definition TaskName_eqb (a b : TaskName) : bool :=
  match a, b with
  | Name s, Name s' => String.eqb s s'
  | Inherited p, Inherited p' => String.eqb p p'
  | _, _ => false
  end.

(** truthiness of a task name *)
Definition truthy (n : TaskName) : bool :=
  match n with
  | Name s => negb (String.eqb s "")
  | Inherited _ => true
  end.

(** [taskNameMappings[baseName]] *)
Definition mapping (baseName : string) : option TaskName :=
  match JsMap.get baseName taskNameMappings with
  | Some n => Some (Name n)
  | None =>
      if JsString.array_includes OBJECT_PROTOTYPE baseName
      then Some (Inherited baseName) else None
  end.

(** [getTaskNameFromFile(fileName)]; [None] is [null] *)
Definition getTaskNameFromFile (fileName : string) : option TaskName :=
  if negb (endsWith fileName ".js") then None
  else
    let baseName := slice_end 3 fileName in
    match mapping baseName with
    | Some n => Some n
    | None => Some (Name baseName)
    end.

(** The filter of [scanTaskDirectory]. *)
Definition is_task_file (file : string) : bool :=
  endsWith file ".js" && negb (JsString.startsWith file ".")
  && negb (String.eqb file "make_task.js") && negb (String.eqb file "task.js").

(** A [Map] whose keys are task names: insertion-ordered, one binding per
    key. *)
Definition NameMap := list (TaskName * string).

Fixpoint name_get (k : TaskName) (m : NameMap) : option string :=
  match m with
  | [] => None
  | (k', v) :: m' => if TaskName_eqb k k' then Some v else name_get k m'
  end.

Fixpoint name_delete (k : TaskName) (m : NameMap) : NameMap :=
  match m with
  | [] => []
  | (k', v) :: m' =>
      if TaskName_eqb k k' then name_delete k m' else (k', v) :: name_delete k m'
  end.

Fixpoint name_set (k : TaskName) (v : string) (m : NameMap) : NameMap :=
  match m with
  | [] => [(k, v)]
  | (k', v') :: m' =>
      if TaskName_eqb k k' then (k, v) :: name_delete k m'
      else (k', v') :: name_set k v m'
  end.

(** What [require(path)] does: it throws, or gives the exports of the
    module, a function (identified by a number) or something else. *)
Inductive Required :=
| Throws (e : failure)
| Exports (f : option nat).

(** The fields of the object.  A loaded task module is the number of its
    function; a loading promise is the number of the promise. *)
Record t := mk {
  taskCache : JsMap.t nat;
  taskMap : NameMap;
  loadingPromises : JsMap.t nat;
  initialized : bool
}.

(** The object, the promises of [loadTaskModule] (each settled when it is
    created), and what was asked of the outside: the number of [readdir]s and
    the paths given to [require], in order. *)
Record World := mkWorld {
  self : t;
  promises : list (failure + nat);
  scans : nat;
  required : list string
}.

Definition on_self (f : t -> t) (w : World) : World :=
  mkWorld (f (self w)) (promises w) (scans w) (required w).

Definition set_taskCache (v : JsMap.t nat) (r : t) : t :=
  mk v (taskMap r) (loadingPromises r) (initialized r).
Definition set_taskMap (v : NameMap) (r : t) : t :=
  mk (taskCache r) v (loadingPromises r) (initialized r).
Definition set_loadingPromises (v : JsMap.t nat) (r : t) : t :=
  mk (taskCache r) (taskMap r) v (initialized r).
Definition set_initialized (v : bool) (r : t) : t :=
  mk (taskCache r) (taskMap r) (loadingPromises r) v.

(** [new TaskLoader()] *)
Definition constructor : World := mkWorld (mk [] [] [] false) [] 0 [].

Section Model.
(** [path.join(this.taskDirectory, file)] *)
Variable task_path : string -> string.
(** what the k-th [readdir] of the task directory yields *)
Variable readdir : nat -> failure + list string.
(** what the k-th [require] makes of a path *)
Variable require_ : nat -> string -> Required.

(** The loop of [initialize] over the files of the scan. *)
Fixpoint register (files : list string) (m : NameMap) : NameMap :=
  match files with
  | [] => m
  | file :: rest =>
      let m :=
        match getTaskNameFromFile file with
        | Some taskName =>
            if truthy taskName then name_set taskName (task_path file) m else m
        | None => m
        end in
      register rest m
  end.

(** [initialize()] after its [await]: the scan has given [scan] *)
Definition initialize_finish (scan : failure + list string) (w : World)
    : World * option failure :=
  match scan with
  | inl e => (w, Some e)
  | inr files =>
      let taskFiles := List.filter is_task_file files in
      (on_self (fun r =>
         set_initialized true (set_taskMap (register taskFiles (taskMap r)) r)) w,
       None)
  end.

(** [readdir] is called *)
Definition scan (w : World) : (failure + list string) * World :=
  (readdir (scans w),
   mkWorld (self w) (promises w) (S (scans w)) (required w)).

(** [await this.initialize()], the scan completing before anything else
    happens *)
Definition initialize (w : World) : World * option failure :=
  if initialized (self w) then (w, None)
  else let '(s, w) := scan w in initialize_finish s w.

(** [`Invalid task module: ${taskName}`] *)
Definition invalid_message (taskName : string) : string :=
  "Invalid task module: " +:+ taskName.

(** [`Task '${taskName}' not found`] *)
Definition not_found_message (taskName : string) : string :=
  "Task '" +:+ taskName +:+ "' not found".

(** [loadTaskModule(taskPath, taskName)]: the function has no [await], so
    the promise it returns is settled; the result is its number *)
Definition loadTaskModule (taskPath taskName : string) (w : World) : nat * World :=
  let outcome :=
    match require_ (length (required w)) taskPath with
    | Throws e => inl e
    | Exports (Some f) => inr f
    | Exports None => inl (Error (invalid_message taskName))
    end in
  (length (promises w),
   mkWorld (self w) (promises w ++ [outcome]) (scans w) (required w ++ [taskPath])).

(** How the part of [loadTask] before [await loadingPromise] ends. *)
Inductive Begun :=
| Cached (f : nat)
| Joined (p : nat)
| NotFound
| Loading (p : nat).

(** [loadTask(taskName)] on an initialized loader, up to
    [await loadingPromise] *)
Definition loadTask_begin (taskName : string) (w : World) : Begun * World :=
  match JsMap.get taskName (taskCache (self w)) with
  | Some f => (Cached f, w)
  | None =>
      match JsMap.get taskName (loadingPromises (self w)) with
      | Some p => (Joined p, w)
      | None =>
          match name_get (Name taskName) (taskMap (self w)) with
          | None => (NotFound, w)
          | Some taskPath =>
              if String.eqb taskPath "" then (NotFound, w)
              else
                let '(p, w) := loadTaskModule taskPath taskName w in
                (Loading p,
                 on_self (fun r =>
                   set_loadingPromises
                     (JsMap.set taskName p (loadingPromises r)) r) w)
          end
      end
  end.

(** the settlement of a promise of [loadTaskModule] *)
Definition settlement (p : nat) (w : World) : failure + nat :=
  nth p (promises w) (inl (Thrown "no such promise")).

(** [loadTask(taskName)] from [await loadingPromise] on: the [try] block
    and its [finally] *)
Definition loadTask_finish (taskName : string) (p : nat) (w : World)
    : (failure + nat) * World :=
  let w' :=
    match settlement p w with
    | inr f => on_self (fun r => set_taskCache (JsMap.set taskName f (taskCache r)) r) w
    | inl _ => w
    end in
  (settlement p w,
   on_self (fun r =>
     set_loadingPromises (JsMap.delete taskName (loadingPromises r)) r) w').

(** [await loader.loadTask(taskName)] with nothing else going on: the
    pieces of the call one after the other *)
Definition loadTask (taskName : string) (w : World) : (failure + nat) * World :=
  match initialize w with
  | (w, Some e) => (inl e, w)
  | (w, None) =>
      match loadTask_begin taskName w with
      | (Cached f, w) => (inr f, w)
      | (Joined p, w) => (settlement p w, w)
      | (NotFound, w) => (inl (Error (not_found_message taskName)), w)
      | (Loading p, w) => loadTask_finish taskName p w
      end
  end.

(** [getAvailableTaskNames()] *)
Definition getAvailableTaskNames (w : World) : failure + list TaskName :=
  if initialized (self w) then inr (map fst (taskMap (self w)))
  else inl (Error "Task loader not initialized").

(** [hasTask(taskName)] *)
Definition hasTask (taskName : string) (w : World) : bool :=
  if initialized (self w)
  then match name_get (Name taskName) (taskMap (self w)) with
       | Some _ => true
       | None => false
       end
  else false.

(** [clearCache(taskName)]: an absent or empty name clears the cache *)
Definition clearCache (taskName : option string) (w : World) : World :=
  match taskName with
  | Some n =>
      if String.eqb n ""
      then on_self (set_taskCache []) w
      else on_self (fun r => set_taskCache (JsMap.delete n (taskCache r)) r) w
  | None => on_self (set_taskCache []) w
  end.

(** The counters of [getStats()]: [totalTasks], [cachedTasks],
    [loadingTasks], [initialized]. *)
Definition getStats (w : World) : nat * nat * nat * bool :=
  (length (taskMap (self w)), length (taskCache (self w)),
   length (loadingPromises (self w)), initialized (self w)).

(** The calls [loadTask] of [loadTasks] and [preloadTasks] on an
    initialized loader: [map] starts them in order, each running to its
    [await]. *)
Fixpoint begin_all (taskNames : list string) (w : World)
    : list (string * Begun) * World :=
  match taskNames with
  | [] => ([], w)
  | n :: rest =>
      let '(b, w) := loadTask_begin n w in
      let '(bs, w) := begin_all rest w in
      ((n, b) :: bs, w)
  end.

(** One piece of a call of [loadTask] on an initialized loader: the part up
    to its [await], or the part after it for the promise it awaited. *)
Inductive Piece :=
| Begin (taskName : string)
| Finish (taskName : string) (p : nat).

Definition piece (w : World) (c : Piece) : World :=
  match c with
  | Begin n => snd (loadTask_begin n w)
  | Finish n p => snd (loadTask_finish n p w)
  end.

(** pieces of calls, run in the order given *)
Definition pieces (w : World) (cs : list Piece) : World := fold_left piece cs w.

(** Their continuations, in the same order; the result of each call. *)
Fixpoint finish_all (begun : list (string * Begun)) (w : World)
    : list (string * (failure + nat)) * World :=
  match begun with
  | [] => ([], w)
  | (n, b) :: rest =>
      let '(r, w) :=
        match b with
        | Cached f => (inr f, w)
        | Joined p => (settlement p w, w)
        | NotFound => (inl (Error (not_found_message n)), w)
        | Loading p => loadTask_finish n p w
        end in
      let '(rs, w) := finish_all rest w in
      ((n, r) :: rs, w)
  end.

(** The object [loadedTasks] that [loadTasks] builds from the results, as
    the [Map] of its own properties.  An assignment to [__proto__] makes the
    module the prototype of the object and adds no property. *)
Fixpoint loaded_tasks (results : list (string * (failure + nat))) (acc : JsMap.t nat)
    : JsMap.t nat :=
  match results with
  | [] => acc
  | (n, inr f) :: rest =>
      loaded_tasks rest (if String.eqb n "__proto__" then acc else JsMap.set n f acc)
  | (n, inl _) :: rest => loaded_tasks rest acc
  end.

(** [await loader.loadTasks(taskNames)] on an initialized loader, with
    nothing else going on *)
Definition loadTasks (taskNames : list string) (w : World) : JsMap.t nat * World :=
  let '(begun, w) := begin_all taskNames w in
  let '(results, w) := finish_all begun w in
  (loaded_tasks results [], w).

(** What can be done with a loader, each call awaited before the next. *)
Inductive Action :=
| Initialize
| LoadTask (taskName : string)
| ClearCache (taskName : option string).

Definition step (w : World) (a : Action) : World :=
  match a with
  | Initialize => fst (initialize w)
  | LoadTask n => snd (loadTask n w)
  | ClearCache n => clearCache n w
  end.

Definition run (w : World) (acts : list Action) : World := fold_left step acts w.

End Model.

End TaskLoader.

(** * The event manager

    A shallow embedding of the class [EventManager] of
    [lib/utils/event-manager.js]: the books it keeps beside the
    [EventEmitter] it extends.  The calls of the base class are recorded in
    the order they are made; they act on the emitter's own table, which the
    class does not read.  Listeners registered through the inherited [on],
    which the class does not override, never reach the books and are not part
    of the model.

    The constructor assigns the fields [listeners] and [listenerCount],
    which hide the methods of these names: [listenerCount(event)] cannot be
    called on an instance, and has no counterpart here. *)

Module EventManager.

(** A function: one the caller has, or one the class makes.
    [listener.bind(context)] and the [onceListener] closure are new functions
    at every call, told apart by a serial number. *)
Inductive Fn :=
| Given (id : nat)
| Bound (serial : nat) (target : Fn)
| OnceListener (serial : nat) (event : string) (target : Fn).

Fixpoint Fn_eqb (a b : Fn) : bool :=
  match a, b with
  | Given i, Given j => Nat.eqb i j
  | Bound s t, Bound s' t' => Nat.eqb s s' && Fn_eqb t t'
  | OnceListener s e t, OnceListener s' e' t' =>
      Nat.eqb s s' && String.eqb e e' && Fn_eqb t t'
  | _, _ => false
  end.

(** A [Set] of functions, in insertion order. *)
Definition FnSet := list Fn.

Fixpoint set_has (f : Fn) (s : FnSet) : bool :=
  match s with
  | [] => false
  | g :: s' => Fn_eqb f g || set_has f s'
  end.

Definition set_add (f : Fn) (s : FnSet) : FnSet :=
  if set_has f s then s else s ++ [f].

Fixpoint set_delete (f : Fn) (s : FnSet) : FnSet :=
  match s with
  | [] => []
  | g :: s' => if Fn_eqb f g then set_delete f s' else g :: set_delete f s'
  end.

(** A [Map] from functions to timer handles. *)
Definition FnMap := list (Fn * nat).

Fixpoint fn_get (k : Fn) (m : FnMap) : option nat :=
  match m with
  | [] => None
  | (k', v) :: m' => if Fn_eqb k k' then Some v else fn_get k m'
  end.

Fixpoint fn_delete (k : Fn) (m : FnMap) : FnMap :=
  match m with
  | [] => []
  | (k', v) :: m' =>
      if Fn_eqb k k' then fn_delete k m' else (k', v) :: fn_delete k m'
  end.

Fixpoint fn_set (k : Fn) (v : nat) (m : FnMap) : FnMap :=
  match m with
  | [] => [(k, v)]
  | (k', v') :: m' =>
      if Fn_eqb k k' then (k, v) :: fn_delete k m'
      else (k', v') :: fn_set k v m'
  end.

(** The options of [addListener]: [once] and [context] by their truthiness,
    [timeout] a number of milliseconds or absent. *)
Record Options := mkOptions {
  opt_once : bool;
  opt_timeout : option Z;
  opt_context : bool
}.

(** [{}] *)
Definition no_options : Options := mkOptions false None false.

(** truthiness of [timeout] *)
Definition timeout_truthy (t : option Z) : bool :=
  match t with
  | Some n => negb (n =? 0)
  | None => false
  end.

(** The fields of the object; [listenerCount] is a number that the code
    increments and decrements. *)
Record t := mk {
  maxListeners : nat;
  listeners : JsMap.t FnSet;
  onceListeners : FnSet;
  timeoutListeners : FnMap;
  created : Z;
  listenerCount : Z
}.

(** A call of a method of [EventEmitter]. *)
Inductive SuperCall :=
| SetMaxListeners (n : nat)
| SuperAddListener (event : string) (listener : Fn)
| SuperRemoveListener (event : string) (listener : Fn)
| SuperRemoveAllListeners (event : option string).

(** The object, the timers that are pending (each with the event and the
    listener its callback has captured), the counters that number timers and
    closures, the calls of the base class, and the listeners that a
    [onceListener] has called. *)
Record World := mkWorld {
  self : t;
  timers : gmap nat (string * Fn);
  nextTimer : nat;
  nextSerial : nat;
  supers : list SuperCall;
  called : list Fn
}.

Definition on_self (f : t -> t) (w : World) : World :=
  mkWorld (f (self w)) (timers w) (nextTimer w) (nextSerial w) (supers w) (called w).

Definition set_listeners (v : JsMap.t FnSet) (r : t) : t :=
  mk (maxListeners r) v (onceListeners r) (timeoutListeners r) (created r)
    (listenerCount r).
Definition set_onceListeners (v : FnSet) (r : t) : t :=
  mk (maxListeners r) (listeners r) v (timeoutListeners r) (created r)
    (listenerCount r).
Definition set_timeoutListeners (v : FnMap) (r : t) : t :=
  mk (maxListeners r) (listeners r) (onceListeners r) v (created r)
    (listenerCount r).
Definition set_listenerCount (v : Z) (r : t) : t :=
  mk (maxListeners r) (listeners r) (onceListeners r) (timeoutListeners r)
    (created r) v.

Definition super (c : SuperCall) (w : World) : World :=
  mkWorld (self w) (timers w) (nextTimer w) (nextSerial w) (supers w ++ [c])
    (called w).

Definition new_serial (w : World) : nat * World :=
  (nextSerial w,
   mkWorld (self w) (timers w) (nextTimer w) (S (nextSerial w)) (supers w) (called w)).

Definition setTimeout (event : string) (listener : Fn) (w : World) : nat * World :=
  (nextTimer w,
   mkWorld (self w) (<[nextTimer w := (event, listener)]> (timers w))
     (S (nextTimer w)) (nextSerial w) (supers w) (called w)).

Definition clearTimeout (h : nat) (w : World) : World :=
  mkWorld (self w) (delete h (timers w)) (nextTimer w) (nextSerial w) (supers w)
    (called w).

(** a listener given by the caller runs *)
Definition call (f : Fn) (w : World) : World :=
  mkWorld (self w) (timers w) (nextTimer w) (nextSerial w) (supers w)
    (called w ++ [f]).

(** [new EventManager(options)] at the time [now]; [maxListeners] is the
    option of that name, a natural number or absent *)
Definition constructor (maxListeners : option nat) (now : Z) : World :=
  let n := match maxListeners with
           | Some (S n) => S n
           | _ => 100%nat
           end in
  mkWorld (mk n [] [] [] now 0) ∅ 0 0 [SetMaxListeners n] [].

(** [removeListener(event, listener)] *)
Definition removeListener (event : string) (listener : Fn) (w : World) : World :=
  let w :=
    on_self (fun r =>
      match JsMap.get event (listeners r) with
      | Some s =>
          let s := set_delete listener s in
          set_listeners
            (if Nat.eqb (length s) 0 then JsMap.delete event (listeners r)
             else JsMap.set event s (listeners r)) r
      | None => r
      end) w in
  let w :=
    on_self (fun r => set_onceListeners (set_delete listener (onceListeners r)) r) w in
  let w :=
    match fn_get listener (timeoutListeners (self w)) with
    | Some h =>
        on_self (fun r =>
          set_timeoutListeners (fn_delete listener (timeoutListeners r)) r)
          (clearTimeout h w)
    | None => w
    end in
  let w := on_self (fun r => set_listenerCount (listenerCount r - 1) r) w in
  super (SuperRemoveListener event listener) w.

(** [addListener(event, listener, options)]; the result stands for the
    cleanup function returned, which removes the listener it names from the
    event it names *)
Definition addListener (event : string) (listener : Fn) (o : Options) (w : World)
    : (string * Fn) * World :=
  let '(actualListener, w) :=
    if opt_context o
    then let '(k, w) := new_serial w in (Bound k listener, w)
    else (listener, w) in
  let '(actualListener, w) :=
    if opt_once o then
      let '(k, w) := new_serial w in
      let onceListener := OnceListener k event actualListener in
      (onceListener,
       on_self (fun r => set_onceListeners (set_add onceListener (onceListeners r)) r) w)
    else (actualListener, w) in
  let w :=
    if timeout_truthy (opt_timeout o) then
      let '(h, w) := setTimeout event actualListener w in
      on_self (fun r =>
        set_timeoutListeners (fn_set actualListener h (timeoutListeners r)) r) w
    else w in
  let w :=
    on_self (fun r =>
      let s := match JsMap.get event (listeners r) with
               | Some s => s
               | None => []
               end in
      set_listeners (JsMap.set event (set_add actualListener s) (listeners r)) r) w in
  let w := on_self (fun r => set_listenerCount (listenerCount r + 1) r) w in
  ((event, actualListener), super (SuperAddListener event actualListener) w).

(** [once(event, listener, options)] *)
Definition once (event : string) (listener : Fn) (o : Options) (w : World)
    : (string * Fn) * World :=
  addListener event listener (mkOptions true (opt_timeout o) (opt_context o)) w.

(** [timedListener(event, listener, timeout, options)] *)
Definition timedListener (event : string) (listener : Fn) (timeout : option Z)
    (o : Options) (w : World) : (string * Fn) * World :=
  addListener event listener (mkOptions (opt_once o) timeout (opt_context o)) w.

(** The callback of the timer of [addListener], for the event and the
    listener it has captured. *)
Definition timeout_callback (event : string) (actualListener : Fn) (w : World)
    : World :=
  let w := removeListener event actualListener w in
  on_self (fun r =>
    set_onceListeners (set_delete actualListener (onceListeners r))
      (set_timeoutListeners (fn_delete actualListener (timeoutListeners r)) r)) w.

(** a pending timer fires *)
Definition fire (h : nat) (w : World) : World :=
  match timers w !! h with
  | Some (event, listener) => timeout_callback event listener (clearTimeout h w)
  | None => w
  end.

(** The emitter calls a listener.  For an [onceListener] this is the body
    of the closure; any other listener is code of the caller, of which the
    call is recorded. *)
Definition invoke (f : Fn) (w : World) : World :=
  match f with
  | OnceListener _ event actualListener =>
      let w := removeListener event f w in
      let w := on_self (fun r => set_onceListeners (set_delete f (onceListeners r)) r) w in
      let w :=
        match fn_get f (timeoutListeners (self w)) with
        | Some h =>
            on_self (fun r =>
              set_timeoutListeners (fn_delete f (timeoutListeners r)) r)
              (clearTimeout h w)
        | None => w
        end in
      call actualListener w
  | _ => call f w
  end.

(** The loops of [removeAllListeners]: each removes the listener it is at,
    so that every listener of the set is visited once. *)
Definition remove_each (event : string) (s : FnSet) (w : World) : World :=
  fold_left (fun w listener => removeListener event listener w) s w.

Definition remove_every (entries : list (string * FnSet)) (w : World) : World :=
  fold_left (fun w entry => remove_each (fst entry) (snd entry) w) entries w.

(** [removeAllListeners(event)]; an absent or empty event name stands for
    all events *)
Definition removeAllListeners (event : option string) (w : World) : World :=
  let specific := match event with
                  | Some e => negb (String.eqb e "")
                  | None => false
                  end in
  let w :=
    if specific then
      let e := default "" event in
      match JsMap.get e (listeners (self w)) with
      | Some s => remove_each e s w
      | None => w
      end
    else remove_every (listeners (self w)) w in
  super (SuperRemoveAllListeners event) w.

(** What [getStats()] returns, [age] apart: [totalListeners], the
    properties of [events] (in the order of the [Map]; an object lists
    integer-like names first), [onceListeners], [timedListeners].  The
    assignment of a number to [events.__proto__] adds no property. *)
Definition getStats (w : World) : Z * list (string * nat) * nat * nat :=
  (listenerCount (self w),
   map (fun entry => (fst entry, length (snd entry)))
     (List.filter (fun entry => negb (String.eqb (fst entry) "__proto__"))
        (listeners (self w))),
   length (onceListeners (self w)),
   length (timeoutListeners (self w))).

(** [cleanup()] *)
Definition cleanup (w : World) : World :=
  let w := fold_left (fun w entry => clearTimeout (snd entry) w)
             (timeoutListeners (self w)) w in
  let w := on_self (fun r =>
             set_listenerCount 0
               (set_timeoutListeners [] (set_onceListeners [] (set_listeners [] r)))) w in
  super (SuperRemoveAllListeners None) w.

(** What is done with an event manager.  The caller registers functions of
    its own; it removes a listener by the cleanup function it was given or by
    [removeListener]. *)
Inductive Action :=
| AddListener (event : string) (listener : nat) (o : Options)
| Once (event : string) (listener : nat) (o : Options)
| TimedListener (event : string) (listener : nat) (timeout : option Z) (o : Options)
| RemoveListener (event : string) (listener : Fn)
| TimerFires (h : nat)
| Invoked (f : Fn)
| RemoveAllListeners (event : option string)
| Cleanup.

Definition step (w : World) (a : Action) : World :=
  match a with
  | AddListener e l o => snd (addListener e (Given l) o w)
  | Once e l o => snd (once e (Given l) o w)
  | TimedListener e l t o => snd (timedListener e (Given l) t o w)
  | RemoveListener e f => removeListener e f w
  | TimerFires h => fire h w
  | Invoked f => invoke f w
  | RemoveAllListeners e => removeAllListeners e w
  | Cleanup => cleanup w
  end.

Definition run (w : World) (acts : list Action) : World := fold_left step acts w.

End EventManager.
(** * Flushing the queue of the WebSocket requestor

    The closures [sendQueuedMsgs] and [rejectQueuedMsgs] of
    [WsRequestor.request] ([lib/utils/ws-requestor.js]).  The callback that
    [request] hands to [ws.send] for a notification calls [sendQueuedMsgs];
    it runs when the socket has taken the frame.

    [sendQueuedMsgs] walks [this.queuedMsg] with [for ... of], which reads
    the array as it is at each step, and calls [this.request] for the
    messages that carry a promise.  Such a call runs until its first
    [await]; while [this.ws] is set it has none, so it runs to its end within
    the loop, and may push onto the array the loop is walking. *)

Module WsFlush.
Import WsRequestor.

(** What a flush leaves behind, beside the requestor: the calls of
    [request] handed to [setImmediate], and for each call made at once the
    promise of the queued message with the result that will settle it. *)
Record Flushed := mkFlushed {
  world : World;
  immediates : list Queued;
  chained : list (nat * Result)
}.

(** How a flush ends: the loop is left, or a call made by the loop goes on
    to connect (where this model stops), or the loop is still running when
    the steps granted are used up. *)
Inductive Outcome :=
| Finished (f : Flushed)
| Connecting (f : Flushed)
| Unfinished.

Section Model.
Variable snakeCase : string -> string.
Variable cfg : Config.
Variable short_generate : nat -> string.

(** [this.request(type, hook, params, httpHeaders, span)] for a queued
    message, up to its first [await]; [None] when the call needs a
    connection *)
Definition request_now (q : Queued) (w : World) : World * option Result :=
  match request_entry cfg w (q_type q) (q_hook q) (q_params q) (q_httpHeaders q) with
  | (w, Some r) => (w, Some r)
  | (w, None) =>
      match ws (self w) with
      | Some _ =>
          let '(w, r) :=
            request_send snakeCase cfg short_generate w (q_type q) (q_hook q)
              (q_params q) (q_httpHeaders q) in
          (w, Some r)
      | None => (w, None)
      end
  end.

(** The loop of [sendQueuedMsgs] at index [i], and the assignment
    [this.queuedMsg.length = 0] that follows it. *)
Fixpoint flush_loop (fuel i : nat) (f : Flushed) : Outcome :=
  match fuel with
  | O => Unfinished
  | S fuel' =>
      match nth_error (queuedMsg (self (world f))) i with
      | None =>
          Finished (mkFlushed (on_self (set_queuedMsg []) (world f))
                      (immediates f) (chained f))
      | Some q =>
          match q_promise q with
          | Some p =>
              match request_now q (world f) with
              | (w, Some r) =>
                  flush_loop fuel' (S i)
                    (mkFlushed w (immediates f) (chained f ++ [(p, r)]))
              | (w, None) => Connecting (mkFlushed w (immediates f) (chained f))
              end
          | None =>
              flush_loop fuel' (S i)
                (mkFlushed (world f) (immediates f ++ [q]) (chained f))
          end
      end
  end.

(** [sendQueuedMsgs()], given [fuel] steps *)
Definition sendQueuedMsgs (fuel : nat) (w : World) : Outcome :=
  if (0 <? length (queuedMsg (self w)))%nat
  then flush_loop fuel 0 (mkFlushed w [] [])
  else Finished (mkFlushed w [] []).

(** [rejectQueuedMsgs(err)] *)
Definition rejectQueuedMsgs (err : error) (w : World) : World :=
  if (0 <? length (queuedMsg (self w)))%nat then
    let w :=
      fold_left (fun w q => match q_promise q with
                            | Some p => settle p (Rejected err) w
                            | None => w
                            end) (queuedMsg (self w)) w in
    on_self (set_queuedMsg []) w
  else w.

End Model.

End WsFlush.


(** ** The properties stated of the requestors *)

(** What the claim on [rc] says of a fragment value [s] that reads as the
    integer [n]: both counts are [min(|n|, 5)], and that is at least 1. *)
Definition clamped_as_claimed (cfg : Config) (h : HashParams) (n : Z) : Prop :=
  Retry.maxReconnects cfg h = Num (Z.min (Z.abs n) 5) /\
  Retry.maxRetries h = Num (Z.min (Z.abs n) 5) /\
  1 <= Z.min (Z.abs n) 5.

(** the k-th wait of the WebSocket requestor, from a back-off of [b] *)
Definition ws_delay (b : Z) (k : nat) : Z := Nat.iter k Retry.next_backoff b.

(** what the claim on the back-off says of the waits of one request: they
    follow the rule, and no more than 5 attempts are made *)
Definition follows_rule (waits : list Z) (attempts : nat) : Prop :=
  waits = map Retry.rule_delay (seq 0 (length waits)) /\ (attempts <= 5)%nat.

(** what the claim on the handover says of the events after a request whose
    URL calls for the other transport: the handover has been emitted *)
Definition handover_emitted (emitted : list Event) (requestor : Constructed) : Prop :=
  In (Handover requestor) emitted.

(** the value read so far by [digits] *)
Definition acc_value (acc : number) : Z :=
  match acc with Num v => v | NaN => 0 end.

(** a decimal digit, which is neither white space, nor a sign, nor the [x]
    of a hexadecimal prefix *)
Definition is_decimal (a : ascii) : Prop :=
  exists d, JsNumber.digit 10 a = Some d /\ JsString.is_space a = false /\
            a <> "-"%char /\ a <> "+"%char /\ a <> "x"%char /\ a <> "X"%char.

Module HttpProps.
Import OptimizedHttpRequestor.

(** the entry of [requestsSent] for one attempt *)
Definition attempt (method : string) (payload : json) : string * option json :=
  (method, if String.eqb method "POST" then Some payload else None).

(** The conditions under which [request] goes on to the retry loop: the type
    is a hook message type other than [jambonz:error], the hook has a
    non-empty URL that does not call for a handover, and the method is
    [GET] or [POST]. *)
Record sends_over_http (cfg : Config) (type : string) (hook : Hook)
    (url : string) : Prop := {
  not_error : type <> "jambonz:error";
  known_type : In type (HookMsgTypes cfg);
  has_url : hook_url hook = Some url;
  url_given : url <> "";
  method_ok : In (method_or_POST hook) ["GET"; "POST"];
  no_handover :
    BaseRequestor._isAbsoluteUrl url && JsString.startsWith url "ws" = false
}.

(** the URL whose fragment [request] reads *)
Definition absUrl (w : World) (url : string) : string :=
  if BaseRequestor._isRelativeUrl url then baseUrl (self w) +:+ url else url.

(** [stats.totalRequests++] *)
Definition count_request (w : World) : World :=
  with_stats (fun s => mkStats (S (totalRequests s)) (successfulRequests s)
                         (failedRequests s) (stats_retryCount s)) w.

(** the statuses [makeRequest] accepts *)
Definition accepted (status : Z) : Prop :=
  status = 200 \/ status = 202 \/ status = 204.

(** [response.headers['content-type']?.includes('application/json')] *)
Definition json_content (resp : Response) : bool :=
  match content_type resp with
  | Some ct => JsString.includes ct "application/json"
  | None => false
  end.

(** What the claim on the status says of a response with a 2xx status and a
    JSON content type: the parsed body is the result. *)
Definition success_as_claimed (resp : Response) (j : json) : Prop :=
  200 <= statusCode resp < 300 ->
  json_content resp = true ->
  body_json resp = Some j ->
  handleResponse resp = inr j.

End HttpProps.

Module WsProps.
Import WsRequestor.

(** What holds between the object before and after any of its methods: the
    fields set by the constructor only are unchanged, and the two flags
    [closedGracefully] and [maliciousClient], once set, stay set. *)
Record stable (r r' : t) : Prop := mkStable {
  st_account : account_sid r' = account_sid r;
  st_secret : secret r' = secret r;
  st_url : url r' = url r;
  st_max : maxReconnects r' = maxReconnects r;
  st_policy : retryPolicyValues r' = retryPolicyValues r;
  st_closed : closedGracefully r = true -> closedGracefully r' = true;
  st_malicious : maliciousClient r = true -> maliciousClient r' = true
}.

(** What holds between the world before and after any operation: the object
    is [stable] and a settled promise keeps its settlement.  A [strict]
    evolution leaves the back-off, the waits and the sockets alone as well. *)
Record evolves (strict : bool) (w w' : World) : Prop := mkEvolves {
  ev_stable : stable (self w) (self w');
  ev_settled : forall p s, promises w !! p = Some s -> promises w' !! p = Some s;
  ev_strict :
    strict = true ->
    backoffMs (self w') = backoffMs (self w) /\ sleeps w' = sleeps w /\
    nextSocket w' = nextSocket w
}.

(** the outcomes the claim on acks allows for the promise of a send *)
Definition ack_or_timeout_outcome (w : World) (p : nat) (msgid : string) : Prop :=
  (exists data, promises w !! p = Some (Resolved data)) \/
  promises w !! p = Some (Rejected (StringError (timeout_message msgid))).

(** what the claim on re-keying says of an ack for [msgid]: it resolves the
    promise [p] with the data of the ack *)
Definition resolves_on_ack (w : World) (msgid : string) (p : nat) : Prop :=
  forall data,
    promises (_recvAck (Some (JStr msgid)) data w) !! p = Some (Resolved data).

(** a call of [request] that closes the requestor: a [session:redirect] to
    an HTTP URL *)
Definition closes_on_handover (type : string) (hook : Hook) : Prop :=
  type = "session:redirect" /\
  exists url, hook_url hook = Some url /\
    (BaseRequestor._isAbsoluteUrl url && JsString.startsWith url "http") = true.

(** The actions that leave the entries in flight alone: any frame, any
    timer, a close of the socket with code 1000, and any call of [request]
    other than a handover that closes the requestor and the internal
    [session:reconnect].  A call of [close] and a close of the socket with
    another code are not among them: they abandon the entries. *)
Definition quiet (a : Action) : Prop :=
  match a with
  | CallRequest type hook _ _ _ =>
      ~ closes_on_handover type hook /\ type <> "session:reconnect"
  | CallClose _ => False
  | OnMessage _ _ _ => True
  | OnClose code => code = 1000
  | TimerFires _ _ => True
  end.

(** The send under [m] is in flight in [w]: its entry [e] is registered,
    its timer is armed and its promise is pending; the other entries and
    timers, the reconnect promise and the identifiers still to be drawn are
    distinct from its own; and the socket is there unless the requestor is
    closed. *)
Record in_flight (short_generate : nat -> string) (m : string) (e : Entry)
    (d : Z) (w : World) : Prop := mkInFlight {
  if_entry : inflight m (self w) = Some e;
  if_timer : timers w !! timer e = Some (AckTimeout m d);
  if_promise : promises w !! promise e = None;
  if_others :
    forall k e', k <> m -> inflight k (self w) = Some e' ->
                 timer e' <> timer e /\ promise e' <> promise e;
  if_reconnect : forall p', _reconnectPromise (self w) = Some p' -> p' <> promise e;
  if_alloc : (promise e < nextPromise w)%nat /\ (timer e < nextTimer w)%nat;
  if_timers :
    forall id k d', id <> timer e -> timers w !! id = Some (AckTimeout k d') -> k <> m;
  if_uuid : forall j, (uuids w <= j)%nat -> short_generate j <> m;
  if_socket : ws (self w) <> None \/ closedGracefully (self w) = true
}.

(** Bookkeeping of a world: the entries in flight hold timers and promises
    that were handed out, and the ack timers carry identifiers that were
    drawn. *)
Definition allocated (short_generate : nat -> string) (w : World) : Prop :=
  (forall k e', inflight k (self w) = Some e' ->
                (timer e' < nextTimer w)%nat /\ (promise e' < nextPromise w)%nat) /\
  (forall id k d', timers w !! id = Some (AckTimeout k d') ->
                   exists j, (j < uuids w)%nat /\ k = short_generate j).

End WsProps.

(** * Facts *)
(** ** Further properties of the requestors *)

Module PoolMore.
Import ConnectionPoolManager.

(** The books of a manager are in order: the two [Map]s have the same keys;
    a pool of [pools] was created for the key it is under, has not been
    closed, and is under that key only; only pools that were created have
    been closed; and the lists that stand for the [Map]s bind each key
    once. *)
Record consistent (w : World) : Prop := mkConsistent {
  same_keys :
    forall b, JsMap.has b (pools (self w)) = JsMap.has b (poolStats (self w));
  pools_open :
    forall b p, JsMap.get b (pools (self w)) = Some p ->
      pool_origin p = b /\ ~ In (pool_id p) (closed (env w)) /\
      (pool_id p < nextPool (env w))%nat;
  pools_distinct :
    forall b b' p p', JsMap.get b (pools (self w)) = Some p ->
      JsMap.get b' (pools (self w)) = Some p' -> pool_id p = pool_id p' -> b = b';
  closed_created :
    forall id, In id (closed (env w)) -> (id < nextPool (env w))%nat;
  pools_keys : List.NoDup (map fst (pools (self w)));
  stats_keys : List.NoDup (map fst (poolStats (self w)))
}.

(** [stats.lastUsed < idleThreshold] for the pool of [b], at a cleanup that
    reads the time [now] *)
Definition idle (w : World) (now : Z) (b : string) : bool :=
  match JsMap.get b (poolStats (self w)) with
  | Some s => lastUsed s <? now - idleTimeout (self w)
  | None => false
  end.

(** the keys the loop of [cleanup] finds idle *)
Definition doomed (entries : list (string * PoolStats)) (thr : Z) (b : string) : bool :=
  existsb (fun kv => String.eqb (fst kv) b && (lastUsed (snd kv) <? thr)) entries.

(** the actions that close no pool by themselves *)
Definition harmless (a : Action) : Prop :=
  match a with
  | GetPool _ | CreatePool _ | GetStats | IntervalFires _ => True
  | Cleanup | DestroyPool _ | Destroy => False
  end.

(** What can be done with the module: a call of
    [getConnectionPoolManager], or of a method on the instance. *)
Inductive ModuleAction :=
| Obtain (options : Options)
| Call (a : Action).

Definition module_step (cfg : PoolConfig) (clock : nat -> Z) (m : Module)
    (a : ModuleAction) : Module :=
  match a with
  | Obtain options => getConnectionPoolManager cfg options m
  | Call a => on_instance (fun w => step clock w a) m
  end.

Definition module_run (cfg : PoolConfig) (clock : nat -> Z) (m : Module)
    (acts : list ModuleAction) : Module :=
  fold_left (module_step cfg clock) acts m.

Definition module_harmless (a : ModuleAction) : Prop :=
  match a with
  | Obtain _ => True
  | Call a => harmless a
  end.

End PoolMore.

Module LoaderMore.
Import TaskLoader.

(** the name under which [initialize] registers a file, if it does *)
Definition registered_name (file : string) : option TaskName :=
  match getTaskNameFromFile file with
  | Some n => if truthy n then Some n else None
  | None => None
  end.

(** The books of a loader between calls: no load is in progress, every
    cached task is a task of the map, and the lists that stand for the [Map]s
    bind each key once. *)
Record tidy (w : World) : Prop := mkTidy {
  none_loading : loadingPromises (self w) = [];
  cache_in_map :
    forall n f, JsMap.get n (taskCache (self w)) = Some f ->
                exists path, name_get (Name n) (taskMap (self w)) = Some path;
  cache_keys : List.NoDup (map fst (taskCache (self w)));
  map_keys : List.NoDup (map fst (taskMap (self w)))
}.

(** a call that does not drop [taskName] from the cache *)
Definition spares (taskName : string) (a : Action) : Prop :=
  match a with
  | ClearCache (Some n) => n <> "" /\ n <> taskName
  | ClearCache None => False
  | _ => True
  end.

(** what [require] made of a task module *)
Definition load_result (taskName : string) (r : Required) : failure + nat :=
  match r with
  | Throws e => inl e
  | Exports (Some f) => inr f
  | Exports None => inl (Error (invalid_message taskName))
  end.

(** a piece that is not the end of a load of [taskName] *)
Definition not_finish_of (taskName : string) (c : Piece) : Prop :=
  match c with
  | Finish n _ => n <> taskName
  | Begin _ => True
  end.

(** What the way a call began says about the cache and the loads in
    progress. *)
Definition begun_ok (cache loading : JsMap.t nat) (nb : string * Begun) : Prop :=
  match snd nb with
  | Cached f => JsMap.get (fst nb) cache = Some f
  | NotFound => JsMap.get (fst nb) cache = None /\ JsMap.get (fst nb) loading = None
  | Joined p | Loading p =>
      JsMap.get (fst nb) cache = None /\ JsMap.get (fst nb) loading = Some p
  end.

(** The result of a call that began as [b], given the promises. *)
Definition result_of (ps : list (failure + nat)) (nb : string * Begun)
    : string * (failure + nat) :=
  (fst nb,
   match snd nb with
   | Cached f => inr f
   | NotFound => inl (Error (not_found_message (fst nb)))
   | Joined p | Loading p => nth p ps (inl (Thrown "no such promise"))
   end).

End LoaderMore.

Module EventsMore.
Import EventManager.

(** [f] is in the set that [listeners] keeps for [event] *)
Definition tracked (w : World) (event : string) (f : Fn) : Prop :=
  exists s, JsMap.get event (listeners (self w)) = Some s /\ In f s.

(** the number of listeners in the sets of [listeners] *)
Fixpoint total (m : JsMap.t FnSet) : nat :=
  match m with
  | [] => 0
  | (_, s) :: m' => length s + total m'
  end.

(** a function made by the class has a serial number below [n] *)
Definition serial_below (n : nat) (f : Fn) : Prop :=
  match f with
  | Given _ => True
  | Bound k _ | OnceListener k _ _ => (k < n)%nat
  end.

(** The books of an event manager are in order: [listenerCount] is the
    number of listeners in the sets, no set is empty, no function is in the
    sets of two events, the timers recorded in [timeoutListeners] are the
    pending ones, each for a listener that is in the set of its event, and
    every [onceListener] recorded is in a set. *)
Record tidy (w : World) : Prop := mkTidy {
  count_total : listenerCount (self w) = Z.of_nat (total (listeners (self w)));
  event_keys : List.NoDup (map fst (listeners (self w)));
  sets_proper :
    forall e s, JsMap.get e (listeners (self w)) = Some s -> List.NoDup s /\ s <> [];
  one_event : forall e1 e2 f, tracked w e1 f -> tracked w e2 f -> e1 = e2;
  timer_recorded :
    forall h e f, timers w !! h = Some (e, f) ->
      fn_get f (timeoutListeners (self w)) = Some h /\ tracked w e f /\
      (h < nextTimer w)%nat;
  recorded_timer :
    forall f h, fn_get f (timeoutListeners (self w)) = Some h ->
      exists e, timers w !! h = Some (e, f);
  once_tracked :
    forall f, In f (onceListeners (self w)) -> exists e, tracked w e f;
  serials : forall e f, tracked w e f -> serial_below (nextSerial w) f
}.

(** A use of the manager that keeps the books: a function is registered as
    it is (without [once] and [context]) only while it is in no set, a
    listener is removed from the event it is registered for, and the emitter
    calls an [onceListener] only while it is registered. *)
Definition allowed (w : World) (a : Action) : Prop :=
  match a with
  | AddListener _ l o | TimedListener _ l _ o =>
      opt_once o = false -> opt_context o = false ->
      forall e, ~ tracked w e (Given l)
  | RemoveListener e f => tracked w e f
  | Invoked (OnceListener k e f) => tracked w e (OnceListener k e f)
  | _ => True
  end.

(** the events that [removeAllListeners(event)] is about *)
Definition in_scope (event : option string) (e : string) : Prop :=
  match event with
  | Some name => name = "" \/ e = name
  | None => True
  end.

(** every call of a sequence is allowed when it is made *)
Fixpoint allowed_run (w : World) (acts : list Action) : Prop :=
  match acts with
  | [] => True
  | a :: rest => allowed w a /\ allowed_run (step w a) rest
  end.

End EventsMore.

Module FlushMore.
Import WsRequestor WsFlush.

(** [wantsAck] for a message type *)
Definition wantsAck (type : string) : bool :=
  negb (JsString.array_includes MTYPE_WANTS_ACK type).

(** A queued message that is sent over the socket as it is: a known type
    other than [session:new] and [session:reconnect], and a hook with a URL
    that is not an absolute HTTP URL. *)
Definition plain (cfg : Config) (q : Queued) : Prop :=
  JsString.array_includes (HookMsgTypes cfg) (q_type q) = true /\
  q_type q <> "session:new" /\ q_type q <> "session:reconnect" /\
  exists url, hook_url (q_hook q) = Some url /\ url <> "" /\
              BaseRequestor._isAbsoluteUrl url && JsString.startsWith url "http" = false.

(** the requestor has a socket and has not been closed *)
Definition open_on (sock : nat) (w : World) : Prop :=
  ws (self w) = Some sock /\ maliciousClient (self w) = false /\
  closedGracefully (self w) = false.

(** whether a queued message carries a promise *)
Definition has_promise (q : Queued) : bool :=
  match q_promise q with
  | Some _ => true
  | None => false
  end.

End FlushMore.

Module HttpMore.
Import OptimizedHttpRequestor.

(** the error an attempt ends with, if any: the error of the transport or
    the one [makeRequest] throws for the response *)
Definition outcome_error (o : NetOutcome) : option error :=
  match o with
  | NetError e => Some e
  | NetResponse resp =>
      match handleResponse resp with
      | inl e => Some e
      | inr _ => None
      end
  end.

(** one call of [request], with what the network does at each attempt *)
Record Call := mkCall {
  call_type : string;
  call_hook : Hook;
  call_params : value;
  call_headers : headers;
  call_net : nat -> NetOutcome
}.

Section Run.
Variable snakeCase : string -> string.
Variable cfg : Config.
Variable fragment : string -> HashParams.
Variable _shouldRetry : error -> list string -> bool.

(** calls of [request] made one after the other, each awaited *)
Fixpoint run (w : World) (calls : list Call) : option World :=
  match calls with
  | [] => Some w
  | c :: calls' =>
      match request snakeCase cfg fragment _shouldRetry w (call_type c)
              (call_hook c) (call_params c) (call_headers c) (call_net c) with
      | Some (w', _) => run w' calls'
      | None => None
      end
  end.

End Run.

(** the requests that [updateStats] has counted *)
Definition finished (w : World) : nat :=
  (successfulRequests (stats (self w)) + failedRequests (stats (self w)))%nat.

End HttpMore.

Module WsMore.
Import WsRequestor.

(** every key of the table is bound to an entry; a key bound to
    [undefined] is what the re-keying of [request] leaves when the entry of
    [_initMsgId] is gone *)
Definition all_defined (m : JsMap.t (option Entry)) : Prop :=
  forall k v, In (k, v) m -> v <> None.

(** the rejection [_clearPendingMessages] gives the promise of an entry *)
Definition abandoned (w : World) (p : nat) (keys : JsMap.t (option Entry)) : Prop :=
  exists k, JsMap.has k keys = true /\
            promises w !! p = Some (Rejected (StringError (abandon_message k))).

(** one turn of the loop of [_clearPendingMessages] *)
Definition clear_one (msgid : string) (e : Entry) (w : World) : World :=
  let w := clearTimeout (timer e) w in
  if negb (str_truthy (_initMsgId (self w)))
  then failure e (StringError (abandon_message msgid)) w else w.

(** the flag [maliciousClient] has the value [b] *)
Definition flag_is (b : bool) (w : World) : Prop := maliciousClient (self w) = b.

(** the params of the [jambonz:error] that [_onMessage] sends for an invalid
    frame *)
Definition invalid_message_params (message : string) (content : Inbound) : json :=
  JObj [("msg", JStr "InvalidMessage"); ("details", JStr message);
        ("content", JStr (raw content))].

End WsMore.



(** ** Concrete data for the examples *)

Module Sample.

(** A configuration: a 5 s ack timeout, five reconnects, pooling on. *)
Definition cfg : Config :=
  mkConfig 5000 (Num 5) (Some "1") None None
    ["session:new"; "session:reconnect"; "session:redirect"; "session:adulting";
     "call:status"; "verb:hook"; "verb:status"; "dial:confirm"; "jambonz:error"].

(** The same configuration with pooling switched off. *)
Definition cfg_nopool : Config :=
  mkConfig 5000 (Num 5) (Some "0") None None (HookMsgTypes cfg).

Definition snake (s : string) : string := s.

(** [short.generate()]: the n-th identifier drawn *)
Definition uuid (n : nat) : string := "m" +:+ pretty n.

Definition always_open (n : nat) : WsRequestor.ConnOutcome := WsRequestor.ConnOpen.

Definition session_params : value :=
  Some (JObj [("callSid", JStr "c1"); ("sip", JObj [("fooBar", JNum 1)])]).

(** an ack frame for [msgid] *)
Definition ack_frame (msgid : string) (data : json) : WsRequestor.Inbound :=
  WsRequestor.mkInbound "(ack)"
    (Some (JObj [("type", JStr "ack"); ("msgid", JStr msgid); ("data", data)])).

Definition ws_requestor : WsRequestor.t :=
  match WsRequestor.constructor cfg BaseRequestor.fragment_spec "acct"
          (HookString "wss://app.example/ws") (Some "s3cret") with
  | inr r => r
  | inl _ => WsRequestor.mk "" None "" 0 [] false false 0 false [] NaN [] None
               None None None None
  end.

Definition ws_run : WsRequestor.World -> list WsRequestor.Action ->
                    option WsRequestor.World :=
  WsRequestor.run snake cfg BaseRequestor.shouldRetry_spec uuid.

(** a requestor whose [session:new] was acked *)
Definition connected : WsRequestor.World :=
  default (WsRequestor.initial ws_requestor)
    (ws_run (WsRequestor.initial ws_requestor)
       [WsRequestor.CallRequest "session:new" (HookString "wss://app.example/ws")
          session_params [] always_open;
        WsRequestor.OnMessage (ack_frame "m0" (JObj [])) false always_open]).

(** a requestor whose socket dropped with code 1011 before the ack of its
    [session:new], at the time the reconnect timer fires *)
Definition dropped : WsRequestor.World :=
  default (WsRequestor.initial ws_requestor)
    (ws_run (WsRequestor.initial ws_requestor)
       [WsRequestor.CallRequest "session:new" (HookString "wss://app.example/ws")
          session_params [] always_open;
        WsRequestor.OnClose 1011]).

Definition http_requestor (c : Config) : OptimizedHttpRequestor.t :=
  match OptimizedHttpRequestor.constructor c "acct"
          (HookString "https://app.example/a") (Some "s3cret") with
  | inr r => r
  | inl _ => OptimizedHttpRequestor.mk "" None "" "" "" 0 false false
               (OptimizedHttpRequestor.mkStats 0 0 0 0)
  end.

Definition http_request (c : Config) :=
  OptimizedHttpRequestor.request snake c BaseRequestor.fragment_spec
    BaseRequestor.shouldRetry_spec
    (OptimizedHttpRequestor.initial (http_requestor c)).

Definition refused (n : nat) : OptimizedHttpRequestor.NetOutcome :=
  OptimizedHttpRequestor.NetError (TransportError "ECONNREFUSED").

End Sample.
(** ** Further sample worlds *)

Module Scenario.
Import WsRequestor.

(** the connected requestor of [Sample] with a [verb:hook] in flight *)
Definition hook_in_flight : World :=
  fst (request_send Sample.snake Sample.cfg Sample.uuid Sample.connected
         "verb:hook" (HookString "/hook") Sample.session_params []).

(** a requestor whose [session:new] timed out before the socket dropped
    with code 1011, after the socket has reopened: the re-keying of the
    [session:reconnect] has bound the new [msgid] to [undefined] *)
Definition timed_out_then_reconnected : World :=
  default (initial Sample.ws_requestor)
    (Sample.ws_run (initial Sample.ws_requestor)
       [CallRequest "session:new" (HookString "wss://app.example/ws")
          Sample.session_params [] Sample.always_open;
        TimerFires 0 ConnOpen;
        OnClose 1011;
        TimerFires 1 ConnOpen]).

End Scenario.

Module HttpScenario.
Import OptimizedHttpRequestor.

(** a requestor that pools its connections, before its first request *)
Definition fresh : World := initial (Sample.http_requestor Sample.cfg).

(** a server that refuses the first connection and then answers 200 with a
    body that is not JSON *)
Definition refused_then_text (n : nat) : NetOutcome :=
  match n with
  | O => NetError (TransportError "ECONNREFUSED")
  | S _ => NetResponse (mkResponse 200 (Some "text/plain") None)
  end.

Definition request :=
  OptimizedHttpRequestor.request Sample.snake Sample.cfg BaseRequestor.fragment_spec
    BaseRequestor.shouldRetry_spec.

End HttpScenario.


Module PoolScenario.
Import ConnectionPoolManager PoolMore.

Definition cfg : PoolConfig := mkPoolConfig None None.

(** a clock that is read every 100 seconds *)
Definition clock (n : nat) : Z := 100000 * Z.of_nat n.

(** a manager with the default options *)
Definition manager : World := constructor cfg no_options fresh.

(** the pools of two origins, obtained one after the other *)
Definition two_pools : World :=
  run clock manager [GetPool "https://a.example"; GetPool "https://b.example"].

(** the module after a first call of [getConnectionPoolManager] and a
    [getPool] on the instance *)
Definition loaded : Module :=
  module_run cfg clock (mkModule None fresh)
    [Obtain no_options; Call (GetPool "https://a.example")].

Definition loaded_instance : t := default (self manager) (instance loaded).

End PoolScenario.

Module LoaderScenario.
Import TaskLoader.

Definition task_path (file : string) : string := "/app/lib/tasks/" +:+ file.

(** a directory that cannot be read at first *)
Definition readdir (k : nat) : failure + list string :=
  match k with
  | O => inl (Thrown "ENOENT")
  | _ => inr ["dial.js"; "sip_decline.js"; ".eslintrc.js"; "task.js";
              "README.md"; "say.js"; "constructor.js"]
  end.

(** the first module required does not parse, the third exports an object *)
Definition require_ (k : nat) (path : string) : Required :=
  match k with
  | 0%nat => Throws (Thrown "SyntaxError")
  | 2%nat => Exports None
  | _ => Exports (Some k)
  end.

Definition step := step task_path readdir require_.
Definition run := run task_path readdir require_.

(** a loader whose second scan succeeded *)
Definition scanned : World := run constructor [Initialize; Initialize].

(** a loader that has loaded [dial] at the second attempt *)
Definition loaded : World := run scanned [LoadTask "dial"; LoadTask "dial"].

End LoaderScenario.

Module EventScenario.
Import EventManager.

(** a manager with a listener for [call:end], a one-time listener for
    [dtmf] that gives up after 5 s, and a bound listener for [call:end] that
    is dropped after 1 s *)
Definition registered : list Action :=
  [AddListener "call:end" 1 no_options;
   Once "dtmf" 2 (mkOptions false (Some 5000) false);
   TimedListener "call:end" 3 (Some 1000) (mkOptions false None true)].

Definition busy : World := run (constructor None 0) registered.

(** the second timer fires, a digit arrives, and the first listener is
    removed *)
Definition later : list Action :=
  [TimerFires 1; Invoked (OnceListener 0 "dtmf" (Given 2));
   RemoveListener "call:end" (Given 1)].

End EventScenario.

Module FlushScenario.
Import WsRequestor.

(** The socket drops before the ack of [session:new]; the requestor
    reconnects and sends [session:reconnect]; a [verb:hook] and a
    [call:status] are requested; the socket drops again and the requestor
    reconnects a second time. *)
Definition twice_reconnected : World :=
  default (initial Sample.ws_requestor)
    (Sample.ws_run (initial Sample.ws_requestor)
       [CallRequest "session:new" (HookString "wss://app.example/ws")
          Sample.session_params [] Sample.always_open;
        OnClose 1011;
        TimerFires 1 ConnOpen;
        CallRequest "verb:hook" (HookString "/answer") (Some (JObj [])) []
          Sample.always_open;
        CallRequest "call:status" (HookString "/status") (Some (JObj [])) []
          Sample.always_open;
        OnClose 1011;
        TimerFires 2 ConnOpen]).

(** the same requestor with no reconnect awaiting its ack *)
Definition settled : World :=
  on_self (set_reconnectPromise None) twice_reconnected.

End FlushScenario.

(** ** [parseInt] on the decimal notation of an integer *)

Module ParseIntFacts.
Import JsNumber.

Lemma pretty_N_char_digit (y : N) :
  (y < 10)%N ->
  digit 10 (pretty_N_char y) = Some (Z.of_N y) /\ is_decimal (pretty_N_char y).
Proof.
  intros Hy.
  assert (H : (y = 0 \/ y = 1 \/ y = 2 \/ y = 3 \/ y = 4 \/ y = 5 \/ y = 6 \/ y = 7
               \/ y = 8 \/ y = 9)%N) by lia.
  repeat (destruct H as [-> | H]); try subst y;
    (split; [reflexivity|]); eexists; repeat split; try reflexivity; discriminate.
Qed.

Lemma digits_step a s acc d :
  digit 10 a = Some d ->
  digits 10 (String a s) acc = digits 10 s (Num (10 * acc_value acc + d)).
Proof. intros H. simpl. now rewrite H. Qed.

(** reading the digits that [pretty_N_go] puts in front of [s] *)
Lemma digits_pretty_N_go (x : N) :
  (0 < x)%N ->
  exists k, forall s acc,
    digits 10 (pretty_N_go x s) acc = digits 10 s (Num (acc_value acc * k + Z.of_N x)).
Proof.
  induction (N.lt_wf_0 x) as [x _ IH]. intros Hx.
  destruct (pretty_N_char_digit (x `mod` 10)%N) as [Hd _];
    [apply N.mod_lt; lia|].
  destruct (decide (x `div` 10 = 0)%N) as [Hz | Hnz].
  - exists 10. intros s acc. rewrite pretty_N_go_step by exact Hx.
    rewrite Hz, pretty_N_go_0, (digits_step _ _ _ _ Hd).
    f_equal. f_equal. pose proof (N.div_mod x 10 ltac:(lia)) as Hdm.
    rewrite Hz in Hdm. change (10 * 0)%N with 0%N in Hdm.
    rewrite N.add_0_l in Hdm. rewrite <- Hdm. lia.
  - destruct (IH (x `div` 10)%N) as [k Hk];
      [apply N.div_lt; lia | apply N.neq_0_lt_0, Hnz|].
    exists (10 * k). intros s acc. rewrite pretty_N_go_step by exact Hx.
    rewrite Hk, (digits_step _ _ _ _ Hd). cbn [acc_value].
    f_equal. f_equal. pose proof (N.div_mod x 10 ltac:(lia)) as Hdm.
    rewrite Hdm at 3.
    generalize (x `div` 10)%N (x `mod` 10)%N. intros q m. lia.
Qed.

(** the notation of a positive number starts with a decimal digit, and so
    does what follows it, unless that is [s] *)
Lemma pretty_N_go_head (x : N) :
  (0 < x)%N ->
  forall s, exists a rest,
    pretty_N_go x s = String a rest /\ is_decimal a /\
    (rest = s \/ exists a' rest', rest = String a' rest' /\ is_decimal a').
Proof.
  induction (N.lt_wf_0 x) as [x _ IH]. intros Hx s.
  destruct (pretty_N_char_digit (x `mod` 10)%N) as [_ Hdec];
    [apply N.mod_lt; lia|].
  rewrite pretty_N_go_step by exact Hx.
  destruct (decide (x `div` 10 = 0)%N) as [Hz | Hnz].
  - rewrite Hz, pretty_N_go_0. eexists. exists s.
    split; [reflexivity|]. split; [exact Hdec | now left].
  - destruct (IH (x `div` 10)%N ltac:(apply N.div_lt; lia)
                ltac:(apply N.neq_0_lt_0, Hnz)
                (String (pretty_N_char (x `mod` 10)) s))
      as (a & rest & -> & Ha & Hrest).
    exists a, rest. split; [reflexivity|]. split; [exact Ha|].
    right. destruct Hrest as [-> | Hrest]; [|exact Hrest].
    eexists. eexists. split; [reflexivity | exact Hdec].
Qed.

(** a string of decimal digits has no [0x] prefix *)
Lemma magnitude_decimal a rest :
  is_decimal a ->
  (rest = "" \/ exists a' rest', rest = String a' rest' /\ is_decimal a') ->
  magnitude (String a rest) = digits 10 (String a rest) NaN.
Proof.
  intros _ [-> | (a' & rest' & -> & (d' & _ & _ & _ & _ & Hx & HX))].
  - destruct a as [[] [] [] [] [] [] [] []]; reflexivity.
  - destruct a as [[] [] [] [] [] [] [] []]; try reflexivity;
      destruct a' as [[] [] [] [] [] [] [] []]; try reflexivity; congruence.
Qed.

(** a string that starts with a decimal digit has neither white space nor a
    sign to skip *)
Lemma parseInt_unsigned a rest :
  is_decimal a ->
  parseInt (String a rest) = magnitude (String a rest) /\
  parseInt ("-" +:+ String a rest) = negate (magnitude (String a rest)).
Proof.
  intros (d & _ & Hsp & Hm & Hp & _).
  split; [|reflexivity].
  unfold parseInt. cbn [JsString.trimStart]. rewrite Hsp.
  destruct a as [[] [] [] [] [] [] [] []]; try reflexivity; congruence.
Qed.

(** [parseInt] reads the decimal notation of every integer *)
Lemma parseInt_pretty (n : Z) : parseInt (pretty n) = Num n.
Proof.
  assert (Hpos : forall p : positive,
            exists a rest,
              pretty (N.pos p) = String a rest /\ is_decimal a /\
              magnitude (String a rest) = Num (Z.pos p)).
  { intros p. unfold pretty, pretty_N.
    destruct (decide (N.pos p = 0%N)) as [|_]; [discriminate|].
    destruct (pretty_N_go_head (N.pos p) ltac:(lia) "") as (a & rest & E & Ha & Hr).
    exists a, rest. split; [exact E|]. split; [exact Ha|].
    rewrite (magnitude_decimal a rest Ha Hr), <- E.
    destruct (digits_pretty_N_go (N.pos p) ltac:(lia)) as [k Hk].
    rewrite Hk. reflexivity. }
  destruct n as [|p|p].
  - reflexivity.
  - destruct (Hpos p) as (a & rest & E & Ha & Hmag).
    change (pretty (Z.pos p)) with (pretty (N.pos p)). rewrite E.
    rewrite (proj1 (parseInt_unsigned a rest Ha)). exact Hmag.
  - destruct (Hpos p) as (a & rest & E & Ha & Hmag).
    change (pretty (Z.neg p)) with ("-" +:+ pretty (N.pos p)). rewrite E.
    rewrite (proj2 (parseInt_unsigned a rest Ha)), Hmag. reflexivity.
Qed.

End ParseIntFacts.

(** ** Strings and maps *)

Lemma array_includes_In arr s : JsString.array_includes arr s = true <-> In s arr.
Proof.
  unfold JsString.array_includes. rewrite existsb_exists. split.
  - intros (x & Hin & Heq). apply String.eqb_eq in Heq. now subst.
  - intros Hin. exists s. split; [exact Hin | apply String.eqb_refl].
Qed.

Lemma array_includes_false arr s : JsString.array_includes arr s = false <-> ~ In s arr.
Proof.
  rewrite <- array_includes_In. destruct (JsString.array_includes arr s); split; congruence.
Qed.

Section JsMapFacts.
Context {V : Type}.
Implicit Types (m : JsMap.t V) (k : string) (v : V).

Lemma JsMap_get_delete_eq k m : JsMap.get k (JsMap.delete k m) = None.
Proof.
  induction m as [|[k' v] m IH]; simpl; [reflexivity|].
  destruct (String.eqb k k') eqn:E; [exact IH|].
  simpl. rewrite E. exact IH.
Qed.

Lemma JsMap_get_delete_ne k k' m :
  k <> k' -> JsMap.get k' (JsMap.delete k m) = JsMap.get k' m.
Proof.
  intros Hne. induction m as [|[k0 v] m IH]; simpl; [reflexivity|].
  destruct (String.eqb k k0) eqn:E.
  - apply String.eqb_eq in E. subst k0.
    destruct (String.eqb k' k) eqn:E'; [|exact IH].
    apply String.eqb_eq in E'. congruence.
  - simpl. now rewrite IH.
Qed.

Lemma JsMap_get_set_eq k v m : JsMap.get k (JsMap.set k v m) = Some v.
Proof.
  induction m as [|[k' v'] m IH]; simpl.
  - now rewrite String.eqb_refl.
  - destruct (String.eqb k k') eqn:E; simpl.
    + now rewrite String.eqb_refl.
    + now rewrite E.
Qed.

Lemma JsMap_get_set_ne k k' v m :
  k <> k' -> JsMap.get k' (JsMap.set k v m) = JsMap.get k' m.
Proof.
  intros Hne.
  assert (Hf : String.eqb k' k = false) by (apply String.eqb_neq; congruence).
  induction m as [|[k0 v0] m IH]; simpl.
  - now rewrite Hf.
  - destruct (String.eqb k k0) eqn:E; simpl.
    + apply String.eqb_eq in E. subst k0. rewrite Hf.
      now apply JsMap_get_delete_ne.
    + now rewrite IH.
Qed.

End JsMapFacts.

(** ** The retry count read from the fragment *)

Lemma parseInt_empty : JsNumber.parseInt "" = NaN.
Proof. reflexivity. Qed.

(** C6, amended: for a fragment option [rc=N] whose value [parseInt] reads
    as a non-zero integer [n], as it does the decimal notation of [n], the
    reconnect count of the WebSocket requestor and the retry count of the
    HTTP requestor are both [min(|n|, 5)], a value between 1 and 5. *)
Theorem retry_count_clamped (cfg : Config) (h : HashParams) (s : string) (n : Z) :
  rc h = Some s ->
  JsNumber.parseInt s = Num n \/ s = pretty n ->
  n <> 0 ->
  clamped_as_claimed cfg h n /\ Z.min (Z.abs n) 5 <= 5.
Proof.
  intros Hrc Hparse Hn.
  assert (Hparse' : JsNumber.parseInt s = Num n).
  { destruct Hparse as [H | ->]; [exact H | apply ParseIntFacts.parseInt_pretty]. }
  assert (Hs : String.eqb s "" = false).
  { destruct (String.eqb s "") eqn:E; [|reflexivity].
    apply String.eqb_eq in E. subst s. rewrite parseInt_empty in Hparse'.
    discriminate. }
  unfold clamped_as_claimed, Retry.maxReconnects, Retry.maxRetries.
  rewrite Hrc, Hs. simpl. rewrite Hparse'.
  unfold JsNumber.or. simpl.
  assert (Hz : (n =? 0) = false) by (apply Z.eqb_neq; exact Hn).
  rewrite Hz. simpl. repeat split; lia.
Qed.

(** C6, witness: [rc=3] and [rc=-7] *)
Lemma retry_count_clamped_witness :
  (clamped_as_claimed Sample.cfg
     (BaseRequestor.fragment_spec "wss://app.example/ws#rc=3") 3 /\
   Z.min (Z.abs 3) 5 <= 5) /\
  (clamped_as_claimed Sample.cfg
     (BaseRequestor.fragment_spec "https://app.example/a#rp=5xx&rc=-7") (-7) /\
   Z.min (Z.abs (-7)) 5 <= 5).
Proof.
  split.
  - apply (retry_count_clamped Sample.cfg _ "3" 3);
      [reflexivity | left; reflexivity | lia].
  - apply (retry_count_clamped Sample.cfg _ "-7" (-7));
      [reflexivity | right; reflexivity | lia].
Defined.

(** C6, counterexample: [rc=0] reads as the integer 0, the HTTP retry count
    is then 0, below 1, and the WebSocket count is [MAX_RECONNECTS], not
    [min(|0|, 5)]. *)
Lemma retry_count_zero :
  let h := BaseRequestor.fragment_spec "https://app.example/a#rc=0" in
  rc h = Some "0" /\ JsNumber.parseInt "0" = Num 0 /\
  Retry.maxRetries h = Num 0 /\
  Retry.maxReconnects Sample.cfg h = Num 5 /\
  ~ clamped_as_claimed Sample.cfg h 0.
Proof.
  cbv zeta. repeat split; try reflexivity.
  intros (H & _). vm_compute in H. discriminate.
Qed.

(** ** The back-off schedule *)

Lemma rule_delay_values :
  map Retry.rule_delay (seq 0 5) = [500; 1000; 2000; 4000; 6000].
Proof. reflexivity. Qed.

Lemma http_delay_values :
  map (Retry.http_delay 500) (seq 1 5) = [500; 1000; 2000; 4000; 8000].
Proof. reflexivity. Qed.

Lemma ws_delay_rule k : ws_delay 500 k = Retry.rule_delay k.
Proof. induction k as [|k IH]; simpl; [reflexivity | now rewrite <- IH]. Qed.

Lemma ws_delay_shift b k : ws_delay (Retry.next_backoff b) k = ws_delay b (S k).
Proof.
  unfold ws_delay. induction k as [|k IH]; simpl; [reflexivity|].
  now rewrite IH.
Qed.

(** the HTTP delay agrees with the rule for the first four retries only *)
Lemma http_delay_rule k :
  (k < 4)%nat -> Retry.http_delay 500 (S k) = Retry.rule_delay k.
Proof.
  intros Hk.
  destruct k as [|[|[|[|k]]]]; try reflexivity; lia.
Qed.

Lemma loop_bound_clamped n : (Retry.loop_bound (Num (Z.min (Z.abs n) 5)) <= 7)%nat.
Proof. unfold Retry.loop_bound. lia. Qed.

(** ** The HTTP requestor: the retry loop *)

Module HttpFacts.
Import OptimizedHttpRequestor HttpProps.

Lemma makeRequest_frame w url method payload o w' r :
  makeRequest w url method payload o = (w', r) ->
  self w' = self w /\ emitted w' = emitted w /\ closeCalls w' = closeCalls w /\
  sleeps w' = sleeps w /\ alerts w' = alerts w /\
  exists k, (k <= 1)%nat /\
    requestsSent w' = requestsSent w ++ repeat (attempt method payload) k.
Proof.
  unfold makeRequest. intros H.
  destruct (getClientConfig (self w) url).
  - inversion H; subst. repeat split; try reflexivity.
    exists 0%nat. split; [lia | simpl; now rewrite app_nil_r].
  - destruct o; inversion H; subst; simpl; repeat split; try reflexivity;
      exists 1%nat; (split; [lia | reflexivity]).
Qed.

(** without a pool manager no attempt gets past [getClientConfig] *)
Lemma makeRequest_no_pool w url method payload o :
  poolManager (self w) = false ->
  exists msg, makeRequest w url method payload o = (w, inl (TypeError msg)).
Proof.
  intros Hp. unfold makeRequest, getClientConfig. rewrite Hp.
  destruct (_usePools (self w)); eauto.
Qed.

Section Loop.
Variable _shouldRetry : error -> list string -> bool.

(** What the loop does to the world: it waits [n] times, before retry 1, 2,
    ..., n, each time [backoffMs * 2^(k-1)]; it makes at most [n + 1]
    attempts, all with the same method and body; [n] is at most the retry
    count. *)
Lemma retry_loop_spec fuel :
  forall w url method payload net m pol rcount le w' le' resp,
    retry_loop _shouldRetry fuel w url method payload net (Num m) pol rcount le
    = Some (w', le', resp) ->
    exists n k : nat,
      sleeps w' =
        sleeps w ++ map (Retry.http_delay (backoffMs (self w))) (seq (S rcount) n) /\
      (n <> 0%nat -> Z.of_nat (rcount + n) <= m) /\
      (k <= S n)%nat /\
      requestsSent w' = requestsSent w ++ repeat (attempt method payload) k /\
      backoffMs (self w') = backoffMs (self w) /\
      poolManager (self w') = poolManager (self w) /\
      emitted w' = emitted w /\ closeCalls w' = closeCalls w /\
      alerts w' = alerts w.
Proof.
  induction fuel as [|fuel IH]; intros w url method payload net m pol rcount le
    w' le' resp H; simpl in H; [discriminate|].
  destruct (Z.of_nat rcount <=? m) eqn:Hle.
  2:{ inversion H; subst. exists 0%nat, 0%nat. simpl.
      rewrite !app_nil_r. repeat split; try reflexivity; lia. }
  destruct (makeRequest w url method payload (net rcount)) as [w1 [e|response]] eqn:Hmk.
  2:{ inversion H; subst.
      apply makeRequest_frame in Hmk as (Hs & He & Hc & Hsl & Ha & k & Hk & Hr).
      exists 0%nat, k. simpl. rewrite app_nil_r, Hs.
      repeat split; try assumption; try reflexivity; lia. }
  apply makeRequest_frame in Hmk as (Hs & He & Hc & Hsl & Ha & k & Hk & Hr).
  destruct ((Z.of_nat (S rcount) <=? m) && _shouldRetry e pol) eqn:Hretry.
  2:{ inversion H; subst. exists 0%nat, k. simpl. rewrite app_nil_r, Hs.
      repeat split; try assumption; try reflexivity; lia. }
  apply andb_prop in Hretry as [Hle' _]. apply Z.leb_le in Hle'.
  apply IH in H as (n & k' & Hsl' & Hn & Hk' & Hr' & Hb & Hp & He' & Hc' & Ha').
  simpl in *. rewrite Hs in *.
  exists (S n), (k + k')%nat. repeat split.
  - rewrite Hsl', Hsl, <- app_assoc. reflexivity.
  - intros _. destruct n as [|n]; [lia|].
    specialize (Hn ltac:(lia)). lia.
  - lia.
  - rewrite Hr', Hr, <- app_assoc, repeat_app. reflexivity.
  - exact Hb.
  - exact Hp.
  - congruence.
  - congruence.
  - congruence.
Qed.

(** the fuel given by [loop_bound] is enough *)
Lemma retry_loop_total fuel :
  forall w url method payload net m pol rcount le,
    (Z.to_nat m + 1 - rcount < fuel)%nat ->
    is_Some (retry_loop _shouldRetry fuel w url method payload net (Num m) pol
               rcount le).
Proof.
  induction fuel as [|fuel IH]; intros w url method payload net m pol rcount le
    Hf; [lia|]. simpl.
  destruct (Z.of_nat rcount <=? m) eqn:Hle; [|eauto].
  destruct (makeRequest w url method payload (net rcount)) as [w1 [e|response]];
    [|eauto].
  destruct ((Z.of_nat (S rcount) <=? m) && _shouldRetry e pol) eqn:Hretry; [|eauto].
  apply andb_prop in Hretry as [Hle' _]. apply Z.leb_le in Hle'.
  apply IH. lia.
Qed.

Lemma retry_loop_nan fuel w url method payload net pol rcount le :
  retry_loop _shouldRetry (S fuel) w url method payload net NaN pol rcount le
  = Some (w, le, JNull).
Proof. reflexivity. Qed.

(** without a pool manager every iteration fails before the network, so
    the loop ends with a [TypeError] as [lastError] and no response *)
Lemma retry_loop_no_pool fuel :
  forall w url method payload net m pol rcount le w' le' resp,
    poolManager (self w) = false ->
    Z.of_nat rcount <= m ->
    retry_loop _shouldRetry fuel w url method payload net (Num m) pol rcount le
    = Some (w', le', resp) ->
    (exists msg, le' = Some (TypeError msg)) /\ resp = JNull /\
    requestsSent w' = requestsSent w.
Proof.
  induction fuel as [|fuel IH]; intros w url method payload net m pol rcount le
    w' le' resp Hp Hle H; simpl in H; [discriminate|].
  apply Z.leb_le in Hle. rewrite Hle in H.
  destruct (makeRequest_no_pool w url method payload (net rcount) Hp) as [msg Hmk].
  rewrite Hmk in H.
  destruct ((Z.of_nat (S rcount) <=? m) && _shouldRetry (TypeError msg) pol) eqn:Hretry.
  - apply andb_prop in Hretry as [Hle' _]. apply Z.leb_le in Hle'.
    apply IH in H; [exact H | exact Hp | exact Hle'].
  - inversion H; subst. eauto.
Qed.

End Loop.
End HttpFacts.

(** ** The HTTP requestor: [request] *)

Module HttpRequest.
Import OptimizedHttpRequestor HttpProps HttpFacts.

Section Request.
Variable snakeCase : string -> string.
Variable cfg : Config.
Variable fragment : string -> HashParams.
Variable _shouldRetry : error -> list string -> bool.

Lemma request_http_path w type hook url params httpHeaders net :
  sends_over_http cfg type hook url ->
  request snakeCase cfg fragment _shouldRetry w type hook params httpHeaders net =
  let hashObj := fragment (absUrl w url) in
  match retry_loop _shouldRetry (Retry.loop_bound (Retry.maxRetries hashObj))
          (count_request w) url (method_or_POST hook) (payload_of snakeCase params)
          net (Retry.maxRetries hashObj) (Retry.retryPolicyValues hashObj) 0 None
  with
  | None => None
  | Some (w, lastError, response) =>
      let w := updateStats (negb (is_null response)) w in
      match lastError with
      | Some e =>
          if negb (Js.truthy (Some response)) then Some (handleError e w, Throw e)
          else Some (w, Return (Some response))
      | None => Some (w, Return (Some response))
      end
  end.
Proof.
  intros [Hne Hty Hurl Hgiven Hm Hno].
  unfold request. cbv zeta.
  apply String.eqb_neq in Hne. rewrite Hne.
  apply array_includes_In in Hty. rewrite Hty. cbn [negb].
  rewrite Hurl.
  apply String.eqb_neq in Hgiven. rewrite Hgiven.
  apply array_includes_In in Hm. rewrite Hm. cbn [negb].
  rewrite Hno. reflexivity.
Qed.

Lemma maxRetries_cases h :
  Retry.maxRetries h = NaN \/ exists m, Retry.maxRetries h = Num m /\ 0 <= m <= 5.
Proof.
  unfold Retry.maxRetries.
  destruct (JsNumber.parseInt _) as [|z]; simpl; [now left|].
  right. eexists. split; [reflexivity | lia].
Qed.

(** [request] always returns *)
Lemma http_request_total w type hook params httpHeaders net :
  is_Some (request snakeCase cfg fragment _shouldRetry w type hook params
             httpHeaders net).
Proof.
  unfold request.
  destruct (String.eqb type "jambonz:error"); [eauto|].
  destruct (negb _); [eauto|].
  destruct (hook_url hook) as [url|]; [|eauto].
  destruct (String.eqb url ""); [eauto|].
  destruct (negb _); [eauto|].
  destruct (_ && _); [eauto|].
  cbv zeta.
  match goal with
  | |- context [Retry.maxRetries ?h] =>
      destruct (maxRetries_cases h) as [Hn | (m & Hm & Hb)];
      [rewrite Hn | rewrite Hm]
  end.
  - simpl. eauto.
  - match goal with
    | |- context [retry_loop _ ?f ?w ?u ?me ?p ?n ?max ?pol 0%nat None] =>
        destruct (retry_loop_total _shouldRetry f w u me p n m pol 0%nat None)
          as [[[w1 le] resp] Hl]; [simpl; lia | rewrite Hl]
    end.
    destruct le; [destruct (negb _)|]; eauto.
Qed.

End Request.
End HttpRequest.

(** ** The HTTP requestor: status handling and the missing pool manager *)

Module HttpStatus.
Import OptimizedHttpRequestor HttpProps HttpFacts HttpRequest.

Lemma accepted_includes status :
  existsb (Z.eqb status) [200; 202; 204] = true <-> accepted status.
Proof.
  unfold accepted. cbn [existsb]. rewrite orb_false_r, !orb_true_iff, !Z.eqb_eq.
  tauto.
Qed.

(** C5, amended: when [makeRequest] obtains a response, a status of 200, 202
    or 204 with a content type that includes [application/json] yields the
    parsed body; one of these statuses with any other content type, or none,
    yields the empty string; every other status, the other 2xx included,
    fails with [HTTPResponseError] carrying the status. *)
Theorem status_handling (w : World) (url method abs : string) (payload : json)
    (resp : Response) :
  getClientConfig (self w) url = inr abs ->
  let out := snd (makeRequest w url method payload (NetResponse resp)) in
  (accepted (statusCode resp) -> json_content resp = true ->
   forall j, body_json resp = Some j -> out = inr j) /\
  (accepted (statusCode resp) -> json_content resp = false ->
   out = inr (JStr "")) /\
  (~ accepted (statusCode resp) ->
   out = inl (HTTPResponseError (statusCode resp))).
Proof.
  intros Hcfg. unfold makeRequest. rewrite Hcfg. cbn [snd].
  unfold handleResponse, json_content.
  destruct (existsb (Z.eqb (statusCode resp)) [200; 202; 204]) eqn:Hacc.
  - apply accepted_includes in Hacc. cbn [negb].
    repeat split.
    + intros _ Hjson j Hbody.
      destruct (content_type resp) as [ct|]; [|discriminate].
      rewrite Hjson, Hbody. reflexivity.
    + intros _ Hjson.
      destruct (content_type resp) as [ct|]; [|reflexivity].
      rewrite Hjson. reflexivity.
    + intros Hn. contradiction.
  - assert (Hn : ~ accepted (statusCode resp)).
    { intros Ha. apply accepted_includes in Ha. congruence. }
    cbn [negb]. repeat split; intros; try contradiction; reflexivity.
Qed.

(** C5, witness: 202 with a JSON body, 204 without content type, 301 *)
Lemma status_handling_witness :
  let w := initial (Sample.http_requestor Sample.cfg) in
  let out resp := snd (makeRequest w "/a" "POST" JNull (NetResponse resp)) in
  out (mkResponse 202 (Some "application/json; charset=utf-8") (Some (JArr [])))
    = inr (JArr []) /\
  out (mkResponse 204 None None) = inr (JStr "") /\
  out (mkResponse 301 (Some "text/html") None) = inl (HTTPResponseError 301).
Proof.
  cbv zeta. split; [|split].
  - apply (status_handling (initial (Sample.http_requestor Sample.cfg)) "/a" "POST"
             "https://app.example/a" JNull
             (mkResponse 202 (Some "application/json; charset=utf-8")
                (Some (JArr []))) eq_refl);
      [right; left; reflexivity | reflexivity | reflexivity].
  - apply (status_handling (initial (Sample.http_requestor Sample.cfg)) "/a" "POST"
             "https://app.example/a" JNull (mkResponse 204 None None) eq_refl);
      [right; right; reflexivity | reflexivity].
  - apply (status_handling (initial (Sample.http_requestor Sample.cfg)) "/a" "POST"
             "https://app.example/a" JNull
             (mkResponse 301 (Some "text/html") None) eq_refl).
    unfold accepted. simpl. lia.
Defined.

(** C5, counterexample: 201 is a 2xx status, the content type is JSON and
    the body parses, yet the request fails with [HTTPResponseError 201]. *)
Lemma status_201_rejected :
  let resp := mkResponse 201 (Some "application/json") (Some (JArr [])) in
  snd (makeRequest (initial (Sample.http_requestor Sample.cfg)) "/a" "POST" JNull
         (NetResponse resp)) = inl (HTTPResponseError 201) /\
  ~ success_as_claimed resp (JArr []).
Proof.
  cbv zeta. split; [reflexivity|].
  intros H. specialize (H ltac:(simpl; lia) eq_refl eq_refl). discriminate.
Qed.

(** [HTTP_POOL && parseInt(HTTP_POOL)] is falsy when the variable is unset
    or reads as 0 *)
Lemma usePools_off cfg :
  HTTP_POOL cfg = None \/ HTTP_POOL cfg = Some "0" -> usePools cfg = false.
Proof. unfold usePools. intros [-> | ->]; reflexivity. Qed.

Lemma constructor_poolManager cfg account_sid hook secret r :
  constructor cfg account_sid hook secret = inr r ->
  poolManager r = usePools cfg /\ _usePools r = usePools cfg /\ backoffMs r = 500.
Proof.
  unfold constructor. destruct (hook_url hook); [|discriminate].
  destruct (negb _); [discriminate|]. destruct (negb _); [discriminate|].
  intros H. inversion H. subst. simpl. auto.
Qed.

(** C10: with pooling off ([HTTP_POOL] unset or 0) the constructor assigns no
    pool manager, and then every [request] that reaches [makeRequest] is
    rejected with the [TypeError] of [getClientConfig]: nothing is put on
    the network, whatever the network would have answered, and the requestor
    stays without a pool manager for the next call.  The failure precedes
    the test of [HTTP_PROXY_IP], so it does not depend on a proxy. *)
Theorem no_pool_request_fails (snakeCase : string -> string) (cfg : Config)
    (fragment : string -> HashParams) (_shouldRetry : error -> list string -> bool) :
  HTTP_POOL cfg = None \/ HTTP_POOL cfg = Some "0" ->
  (forall account_sid hook secret r,
     constructor cfg account_sid hook secret = inr r -> poolManager r = false) /\
  (forall w type hook url params httpHeaders net,
     poolManager (self w) = false ->
     sends_over_http cfg type hook url ->
     Retry.maxRetries (fragment (absUrl w url)) <> NaN ->
     exists w' msg,
       request snakeCase cfg fragment _shouldRetry w type hook params httpHeaders net
       = Some (w', Throw (TypeError msg)) /\
       requestsSent w' = requestsSent w /\
       poolManager (self w') = false).
Proof.
  intros Hpool. split.
  - intros account_sid hook secret r Hc.
    apply constructor_poolManager in Hc as (-> & _). now apply usePools_off.
  - intros w type hook url params httpHeaders net Hp Hreq Hnan.
    rewrite (request_http_path snakeCase cfg fragment _shouldRetry w type hook url
               params httpHeaders net Hreq). cbv zeta.
    destruct (maxRetries_cases (fragment (absUrl w url))) as [Hn | (m & Hm & Hb)];
      [contradiction|].
    rewrite Hm.
    destruct (retry_loop_total _shouldRetry (Retry.loop_bound (Num m))
                (count_request w) url (method_or_POST hook)
                (payload_of snakeCase params) net m
                (Retry.retryPolicyValues (fragment (absUrl w url))) 0%nat None)
      as [[[w1 le] resp] Hl]; [simpl; lia|].
    rewrite Hl.
    pose proof (retry_loop_spec _ _ _ _ _ _ _ _ _ _ _ _ _ _ Hl)
      as (n & k & _ & _ & _ & _ & _ & Hpm & _).
    apply retry_loop_no_pool in Hl as ((msg & ->) & -> & Hsent);
      [| exact Hp | simpl; lia].
    simpl. exists (handleError (TypeError msg) (updateStats false w1)), msg.
    repeat split.
    + simpl. rewrite Hsent. reflexivity.
    + simpl. rewrite Hpm. exact Hp.
Qed.

(** C10, witness: a POST to the requestor's own URL with pooling off *)
Lemma no_pool_request_fails_witness :
  exists w' msg,
    Sample.http_request Sample.cfg_nopool "verb:hook"
      (HookString "https://app.example/a") Sample.session_params []
      (fun _ => NetResponse (mkResponse 200 None None))
    = Some (w', Throw (TypeError msg)) /\
    requestsSent w' = [] /\ poolManager (self w') = false.
Proof.
  apply (proj2 (no_pool_request_fails Sample.snake Sample.cfg_nopool
                  BaseRequestor.fragment_spec BaseRequestor.shouldRetry_spec
                  (or_intror eq_refl))
           (initial (Sample.http_requestor Sample.cfg_nopool)) "verb:hook"
           (HookString "https://app.example/a") "https://app.example/a").
  - reflexivity.
  - constructor; simpl; try reflexivity; try discriminate; tauto.
  - discriminate.
Defined.

End HttpStatus.

(** ** The WebSocket requestor: what no operation undoes *)

Module WsFacts.
Import WsRequestor WsProps.

Lemma stable_refl r : stable r r.
Proof. constructor; auto. Qed.

Lemma stable_trans r1 r2 r3 : stable r1 r2 -> stable r2 r3 -> stable r1 r3.
Proof.
  intros [] []. constructor; try congruence; auto.
Qed.

Lemma evolves_refl b w : evolves b w w.
Proof. constructor; auto using stable_refl. Qed.

Lemma evolves_trans b w1 w2 w3 : evolves b w1 w2 -> evolves b w2 w3 -> evolves b w1 w3.
Proof.
  intros [S1 P1 B1] [S2 P2 B2]. constructor.
  - eapply stable_trans; eassumption.
  - auto.
  - intros Hb. destruct (B1 Hb) as (? & ? & ?), (B2 Hb) as (? & ? & ?).
    repeat split; congruence.
Qed.

Lemma evolves_weaken b w w' : evolves true w w' -> evolves b w w'.
Proof.
  intros [S P B]. constructor; auto.
Qed.

(** a step that changes neither the object nor the promises, nor the waits
    or the sockets *)
Lemma evolves_same b w0 w w' :
  self w' = self w -> promises w' = promises w -> sleeps w' = sleeps w ->
  nextSocket w' = nextSocket w ->
  evolves b w0 w -> evolves b w0 w'.
Proof.
  intros Hs Hp Hsl Hn [S P B]. constructor; rewrite ?Hs, ?Hp, ?Hsl, ?Hn; auto.
Qed.

(** an update of the object that is [stable] and keeps the back-off *)
Lemma evolves_on_self b f w0 w :
  (forall r, stable r (f r) /\ backoffMs (f r) = backoffMs r) ->
  evolves b w0 w -> evolves b w0 (on_self f w).
Proof.
  intros Hf [S P B]. destruct (Hf (self w)) as [Hst Hb]. constructor; simpl.
  - eapply stable_trans; eassumption.
  - exact P.
  - intros Hs. destruct (B Hs) as (? & ? & ?). repeat split; congruence.
Qed.

Ltac stable_update :=
  intros; split; [constructor; simpl; auto | reflexivity].

Lemma evolves_settle b p s w0 w : evolves b w0 w -> evolves b w0 (settle p s w).
Proof.
  intros [S P B]. unfold settle.
  destruct (promises w !! p) eqn:E; [constructor; auto|].
  constructor; simpl; auto.
  intros q s' Hq. specialize (P q s' Hq).
  rewrite lookup_insert_ne; [exact P | congruence].
Qed.

Lemma evolves_set_closes b v w0 w : evolves b w0 w -> evolves b w0 (set_closes v w).
Proof. apply evolves_same; reflexivity. Qed.

Lemma evolves_set_alerts b v w0 w : evolves b w0 w -> evolves b w0 (set_alerts v w).
Proof. apply evolves_same; reflexivity. Qed.

Lemma evolves_set_uuids b v w0 w : evolves b w0 w -> evolves b w0 (set_uuids v w).
Proof. apply evolves_same; reflexivity. Qed.

Lemma evolves_set_nextSocket v w0 w :
  evolves false w0 w -> evolves false w0 (set_nextSocket v w).
Proof.
  intros [S P B]. constructor; auto. discriminate.
Qed.

Lemma evolves_clearTimeout b id w0 w : evolves b w0 w -> evolves b w0 (clearTimeout id w).
Proof. apply evolves_same; reflexivity. Qed.

Lemma evolves_emit b e w0 w : evolves b w0 w -> evolves b w0 (emit e w).
Proof. apply evolves_same; reflexivity. Qed.

Lemma evolves_send b sock f cb w0 w : evolves b w0 w -> evolves b w0 (send sock f cb w).
Proof. apply evolves_same; reflexivity. Qed.

Lemma evolves_new_promise b w0 w :
  evolves b w0 w -> evolves b w0 (snd (new_promise w)).
Proof. apply evolves_same; reflexivity. Qed.

Lemma evolves_setTimeout b cb w0 w :
  evolves b w0 w -> evolves b w0 (snd (setTimeout cb w)).
Proof. apply evolves_same; reflexivity. Qed.

Lemma evolves_success b e v w0 w : evolves b w0 w -> evolves b w0 (success e v w).
Proof.
  intros H. unfold success.
  destruct (_reconnectPromise _);
    repeat first [apply evolves_settle | apply evolves_clearTimeout]; exact H.
Qed.

Lemma evolves_failure b e err w0 w : evolves b w0 w -> evolves b w0 (failure e err w).
Proof.
  intros H. unfold failure.
  destruct (_reconnectPromise _);
    repeat first [apply evolves_settle | apply evolves_clearTimeout]; exact H.
Qed.

Lemma evolves_clear_loop b entries :
  forall w0 w, evolves b w0 w -> evolves b w0 (fst (clear_loop entries w)).
Proof.
  induction entries as [|[msgid [e|]] rest IH]; intros w0 w H; simpl; auto.
  apply IH. destruct (negb _).
  - apply evolves_failure, evolves_clearTimeout, H.
  - apply evolves_clearTimeout, H.
Qed.

Lemma evolves_clearPendingMessages b w0 w :
  evolves b w0 w -> evolves b w0 (fst (_clearPendingMessages w)).
Proof.
  intros H. unfold _clearPendingMessages.
  pose proof (evolves_clear_loop b (messagesInFlight (self w)) w0 w H) as H'.
  destruct (clear_loop _ w) as [w1 [e|]]; simpl in *; [exact H'|].
  apply evolves_on_self; [stable_update | exact H'].
Qed.

Lemma evolves_close b code w0 w : evolves b w0 w -> evolves b w0 (close code w).
Proof.
  intros H. unfold close. apply evolves_clearPendingMessages.
  destruct (ws (self (on_self (set_closedGracefully true) w))).
  - apply evolves_on_self; [stable_update|].
    apply evolves_set_closes.
    apply evolves_on_self; [stable_update | exact H].
  - apply evolves_on_self; [stable_update | exact H].
Qed.

Lemma evolves_queueMsg b type hook params hs w0 w :
  evolves b w0 w -> evolves b w0 (fst (queueMsg type hook params hs w)).
Proof.
  intros H. unfold queueMsg. destruct (negb _); simpl.
  - apply evolves_on_self; [stable_update|]. now apply evolves_new_promise.
  - apply evolves_on_self; [stable_update | exact H].
Qed.

Lemma evolves_set_nextPromise b v w0 w :
  evolves b w0 w -> evolves b w0 (set_nextPromise v w).
Proof. apply evolves_same; reflexivity. Qed.

Lemma evolves_set_timers b v w0 w : evolves b w0 w -> evolves b w0 (set_timers v w).
Proof. apply evolves_same; reflexivity. Qed.

Lemma evolves_set_nextTimer b v w0 w :
  evolves b w0 w -> evolves b w0 (set_nextTimer v w).
Proof. apply evolves_same; reflexivity. Qed.

Lemma evolves_set_wire b v w0 w : evolves b w0 w -> evolves b w0 (set_wire v w).
Proof. apply evolves_same; reflexivity. Qed.

Lemma evolves_set_emitted b v w0 w : evolves b w0 w -> evolves b w0 (set_emitted v w).
Proof. apply evolves_same; reflexivity. Qed.

Lemma evolves_set_sendCallbacks b v w0 w :
  evolves b w0 w -> evolves b w0 (set_sendCallbacks v w).
Proof. apply evolves_same; reflexivity. Qed.

Lemma evolves_set_sleeps v w0 w : evolves false w0 w -> evolves false w0 (set_sleeps v w).
Proof.
  intros [S P B]. constructor; auto. discriminate.
Qed.

Lemma evolves_set_backoffMs v w0 w :
  evolves false w0 w -> evolves false w0 (on_self (set_backoffMs v) w).
Proof.
  intros [S P B]. constructor; simpl; auto; [|discriminate].
  eapply stable_trans; [exact S|]. constructor; simpl; auto.
Qed.

(** one step of a proof that an operation [evolves]: peel the outermost
    update *)
Ltac evo :=
  repeat first
    [ assumption
    | apply evolves_refl
    | apply evolves_success
    | apply evolves_failure
    | apply evolves_close
    | apply evolves_clearPendingMessages
    | apply evolves_clearTimeout
    | apply evolves_emit
    | apply evolves_send
    | apply evolves_settle
    | apply evolves_on_self; [stable_update|]
    | apply evolves_set_closes
    | apply evolves_set_alerts
    | apply evolves_set_uuids
    | apply evolves_set_nextPromise
    | apply evolves_set_timers
    | apply evolves_set_nextTimer
    | apply evolves_set_wire
    | apply evolves_set_emitted
    | apply evolves_set_sendCallbacks ].

Ltac evo_cases :=
  unfold queueMsg, new_promise, setTimeout, emit, send, clearTimeout;
  repeat (case_match; simplify_eq; cbn [fst snd]); evo.

Section Model.
Variable snakeCase : string -> string.
Variable cfg : Config.
Variable _shouldRetry : error -> list string -> bool.
Variable short_generate : nat -> string.

Lemma evolves_request_entry b w0 w type hook params hs :
  evolves b w0 w -> evolves b w0 (fst (request_entry cfg w type hook params hs)).
Proof.
  intros H. unfold request_entry. cbv zeta. evo_cases.
Qed.

Lemma evolves_request_send b w0 w type hook params hs :
  evolves b w0 w ->
  evolves b w0 (fst (request_send snakeCase cfg short_generate w type hook params hs)).
Proof.
  intros H. unfold request_send. cbv zeta. evo_cases.
Qed.

End Model.

End WsFacts.

(** ** The WebSocket requestor: every action evolves the world *)

Module WsSteps.
Import WsRequestor WsProps WsFacts.

Ltac destruct_if_in H :=
  match type of H with
  | context [if ?c then _ else _] => destruct c eqn:?
  end.

Ltac destruct_if :=
  match goal with
  | |- context [if ?c then _ else _] => destruct c eqn:?
  end.

Section Model.
Variable snakeCase : string -> string.
Variable cfg : Config.
Variable _shouldRetry : error -> list string -> bool.
Variable short_generate : nat -> string.

Local Abbreviation request_send := (request_send snakeCase cfg short_generate).
Local Abbreviation reconnect_request := (reconnect_request snakeCase cfg short_generate).
Local Abbreviation _onOpen := (_onOpen snakeCase cfg short_generate).
Local Abbreviation _connect := (_connect snakeCase cfg short_generate).
Local Abbreviation connect_loop := (connect_loop snakeCase cfg _shouldRetry short_generate).
Local Abbreviation request := (request snakeCase cfg _shouldRetry short_generate).
Local Abbreviation _onMessage := (_onMessage snakeCase cfg _shouldRetry short_generate).
Local Abbreviation fire := (fire snakeCase cfg short_generate).
Local Abbreviation step := (step snakeCase cfg _shouldRetry short_generate).
Local Abbreviation run := (run snakeCase cfg _shouldRetry short_generate).

Lemma evolves_reconnect_request b w0 w :
  evolves b w0 w -> evolves b w0 (reconnect_request w).
Proof.
  intros H. unfold WsRequestor.reconnect_request.
  pose proof (evolves_request_entry cfg b w0 w "session:reconnect"
                (HookString (url (self w))) None [] H) as H1.
  destruct (request_entry _ _ _ _ _ _) as [w1 [r|]]; cbn [fst] in *; [exact H1|].
  now apply evolves_request_send.
Qed.

Lemma evolves_onOpen b sock w0 w : evolves b w0 w -> evolves b w0 (_onOpen sock w).
Proof.
  intros H. unfold WsRequestor._onOpen. cbv zeta.
  match goal with
  | |- context [if ?c then _ else _] => destruct c
  end.
  - apply evolves_reconnect_request. unfold emit. evo.
  - unfold emit. evo.
Qed.

Lemma evolves_onError b e w0 w : evolves b w0 w -> evolves b w0 (fst (_onError e w)).
Proof. intros H. unfold _onError, emit. repeat case_match; cbn [fst]; evo. Qed.

Lemma evolves_onUnexpectedResponse b c w0 w :
  evolves b w0 w -> evolves b w0 (fst (_onUnexpectedResponse c w)).
Proof. intros H. unfold _onUnexpectedResponse, emit. cbn [fst]. evo. Qed.

Lemma evolves_connect o w0 w :
  evolves false w0 w -> evolves false w0 (fst (_connect o w)).
Proof.
  intros H. unfold WsRequestor._connect.
  destruct (ws (self w)); cbn [fst]; [exact H|].
  destruct o; cbn [fst].
  - apply evolves_onOpen. now apply evolves_set_nextSocket.
  - apply evolves_onError. now apply evolves_set_nextSocket.
  - apply evolves_onUnexpectedResponse. now apply evolves_set_nextSocket.
Qed.

(** a connection attempt takes one socket and leaves the back-off and the
    waits as they are *)
Lemma connect_frame o w :
  ws (self w) = None ->
  let w' := fst (_connect o w) in
  backoffMs (self w') = backoffMs (self w) /\ sleeps w' = sleeps w /\
  nextSocket w' = S (nextSocket w).
Proof.
  intros Hws. cbv zeta. unfold WsRequestor._connect. rewrite Hws.
  set (w1 := set_nextSocket (S (nextSocket w)) w).
  assert (H : forall w2, evolves true w1 w2 ->
              backoffMs (self w2) = backoffMs (self w) /\ sleeps w2 = sleeps w /\
              nextSocket w2 = S (nextSocket w)).
  { intros w2 Hev. exact (ev_strict _ _ _ Hev eq_refl). }
  destruct o; cbn [fst]; apply H.
  - apply evolves_onOpen, evolves_refl.
  - apply evolves_onError, evolves_refl.
  - apply evolves_onUnexpectedResponse, evolves_refl.
Qed.

Lemma evolves_connect_loop fuel :
  forall w0 w conn rcount w' r,
    evolves false w0 w ->
    connect_loop fuel w conn rcount = Some (w', r) ->
    evolves false w0 w'.
Proof.
  induction fuel as [|fuel IH]; intros w0 w conn rcount w' r H Hl; simpl in Hl;
    [discriminate|].
  destruct_if_in Hl; [|now inversion Hl; subst].
  pose proof (evolves_connect (conn rcount) w0 (on_self (set_ws None) w)
                ltac:(evo)) as Hc.
  destruct (_connect (conn rcount) (on_self (set_ws None) w)) as [w1 [|e|]];
    cbn [fst] in Hc; try (now inversion Hl; subst).
  destruct_if_in Hl.
  - eapply IH; [|exact Hl].
    apply evolves_set_sleeps, evolves_set_backoffMs, Hc.
  - now inversion Hl; subst.
Qed.

(** the fuel given by [loop_bound] is enough *)
Lemma connect_loop_total fuel :
  forall w conn rcount m,
    maxReconnects (self w) = Num m ->
    (Z.to_nat m + 1 - rcount < fuel)%nat ->
    is_Some (connect_loop fuel w conn rcount).
Proof.
  induction fuel as [|fuel IH]; intros w conn rcount m Hm Hf; [lia|]. simpl.
  rewrite Hm. cbn [JsNumber.leb].
  destruct (Z.of_nat rcount <=? m) eqn:Hle; [|eauto].
  pose proof (evolves_connect (conn rcount) _ (on_self (set_ws None) w)
                (evolves_refl _ _)) as Hc.
  destruct (_connect (conn rcount) (on_self (set_ws None) w)) as [w1 [|e|]];
    cbn [fst] in Hc; eauto.
  assert (Hm1 : maxReconnects (self w1) = Num m).
  { rewrite (st_max _ _ (ev_stable _ _ _ Hc)). exact Hm. }
  rewrite Hm1. cbn [JsNumber.leb].
  destruct ((Z.of_nat (S rcount) <=? m) && _ && _) eqn:Hretry; [|eauto].
  apply andb_prop in Hretry as [Hretry _].
  apply andb_prop in Hretry as [Hle' _]. apply Z.leb_le in Hle'.
  eapply IH; [exact Hm1 | lia].
Qed.

Lemma connect_loop_bound_total w conn :
  is_Some (connect_loop (Retry.loop_bound (maxReconnects (self w))) w conn 0).
Proof.
  destruct (maxReconnects (self w)) as [|m] eqn:Hm.
  - simpl. rewrite Hm. simpl. eauto.
  - eapply connect_loop_total; [exact Hm | simpl; lia].
Qed.

(** [request] always returns *)
Lemma ws_request_total w type hook params hs conn :
  is_Some (request w type hook params hs conn).
Proof.
  unfold WsRequestor.request.
  destruct (request_entry _ _ _ _ _ _) as [w1 [r|]]; [eauto|].
  destruct (ws (self w1)); [eauto|].
  destruct (connect_loop_bound_total w1 conn) as [[w2 r] ->].
  destruct r; eauto.
Qed.

Lemma evolves_request_send_eq b w0 w type hook params hs w' r :
  request_send w type hook params hs = (w', r) ->
  evolves b w0 w -> evolves b w0 w'.
Proof.
  intros E H. change w' with (fst (w', r)). rewrite <- E.
  now apply evolves_request_send.
Qed.

Lemma evolves_request w0 w type hook params hs conn w' r :
  evolves false w0 w ->
  request w type hook params hs conn = Some (w', r) ->
  evolves false w0 w'.
Proof.
  intros H. unfold WsRequestor.request.
  pose proof (evolves_request_entry cfg false w0 w type hook params hs H) as H1.
  destruct (request_entry _ _ _ _ _ _) as [w1 [r1|]]; cbn [fst] in H1.
  { intros E. now inversion E; subst. }
  destruct (ws (self w1)).
  { destruct (request_send w1 type hook params hs) as [w2 r2] eqn:Hs.
    intros E. inversion E; subst.
    eapply evolves_request_send_eq; eassumption. }
  destruct (connect_loop _ _ _ _) as [[w2 r2]|] eqn:Hl; [|discriminate].
  apply evolves_connect_loop with (w0 := w0) in Hl; [|exact H1].
  destruct r2.
  - destruct (request_send w2 type hook params hs) as [w3 r3] eqn:Hs.
    intros E. inversion E; subst.
    eapply evolves_request_send_eq; eassumption.
  - intros E; inversion E; subst. evo.
  - intros E; inversion E; subst. exact Hl.
Qed.

Lemma evolves_recvAck b msgid data w0 w :
  evolves b w0 w -> evolves b w0 (_recvAck msgid data w).
Proof.
  intros H. unfold _recvAck. cbv zeta. repeat case_match; simplify_eq; evo.
Qed.

Lemma evolves_onMessage content isBinary conn w0 w w' :
  evolves false w0 w ->
  _onMessage content isBinary conn w = Some w' ->
  evolves false w0 w'.
Proof.
  intros H. unfold WsRequestor._onMessage. cbv zeta.
  destruct (Js.truthy _).
  { destruct (ws _); intros E; inversion E; subst; evo. }
  destruct (dispatch _ _).
  - intros E; inversion E; subst. now apply evolves_recvAck.
  - intros E; inversion E; subst. unfold _recvCommand, emit. evo.
  - destruct (request _ _ _ _ _ _) as [[w1 r]|] eqn:Hr; [|discriminate].
    intros E; inversion E; subst.
    eapply evolves_request; [|exact Hr]. evo.
Qed.

Lemma evolves_scheduleReconnect w0 w :
  evolves false w0 w -> evolves false w0 (_scheduleReconnect w).
Proof.
  intros H. unfold _scheduleReconnect, setTimeout.
  destruct H as [S P B]. constructor; simpl; auto; [|discriminate].
  eapply stable_trans; [exact S|]. constructor; simpl; auto.
Qed.

Lemma evolves_onSocketClosed w0 w :
  evolves false w0 w -> evolves false w0 (fst (_onSocketClosed w)).
Proof.
  intros H. unfold _onSocketClosed. cbv zeta.
  destruct (_ && _ && _); cbn [fst]; [|unfold emit; evo].
  destruct (negb _).
  - pose proof (evolves_clearPendingMessages false w0
                  (emit ConnectionDropped (on_self (set_ws None) w))
                  ltac:(unfold emit; evo)) as Hc.
    destruct (_clearPendingMessages _) as [w1 [e|]]; cbn [fst] in *; [exact Hc|].
    now apply evolves_scheduleReconnect.
  - cbn [fst]. apply evolves_scheduleReconnect. unfold emit. evo.
Qed.

Lemma evolves_onClose code w0 w : evolves false w0 w -> evolves false w0 (_onClose code w).
Proof.
  intros H. unfold _onClose. cbv zeta.
  destruct (_ && _).
  - pose proof (evolves_onSocketClosed w0 (emit SocketClosed w)
                  ltac:(unfold emit; evo)) as Hc.
    destruct (_onSocketClosed _) as [w1 [e|]]; cbn [fst] in Hc; evo.
  - destruct (code =? 1000); evo.
Qed.

Lemma evolves_fire id o w0 w : evolves false w0 w -> evolves false w0 (fire id o w).
Proof.
  intros H. unfold WsRequestor.fire.
  destruct (timers w !! id) as [[msgid delay|delay]|]; [| |exact H]; cbv zeta.
  - destruct (inflight _ _); unfold clearTimeout; evo.
  - destruct (ws _); [unfold clearTimeout; evo|].
    destruct (connectInProgress _); [unfold clearTimeout; evo|].
    match goal with
    | |- context [_connect o ?w1] =>
        pose proof (evolves_connect o w0 w1 ltac:(unfold clearTimeout; evo)) as Hc;
        destruct (_connect o w1) as [w2 []]; cbn [fst] in Hc; evo
    end.
Qed.

(** [step] is total: the loops of [request] have fuel enough *)
Lemma step_total w a : is_Some (step w a).
Proof.
  destruct a; simpl; eauto.
  - destruct (ws_request_total w type hook params httpHeaders conn) as [[w1 r] ->]. eauto.
  - unfold WsRequestor._onMessage. destruct (Js.truthy _).
    + destruct (ws _); eauto.
    + destruct (dispatch _ _); eauto.
      match goal with
      | |- context [request ?w1 ?t ?h ?p ?hs ?c] =>
          destruct (ws_request_total w1 t h p hs c) as [[w2 r] ->]
      end. eauto.
Qed.

Lemma evolves_step w0 w a w' :
  evolves false w0 w -> step w a = Some w' -> evolves false w0 w'.
Proof.
  intros H. destruct a; simpl.
  - destruct (request _ _ _ _ _ _) as [[w1 r]|] eqn:Hr; [|discriminate].
    intros E; inversion E; subst. eapply evolves_request; eassumption.
  - intros E; inversion E; subst. now apply evolves_close.
  - now apply evolves_onMessage.
  - intros E; inversion E; subst. now apply evolves_onClose.
  - intros E; inversion E; subst. now apply evolves_fire.
Qed.

Lemma run_total acts : forall w, is_Some (run w acts).
Proof.
  induction acts as [|a acts IH]; intros w; simpl; [eauto|].
  destruct (step_total w a) as [w1 ->]. apply IH.
Qed.

Lemma evolves_run acts :
  forall w0 w w', evolves false w0 w -> run w acts = Some w' -> evolves false w0 w'.
Proof.
  induction acts as [|a acts IH]; intros w0 w w' H; simpl.
  - intros E; inversion E; subst. exact H.
  - destruct (step w a) as [w1|] eqn:Hs; [|discriminate].
    apply IH. eapply evolves_step; eassumption.
Qed.

End Model.
End WsSteps.

(** ** The WebSocket requestor: discarded requests *)

Module WsDiscard.
Import WsRequestor WsProps WsFacts WsSteps.

Lemma close_closedGracefully code w : closedGracefully (self (close code w)) = true.
Proof.
  unfold close. cbv zeta.
  match goal with
  | |- closedGracefully (self (fst (_clearPendingMessages ?w1))) = true =>
      pose proof (evolves_clearPendingMessages true w1 w1 (evolves_refl _ _)) as H;
      apply (st_closed _ _ (ev_stable _ _ _ H))
  end.
  destruct (ws _); reflexivity.
Qed.

Lemma onClose_1000_closedGracefully w : closedGracefully (self (_onClose 1000 w)) = true.
Proof.
  unfold _onClose. cbv zeta. rewrite andb_false_r. reflexivity.
Qed.

Section Model.
Variable snakeCase : string -> string.
Variable cfg : Config.
Variable _shouldRetry : error -> list string -> bool.
Variable short_generate : nat -> string.

Local Abbreviation request := (request snakeCase cfg _shouldRetry short_generate).
Local Abbreviation run := (run snakeCase cfg _shouldRetry short_generate).
Local Abbreviation _onMessage := (_onMessage snakeCase cfg _shouldRetry short_generate).

(** a requestor that is closed gracefully, or takes its peer for malicious,
    leaves the world as it is on [request] *)
Lemma request_discards w type hook params hs conn :
  closedGracefully (self w) = true \/ maliciousClient (self w) = true ->
  exists r,
    request w type hook params hs conn = Some (w, r) /\
    (In type (HookMsgTypes cfg) -> r = Return None) /\
    (forall e, r = Throw e -> ~ In type (HookMsgTypes cfg)).
Proof.
  intros Hflag. unfold WsRequestor.request, request_entry.
  destruct (JsString.array_includes (HookMsgTypes cfg) type) eqn:Hty; cbn [negb].
  - assert (Hd : (if maliciousClient (self w) then true
                  else closedGracefully (self w)) = true).
    { destruct Hflag as [-> | ->]; [now destruct (maliciousClient _) | reflexivity]. }
    exists (Return None). split; [|split; [reflexivity | discriminate]].
    destruct (maliciousClient (self w)); [reflexivity|].
    rewrite Hd. reflexivity.
  - eexists. split; [reflexivity|]. apply array_includes_false in Hty.
    split; [contradiction | intros; exact Hty].
Qed.


(** the binary flag of a frame plays no part in [_onMessage] *)
Lemma onMessage_ignores_isBinary content conn w :
  _onMessage content true conn w = _onMessage content false conn w.
Proof. reflexivity. Qed.

End Model.


(** C1, at the failing input: a connected requestor receives a binary frame
    that is no JSON.  [_onMessage] tests [this.isBinary], not its parameter:
    the peer is not marked malicious, the socket is not closed, the frame is
    handled as text (an alert and a [jambonz:error] frame follow), and the
    next [request] writes a frame. *)
Theorem binary_frame_not_detected :
  let connected :=
    default (initial Sample.ws_requestor)
      (Sample.ws_run (initial Sample.ws_requestor)
         [CallRequest "session:new" (HookString "wss://app.example/ws")
            Sample.session_params [] Sample.always_open;
          OnMessage (Sample.ack_frame "m0" (JObj [])) false Sample.always_open]) in
  let after :=
    default connected
      (Sample.ws_run connected
         [OnMessage (mkInbound "(binary)" None) true Sample.always_open]) in
  let later :=
    default after
      (Sample.ws_run after
         [CallRequest "call:status" (HookString "/status") (Some (JObj [])) []
            Sample.always_open]) in
  ws (self connected) = Some 0%nat /\
  maliciousClient (self after) = false /\
  ws (self after) = Some 0%nat /\
  closes after = [] /\
  map (fun f => f_type (snd f)) (wire after) = ["session:new"; "jambonz:error"] /\
  map (fun f => f_type (snd f)) (wire later)
  = ["session:new"; "jambonz:error"; "call:status"].
Proof. vm_compute. repeat split. Qed.

End WsDiscard.

(** ** The WebSocket requestor: settling the promise of an entry *)

Module WsAckFacts.
Import WsRequestor WsProps WsFacts WsSteps.

Lemma settle_lookup p s w :
  promises w !! p = None -> promises (settle p s w) !! p = Some s.
Proof.
  intros H. unfold settle. rewrite H. simpl. apply lookup_insert_eq.
Qed.

Lemma settle_settled p q s s' w :
  promises w !! p = Some s -> promises (settle q s' w) !! p = Some s.
Proof.
  intros H. unfold settle. destruct (promises w !! q) eqn:E; [exact H|].
  simpl. rewrite lookup_insert_ne; [exact H | congruence].
Qed.

Lemma settle_other p q s w :
  promises w !! p = None -> p <> q -> promises (settle q s w) !! p = None.
Proof.
  intros H Hne. unfold settle. destruct (promises w !! q); [exact H|].
  simpl. rewrite lookup_insert_ne; [exact H | congruence].
Qed.

Lemma settle_frame p s w :
  self (settle p s w) = self w /\ timers (settle p s w) = timers w /\
  wire (settle p s w) = wire w.
Proof. unfold settle. destruct (promises w !! p); auto. Qed.

(** resolving twice with possibly different promises: the first settlement
    of [p] is the one given *)
Lemma success_promise e data w :
  promises w !! promise e = None ->
  promises (success e data w) !! promise e = Some (Resolved data) /\
  timers (success e data w) !! timer e = None /\
  self (success e data w) = self w.
Proof.
  intros Hp. unfold success. cbv zeta.
  set (w1 := settle (promise e) (Resolved data) (clearTimeout (timer e) w)).
  assert (H1 : promises w1 !! promise e = Some (Resolved data))
    by (apply settle_lookup; exact Hp).
  assert (H2 : timers w1 !! timer e = None).
  { unfold w1. rewrite (proj1 (proj2 (settle_frame _ _ _))). simpl.
    apply lookup_delete_eq. }
  assert (H3 : self w1 = self w) by (unfold w1; now rewrite (proj1 (settle_frame _ _ _))).
  destruct (_reconnectPromise (self w1)) as [p'|]; [|auto].
  destruct (settle_frame p' (Resolved None) w1) as (Hs & Ht & _).
  rewrite Hs, Ht. split; [|auto]. now apply settle_settled.
Qed.

Lemma failure_promise e err w :
  promises w !! promise e = None ->
  promises (failure e err w) !! promise e = Some (Rejected err) /\
  timers (failure e err w) !! timer e = None /\
  self (failure e err w) = self w.
Proof.
  intros Hp. unfold failure. cbv zeta.
  set (w1 := match _reconnectPromise (self w) with
             | Some p => settle p (Rejected err) w
             | None => w
             end).
  assert (Hs1 : self w1 = self w).
  { unfold w1. destruct (_reconnectPromise _); [|reflexivity].
    apply settle_frame. }
  assert (Hp1 : promises w1 !! promise e = None \/
                promises w1 !! promise e = Some (Rejected err)).
  { unfold w1. destruct (_reconnectPromise _) as [p'|]; [|now left].
    destruct (decide (promise e = p')) as [<-|Hne].
    - right. now apply settle_lookup.
    - left. now apply settle_other. }
  destruct (settle_frame (promise e) (Rejected err) (clearTimeout (timer e) w1))
    as (Hs & Ht & _).
  rewrite Hs, Ht. simpl. rewrite lookup_delete_eq. repeat split; [|exact Hs1].
  destruct Hp1 as [Hn | Hr].
  - now apply settle_lookup.
  - now apply settle_settled.
Qed.

Lemma inflight_delete_eq k r :
  inflight k (set_messagesInFlight (JsMap.delete k (messagesInFlight r)) r) = None.
Proof. unfold inflight. simpl. now rewrite JsMap_get_delete_eq. Qed.

Lemma inflight_set_eq k e r :
  inflight k (set_messagesInFlight (JsMap.set k (Some e) (messagesInFlight r)) r)
  = Some e.
Proof. unfold inflight. simpl. now rewrite JsMap_get_set_eq. Qed.

(** [_recvAck] on a registered entry whose promise is pending *)
Lemma recvAck_registered k e data w :
  inflight k (self w) = Some e ->
  promises w !! promise e = None ->
  let w' := _recvAck (Some (JStr k)) data w in
  inflight k (self w') = None /\ timers w' !! timer e = None /\
  promises w' !! promise e = Some (Resolved data) /\
  _initMsgId (self w') = None.
Proof.
  intros Hin Hp. cbv zeta. unfold _recvAck. cbv zeta.
  assert (Hin' : inflight k (self (on_self (set_initMsgId None) w)) = Some e)
    by exact Hin.
  rewrite Hin'.
  match goal with
  | |- context [success e data ?w1] =>
      destruct (success_promise e data w1 Hp) as (H1 & H2 & H3)
  end.
  rewrite H3. repeat split; try assumption.
  apply inflight_delete_eq.
Qed.

(** [_recvAck] on a [msgid] without entry: the ack is discarded *)
Lemma recvAck_unknown k data w :
  inflight k (self w) = None ->
  let w' := _recvAck (Some (JStr k)) data w in
  promises w' = promises w /\ timers w' = timers w /\
  messagesInFlight (self w') = messagesInFlight (self w) /\
  _initMsgId (self w') = None.
Proof.
  intros Hin. cbv zeta. unfold _recvAck. cbv zeta.
  assert (Hin' : inflight k (self (on_self (set_initMsgId None) w)) = None)
    by exact Hin.
  rewrite Hin'. auto.
Qed.

Section Model.
Variable snakeCase : string -> string.
Variable cfg : Config.
Variable _shouldRetry : error -> list string -> bool.
Variable short_generate : nat -> string.

Local Abbreviation fire := (fire snakeCase cfg short_generate).

(** the ack timer of a registered entry reaches its delay *)
Lemma fire_registered k e delay o w :
  timers w !! timer e = Some (AckTimeout k delay) ->
  inflight k (self w) = Some e ->
  promises w !! promise e = None ->
  let w' := fire (timer e) o w in
  inflight k (self w') = None /\ timers w' !! timer e = None /\
  promises w' !! promise e = Some (Rejected (StringError (timeout_message k))).
Proof.
  intros Ht Hin Hp. cbv zeta. unfold WsRequestor.fire. rewrite Ht. cbv zeta.
  assert (Hin' : inflight k (self (clearTimeout (timer e) w)) = Some e) by exact Hin.
  rewrite Hin'.
  destruct (failure_promise e (StringError (timeout_message k))
              (clearTimeout (timer e) w) Hp) as (H1 & H2 & H3).
  repeat split; try assumption.
  apply inflight_delete_eq.
Qed.

End Model.

End WsAckFacts.
(** ** The WebSocket requestor: the bookkeeping of timers, promises and
    identifiers *)

Module WsAllocated.
Import WsRequestor WsProps WsFacts WsSteps WsAckFacts.

Section Model.
Variable snakeCase : string -> string.
Variable cfg : Config.
Variable _shouldRetry : error -> list string -> bool.
Variable short_generate : nat -> string.

Local Abbreviation allocated := (allocated short_generate).
Local Abbreviation request_send := (request_send snakeCase cfg short_generate).
Local Abbreviation reconnect_request := (reconnect_request snakeCase cfg short_generate).
Local Abbreviation _onOpen := (_onOpen snakeCase cfg short_generate).
Local Abbreviation _connect := (_connect snakeCase cfg short_generate).
Local Abbreviation connect_loop := (connect_loop snakeCase cfg _shouldRetry short_generate).
Local Abbreviation request := (request snakeCase cfg _shouldRetry short_generate).
Local Abbreviation _onMessage := (_onMessage snakeCase cfg _shouldRetry short_generate).
Local Abbreviation fire := (fire snakeCase cfg short_generate).
Local Abbreviation step := (step snakeCase cfg _shouldRetry short_generate).
Local Abbreviation run := (run snakeCase cfg _shouldRetry short_generate).

(** the tables may lose entries and the counters may grow *)
Lemma allocated_mono w w' :
  allocated w ->
  (forall k e', inflight k (self w') = Some e' ->
                exists k0, inflight k0 (self w) = Some e') ->
  (forall id k d', timers w' !! id = Some (AckTimeout k d') ->
                   timers w !! id = Some (AckTimeout k d')) ->
  (nextTimer w <= nextTimer w')%nat ->
  (nextPromise w <= nextPromise w')%nat ->
  (uuids w <= uuids w')%nat ->
  allocated w'.
Proof.
  intros [He Ht] Hin Htm H1 H2 H3. split.
  - intros k e' Hk. destruct (Hin k e' Hk) as [k0 Hk0].
    destruct (He k0 e' Hk0). split; lia.
  - intros id k d' Hl. destruct (Ht id k d' (Htm _ _ _ Hl)) as (j & Hj & ->).
    exists j. split; [lia | reflexivity].
Qed.

Lemma allocated_same w w' :
  allocated w ->
  messagesInFlight (self w') = messagesInFlight (self w) ->
  timers w' = timers w ->
  (nextTimer w <= nextTimer w')%nat ->
  (nextPromise w <= nextPromise w')%nat ->
  (uuids w <= uuids w')%nat ->
  allocated w'.
Proof.
  intros H Hm Ht H1 H2 H3. apply (allocated_mono w); auto.
  - intros k e' Hk. exists k. unfold inflight in *. now rewrite <- Hm.
  - intros id k d' Hl. now rewrite <- Ht.
Qed.

Ltac same :=
  match goal with
  | H : allocated ?w |- _ =>
      apply (allocated_same w); [exact H | reflexivity | reflexivity | simpl; lia ..]
  end.

Lemma allocated_settle p s w : allocated w -> allocated (settle p s w).
Proof. intros H. unfold settle. destruct (promises w !! p); [exact H | same]. Qed.

Lemma allocated_clearTimeout id w : allocated w -> allocated (clearTimeout id w).
Proof.
  intros H. apply (allocated_mono w); simpl; eauto.
  intros id' k d' Hl. apply lookup_delete_Some in Hl. tauto.
Qed.

Lemma allocated_success e data w : allocated w -> allocated (success e data w).
Proof.
  intros H. unfold success. cbv zeta.
  destruct (_reconnectPromise _);
    repeat apply allocated_settle; now apply allocated_clearTimeout.
Qed.

Lemma allocated_failure e err w : allocated w -> allocated (failure e err w).
Proof.
  intros H. unfold failure. cbv zeta.
  apply allocated_settle, allocated_clearTimeout.
  destruct (_reconnectPromise _); [now apply allocated_settle | exact H].
Qed.

Lemma allocated_delete k w :
  allocated w ->
  allocated (on_self (fun r => set_messagesInFlight
                                 (JsMap.delete k (messagesInFlight r)) r) w).
Proof.
  intros H. apply (allocated_mono w); simpl; eauto.
  intros k' e' Hk. unfold inflight in Hk. simpl in Hk.
  destruct (decide (k = k')) as [<- | Hne].
  - rewrite JsMap_get_delete_eq in Hk. discriminate.
  - rewrite JsMap_get_delete_ne in Hk by exact Hne. exists k'. exact Hk.
Qed.

Lemma allocated_clear_loop entries :
  forall w, allocated w -> allocated (fst (clear_loop entries w)).
Proof.
  induction entries as [|[msgid [e|]] rest IH]; intros w H; simpl; auto.
  apply IH. destruct (negb _).
  - apply allocated_failure, allocated_clearTimeout, H.
  - apply allocated_clearTimeout, H.
Qed.

Lemma allocated_clearPendingMessages w :
  allocated w -> allocated (fst (_clearPendingMessages w)).
Proof.
  intros H. unfold _clearPendingMessages.
  pose proof (allocated_clear_loop (messagesInFlight (self w)) w H) as H'.
  destruct (clear_loop _ w) as [w1 [e|]]; cbn [fst] in *; [exact H'|].
  apply (allocated_mono w1); simpl; eauto.
  intros k e' Hk. discriminate.
Qed.

Lemma allocated_close code w : allocated w -> allocated (close code w).
Proof.
  intros H. unfold close. apply allocated_clearPendingMessages.
  destruct (ws (self (on_self (set_closedGracefully true) w))); same.
Qed.

Lemma allocated_queueMsg type hook params hs w :
  allocated w -> allocated (fst (queueMsg type hook params hs w)).
Proof. intros H. unfold queueMsg, new_promise. destruct (negb _); cbn [fst]; same. Qed.

Lemma allocated_request_entry type hook params hs w :
  allocated w -> allocated (fst (request_entry cfg w type hook params hs)).
Proof.
  intros H. unfold request_entry. cbv zeta.
  destruct (negb _); [exact H|].
  destruct (maliciousClient _); [exact H|].
  destruct (closedGracefully _); [exact H|].
  set (step1 := if String.eqb type "session:new" then _ else _).
  assert (Hstep : (exists err, step1 = inr err) \/
                  exists w1, step1 = inl w1 /\ allocated w1).
  { unfold step1. destruct (String.eqb type "session:new"); [|right; eauto].
    destruct params as [[]|]; eauto; right; eexists;
      (split; [reflexivity|]); same. }
  destruct Hstep as [[err ->] | (w1 & -> & H1)]; [exact H|].
  set (w2 := if String.eqb type "session:reconnect" then _ else w1).
  assert (H2 : allocated w2).
  { unfold w2. destruct (String.eqb type "session:reconnect"); [|exact H1].
    unfold new_promise. same. }
  clearbody w2.
  destruct (hook_url hook); [|exact H2].
  destruct (_ && _); cbn [fst].
  - destruct (String.eqb type "session:redirect"); [|exact H2].
    pose proof (allocated_close None w2 H2) as H3. unfold emit. same.
  - destruct (ws (self w2)); [exact H2|].
    destruct (connectInProgress _).
    + pose proof (allocated_queueMsg type hook params hs w2 H2) as H3.
      destruct (queueMsg _ _ _ _ _) as [w3 r]. exact H3.
    + cbn [fst]. same.
Qed.

(** re-keying moves an entry and adds none *)
Lemma allocated_rekey old msgid w :
  allocated w ->
  allocated
    (on_self (fun r =>
       set_initMsgId (Some msgid)
         (set_messagesInFlight
            (JsMap.set msgid (inflight old (self w))
               (JsMap.delete old (messagesInFlight r))) r)) w).
Proof.
  intros H. apply (allocated_mono w); simpl; eauto.
  intros k e' Hk. unfold inflight in Hk. simpl in Hk.
  destruct (decide (msgid = k)) as [<- | Hne].
  - rewrite JsMap_get_set_eq in Hk. exists old.
    fold (inflight old (self w)) in Hk.
    destruct (inflight old (self w)); [exact Hk | discriminate].
  - rewrite JsMap_get_set_ne in Hk by exact Hne.
    destruct (decide (old = k)) as [<- | Hne'].
    + rewrite JsMap_get_delete_eq in Hk. discriminate.
    + rewrite JsMap_get_delete_ne in Hk by exact Hne'. exists k. exact Hk.
Qed.

(** registering a send under an identifier that was drawn *)
Lemma allocated_register j delay w :
  allocated w -> (j < uuids w)%nat ->
  allocated
    (on_self (fun r =>
       set_messagesInFlight
         (JsMap.set (short_generate j)
            (Some (mkEntry (nextTimer w) (nextPromise w))) (messagesInFlight r)) r)
       (snd (setTimeout (AckTimeout (short_generate j) delay)
               (snd (new_promise w))))).
Proof.
  intros [He Ht] Hj. split; simpl.
  - intros k e' Hk. unfold inflight in Hk. simpl in Hk.
    destruct (decide (short_generate j = k)) as [<- | Hne].
    + rewrite JsMap_get_set_eq in Hk. inversion Hk; subst. simpl. lia.
    + rewrite JsMap_get_set_ne in Hk by exact Hne.
      destruct (He k e' Hk). lia.
  - intros id k d' Hl. destruct (decide (nextTimer w = id)) as [<- | Hne].
    + rewrite lookup_insert_eq in Hl. inversion Hl; subst. eauto.
    + rewrite lookup_insert_ne in Hl by exact Hne. eauto.
Qed.

Lemma allocated_request_send type hook params hs w :
  allocated w -> allocated (fst (request_send w type hook params hs)).
Proof.
  intros H. unfold WsRequestor.request_send. cbv zeta.
  destruct (negb _ && _); [now apply allocated_queueMsg|].
  destruct (ws (self w)) as [sock|] eqn:Hws; [|exact H].
  destruct (hook_url hook) as [url|]; [|exact H].
  set (w1 := if String.eqb type "session:new" || String.eqb type "session:adulting"
             then _ else w).
  assert (H1 : allocated w1) by (unfold w1; destruct (_ || _); [same | exact H]).
  clearbody w1.
  destruct (String.eqb url ""); [exact H1|]. cbn [fst snd].
  set (w2 := if String.eqb type "session:new" then _ else _).
  assert (H2 : allocated w2 /\ uuids w2 = S (uuids w1)).
  { unfold w2. destruct (String.eqb type "session:new");
      (split; [same | reflexivity]). }
  destruct H2 as [H2 Hu].
  set (w3 := if String.eqb type "session:reconnect" && _ then _ else w2).
  assert (H3 : allocated w3 /\ uuids w3 = S (uuids w1)).
  { unfold w3. destruct (_ && _); [|now split].
    split; [|exact Hu]. now apply allocated_rekey. }
  destruct H3 as [H3 Hu3]. clearbody w3.
  destruct (negb (negb _) || _).
  - cbn [fst]. unfold send. same.
  - unfold new_promise, setTimeout. cbv beta iota. cbn [fst].
    pose proof (allocated_register (uuids w1) (RESPONSE_TIMEOUT_MS cfg) w3 H3
                  ltac:(lia)) as H4.
    unfold send. same.
Qed.

Lemma allocated_request_send_eq w type hook params hs w' r :
  request_send w type hook params hs = (w', r) -> allocated w -> allocated w'.
Proof.
  intros E H. change w' with (fst (w', r)). rewrite <- E.
  now apply allocated_request_send.
Qed.

Lemma allocated_reconnect_request w :
  allocated w -> allocated (reconnect_request w).
Proof.
  intros H. unfold WsRequestor.reconnect_request.
  pose proof (allocated_request_entry "session:reconnect"
                (HookString (url (self w))) None [] w H) as H1.
  destruct (request_entry _ _ _ _ _ _) as [w1 [r|]]; cbn [fst] in *; [exact H1|].
  now apply allocated_request_send.
Qed.

Lemma allocated_onOpen sock w : allocated w -> allocated (_onOpen sock w).
Proof.
  intros H. unfold WsRequestor._onOpen. cbv zeta.
  match goal with
  | |- context [if ?c then _ else _] => destruct c
  end; [apply allocated_reconnect_request|]; unfold emit; same.
Qed.

Lemma allocated_connect o w : allocated w -> allocated (fst (_connect o w)).
Proof.
  intros H. unfold WsRequestor._connect.
  destruct (ws (self w)); cbn [fst]; [exact H|].
  destruct o; cbn [fst].
  - apply allocated_onOpen. same.
  - unfold _onError, emit. repeat case_match; cbn [fst]; same.
  - unfold _onUnexpectedResponse, emit. cbn [fst]. same.
Qed.

Lemma allocated_connect_loop fuel :
  forall w conn rcount w' r,
    allocated w -> connect_loop fuel w conn rcount = Some (w', r) -> allocated w'.
Proof.
  induction fuel as [|fuel IH]; intros w conn rcount w' r H Hl; simpl in Hl;
    [discriminate|].
  destruct_if_in Hl; [|now inversion Hl; subst].
  pose proof (allocated_connect (conn rcount) (on_self (set_ws None) w)
                ltac:(same)) as Hc.
  destruct (_connect (conn rcount) (on_self (set_ws None) w)) as [w1 [|e|]];
    cbn [fst] in Hc; try (now inversion Hl; subst).
  destruct_if_in Hl.
  - eapply IH; [|exact Hl]. same.
  - now inversion Hl; subst.
Qed.

Lemma allocated_request w type hook params hs conn w' r :
  allocated w -> request w type hook params hs conn = Some (w', r) -> allocated w'.
Proof.
  intros H. unfold WsRequestor.request.
  pose proof (allocated_request_entry type hook params hs w H) as H1.
  destruct (request_entry _ _ _ _ _ _) as [w1 [r1|]]; cbn [fst] in H1.
  { intros E. now inversion E; subst. }
  destruct (ws (self w1)).
  { destruct (request_send w1 type hook params hs) as [w2 r2] eqn:Hs.
    intros E. inversion E; subst.
    eapply allocated_request_send_eq; eassumption. }
  destruct (connect_loop _ _ _ _) as [[w2 r2]|] eqn:Hl; [|discriminate].
  apply allocated_connect_loop in Hl; [|exact H1].
  destruct r2.
  - destruct (request_send w2 type hook params hs) as [w3 r3] eqn:Hs.
    intros E. inversion E; subst.
    eapply allocated_request_send_eq; eassumption.
  - intros E; inversion E; subst. same.
  - intros E; inversion E; subst. exact Hl.
Qed.

Lemma allocated_recvAck msgid data w :
  allocated w -> allocated (_recvAck msgid data w).
Proof.
  intros H. unfold _recvAck. cbv zeta.
  assert (H0 : allocated (on_self (set_initMsgId None) w)) by same.
  destruct msgid as [[| | |k| |]|]; try exact H0.
  destruct (inflight k _); [|exact H0].
  now apply allocated_success, allocated_delete.
Qed.

Lemma allocated_onMessage content isBinary conn w w' :
  allocated w -> _onMessage content isBinary conn w = Some w' -> allocated w'.
Proof.
  intros H. unfold WsRequestor._onMessage. cbv zeta.
  destruct (Js.truthy _).
  { destruct (ws _); intros E; inversion E; subst; same. }
  destruct (dispatch _ _).
  - intros E; inversion E; subst. now apply allocated_recvAck.
  - intros E; inversion E; subst. unfold _recvCommand, emit. same.
  - destruct (request _ _ _ _ _ _) as [[w1 r]|] eqn:Hr; [|discriminate].
    intros E; inversion E; subst.
    eapply allocated_request; [|exact Hr]. same.
Qed.

(** a reconnect timer is no ack timer *)
Lemma allocated_scheduleReconnect w : allocated w -> allocated (_scheduleReconnect w).
Proof.
  intros H. unfold _scheduleReconnect, setTimeout.
  apply (allocated_mono w); simpl; eauto.
  intros id k d' Hl. destruct (decide (nextTimer w = id)) as [<- | Hne].
  - rewrite lookup_insert_eq in Hl. discriminate.
  - rewrite lookup_insert_ne in Hl by exact Hne. exact Hl.
Qed.

Lemma allocated_onSocketClosed w : allocated w -> allocated (fst (_onSocketClosed w)).
Proof.
  intros H. unfold _onSocketClosed. cbv zeta.
  assert (H0 : allocated (emit ConnectionDropped (on_self (set_ws None) w)))
    by (unfold emit; same).
  destruct (_ && _ && _); cbn [fst]; [|exact H0].
  destruct (negb _).
  - pose proof (allocated_clearPendingMessages _ H0) as Hc.
    destruct (_clearPendingMessages _) as [w1 [e|]]; cbn [fst] in *; [exact Hc|].
    now apply allocated_scheduleReconnect.
  - cbn [fst]. now apply allocated_scheduleReconnect.
Qed.

Lemma allocated_onClose code w : allocated w -> allocated (_onClose code w).
Proof.
  intros H. unfold _onClose. cbv zeta.
  destruct (_ && _).
  - pose proof (allocated_onSocketClosed (emit SocketClosed w)
                  ltac:(unfold emit; same)) as Hc.
    destruct (_onSocketClosed _) as [w1 [e|]]; cbn [fst] in Hc; [exact Hc | same].
  - destruct (code =? 1000); same.
Qed.

Lemma allocated_fire id o w : allocated w -> allocated (fire id o w).
Proof.
  intros H. unfold WsRequestor.fire.
  destruct (timers w !! id) as [[msgid delay|delay]|]; [| |exact H]; cbv zeta.
  - apply allocated_delete.
    destruct (inflight _ _); [apply allocated_failure|];
      now apply allocated_clearTimeout.
  - pose proof (allocated_clearTimeout id w H) as H1.
    destruct (ws _); [exact H1|].
    destruct (connectInProgress _); [exact H1|].
    match goal with
    | |- context [_connect o ?w1] =>
        pose proof (allocated_connect o w1 ltac:(same)) as Hc;
        destruct (_connect o w1) as [w2 []]; cbn [fst] in Hc;
        try exact Hc; same
    end.
Qed.

Lemma allocated_step w a w' : allocated w -> step w a = Some w' -> allocated w'.
Proof.
  intros H. destruct a; simpl.
  - destruct (request _ _ _ _ _ _) as [[w1 r]|] eqn:Hr; [|discriminate].
    intros E; inversion E; subst. eapply allocated_request; eassumption.
  - intros E; inversion E; subst. now apply allocated_close.
  - now apply allocated_onMessage.
  - intros E; inversion E; subst. now apply allocated_onClose.
  - intros E; inversion E; subst. now apply allocated_fire.
Qed.

Lemma allocated_run acts :
  forall w w', allocated w -> run w acts = Some w' -> allocated w'.
Proof.
  induction acts as [|a acts IH]; intros w w' H; simpl.
  - intros E; inversion E; subst. exact H.
  - destruct (step w a) as [w1|] eqn:Hs; [|discriminate].
    apply IH. eapply allocated_step; eassumption.
Qed.

(** a constructed requestor starts with empty tables *)
Lemma allocated_initial fragment account_sid hook secret r :
  constructor cfg fragment account_sid hook secret = inr r ->
  allocated (initial r).
Proof.
  unfold constructor. destruct (hook_url hook); [|discriminate].
  destruct (negb _); [discriminate|]. intros E. inversion E; subst.
  split; [intros k e' Hk; discriminate|].
  intros id k d' Hl. simpl in Hl. rewrite lookup_empty in Hl. discriminate.
Qed.

(** the bookkeeping holds in every world a constructed requestor reaches *)
Lemma allocated_reachable fragment account_sid hook secret r acts w :
  constructor cfg fragment account_sid hook secret = inr r ->
  run (initial r) acts = Some w ->
  allocated w.
Proof.
  intros Hc Hrun. eapply allocated_run; [|exact Hrun].
  eapply allocated_initial; exact Hc.
Qed.

End Model.
End WsAllocated.
(** ** The WebSocket requestor: a send stays in flight until its ack or its
    timeout *)

Module WsInFlight.
Import WsRequestor WsProps WsFacts WsSteps WsAckFacts.

Lemma inflight_set_ne k k' v r :
  k <> k' ->
  inflight k' (set_messagesInFlight (JsMap.set k v (messagesInFlight r)) r)
  = inflight k' r.
Proof. intros H. unfold inflight. simpl. now rewrite JsMap_get_set_ne. Qed.

Lemma inflight_delete_ne k k' r :
  k <> k' ->
  inflight k' (set_messagesInFlight (JsMap.delete k (messagesInFlight r)) r)
  = inflight k' r.
Proof. intros H. unfold inflight. simpl. now rewrite JsMap_get_delete_ne. Qed.

Section Model.
Variable snakeCase : string -> string.
Variable cfg : Config.
Variable _shouldRetry : error -> list string -> bool.
Variable short_generate : nat -> string.
Variables (m : string) (e : Entry) (d : Z).

Local Abbreviation in_flight := (in_flight short_generate m e d).
Local Abbreviation request_send := (request_send snakeCase cfg short_generate).
Local Abbreviation request := (request snakeCase cfg _shouldRetry short_generate).
Local Abbreviation _onOpen := (_onOpen snakeCase cfg short_generate).
Local Abbreviation _connect := (_connect snakeCase cfg short_generate).
Local Abbreviation _onMessage := (_onMessage snakeCase cfg _shouldRetry short_generate).
Local Abbreviation fire := (fire snakeCase cfg short_generate).
Local Abbreviation step := (step snakeCase cfg _shouldRetry short_generate).
Local Abbreviation run := (run snakeCase cfg _shouldRetry short_generate).

(** a change of the world that touches none of what [in_flight] reads,
    except that counters may grow and the socket may come back *)
Lemma in_flight_frame w w' :
  in_flight w ->
  messagesInFlight (self w') = messagesInFlight (self w) ->
  timers w' = timers w ->
  promises w' = promises w ->
  (forall p', _reconnectPromise (self w') = Some p' ->
              _reconnectPromise (self w) = Some p' \/ (nextPromise w <= p')%nat) ->
  (nextPromise w <= nextPromise w')%nat ->
  (nextTimer w <= nextTimer w')%nat ->
  (uuids w <= uuids w')%nat ->
  (ws (self w') <> None \/ closedGracefully (self w') = true) ->
  in_flight w'.
Proof.
  intros [H1 H2 H3 H4 H5 [H6 H6'] H7 H8 H9] Hm Ht Hp Hr Hnp Hnt Hu Hs.
  constructor; unfold inflight in *; rewrite ?Hm, ?Ht, ?Hp; auto.
  - intros p' Hp'. destruct (Hr p' Hp') as [Hold | Hnew]; [now apply H5 | lia].
  - split; lia.
  - intros j Hj. apply H8. lia.
Qed.

(** settling another promise *)
Lemma in_flight_settle p s w :
  in_flight w -> p <> promise e -> in_flight (settle p s w).
Proof.
  intros [H1 H2 H3 H4 H5 H6 H7 H8 H9] Hne. unfold settle.
  destruct (promises w !! p); [now constructor|].
  constructor; simpl; auto. rewrite lookup_insert_ne; [exact H3 | exact Hne].
Qed.

(** clearing another timer *)
Lemma in_flight_clearTimeout id w :
  in_flight w -> id <> timer e -> in_flight (clearTimeout id w).
Proof.
  intros [H1 H2 H3 H4 H5 H6 H7 H8 H9] Hne. constructor; simpl; auto.
  - rewrite lookup_delete_ne; [exact H2 | exact Hne].
  - intros id' k d' Hid Hl. destruct (decide (id = id')) as [<- | Hd].
    + rewrite lookup_delete_eq in Hl. discriminate.
    + rewrite lookup_delete_ne in Hl by exact Hd. eapply H7; eassumption.
Qed.

(** removing another entry *)
Lemma in_flight_delete k w :
  in_flight w -> k <> m ->
  in_flight (on_self (fun r => set_messagesInFlight
                                 (JsMap.delete k (messagesInFlight r)) r) w).
Proof.
  intros [H1 H2 H3 H4 H5 H6 H7 H8 H9] Hne. constructor; auto.
  - simpl. rewrite inflight_delete_ne; [exact H1 | exact Hne].
  - intros k' e' Hk' Hin. simpl in Hin.
    destruct (decide (k = k')) as [<- | Hd].
    + rewrite inflight_delete_eq in Hin. discriminate.
    + rewrite inflight_delete_ne in Hin by exact Hd. eapply H4; eassumption.
Qed.

Lemma in_flight_success e' data w :
  in_flight w -> timer e' <> timer e -> promise e' <> promise e ->
  in_flight (success e' data w).
Proof.
  intros H Ht Hp. unfold success. cbv zeta.
  assert (H1 : in_flight (settle (promise e') (Resolved data)
                            (clearTimeout (timer e') w))).
  { apply in_flight_settle; [|exact Hp]. now apply in_flight_clearTimeout. }
  destruct (_reconnectPromise _) as [p'|] eqn:E; [|exact H1].
  apply in_flight_settle; [exact H1|]. exact (if_reconnect _ _ _ _ _ H1 p' E).
Qed.

Lemma in_flight_failure e' err w :
  in_flight w -> timer e' <> timer e -> promise e' <> promise e ->
  in_flight (failure e' err w).
Proof.
  intros H Ht Hp. unfold failure. cbv zeta.
  apply in_flight_settle; [|exact Hp]. apply in_flight_clearTimeout; [|exact Ht].
  destruct (_reconnectPromise (self w)) as [p'|] eqn:E; [|exact H].
  apply in_flight_settle; [exact H|]. exact (if_reconnect _ _ _ _ _ H p' E).
Qed.

(** an ack for another [msgid] *)
Lemma in_flight_recvAck msgid data w :
  in_flight w -> msgid <> Some (JStr m) -> in_flight (_recvAck msgid data w).
Proof.
  intros H Hne. unfold _recvAck. cbv zeta.
  assert (H0 : in_flight (on_self (set_initMsgId None) w)).
  { apply (in_flight_frame w); try reflexivity; try lia; auto.
    exact (if_socket _ _ _ _ _ H). }
  destruct msgid as [[| | |k| |]|]; try exact H0.
  assert (Hk : k <> m) by congruence.
  destruct (inflight k _) as [e'|] eqn:E; [|exact H0].
  destruct (if_others _ _ _ _ _ H0 k e' Hk E) as [Ht Hp].
  apply in_flight_success; [|exact Ht | exact Hp].
  now apply in_flight_delete.
Qed.

(** queueing a message *)
Lemma in_flight_queueMsg type hook params hs w :
  in_flight w -> in_flight (fst (queueMsg type hook params hs w)).
Proof.
  intros H. unfold queueMsg, new_promise. destruct (negb _); cbn [fst];
    apply (in_flight_frame w); simpl; try reflexivity; try lia; auto;
    exact (if_socket _ _ _ _ _ H).
Qed.

(** the part of [request] after the connection, for a type other than
    [session:reconnect] *)
Lemma in_flight_request_send type hook params hs w :
  in_flight w -> type <> "session:reconnect" ->
  in_flight (fst (request_send w type hook params hs)).
Proof.
  intros H Hty. apply String.eqb_neq in Hty.
  unfold WsRequestor.request_send. cbv zeta. rewrite Hty. cbn [negb andb].
  destruct (bool_decide _); [now apply in_flight_queueMsg|].
  destruct (ws (self w)) as [sock|] eqn:Hws; [|exact H].
  destruct (hook_url hook) as [url|]; [|exact H].
  set (w1 := if String.eqb type "session:new" || String.eqb type "session:adulting"
             then _ else w).
  assert (H1 : in_flight w1).
  { unfold w1. destruct (_ || _); [|exact H].
    apply (in_flight_frame w); try reflexivity; try lia; auto.
    exact (if_socket _ _ _ _ _ H). }
  assert (Hws1 : ws (self w1) = Some sock).
  { unfold w1. destruct (_ || _); exact Hws. }
  destruct (String.eqb url ""); [exact H1|]. cbn [fst snd].
  set (B := short_generate (uuids w1)).
  assert (HB : B <> m) by (apply (if_uuid _ _ _ _ _ H1); lia).
  set (w2 := if String.eqb type "session:new" then _ else _).
  assert (H2 : in_flight w2 /\ uuids w2 = S (uuids w1)).
  { unfold w2. destruct (String.eqb type "session:new"); (split; [|reflexivity]);
      apply (in_flight_frame w1); try reflexivity; try (simpl; lia); auto;
      exact (if_socket _ _ _ _ _ H1). }
  destruct H2 as [H2 Hu2].
  destruct (negb (negb _) || false) eqn:Hack.
  - cbn [fst]. apply (in_flight_frame w2); try reflexivity; try lia; auto.
    exact (if_socket _ _ _ _ _ H2).
  - cbn [fst new_promise setTimeout snd].
    destruct H2 as [G1 G2 G3 G4 G5 [G6 G6'] G7 G8 G9].
    constructor; simpl.
    + rewrite inflight_set_ne; [exact G1 | exact HB].
    + rewrite lookup_insert_ne; [exact G2 | lia].
    + exact G3.
    + intros k e' Hk Hin. destruct (decide (B = k)) as [<- | Hd].
      * rewrite inflight_set_eq in Hin. inversion Hin; subst. simpl. split; lia.
      * rewrite inflight_set_ne in Hin by exact Hd. eapply G4; eassumption.
    + exact G5.
    + split; lia.
    + intros id k d' Hid Hl. destruct (decide (nextTimer w2 = id)) as [<- | Hd].
      * rewrite lookup_insert_eq in Hl. inversion Hl; subst. exact HB.
      * rewrite lookup_insert_ne in Hl by exact Hd. eapply G7; eassumption.
    + exact G8.
    + exact G9.
Qed.

(** a quiet call of [request] *)
Lemma in_flight_request type hook params hs conn w w' r :
  in_flight w ->
  ~ closes_on_handover type hook -> type <> "session:reconnect" ->
  request w type hook params hs conn = Some (w', r) ->
  in_flight w'.
Proof.
  intros H Hno Hty. unfold WsRequestor.request, request_entry. cbv zeta.
  destruct (negb _); [intros E; now inversion E; subst|].
  destruct (maliciousClient _); [intros E; now inversion E; subst|].
  destruct (closedGracefully (self w)) eqn:Hcl; [intros E; now inversion E; subst|].
  assert (Hws : ws (self w) <> None).
  { destruct (if_socket _ _ _ _ _ H) as [Hs | Hc]; [exact Hs | congruence]. }
  set (step1 := if String.eqb type "session:new" then _ else _).
  assert (Hstep : (exists err, step1 = inr err) \/
                  exists w1, step1 = inl w1 /\ in_flight w1 /\
                             ws (self w1) = ws (self w)).
  { unfold step1. destruct (String.eqb type "session:new"); [|right; eauto].
    destruct params as [[]|]; eauto; right; eexists;
      (split; [reflexivity|]); (split; [|reflexivity]);
      apply (in_flight_frame w); try reflexivity; try lia; auto. }
  destruct Hstep as [[err ->] | (w1 & -> & H1 & Hws1)];
    [intros E; now inversion E; subst|].
  apply String.eqb_neq in Hty. rewrite Hty. cbv beta iota zeta.
  destruct (hook_url hook) as [url|] eqn:Hurl; [|intros E; now inversion E; subst].
  destruct (_ && _) eqn:Hhttp.
  { destruct (String.eqb type "session:redirect") eqn:Hred.
    - exfalso. apply Hno. split; [now apply String.eqb_eq|]. eauto.
    - intros E; now inversion E; subst. }
  rewrite Hws1. destruct (ws (self w)) as [sock|] eqn:Hsock; [|congruence].
  cbv beta iota. rewrite Hws1.
  destruct (request_send w1 type hook params hs) as [w2 r2] eqn:Hs.
  intros E. inversion E; subst.
  change w' with (fst (w', r)). rewrite <- Hs.
  apply in_flight_request_send; [exact H1|]. now apply String.eqb_neq.
Qed.

(** the call [this.request('session:reconnect', this.url)] of a closed
    requestor is discarded *)
Lemma reconnect_request_closed w :
  closedGracefully (self w) = true ->
  reconnect_request snakeCase cfg short_generate w = w.
Proof.
  intros Hc. unfold WsRequestor.reconnect_request, request_entry.
  destruct (negb _); [reflexivity|].
  destruct (maliciousClient _); [reflexivity|]. rewrite Hc. reflexivity.
Qed.

(** a connection attempt of a requestor whose send is in flight: the socket
    can only be missing because the requestor is closed *)
Lemma in_flight_connect o w :
  in_flight w -> closedGracefully (self w) = true ->
  in_flight (fst (_connect o w)).
Proof.
  intros H Hc. unfold WsRequestor._connect.
  destruct (ws (self w)); [exact H|].
  destruct o; cbn [fst].
  - unfold WsRequestor._onOpen. cbv zeta.
    match goal with
    | |- context [if ?c then _ else _] => destruct c
    end; [rewrite reconnect_request_closed by exact Hc|];
      apply (in_flight_frame w); try reflexivity; simpl; try lia; auto.
  - unfold _onError. repeat case_match; cbn [fst];
      apply (in_flight_frame w); try reflexivity; simpl; try lia; auto.
  - unfold _onUnexpectedResponse. cbn [fst].
    apply (in_flight_frame w); try reflexivity; simpl; try lia; auto.
Qed.

(** another timer reaches its delay *)
Lemma in_flight_fire id o w :
  in_flight w -> id <> timer e -> in_flight (fire id o w).
Proof.
  intros H Hid. unfold WsRequestor.fire.
  destruct (timers w !! id) as [[k delay|delay]|] eqn:Ht; [| |exact H]; cbv zeta.
  - assert (Hk : k <> m) by (eapply (if_timers _ _ _ _ _ H); eassumption).
    pose proof (in_flight_clearTimeout id w H Hid) as H1.
    apply in_flight_delete; [|exact Hk].
    destruct (inflight k _) as [e'|] eqn:E; [|exact H1].
    destruct (if_others _ _ _ _ _ H1 k e' Hk E) as [Hte Hpe].
    now apply in_flight_failure.
  - pose proof (in_flight_clearTimeout id w H Hid) as H1.
    destruct (ws (self (clearTimeout id w))) eqn:Hws; [exact H1|].
    destruct (connectInProgress _); [exact H1|].
    assert (Hc : closedGracefully (self w) = true).
    { destruct (if_socket _ _ _ _ _ H) as [Hs | Hc]; [|exact Hc].
      exfalso. apply Hs. exact Hws. }
    set (w2 := on_self (set_connectInProgress true) (clearTimeout id w)).
    assert (H2 : in_flight w2).
    { apply (in_flight_frame (clearTimeout id w)); try reflexivity; try lia; auto. }
    pose proof (in_flight_connect o w2 H2 Hc) as H3.
    destruct (_connect o w2) as [w3 res]. cbn [fst] in H3.
    destruct res; try exact H3;
      apply (in_flight_frame w3); try reflexivity; try lia; auto;
      try exact (if_socket _ _ _ _ _ H3).
Qed.

(** One quiet action on a world where the send is in flight: the send stays
    in flight, or the action is its ack or its timeout and the promise is
    settled accordingly, the entry gone. *)
Lemma step_in_flight a w w' :
  in_flight w -> quiet a -> step w a = Some w' ->
  in_flight w' \/
  (ack_or_timeout_outcome w' (promise e) m /\ inflight m (self w') = None).
Proof.
  intros H Hq. destruct a as [type hook params hs conn | code | content b conn
                              | code | id o]; simpl in Hq |- *.
  - destruct Hq as [Hno Hty].
    destruct (request w type hook params hs conn) as [[w1 r]|] eqn:Hr; [|discriminate].
    intros E. inversion E; subst. left. eapply in_flight_request; eassumption.
  - contradiction.
  - unfold WsRequestor._onMessage. cbn [this_isBinary Js.truthy].
    destruct (dispatch (self w) content) as [msgid data | c | message].
    + intros E. inversion E; subst.
      assert (Hcase : msgid = Some (JStr m) \/ msgid <> Some (JStr m)).
      { destruct msgid as [[]|]; try (right; discriminate).
        match goal with
        | |- Some (JStr ?k) = _ \/ _ =>
            destruct (decide (k = m)) as [-> | Hk];
            [left; reflexivity | right; congruence]
        end. }
      destruct Hcase as [-> | Hne].
      * right.
        destruct (recvAck_registered m e data w (if_entry _ _ _ _ _ H)
                    (if_promise _ _ _ _ _ H)) as (H1 & _ & H3 & _).
        split; [left; eauto | exact H1].
      * left. now apply in_flight_recvAck.
    + intros E. inversion E; subst. left.
      apply (in_flight_frame w); try reflexivity; try lia; auto.
      exact (if_socket _ _ _ _ _ H).
    + match goal with
      | |- context [request ?w1 ?t ?h ?p ?hs ?c] =>
          destruct (request w1 t h p hs c) as [[w2 r]|] eqn:Hr; [|discriminate];
          assert (H1 : in_flight w1)
      end.
      { apply (in_flight_frame w); try reflexivity; try lia; auto.
        exact (if_socket _ _ _ _ _ H). }
      intros E. inversion E; subst. left.
      eapply in_flight_request; [exact H1 | | | exact Hr].
      * intros [Hred _]. discriminate.
      * discriminate.
  - subst code. intros E. inversion E; subst. left.
    unfold _onClose. cbv zeta. rewrite andb_false_r. cbn [Z.eqb Pos.eqb].
    apply (in_flight_frame w); try reflexivity; try lia; auto.
  - intros E. inversion E; subst.
    destruct (decide (id = timer e)) as [-> | Hne].
    + right.
      destruct (fire_registered snakeCase cfg short_generate m e d o w
                  (if_timer _ _ _ _ _ H) (if_entry _ _ _ _ _ H)
                  (if_promise _ _ _ _ _ H)) as (H1 & _ & H3).
      split; [right; exact H3 | exact H1].
    + left. now apply in_flight_fire.
Qed.

Lemma outcome_run acts w w' :
  ack_or_timeout_outcome w (promise e) m -> run w acts = Some w' ->
  ack_or_timeout_outcome w' (promise e) m.
Proof.
  intros Ho Hrun.
  pose proof (evolves_run snakeCase cfg _shouldRetry short_generate acts w w w'
                (evolves_refl _ _) Hrun) as Hev.
  destruct Ho as [[data Hd] | Hr]; [left; exists data | right];
    eapply (ev_settled _ _ _ Hev); eassumption.
Qed.

(** Over any sequence of quiet actions the send is still in flight or has
    met one of the two outcomes; and it has met one once its timer has
    reached its delay. *)
Lemma run_in_flight acts : forall w w',
  in_flight w -> Forall quiet acts -> run w acts = Some w' ->
  (in_flight w' \/ ack_or_timeout_outcome w' (promise e) m) /\
  ((exists o, In (TimerFires (timer e) o) acts) ->
   ack_or_timeout_outcome w' (promise e) m).
Proof.
  induction acts as [|a acts IH]; intros w w' H Hq Hrun.
  - inversion Hrun; subst. split; [now left|]. intros [o []].
  - inversion Hq as [|? ? Hqa Hqs]; subst. cbn [WsRequestor.run] in Hrun.
    destruct (step w a) as [w1|] eqn:Hstep; [|discriminate].
    destruct (step_in_flight a w w1 H Hqa Hstep) as [H1 | [Ho _]].
    + destruct (IH w1 w' H1 Hqs Hrun) as [IH1 IH2]. split; [exact IH1|].
      intros [o [Heq | Hin]]; [|apply IH2; eauto].
      subst a. cbn [WsRequestor.step] in Hstep. inversion Hstep; subst.
      eapply outcome_run; [|exact Hrun]. right.
      exact (proj2 (proj2 (fire_registered snakeCase cfg short_generate m e d o w
                             (if_timer _ _ _ _ _ H) (if_entry _ _ _ _ _ H)
                             (if_promise _ _ _ _ _ H)))).
    + assert (Ho' : ack_or_timeout_outcome w' (promise e) m)
        by (eapply outcome_run; eassumption).
      split; [now right | intros _; exact Ho'].
Qed.

End Model.

(** an ack-expecting send that goes out at once leaves its entry in flight *)
Lemma request_send_in_flight snakeCase cfg short_generate
    (w : World) (type : string) (hook : Hook) (url : string)
    (params : value) (hs : headers) (sock : nat) :
  JsString.array_includes MTYPE_WANTS_ACK type = false ->
  type <> "session:reconnect" ->
  _reconnectPromise (self w) = None ->
  ws (self w) = Some sock ->
  hook_url hook = Some url ->
  url <> "" ->
  promises w !! nextPromise w = None ->
  Inj (=) (=) short_generate ->
  allocated short_generate w ->
  in_flight short_generate (short_generate (uuids w))
    (mkEntry (nextTimer w) (nextPromise w)) (RESPONSE_TIMEOUT_MS cfg)
    (fst (request_send snakeCase cfg short_generate w type hook params hs)).
Proof.
  intros Hack Hty Hrp Hws Hurl Hgiven Hfresh Hinj [Hent Htim].
  assert (Hgen : forall j, (uuids w < j)%nat ->
                           short_generate j <> short_generate (uuids w)).
  { intros j Hj Heq. apply Hinj in Heq. lia. }
  unfold request_send. cbv zeta.
  apply String.eqb_neq in Hty. apply String.eqb_neq in Hgiven.
  rewrite Hrp, Hws, Hurl, Hack, Hty, Hgiven.
  rewrite andb_false_r. cbn [negb andb orb].
  destruct (String.eqb type "session:new" || String.eqb type "session:adulting");
    destruct (String.eqb type "session:new");
    cbn [fst snd new_promise setTimeout];
    (constructor;
     [ apply inflight_set_eq
     | simpl; apply lookup_insert_eq
     | exact Hfresh
     | intros k e' Hk Hin; unfold inflight in Hin; simpl in Hin;
       rewrite JsMap_get_set_ne in Hin by congruence;
       destruct (Hent k e' Hin); simpl; split; lia
     | simpl; rewrite Hrp; discriminate
     | simpl; split; lia
     | simpl; intros id k d' Hid Hl; rewrite lookup_insert_ne in Hl by congruence;
       destruct (Htim id k d' Hl) as (j & Hj & ->); intros Heq;
       apply Hinj in Heq; lia
     | simpl; intros j Hj; apply Hgen; lia
     | simpl; left; rewrite Hws; discriminate ]).
Qed.

End WsInFlight.
(** ** The WebSocket requestor: acks, timeouts and re-keying *)

Module WsAck.
Import WsRequestor WsProps WsFacts WsSteps WsAckFacts WsInFlight.

Section Model.
Variable snakeCase : string -> string.
Variable cfg : Config.
Variable _shouldRetry : error -> list string -> bool.
Variable short_generate : nat -> string.

Local Abbreviation request_send := (request_send snakeCase cfg short_generate).
Local Abbreviation fire := (fire snakeCase cfg short_generate).
Local Abbreviation run := (run snakeCase cfg _shouldRetry short_generate).
Local Abbreviation _onOpen := (_onOpen snakeCase cfg short_generate).


(** C3, amended: the socket reopens ([_onOpen], at least one connection
    before it) while the [session:new] sent under [A] is still unacked
    ([_initMsgId] is [A] and its entry is registered).  The requestor then
    writes a [session:reconnect] frame under a new [msgid] [B], carrying the
    cached session data, and moves the entry from [A] to [B].  An ack for [B]
    resolves the promise of the [session:new] with its data and clears
    [_initMsgId].  An ack for [A] finds no entry and is discarded: the promise
    stays pending, and the entry stays under [B]. *)
Theorem reconnect_rekeys (w : World) (sock : nat) (A : string) (e : Entry) :
  In "session:reconnect" (HookMsgTypes cfg) ->
  maliciousClient (self w) = false ->
  closedGracefully (self w) = false ->
  (1 <= connections (self w))%nat ->
  _initMsgId (self w) = Some A ->
  A <> "" ->
  inflight A (self w) = Some e ->
  promises w !! promise e = None ->
  url (self w) <> "" ->
  (BaseRequestor._isAbsoluteUrl (url (self w))
   && JsString.startsWith (url (self w)) "http") = false ->
  let B := short_generate (uuids w) in
  let w1 := _onOpen sock w in
  (exists f, wire w1 = wire w ++ [(sock, f)] /\ f_type f = "session:reconnect" /\
             f_msgid f = B /\ f_data f = spread (_sessionData (self w))) /\
  inflight B (self w1) = Some e /\
  (A <> B -> inflight A (self w1) = None) /\
  _initMsgId (self w1) = Some B /\
  promises w1 !! promise e = None /\
  (forall data,
     let w2 := _recvAck (Some (JStr B)) data w1 in
     promises w2 !! promise e = Some (Resolved data) /\
     _initMsgId (self w2) = None /\ inflight B (self w2) = None) /\
  (A <> B ->
   forall data,
     let w2 := _recvAck (Some (JStr A)) data w1 in
     promises w2 !! promise e = None /\ inflight B (self w2) = Some e).
Proof.
  intros Hty Hmal Hclosed Hconn Hinit HA Hin Hp Hurl Hws. cbv zeta.
  apply array_includes_In in Hty. apply String.eqb_neq in Hurl.
  assert (HA' : str_truthy (Some A) = true).
  { simpl. apply String.eqb_neq in HA. now rewrite HA. }
  assert (Hc : (1 <? S (connections (self w)))%nat = true)
    by (apply Nat.ltb_lt; lia).
  unfold WsRequestor._onOpen. cbv zeta.
  cbn [self on_self emit set_self set_emitted connections set_connections
       set_connectInProgress set_ws].
  rewrite Hc.
  unfold WsRequestor.reconnect_request, request_entry. cbv zeta.
  cbn [self on_self emit set_self set_emitted connections set_connections
       set_connectInProgress set_ws maliciousClient closedGracefully url
       hook_url ws fst snd new_promise set_nextPromise set_reconnectPromise
       account_sid secret].
  rewrite Hty, Hmal, Hclosed, Hws. cbn [negb String.eqb Ascii.eqb Bool.eqb].
  cbn [self on_self emit set_self set_emitted connections set_connections
       set_connectInProgress set_ws maliciousClient closedGracefully url
       hook_url ws fst snd new_promise set_nextPromise set_reconnectPromise
       account_sid secret].
  unfold WsRequestor.request_send. cbv zeta.
  cbn [negb String.eqb Ascii.eqb Bool.eqb andb orb].
  cbn [self on_self emit set_self set_emitted connections set_connections
       set_connectInProgress set_ws maliciousClient closedGracefully url
       hook_url ws fst snd new_promise set_nextPromise set_reconnectPromise
       account_sid secret _initMsgId set_initMsgId set_uuids uuids].
  rewrite Hurl, Hinit, HA'.
  cbn [negb andb orb default fst snd].
  rewrite orb_true_r. cbn [fst snd].
  set (w1 := send _ _ _ _).
  assert (Hin1 : inflight (short_generate (uuids w)) (self w1) = Some e).
  { unfold w1, inflight. simpl. rewrite JsMap_get_set_eq.
    unfold inflight in Hin. destruct (JsMap.get A _) as [[x|]|]; congruence. }
  assert (Hp1 : promises w1 !! promise e = None) by exact Hp.
  assert (HinA : A <> short_generate (uuids w) -> inflight A (self w1) = None).
  { intros Hne. unfold w1, inflight. simpl.
    rewrite JsMap_get_set_ne by congruence. now rewrite JsMap_get_delete_eq. }
  split; [|split; [|split; [|split; [|split; [|split]]]]].
  - eexists. split; [reflexivity|]. repeat split.
  - exact Hin1.
  - exact HinA.
  - reflexivity.
  - exact Hp1.
  - intros data. cbv zeta.
    destruct (recvAck_registered _ _ data w1 Hin1 Hp1) as (H1 & H2 & H3 & H4). auto.
  - intros Hne data. cbv zeta.
    pose proof (recvAck_unknown A data w1 (HinA Hne)) as HU. cbv zeta in HU.
    destruct HU as (H1 & H2 & H3 & H4).
    split; [rewrite H1; exact Hp1|].
    unfold inflight in *. rewrite H3. exact Hin1.
Qed.

End Model.

End WsAck.

(** ** The WebSocket requestor: the claims on acks at concrete worlds *)

Module WsAckExamples.
Import WsRequestor WsProps WsAckFacts WsAck.

(** the identifiers of the sample are distinct *)
Lemma uuid_inj : Inj (=) (=) Sample.uuid.
Proof.
  intros i j H. unfold Sample.uuid in H. cbn [String.append] in H.
  injection H as H'. exact (pretty_nat_inj _ _ H').
Qed.

(** a world with nothing in flight and no timer keeps its books *)
Lemma allocated_empty gen w :
  messagesInFlight (self w) = [] -> timers w = ∅ -> allocated gen w.
Proof.
  intros Hm Ht. split.
  - intros k e' H. unfold inflight in H. rewrite Hm in H. discriminate.
  - intros id k d' H. rewrite Ht, lookup_empty in H. discriminate.
Qed.

(** the connected requestor of the sample has nothing in flight *)
Lemma connected_allocated : allocated Sample.uuid Sample.connected.
Proof. apply allocated_empty; vm_compute; reflexivity. Qed.



(** C3, witness: the socket dropped with 1011 before the ack of the
    [session:new] sent under [m0]; on reopening, the entry moves to [m1] *)
Lemma reconnect_rekeys_witness :
  let w1 := _onOpen Sample.snake Sample.cfg Sample.uuid 1 Sample.dropped in
  inflight "m1" (self w1) = Some (mkEntry 0 0) /\
  inflight "m0" (self w1) = None /\
  promises (_recvAck (Some (JStr "m1")) (Some (JObj [])) w1) !! 0%nat
  = Some (Resolved (Some (JObj []))) /\
  promises (_recvAck (Some (JStr "m0")) (Some (JObj [])) w1) !! 0%nat = None.
Proof.
  destruct (reconnect_rekeys Sample.snake Sample.cfg Sample.uuid Sample.dropped
              1%nat "m0" (mkEntry 0 0)
              ltac:(simpl; tauto) eq_refl eq_refl ltac:(vm_compute; lia) eq_refl
              ltac:(discriminate) eq_refl eq_refl ltac:(discriminate) eq_refl)
    as (_ & Hin & HinA & _ & _ & HackB & HackA).
  split; [exact Hin|].
  split; [exact (HinA ltac:(discriminate))|].
  split.
  - exact (proj1 (HackB (Some (JObj [])))).
  - exact (proj1 (HackA ltac:(discriminate) (Some (JObj [])))).
Defined.

(** C3, counterexample: in that world an ack carrying the original [msgid]
    [m0] does not resolve the promise of the [session:new]; the requestor has
    no entry under [m0] any more. *)
Lemma original_msgid_not_acked :
  exists w,
    Sample.ws_run Sample.dropped [TimerFires 1 ConnOpen] = Some w /\
    inflight "m1" (self w) = Some (mkEntry 0 0) /\
    promises (_recvAck (Some (JStr "m0")) (Some (JObj [])) w) !! 0%nat = None /\
    ~ resolves_on_ack w "m0" 0.
Proof.
  eexists. split; [vm_compute; reflexivity|].
  split; [vm_compute; reflexivity|].
  split; [vm_compute; reflexivity|].
  intros H. specialize (H (Some (JObj []))). vm_compute in H. discriminate.
Qed.

End WsAckExamples.

(** ** The waits between attempts *)

Module Backoff.
Import WsRequestor WsProps WsFacts WsSteps.

Section Model.
Variable snakeCase : string -> string.
Variable cfg : Config.
Variable fragment : string -> HashParams.
Variable _shouldRetry : error -> list string -> bool.
Variable short_generate : nat -> string.

Local Abbreviation connect_loop :=
  (connect_loop snakeCase cfg _shouldRetry short_generate).
Local Abbreviation _connect := (_connect snakeCase cfg short_generate).
Local Abbreviation http_request :=
  (OptimizedHttpRequestor.request snakeCase cfg fragment _shouldRetry).

(** What the connection loop does to the world: it waits [n] times, each
    time the current back-off, which it then advances; it opens at most
    [n + 1] sockets; [n] is at most the reconnect count. *)
Lemma connect_loop_spec fuel :
  forall w conn rcount m w' r,
    maxReconnects (self w) = Num m ->
    connect_loop fuel w conn rcount = Some (w', r) ->
    exists n : nat,
      sleeps w' = sleeps w ++ map (ws_delay (backoffMs (self w))) (seq 0 n) /\
      backoffMs (self w') = ws_delay (backoffMs (self w)) n /\
      (n <> 0%nat -> Z.of_nat (rcount + n) <= m) /\
      (nextSocket w' <= nextSocket w + S n)%nat.
Proof.
  induction fuel as [|fuel IH]; intros w conn rcount m w' r Hm Hl; simpl in Hl;
    [discriminate|].
  rewrite Hm in Hl. cbn [JsNumber.leb] in Hl.
  destruct (Z.of_nat rcount <=? m) eqn:Hle.
  2:{ inversion Hl; subst. exists 0%nat. simpl. rewrite app_nil_r.
      repeat split; try reflexivity; lia. }
  pose proof (connect_frame snakeCase cfg short_generate (conn rcount)
                (on_self (set_ws None) w) eq_refl) as Hf.
  cbv zeta in Hf. simpl in Hf.
  pose proof (evolves_connect snakeCase cfg short_generate (conn rcount) _
                (on_self (set_ws None) w) (evolves_refl _ _)) as Hev.
  destruct (_connect (conn rcount) (on_self (set_ws None) w)) as [w1 res].
  cbn [fst] in Hf, Hev. destruct Hf as (Hb & Hs & Hn).
  assert (Hm1 : maxReconnects (self w1) = Num m).
  { rewrite (st_max _ _ (ev_stable _ _ _ Hev)). exact Hm. }
  assert (Hstop : forall res', Some (w1, res') = Some (w', r) ->
            exists n : nat,
              sleeps w' = sleeps w ++ map (ws_delay (backoffMs (self w))) (seq 0 n) /\
              backoffMs (self w') = ws_delay (backoffMs (self w)) n /\
              (n <> 0%nat -> Z.of_nat (rcount + n) <= m) /\
              (nextSocket w' <= nextSocket w + S n)%nat).
  { intros res' E. inversion E; subst. exists 0%nat. simpl. rewrite app_nil_r.
    repeat split; try assumption; lia. }
  destruct res as [|e|]; [now apply (Hstop Proceed) | | now apply (Hstop NeverSettles)].
  rewrite Hm1 in Hl. cbn [JsNumber.leb] in Hl.
  destruct ((Z.of_nat (S rcount) <=? m) && _ && _) eqn:Hretry;
    [|now apply (Hstop (Failed e))].
  apply andb_prop in Hretry as [Hretry _].
  apply andb_prop in Hretry as [Hle' _]. apply Z.leb_le in Hle'.
  apply IH with (m := m) in Hl; [|exact Hm1].
  destruct Hl as (n & Hsl & Hbk & Hn' & Hsock). simpl in Hsl, Hbk, Hsock.
  rewrite Hb in Hsl, Hbk.
  exists (S n). repeat split.
  - rewrite Hsl, Hs, <- app_assoc. f_equal. simpl. f_equal.
    rewrite <- seq_shift, map_map. apply map_ext. intros k. apply ws_delay_shift.
  - rewrite Hbk. apply ws_delay_shift.
  - intros _. destruct n as [|n]; [lia|]. specialize (Hn' ltac:(lia)). lia.
  - lia.
Qed.

(** What an HTTP [request] does: it waits [n] times, at most 5, before
    retry 1, 2, ..., n, each time [backoffMs * 2^(k-1)], and puts at most
    [n + 1] requests on the network. *)
Lemma http_request_spec w type hook params hs net w' r :
  http_request w type hook params hs net = Some (w', r) ->
  exists n k : nat,
    (n <= 5)%nat /\ (k <= S n)%nat /\
    OptimizedHttpRequestor.sleeps w' =
      OptimizedHttpRequestor.sleeps w ++
      map (Retry.http_delay
             (OptimizedHttpRequestor.backoffMs (OptimizedHttpRequestor.self w)))
        (seq 1 n) /\
    OptimizedHttpRequestor.requestsSent w' =
      OptimizedHttpRequestor.requestsSent w ++
      repeat (HttpProps.attempt (method_or_POST hook) (payload_of snakeCase params)) k.
Proof.
  unfold OptimizedHttpRequestor.request.
  assert (Hnone : forall res, Some (w, res) = Some (w', r) ->
            exists n k : nat,
              (n <= 5)%nat /\ (k <= S n)%nat /\
              OptimizedHttpRequestor.sleeps w' =
                OptimizedHttpRequestor.sleeps w ++
                map (Retry.http_delay
                       (OptimizedHttpRequestor.backoffMs
                          (OptimizedHttpRequestor.self w))) (seq 1 n) /\
              OptimizedHttpRequestor.requestsSent w' =
                OptimizedHttpRequestor.requestsSent w ++
                repeat (HttpProps.attempt (method_or_POST hook)
                          (payload_of snakeCase params)) k).
  { intros res E. inversion E; subst. exists 0%nat, 0%nat. simpl.
    rewrite !app_nil_r. repeat split; lia. }
  destruct (String.eqb type "jambonz:error"); [apply Hnone|].
  destruct (negb _); [apply Hnone|]. cbv zeta.
  destruct (hook_url hook) as [url|]; [|intros E; inversion E; subst;
    exists 0%nat, 0%nat; simpl; rewrite !app_nil_r; repeat split; lia].
  destruct (String.eqb url ""); [intros E; inversion E; subst;
    exists 0%nat, 0%nat; simpl; rewrite !app_nil_r; repeat split; lia|].
  destruct (negb _); [intros E; inversion E; subst;
    exists 0%nat, 0%nat; simpl; rewrite !app_nil_r; repeat split; lia|].
  destruct (_ && _).
  { destruct (String.eqb type "session:redirect"); intros E; inversion E; subst;
      exists 0%nat, 0%nat; simpl; rewrite !app_nil_r; repeat split; lia. }
  match goal with
  | |- context [Retry.maxRetries ?h] =>
      destruct (HttpRequest.maxRetries_cases h) as [Hn | (m & Hm & Hb)];
      [rewrite Hn | rewrite Hm]
  end.
  - simpl. intros E. inversion E; subst.
    exists 0%nat, 0%nat. simpl. rewrite !app_nil_r. repeat split; lia.
  - destruct (OptimizedHttpRequestor.retry_loop _ _ _ _ _ _ _ _ _ _ _)
      as [[[w1 le] resp]|] eqn:Hl; [|discriminate].
    apply HttpFacts.retry_loop_spec in Hl
      as (n & k & Hsl & Hn & Hk & Hr & Hbk & _).
    simpl in Hsl, Hr.
    assert (Hn5 : (n <= 5)%nat).
    { destruct n as [|n]; [lia|]. specialize (Hn ltac:(lia)). lia. }
    intros E.
    assert (Hw : OptimizedHttpRequestor.sleeps w' = OptimizedHttpRequestor.sleeps w1 /\
                 OptimizedHttpRequestor.requestsSent w'
                 = OptimizedHttpRequestor.requestsSent w1).
    { destruct le; [destruct (negb _)|]; inversion E; subst; split; reflexivity. }
    destruct Hw as [-> ->]. exists n, k. repeat split; assumption.
Qed.

End Model.
End Backoff.

(** ** Handover between the transports *)

Module HandoverFacts.
Import WsRequestor.

Lemma settle_quiet p s w :
  self (settle p s w) = self w /\ emitted (settle p s w) = emitted w /\
  wire (settle p s w) = wire w.
Proof. unfold settle. destruct (promises w !! p); auto. Qed.

Lemma failure_quiet e err w :
  self (failure e err w) = self w /\ emitted (failure e err w) = emitted w /\
  wire (failure e err w) = wire w.
Proof.
  unfold failure. cbv zeta.
  destruct (_reconnectPromise (self w)) as [p|].
  - destruct (settle_quiet p (Rejected err) w) as (H1 & H2 & H3).
    destruct (settle_quiet (promise e) (Rejected err)
                (clearTimeout (timer e) (settle p (Rejected err) w)))
      as (H4 & H5 & H6).
    rewrite H4, H5, H6. simpl. auto.
  - destruct (settle_quiet (promise e) (Rejected err) (clearTimeout (timer e) w))
      as (H4 & H5 & H6).
    rewrite H4, H5, H6. simpl. auto.
Qed.

Lemma clear_loop_quiet entries :
  forall w,
    self (fst (clear_loop entries w)) = self w /\
    emitted (fst (clear_loop entries w)) = emitted w /\
    wire (fst (clear_loop entries w)) = wire w.
Proof.
  induction entries as [|[msgid [e|]] rest IH]; intros w; simpl; auto.
  match goal with
  | |- context [clear_loop rest ?w1] => destruct (IH w1) as (H1 & H2 & H3)
  end.
  rewrite H1, H2, H3.
  destruct (negb _); [|simpl; auto].
  destruct (failure_quiet e (StringError (abandon_message msgid))
              (clearTimeout (timer e) w)) as (H4 & H5 & H6).
  rewrite H4, H5, H6. simpl. auto.
Qed.

(** [close()] sets the flag, drops the socket, and emits and writes nothing *)
Lemma close_quiet code w :
  closedGracefully (self (close code w)) = true /\
  ws (self (close code w)) = None /\
  account_sid (self (close code w)) = account_sid (self w) /\
  secret (self (close code w)) = secret (self w) /\
  emitted (close code w) = emitted w /\
  wire (close code w) = wire w.
Proof.
  unfold close. cbv zeta.
  set (w1 := match ws (self (on_self (set_closedGracefully true) w)) with
             | Some s => _
             | None => _
             end).
  assert (Hw1 : closedGracefully (self w1) = true /\ ws (self w1) = None /\
                account_sid (self w1) = account_sid (self w) /\
                secret (self w1) = secret (self w) /\
                emitted w1 = emitted w /\ wire w1 = wire w).
  { unfold w1. simpl. destruct (ws (self w)) eqn:E; simpl; auto 10. }
  destruct Hw1 as (H1 & H2 & H3 & H4 & H5 & H6).
  unfold _clearPendingMessages.
  destruct (clear_loop_quiet (messagesInFlight (self w1)) w1) as (Hs & He & Hw).
  destruct (clear_loop (messagesInFlight (self w1)) w1) as [w2 [err|]];
    cbn [fst] in *; simpl; rewrite ?Hs, ?He, ?Hw; auto 10.
Qed.

End HandoverFacts.

Module Handover.
Import HandoverFacts.

(** C4, amended: a request whose URL is absolute with the scheme of the other
    transport ([ws...] at the HTTP requestor, [http...] at the WebSocket
    requestor that is neither closed nor facing a malicious peer) constructs
    a requestor of the other kind with the account and the secret of this
    one and hands the request to it (as [session:new] from HTTP, with the
    type unchanged from WebSocket).  When the type is [session:redirect], and
    only then, [close()] is called on this requestor and [handover] is
    emitted with the new one. *)
Theorem handover_on_redirect (snakeCase : string -> string) (cfg : Config)
    (fragment : string -> HashParams) (_shouldRetry : error -> list string -> bool)
    (short_generate : nat -> string) :
  (forall w type hook url params hs net,
     type <> "jambonz:error" ->
     In type (HookMsgTypes cfg) ->
     hook_url hook = Some url ->
     In (method_or_POST hook) ["GET"; "POST"] ->
     (BaseRequestor._isAbsoluteUrl url && JsString.startsWith url "ws") = true ->
     let requestor :=
       mkConstructed Ws (OptimizedHttpRequestor.account_sid
                           (OptimizedHttpRequestor.self w))
         (hook_as_object hook)
         (OptimizedHttpRequestor.secret (OptimizedHttpRequestor.self w)) in
     exists w',
       OptimizedHttpRequestor.request snakeCase cfg fragment _shouldRetry w type
         hook params hs net
       = Some (w', OptimizedHttpRequestor.Delegate requestor "session:new" hook
                     params (with_user_agent cfg hs)) /\
       if String.eqb type "session:redirect" then
         OptimizedHttpRequestor.emitted w'
         = OptimizedHttpRequestor.emitted w ++ [Handover requestor] /\
         OptimizedHttpRequestor.closeCalls w'
         = S (OptimizedHttpRequestor.closeCalls w)
       else
         OptimizedHttpRequestor.emitted w' = OptimizedHttpRequestor.emitted w /\
         OptimizedHttpRequestor.closeCalls w' = OptimizedHttpRequestor.closeCalls w) /\
  (forall w type hook url params hs conn,
     In type (HookMsgTypes cfg) ->
     WsRequestor.maliciousClient (WsRequestor.self w) = false ->
     WsRequestor.closedGracefully (WsRequestor.self w) = false ->
     (type = "session:new" -> exists p, params = Some p /\ p <> JNull) ->
     hook_url hook = Some url ->
     (BaseRequestor._isAbsoluteUrl url && JsString.startsWith url "http") = true ->
     let requestor :=
       mkConstructed Http (WsRequestor.account_sid (WsRequestor.self w))
         (hook_as_object hook) (WsRequestor.secret (WsRequestor.self w)) in
     exists w',
       WsRequestor.request snakeCase cfg _shouldRetry short_generate w type hook
         params hs conn
       = Some (w', WsRequestor.Delegate requestor type hook params hs) /\
       WsRequestor.wire w' = WsRequestor.wire w /\
       if String.eqb type "session:redirect" then
         WsRequestor.emitted w' = WsRequestor.emitted w ++ [Handover requestor] /\
         WsRequestor.closedGracefully (WsRequestor.self w') = true /\
         WsRequestor.ws (WsRequestor.self w') = None
       else
         WsRequestor.emitted w' = WsRequestor.emitted w /\
         WsRequestor.closedGracefully (WsRequestor.self w') = false /\
         WsRequestor.ws (WsRequestor.self w') = WsRequestor.ws (WsRequestor.self w)).
Proof.
  split.
  - intros w type hook url params hs net Hne Hty Hurl Hm Hws. cbv zeta.
    unfold OptimizedHttpRequestor.request. cbv zeta.
    apply String.eqb_neq in Hne. apply array_includes_In in Hty.
    apply array_includes_In in Hm.
    assert (Hgiven : String.eqb url "" = false).
    { destruct url; [discriminate | reflexivity]. }
    rewrite Hne, Hty, Hurl, Hgiven, Hm, Hws. cbn [negb].
    eexists. split; [reflexivity|].
    destruct (String.eqb type "session:redirect"); split; reflexivity.
  - intros w type hook url params hs conn Hty Hmal Hclosed Hparams Hurl Hhttp.
    cbv zeta. unfold WsRequestor.request, WsRequestor.request_entry. cbv zeta.
    apply array_includes_In in Hty. rewrite Hty, Hmal, Hclosed. cbn [negb].
    destruct (String.eqb type "session:new") eqn:Hnew.
    + apply String.eqb_eq in Hnew. subst type.
      destruct (Hparams eq_refl) as (p & -> & Hp).
      destruct p; try contradiction; cbn [String.eqb Ascii.eqb Bool.eqb];
        rewrite Hurl, Hhttp; eexists; (split; [reflexivity|]);
        repeat split; simpl; try assumption; reflexivity.
    + destruct (String.eqb type "session:reconnect") eqn:Hrec.
      * apply String.eqb_eq in Hrec. subst type.
        cbn [String.eqb Ascii.eqb Bool.eqb WsRequestor.new_promise].
        cbn [WsRequestor.self WsRequestor.on_self WsRequestor.set_self].
        rewrite Hurl, Hhttp. eexists. split; [reflexivity|].
        repeat split; simpl; assumption.
      * rewrite Hurl, Hhttp.
        destruct (String.eqb type "session:redirect") eqn:Hred.
        -- destruct (close_quiet None w) as (H1 & H2 & H3 & H4 & H5 & H6).
           eexists. split; [reflexivity|]. simpl.
           rewrite H1, H2, H5, H6. repeat split; reflexivity.
        -- eexists. split; [reflexivity|]. repeat split; simpl; assumption.
Qed.

(** C4, witness: a [session:redirect] to a WebSocket URL at the HTTP
    requestor, and to an HTTP URL at a connected WebSocket requestor *)
Lemma handover_on_redirect_witness :
  (exists w',
     Sample.http_request Sample.cfg "session:redirect"
       (HookString "wss://app.example/ws") Sample.session_params []
       Sample.refused
     = Some (w', OptimizedHttpRequestor.Delegate
                   (mkConstructed Ws "acct"
                      (HookObject "wss://app.example/ws" None None None)
                      (Some "s3cret"))
                   "session:new" (HookString "wss://app.example/ws")
                   Sample.session_params []) /\
     OptimizedHttpRequestor.emitted w'
     = [Handover (mkConstructed Ws "acct"
                    (HookObject "wss://app.example/ws" None None None)
                    (Some "s3cret"))] /\
     OptimizedHttpRequestor.closeCalls w' = 1%nat) /\
  (exists w',
     WsRequestor.request Sample.snake Sample.cfg BaseRequestor.shouldRetry_spec
       Sample.uuid Sample.connected "session:redirect"
       (HookString "https://app.example/next") Sample.session_params []
       Sample.always_open
     = Some (w', WsRequestor.Delegate
                   (mkConstructed Http "acct"
                      (HookObject "https://app.example/next" None None None)
                      (Some "s3cret"))
                   "session:redirect" (HookString "https://app.example/next")
                   Sample.session_params []) /\
     WsRequestor.closedGracefully (WsRequestor.self w') = true).
Proof.
  destruct (handover_on_redirect Sample.snake Sample.cfg BaseRequestor.fragment_spec
              BaseRequestor.shouldRetry_spec Sample.uuid) as [Hhttp Hws].
  split.
  - destruct (Hhttp (OptimizedHttpRequestor.initial (Sample.http_requestor Sample.cfg))
                "session:redirect" (HookString "wss://app.example/ws")
                "wss://app.example/ws" Sample.session_params [] Sample.refused
                ltac:(discriminate) ltac:(simpl; tauto) eq_refl
                ltac:(simpl; tauto) eq_refl) as (w' & Hr & He & Hc).
    exists w'. split; [exact Hr|]. split; [exact He | exact Hc].
  - destruct (Hws Sample.connected "session:redirect"
                (HookString "https://app.example/next") "https://app.example/next"
                Sample.session_params [] Sample.always_open
                ltac:(simpl; tauto) eq_refl eq_refl ltac:(discriminate) eq_refl
                eq_refl) as (w' & Hr & _ & _ & Hc & _).
    exists w'. split; [exact Hr | exact Hc].
Defined.

(** C4, counterexample: a [verb:hook] whose URL is a WebSocket URL, at the
    HTTP requestor.  A WebSocket requestor is constructed and the request is
    handed to it, but no [handover] is emitted and [close()] is not called. *)
Lemma no_handover_without_redirect :
  exists w' requestor,
    Sample.http_request Sample.cfg "verb:hook" (HookString "wss://app.example/ws")
      Sample.session_params [] Sample.refused
    = Some (w', OptimizedHttpRequestor.Delegate requestor "session:new"
                  (HookString "wss://app.example/ws") Sample.session_params []) /\
    c_kind requestor = Ws /\
    OptimizedHttpRequestor.emitted w' = [] /\
    ~ handover_emitted (OptimizedHttpRequestor.emitted w') requestor.
Proof.
  eexists. eexists. split; [vm_compute; reflexivity|].
  split; [reflexivity|]. split; [reflexivity|].
  intros H. exact H.
Qed.

End Handover.

Module BackoffSchedule.
Import Backoff.

Lemma maxReconnects_cases cfg h :
  Retry.maxReconnects cfg h = NaN \/
  exists m, Retry.maxReconnects cfg h = Num m /\ 0 <= m <= 5.
Proof.
  unfold Retry.maxReconnects.
  destruct (JsNumber.abs _) as [|z] eqn:E; simpl; [now left|].
  right. eexists. split; [reflexivity|].
  destruct (JsNumber.or _ _); simpl in E; [discriminate|].
  inversion E; subst. lia.
Qed.

(** C7, amended.  The WebSocket requestor waits its current back-off before
    each new connection attempt and then advances it, doubling below 2000 and
    adding 2000 from there on; from the 500 of a new requestor that is the
    rule, 500, 1000, 2000, 4000, 6000.  The HTTP requestor waits
    [500 * 2^(k-1)] before its k-th retry, which is the rule for the first
    four retries (the fifth waits 8000).  Either makes at most 5 retries, so
    at most 6 attempts; two retries wait 500 and then 1000. *)
Theorem backoff_schedule (snakeCase : string -> string) (cfg : Config)
    (fragment : string -> HashParams) (_shouldRetry : error -> list string -> bool)
    (short_generate : nat -> string) :
  (forall w conn m w' r,
     WsRequestor.maxReconnects (WsRequestor.self w) = Num m ->
     m <= 5 ->
     WsRequestor.connect_loop snakeCase cfg _shouldRetry short_generate
       (Retry.loop_bound (Num m)) w conn 0 = Some (w', r) ->
     exists n : nat,
       (n <= 5)%nat /\
       WsRequestor.sleeps w' =
         WsRequestor.sleeps w ++
         map (ws_delay (WsRequestor.backoffMs (WsRequestor.self w))) (seq 0 n) /\
       (WsRequestor.nextSocket w' <= WsRequestor.nextSocket w + S n)%nat) /\
  (forall w type hook params hs net w' r,
     OptimizedHttpRequestor.request snakeCase cfg fragment _shouldRetry w type hook
       params hs net = Some (w', r) ->
     exists n k : nat,
       (n <= 5)%nat /\ (k <= S n)%nat /\
       OptimizedHttpRequestor.sleeps w' =
         OptimizedHttpRequestor.sleeps w ++
         map (Retry.http_delay
                (OptimizedHttpRequestor.backoffMs (OptimizedHttpRequestor.self w)))
           (seq 1 n) /\
       length (OptimizedHttpRequestor.requestsSent w')
       = (length (OptimizedHttpRequestor.requestsSent w) + k)%nat) /\
  (forall k, ws_delay 500 k = Retry.rule_delay k) /\
  (forall k, (k < 4)%nat -> Retry.http_delay 500 (S k) = Retry.rule_delay k) /\
  map (ws_delay 500) (seq 0 2) = [500; 1000] /\
  map (Retry.http_delay 500) (seq 1 2) = [500; 1000].
Proof.
  split; [|split; [|split; [|split; [|split]]]].
  - intros w conn m w' r Hm Hle Hl.
    apply (connect_loop_spec snakeCase cfg _shouldRetry short_generate _ _ _ _ m)
      in Hl as (n & Hsl & _ & Hn & Hsock); [|exact Hm].
    exists n. repeat split; try assumption.
    destruct n as [|n]; [lia|]. specialize (Hn ltac:(lia)). lia.
  - intros w type hook params hs net w' r Hr.
    apply http_request_spec in Hr as (n & k & Hn & Hk & Hsl & Hsent).
    exists n, k. repeat split; try assumption.
    rewrite Hsent, length_app, repeat_length. reflexivity.
  - apply ws_delay_rule.
  - apply http_delay_rule.
  - reflexivity.
  - reflexivity.
Qed.

(** C7, witness: the scenario of the specification, [rp=5xx,ct] and [rc=3],
    with a refused connection, then a 503, then a 200 *)
Lemma backoff_schedule_witness :
  let net (n : nat) :=
    match n with
    | O => OptimizedHttpRequestor.NetError (TransportError "ECONNREFUSED")
    | S O => OptimizedHttpRequestor.NetResponse
               (OptimizedHttpRequestor.mkResponse 503 None None)
    | _ => OptimizedHttpRequestor.NetResponse
             (OptimizedHttpRequestor.mkResponse 200 None None)
    end in
  exists w' r,
    Sample.http_request Sample.cfg "verb:hook"
      (HookString "https://app.example/a#rp=5xx,ct&rc=3") Sample.session_params []
      net = Some (w', r) /\
    OptimizedHttpRequestor.sleeps w' = [500; 1000] /\
    exists n k : nat,
      (n <= 5)%nat /\ (k <= S n)%nat /\
      OptimizedHttpRequestor.sleeps w' = map (Retry.http_delay 500) (seq 1 n) /\
      length (OptimizedHttpRequestor.requestsSent w') = k.
Proof.
  cbv zeta.
  match goal with
  | |- exists w' r, ?req = _ /\ _ => destruct req as [[w' r]|] eqn:Hr
  end.
  - exists w', r. split; [reflexivity|].
    pose proof (proj1 (proj2 (backoff_schedule Sample.snake Sample.cfg
                                BaseRequestor.fragment_spec
                                BaseRequestor.shouldRetry_spec Sample.uuid))
                  _ _ _ _ _ _ _ _ Hr) as Hthm.
    split; [|exact Hthm].
    vm_compute in Hr. inversion Hr. reflexivity.
  - vm_compute in Hr. discriminate.
Defined.

(** C7, counterexample: [rc=5] and a server that refuses every connection.
    The HTTP requestor makes 6 attempts, and waits 8000 ms, not 6000 ms,
    before the last. *)
Lemma fifth_retry_waits_8000 :
  exists w',
    Sample.http_request Sample.cfg "verb:hook"
      (HookString "https://app.example/a#rc=5") Sample.session_params []
      Sample.refused = Some (w', OptimizedHttpRequestor.Throw
                                   (TransportError "ECONNREFUSED")) /\
    OptimizedHttpRequestor.sleeps w' = [500; 1000; 2000; 4000; 8000] /\
    length (OptimizedHttpRequestor.requestsSent w') = 6%nat /\
    ~ follows_rule (OptimizedHttpRequestor.sleeps w')
        (length (OptimizedHttpRequestor.requestsSent w')).
Proof.
  eexists. split; [vm_compute; reflexivity|].
  split; [reflexivity|]. split; [reflexivity|].
  intros [H _]. vm_compute in H. discriminate.
Qed.

End BackoffSchedule.

(** ** The payload of a hook *)

Module Payload.

Lemma snakeCaseKeys_object snakeCase excludes fs :
  snakeCaseKeys snakeCase excludes (JObj fs) =
  JObj (map (fun kv =>
               if JsString.array_includes excludes (fst kv) then kv
               else (snakeCase (fst kv), snakeCaseKeys snakeCase excludes (snd kv)))
          fs).
Proof. reflexivity. Qed.

Section Model.
Variable snakeCase : string -> string.
Variable cfg : Config.
Variable fragment : string -> HashParams.
Variable _shouldRetry : error -> list string -> bool.
Variable short_generate : nat -> string.

(** a frame written for a type other than [session:reconnect] carries the
    payload computed from the parameters of the call *)
Lemma request_send_data w type hook params hs :
  type <> "session:reconnect" ->
  forall sf,
    In sf (WsRequestor.wire
             (fst (WsRequestor.request_send snakeCase cfg short_generate w type
                     hook params hs))) ->
    In sf (WsRequestor.wire w) \/
    WsRequestor.f_data (snd sf) = WsRequestor.spread (Some (payload_of snakeCase params)).
Proof.
  intros Hty sf. apply String.eqb_neq in Hty.
  unfold WsRequestor.request_send. cbv zeta. rewrite Hty.
  unfold WsRequestor.queueMsg, WsRequestor.new_promise, WsRequestor.setTimeout,
    WsRequestor.send.
  cbn [andb negb].
  repeat (case_match; simplify_eq; cbn [fst snd]); simpl;
    rewrite ?in_app_iff; simpl; intros Hsf; auto;
    destruct Hsf as [Hsf | [<- | []]]; auto.
Qed.


End Model.


End Payload.
(** * Further properties of the code *)

(** ** The WebSocket requestor: what [close] does to the sends in flight *)

Module WsClose.
Import WsRequestor WsProps WsMore WsFacts WsSteps WsAckFacts.

Lemma JsMap_get_In {V} k (v : V) m : JsMap.get k m = Some v -> In (k, v) m.
Proof.
  induction m as [|[k' v'] m IH]; simpl; [discriminate|].
  destruct (String.eqb k k') eqn:E.
  - apply String.eqb_eq in E. subst. intros H. inversion H. now left.
  - intros H. right. now apply IH.
Qed.

Lemma JsMap_In_has {V} k (v : V) m : In (k, v) m -> JsMap.has k m = true.
Proof.
  unfold JsMap.has. induction m as [|[k' v'] m IH]; simpl; [tauto|].
  intros [H | H].
  - inversion H; subst. now rewrite String.eqb_refl.
  - destruct (String.eqb k k'); [reflexivity | now apply IH].
Qed.

Lemma inflight_In k e r : inflight k r = Some e -> In (k, Some e) (messagesInFlight r).
Proof.
  unfold inflight. destruct (JsMap.get k _) as [[e'|]|] eqn:E; try discriminate.
  intros H. inversion H; subst. now apply JsMap_get_In.
Qed.

Lemma settle_cases p q s w :
  promises (settle q s w) !! p = promises w !! p \/
  (promises w !! p = None /\ promises (settle q s w) !! p = Some s).
Proof.
  unfold settle. destruct (promises w !! q) eqn:E; [now left|]. simpl.
  destruct (decide (q = p)) as [<- | Hne].
  - right. split; [exact E | apply lookup_insert_eq].
  - left. now apply lookup_insert_ne.
Qed.

(** [failure] settles nothing but with its own error *)
Lemma failure_cases e err w p :
  promises (failure e err w) !! p = promises w !! p \/
  (promises w !! p = None /\ promises (failure e err w) !! p = Some (Rejected err)).
Proof.
  unfold failure. cbv zeta.
  set (w1 := match _reconnectPromise (self w) with
             | Some p' => settle p' (Rejected err) w
             | None => w
             end).
  assert (H1 : promises w1 !! p = promises w !! p \/
               (promises w !! p = None /\ promises w1 !! p = Some (Rejected err))).
  { unfold w1. destruct (_reconnectPromise _); [apply settle_cases | now left]. }
  destruct (settle_cases p (promise e) (Rejected err) (clearTimeout (timer e) w1))
    as [H2 | [H2 H3]]; simpl in H2.
  - rewrite H2. exact H1.
  - destruct H1 as [H1 | [H1 H1']]; [|congruence].
    right. split; [congruence | exact H3].
Qed.

Lemma failure_self e err w : self (failure e err w) = self w.
Proof.
  unfold failure. cbv zeta.
  rewrite (proj1 (settle_frame _ _ _)). simpl.
  destruct (_reconnectPromise _); [apply settle_frame | reflexivity].
Qed.

Lemma failure_timers e err w :
  timers (failure e err w) = delete (timer e) (timers w).
Proof.
  unfold failure. cbv zeta.
  rewrite (proj1 (proj2 (settle_frame _ _ _))). simpl.
  destruct (_reconnectPromise _); [|reflexivity].
  now rewrite (proj1 (proj2 (settle_frame _ _ _))).
Qed.

Lemma clear_one_eq k e w :
  clear_one k e w =
  if negb (str_truthy (_initMsgId (self w)))
  then failure e (StringError (abandon_message k)) (clearTimeout (timer e) w)
  else clearTimeout (timer e) w.
Proof. reflexivity. Qed.

Lemma clear_one_self k e w : self (clear_one k e w) = self w.
Proof.
  unfold clear_one. cbv zeta. destruct (negb _); [|reflexivity].
  now rewrite failure_self.
Qed.

Lemma clear_one_timers k e w :
  timers (clear_one k e w) = delete (timer e) (timers w).
Proof.
  unfold clear_one. cbv zeta. destruct (negb _); [|reflexivity].
  rewrite failure_timers. simpl. apply delete_delete_eq.
Qed.

Lemma clear_loop_cons k e rest w :
  clear_loop ((k, Some e) :: rest) w = clear_loop rest (clear_one k e w).
Proof. reflexivity. Qed.

(** the loop over a table whose first undefined value, if any, comes after
    [pre] *)
Lemma clear_loop_timers pre : forall rest w,
  all_defined pre ->
  exists w1,
    clear_loop (pre ++ rest) w = clear_loop rest w1 /\
    self w1 = self w /\
    (forall k e, In (k, Some e) pre -> timers w1 !! timer e = None) /\
    (forall id, timers w !! id = None -> timers w1 !! id = None) /\
    (forall id, (forall k e, In (k, Some e) pre -> timer e <> id) ->
                timers w1 !! id = timers w !! id) /\
    (str_truthy (_initMsgId (self w)) = true -> promises w1 = promises w) /\
    (str_truthy (_initMsgId (self w)) = false ->
     forall k e, In (k, Some e) pre -> promises w !! promise e = None ->
                 abandoned w1 (promise e) pre) /\
    (forall p s, promises w !! p = Some s -> promises w1 !! p = Some s) /\
    (forall p, promises w1 !! p = promises w !! p \/
               (promises w !! p = None /\ abandoned w1 p pre)).
Proof.
  induction pre as [|[k0 [e0|]] pre IH]; intros rest w Hdef.
  - exists w. simpl. repeat split; auto; intros; try tauto.
  - assert (Hdef' : all_defined pre) by (intros k v Hin; apply (Hdef k v); now right).
    destruct (IH rest (clear_one k0 e0 w) Hdef')
      as (w1 & Heq & Hself & Hcl & Hmono & Hkeep & Hprom & Hab & Hset & Hcases).
    exists w1. rewrite clear_one_self in *. rewrite clear_one_timers in *.
    assert (Hone : forall p,
               promises (clear_one k0 e0 w) !! p = promises w !! p \/
               (promises w !! p = None /\
                promises (clear_one k0 e0 w) !! p
                = Some (Rejected (StringError (abandon_message k0))))).
    { intros p. unfold clear_one. cbv zeta. destruct (negb _); [|now left].
      apply (failure_cases e0 _ (clearTimeout (timer e0) w) p). }
    assert (Hhead : forall p,
               promises (clear_one k0 e0 w) !! p
               = Some (Rejected (StringError (abandon_message k0))) ->
               abandoned w1 p ((k0, Some e0) :: pre)).
    { intros p Hp. exists k0. split.
      - unfold JsMap.has. simpl. now rewrite String.eqb_refl.
      - now apply Hset. }
    assert (Htail : forall p, abandoned w1 p pre ->
                              abandoned w1 p ((k0, Some e0) :: pre)).
    { intros p (k & Hk & Hp). exists k. split; [|exact Hp].
      unfold JsMap.has in *. simpl. destruct (String.eqb k k0); [reflexivity | exact Hk]. }
    split; [exact Heq|]. split; [exact Hself|].
    split; [|split; [|split; [|split; [|split; [|split]]]]].
    + intros k e [Hin | Hin].
      * inversion Hin; subst. apply Hmono. apply lookup_delete_eq.
      * now apply (Hcl k e).
    + intros id Hid. apply Hmono. rewrite lookup_delete_None. now right.
    + intros id Hid. rewrite Hkeep.
      * apply lookup_delete_ne. apply (Hid k0 e0). now left.
      * intros k e Hin. apply (Hid k e). now right.
    + intros Ht. rewrite (Hprom Ht). rewrite clear_one_eq. now rewrite Ht.
    + intros Hf k e [Hin | Hin] Hp.
      * inversion Hin; subst. apply Hhead.
        rewrite clear_one_eq, Hf. cbn [negb].
        apply (failure_promise e _ (clearTimeout (timer e) w) Hp).
      * destruct (Hone (promise e)) as [Hsame | [_ Hrej]].
        -- apply Htail. apply (Hab Hf k e Hin). now rewrite Hsame.
        -- now apply Hhead.
    + intros p s Hp. apply Hset. destruct (Hone p) as [-> | [Hn _]]; congruence.
    + intros p. destruct (Hcases p) as [Hsame | [Hn Hab1]].
      * destruct (Hone p) as [Hsame1 | [Hn1 Hrej1]].
        -- left. congruence.
        -- right. split; [exact Hn1|]. apply Hhead. congruence.
      * destruct (Hone p) as [Hsame1 | [Hn1 Hrej1]]; [|congruence].
        right. split; [congruence | now apply Htail].
  - exfalso. apply (Hdef k0 None); [now left | reflexivity].
Qed.

Lemma all_defined_eq m m' : m = m' -> all_defined m' -> all_defined m.
Proof. now intros ->. Qed.

(** [close] up to the call of [_clearPendingMessages] *)
Lemma close_prefix code w :
  exists w2,
    close code w = fst (_clearPendingMessages w2) /\
    closedGracefully (self w2) = true /\ ws (self w2) = None /\
    messagesInFlight (self w2) = messagesInFlight (self w) /\
    _initMsgId (self w2) = _initMsgId (self w) /\
    timers w2 = timers w /\ promises w2 = promises w.
Proof.
  unfold close. cbv zeta.
  destruct (ws (self (on_self (set_closedGracefully true) w))) eqn:E;
    eexists; (split; [reflexivity|]); simpl; repeat split; try reflexivity.
  exact E.
Qed.

(** X1: [close] on a table that binds every key to an entry empties the
    table and cancels the timer of every entry.  When no [session:new] awaits
    its ack, each promise that was pending is rejected with the message
    [abandoning msgid ... since socket is closed]; when one does, no promise
    is settled at all: the sends in flight are dropped with their promises
    pending. *)
Theorem close_abandons (code : option Z) (w : World) :
  all_defined (messagesInFlight (self w)) ->
  let w' := close code w in
  messagesInFlight (self w') = [] /\
  closedGracefully (self w') = true /\ ws (self w') = None /\
  (forall k e, inflight k (self w) = Some e -> timers w' !! timer e = None) /\
  (str_truthy (_initMsgId (self w)) = false ->
   forall k e, inflight k (self w) = Some e -> promises w !! promise e = None ->
               abandoned w' (promise e) (messagesInFlight (self w))) /\
  (str_truthy (_initMsgId (self w)) = true -> promises w' = promises w).
Proof.
  intros Hdef. cbv zeta.
  destruct (close_prefix code w) as (w2 & -> & Hc & Hws & Hm & Hi & Ht & Hp).
  unfold _clearPendingMessages.
  destruct (clear_loop_timers (messagesInFlight (self w2)) [] w2)
    as (w3 & Heq & Hself & Hcl & _ & _ & Hprom & Hab & _ & _).
  { rewrite Hm. exact Hdef. }
  rewrite app_nil_r in Heq. rewrite Heq. cbn [clear_loop fst].
  rewrite Hm, Hi, Hp in *.
  split; [reflexivity|]. simpl. rewrite Hself.
  split; [exact Hc|]. split; [exact Hws|].
  split; [|split].
  - intros k e Hin. apply (Hcl k e). now apply inflight_In.
  - intros Hf k e Hin Hpe. apply (Hab Hf k e); [now apply inflight_In | exact Hpe].
  - exact Hprom.
Qed.

(** X2: [close] on a table that binds a key to [undefined] does not empty
    it: the loop of [_clearPendingMessages] throws at that key and [close]
    catches the exception.  The timers of the entries before that key are
    cancelled, every entry stays in the table, and the timers of the entries
    after it stay armed. *)
Theorem close_stops_at_undefined (code : option Z) (w : World)
    (pre post : JsMap.t (option Entry)) (k : string) :
  messagesInFlight (self w) = pre ++ (k, None) :: post ->
  all_defined pre ->
  let w' := close code w in
  messagesInFlight (self w') = messagesInFlight (self w) /\
  closedGracefully (self w') = true /\
  (forall k' e, In (k', Some e) pre -> timers w' !! timer e = None) /\
  (forall id, (forall k' e, In (k', Some e) pre -> timer e <> id) ->
              timers w' !! id = timers w !! id).
Proof.
  intros Htab Hdef. cbv zeta.
  destruct (close_prefix code w) as (w2 & -> & Hc & Hws & Hm & Hi & Ht & Hp).
  unfold _clearPendingMessages. rewrite Hm, Htab.
  destruct (clear_loop_timers pre ((k, None) :: post) w2 Hdef)
    as (w3 & Heq & Hself & Hcl & _ & Hkeep & _).
  rewrite Heq. cbn [clear_loop fst]. rewrite Hself, Hm, Htab.
  split; [reflexivity|]. split; [exact Hc|]. split; [exact Hcl|].
  intros id Hid. rewrite (Hkeep id Hid). now rewrite Ht.
Qed.

(** X1, witness: the requestor is closed while a [verb:hook] is in flight
    under [m1] *)
Lemma close_abandons_witness :
  let w := Scenario.hook_in_flight in
  messagesInFlight (self (close None w)) = [] /\
  timers (close None w) !! 1%nat = None /\
  abandoned (close None w) 1 (messagesInFlight (self w)).
Proof.
  assert (Hdef : all_defined (messagesInFlight (self Scenario.hook_in_flight))).
  { apply (all_defined_eq _ [("m1", Some (mkEntry 1 1))]); [vm_compute; reflexivity|].
    intros k v [Hin | []]. inversion Hin. discriminate. }
  destruct (close_abandons None Scenario.hook_in_flight Hdef)
    as (H1 & _ & _ & Ht & Hab & _).
  split; [exact H1|]. split.
  - exact (Ht "m1" (mkEntry 1 1) ltac:(vm_compute; reflexivity)).
  - exact (Hab ltac:(vm_compute; reflexivity) "m1" (mkEntry 1 1)
             ltac:(vm_compute; reflexivity) ltac:(vm_compute; reflexivity)).
Defined.

(** X2, witness: the table of a requestor that reconnected after its
    [session:new] had timed out binds [m1] to [undefined], and [close] leaves
    it there *)
Lemma close_stops_at_undefined_witness :
  let w := Scenario.timed_out_then_reconnected in
  messagesInFlight (self w) = [("m1", None)] /\
  messagesInFlight (self (close None w)) = [("m1", None)].
Proof.
  assert (Htab : messagesInFlight (self Scenario.timed_out_then_reconnected)
                 = [] ++ [("m1", None)]) by (vm_compute; reflexivity).
  destruct (close_stops_at_undefined None Scenario.timed_out_then_reconnected
              [] [] "m1" Htab ltac:(intros k v [])) as (H1 & _).
  split; [exact Htab | exact (eq_trans H1 Htab)].
Defined.

End WsClose.
(** ** The WebSocket requestor: invalid frames *)

Module WsInbound.
Import WsRequestor WsProps WsMore WsFacts WsSteps WsAckFacts.

Section Model.
Variable snakeCase : string -> string.
Variable cfg : Config.
Variable _shouldRetry : error -> list string -> bool.
Variable short_generate : nat -> string.

Local Abbreviation _onMessage := (_onMessage snakeCase cfg _shouldRetry short_generate).


End Model.


End WsInbound.
(** ** The WebSocket requestor: the flag [maliciousClient] *)

Module WsTrust.
Import WsRequestor WsProps WsMore WsFacts WsSteps WsAckFacts.

Section Model.
Variable snakeCase : string -> string.
Variable cfg : Config.
Variable _shouldRetry : error -> list string -> bool.
Variable short_generate : nat -> string.

Variable b : bool.

Local Abbreviation flag := (flag_is b).
Local Abbreviation request_send := (request_send snakeCase cfg short_generate).
Local Abbreviation reconnect_request := (reconnect_request snakeCase cfg short_generate).
Local Abbreviation _onOpen := (_onOpen snakeCase cfg short_generate).
Local Abbreviation _connect := (_connect snakeCase cfg short_generate).
Local Abbreviation connect_loop := (connect_loop snakeCase cfg _shouldRetry short_generate).
Local Abbreviation request := (request snakeCase cfg _shouldRetry short_generate).
Local Abbreviation _onMessage := (_onMessage snakeCase cfg _shouldRetry short_generate).
Local Abbreviation fire := (fire snakeCase cfg short_generate).
Local Abbreviation step := (step snakeCase cfg _shouldRetry short_generate).
Local Abbreviation run := (run snakeCase cfg _shouldRetry short_generate).

Lemma flag_same w w' :
  flag w -> maliciousClient (self w') = maliciousClient (self w) -> flag w'.
Proof. unfold flag_is. congruence. Qed.

Ltac same :=
  match goal with
  | H : flag ?w |- _ => apply (flag_same w); [exact H | reflexivity]
  end.

Lemma flag_settle p s w : flag w -> flag (settle p s w).
Proof. intros H. unfold settle. destruct (promises w !! p); [exact H | same]. Qed.

Lemma flag_clearTimeout id w : flag w -> flag (clearTimeout id w).
Proof. intros H. unfold clearTimeout. same. Qed.

Lemma flag_success e data w : flag w -> flag (success e data w).
Proof.
  intros H. unfold success. cbv zeta.
  destruct (_reconnectPromise _);
    repeat apply flag_settle; now apply flag_clearTimeout.
Qed.

Lemma flag_failure e err w : flag w -> flag (failure e err w).
Proof.
  intros H. unfold failure. cbv zeta.
  apply flag_settle, flag_clearTimeout.
  destruct (_reconnectPromise _); [now apply flag_settle | exact H].
Qed.

Lemma flag_delete k w :
  flag w ->
  flag (on_self (fun r => set_messagesInFlight
                                 (JsMap.delete k (messagesInFlight r)) r) w).
Proof. intros H. same. Qed.

Lemma flag_clear_loop entries :
  forall w, flag w -> flag (fst (clear_loop entries w)).
Proof.
  induction entries as [|[msgid [e|]] rest IH]; intros w H; simpl; auto.
  apply IH. destruct (negb _).
  - apply flag_failure, flag_clearTimeout, H.
  - apply flag_clearTimeout, H.
Qed.

Lemma flag_clearPendingMessages w :
  flag w -> flag (fst (_clearPendingMessages w)).
Proof.
  intros H. unfold _clearPendingMessages.
  pose proof (flag_clear_loop (messagesInFlight (self w)) w H) as H'.
  destruct (clear_loop _ w) as [w1 [e|]]; cbn [fst] in *; [exact H' | same].
Qed.

Lemma flag_close code w : flag w -> flag (close code w).
Proof.
  intros H. unfold close. apply flag_clearPendingMessages.
  destruct (ws (self (on_self (set_closedGracefully true) w))); same.
Qed.

Lemma flag_queueMsg type hook params hs w :
  flag w -> flag (fst (queueMsg type hook params hs w)).
Proof. intros H. unfold queueMsg, new_promise. destruct (negb _); cbn [fst]; same. Qed.

Lemma flag_request_entry type hook params hs w :
  flag w -> flag (fst (request_entry cfg w type hook params hs)).
Proof.
  intros H. unfold request_entry. cbv zeta.
  destruct (negb _); [exact H|].
  destruct (maliciousClient _); [exact H|].
  destruct (closedGracefully _); [exact H|].
  set (step1 := if String.eqb type "session:new" then _ else _).
  assert (Hstep : (exists err, step1 = inr err) \/
                  exists w1, step1 = inl w1 /\ flag w1).
  { unfold step1. destruct (String.eqb type "session:new"); [|right; eauto].
    destruct params as [[]|]; eauto; right; eexists;
      (split; [reflexivity|]); same. }
  destruct Hstep as [[err ->] | (w1 & -> & H1)]; [exact H|].
  set (w2 := if String.eqb type "session:reconnect" then _ else w1).
  assert (H2 : flag w2).
  { unfold w2. destruct (String.eqb type "session:reconnect"); [|exact H1].
    unfold new_promise. same. }
  clearbody w2.
  destruct (hook_url hook); [|exact H2].
  destruct (_ && _); cbn [fst].
  - destruct (String.eqb type "session:redirect"); [|exact H2].
    pose proof (flag_close None w2 H2) as H3. unfold emit. same.
  - destruct (ws (self w2)); [exact H2|].
    destruct (connectInProgress _).
    + pose proof (flag_queueMsg type hook params hs w2 H2) as H3.
      destruct (queueMsg _ _ _ _ _) as [w3 r]. exact H3.
    + cbn [fst]. same.
Qed.

Lemma flag_rekey old msgid w :
  flag w ->
  flag
    (on_self (fun r =>
       set_initMsgId (Some msgid)
         (set_messagesInFlight
            (JsMap.set msgid (inflight old (self w))
               (JsMap.delete old (messagesInFlight r))) r)) w).
Proof. intros H. same. Qed.

Lemma flag_request_send type hook params hs w :
  flag w -> flag (fst (request_send w type hook params hs)).
Proof.
  intros H. unfold WsRequestor.request_send. cbv zeta.
  destruct (negb _ && _); [now apply flag_queueMsg|].
  destruct (ws (self w)) as [sock|] eqn:Hws; [|exact H].
  destruct (hook_url hook) as [url|]; [|exact H].
  set (w1 := if String.eqb type "session:new" || String.eqb type "session:adulting"
             then _ else w).
  assert (H1 : flag w1) by (unfold w1; destruct (_ || _); [same | exact H]).
  clearbody w1.
  destruct (String.eqb url ""); [exact H1|]. cbn [fst snd].
  set (w2 := if String.eqb type "session:new" then _ else _).
  assert (H2 : flag w2 /\ uuids w2 = S (uuids w1)).
  { unfold w2. destruct (String.eqb type "session:new");
      (split; [same | reflexivity]). }
  destruct H2 as [H2 Hu].
  set (w3 := if String.eqb type "session:reconnect" && _ then _ else w2).
  assert (H3 : flag w3 /\ uuids w3 = S (uuids w1)).
  { unfold w3. destruct (_ && _); [|now split].
    split; [|exact Hu]. now apply flag_rekey. }
  destruct H3 as [H3 Hu3]. clearbody w3.
  destruct (negb (negb _) || _).
  - cbn [fst]. unfold send. same.
  - unfold new_promise, setTimeout. cbv beta iota. cbn [fst].
    unfold send. same.
Qed.

Lemma flag_request_send_eq w type hook params hs w' r :
  request_send w type hook params hs = (w', r) -> flag w -> flag w'.
Proof.
  intros E H. change w' with (fst (w', r)). rewrite <- E.
  now apply flag_request_send.
Qed.

Lemma flag_reconnect_request w :
  flag w -> flag (reconnect_request w).
Proof.
  intros H. unfold WsRequestor.reconnect_request.
  pose proof (flag_request_entry "session:reconnect"
                (HookString (url (self w))) None [] w H) as H1.
  destruct (request_entry _ _ _ _ _ _) as [w1 [r|]]; cbn [fst] in *; [exact H1|].
  now apply flag_request_send.
Qed.

Lemma flag_onOpen sock w : flag w -> flag (_onOpen sock w).
Proof.
  intros H. unfold WsRequestor._onOpen. cbv zeta.
  match goal with
  | |- context [if ?c then _ else _] => destruct c
  end; [apply flag_reconnect_request|]; unfold emit; same.
Qed.

Lemma flag_connect o w : flag w -> flag (fst (_connect o w)).
Proof.
  intros H. unfold WsRequestor._connect.
  destruct (ws (self w)); cbn [fst]; [exact H|].
  destruct o; cbn [fst].
  - apply flag_onOpen. same.
  - unfold _onError, emit. repeat case_match; cbn [fst]; same.
  - unfold _onUnexpectedResponse, emit. cbn [fst]. same.
Qed.

Lemma flag_connect_loop fuel :
  forall w conn rcount w' r,
    flag w -> connect_loop fuel w conn rcount = Some (w', r) -> flag w'.
Proof.
  induction fuel as [|fuel IH]; intros w conn rcount w' r H Hl; simpl in Hl;
    [discriminate|].
  destruct_if_in Hl; [|now inversion Hl; subst].
  pose proof (flag_connect (conn rcount) (on_self (set_ws None) w)
                ltac:(same)) as Hc.
  destruct (_connect (conn rcount) (on_self (set_ws None) w)) as [w1 [|e|]];
    cbn [fst] in Hc; try (now inversion Hl; subst).
  destruct_if_in Hl.
  - eapply IH; [|exact Hl]. same.
  - now inversion Hl; subst.
Qed.

Lemma flag_request w type hook params hs conn w' r :
  flag w -> request w type hook params hs conn = Some (w', r) -> flag w'.
Proof.
  intros H. unfold WsRequestor.request.
  pose proof (flag_request_entry type hook params hs w H) as H1.
  destruct (request_entry _ _ _ _ _ _) as [w1 [r1|]]; cbn [fst] in H1.
  { intros E. now inversion E; subst. }
  destruct (ws (self w1)).
  { destruct (request_send w1 type hook params hs) as [w2 r2] eqn:Hs.
    intros E. inversion E; subst.
    eapply flag_request_send_eq; eassumption. }
  destruct (connect_loop _ _ _ _) as [[w2 r2]|] eqn:Hl; [|discriminate].
  apply flag_connect_loop in Hl; [|exact H1].
  destruct r2.
  - destruct (request_send w2 type hook params hs) as [w3 r3] eqn:Hs.
    intros E. inversion E; subst.
    eapply flag_request_send_eq; eassumption.
  - intros E; inversion E; subst. same.
  - intros E; inversion E; subst. exact Hl.
Qed.

Lemma flag_recvAck msgid data w :
  flag w -> flag (_recvAck msgid data w).
Proof.
  intros H. unfold _recvAck. cbv zeta.
  assert (H0 : flag (on_self (set_initMsgId None) w)) by same.
  destruct msgid as [[| | |k| |]|]; try exact H0.
  destruct (inflight k _); [|exact H0].
  now apply flag_success, flag_delete.
Qed.

Lemma flag_onMessage content isBinary conn w w' :
  flag w -> _onMessage content isBinary conn w = Some w' -> flag w'.
Proof.
  intros H. unfold WsRequestor._onMessage. cbn [this_isBinary Js.truthy].
  destruct (dispatch _ _).
  - intros E; inversion E; subst. now apply flag_recvAck.
  - intros E; inversion E; subst. unfold _recvCommand, emit. same.
  - destruct (request _ _ _ _ _ _) as [[w1 r]|] eqn:Hr; [|discriminate].
    intros E; inversion E; subst.
    eapply flag_request; [|exact Hr]. same.
Qed.

Lemma flag_scheduleReconnect w : flag w -> flag (_scheduleReconnect w).
Proof. intros H. unfold _scheduleReconnect, setTimeout. same. Qed.

Lemma flag_onSocketClosed w : flag w -> flag (fst (_onSocketClosed w)).
Proof.
  intros H. unfold _onSocketClosed. cbv zeta.
  assert (H0 : flag (emit ConnectionDropped (on_self (set_ws None) w)))
    by (unfold emit; same).
  destruct (_ && _ && _); cbn [fst]; [|exact H0].
  destruct (negb _).
  - pose proof (flag_clearPendingMessages _ H0) as Hc.
    destruct (_clearPendingMessages _) as [w1 [e|]]; cbn [fst] in *; [exact Hc|].
    now apply flag_scheduleReconnect.
  - cbn [fst]. now apply flag_scheduleReconnect.
Qed.

Lemma flag_onClose code w : flag w -> flag (_onClose code w).
Proof.
  intros H. unfold _onClose. cbv zeta.
  destruct (_ && _).
  - pose proof (flag_onSocketClosed (emit SocketClosed w)
                  ltac:(unfold emit; same)) as Hc.
    destruct (_onSocketClosed _) as [w1 [e|]]; cbn [fst] in Hc; [exact Hc | same].
  - destruct (code =? 1000); same.
Qed.

Lemma flag_fire id o w : flag w -> flag (fire id o w).
Proof.
  intros H. unfold WsRequestor.fire.
  destruct (timers w !! id) as [[msgid delay|delay]|]; [| |exact H]; cbv zeta.
  - apply flag_delete.
    destruct (inflight _ _); [apply flag_failure|];
      now apply flag_clearTimeout.
  - pose proof (flag_clearTimeout id w H) as H1.
    destruct (ws _); [exact H1|].
    destruct (connectInProgress _); [exact H1|].
    match goal with
    | |- context [_connect o ?w1] =>
        pose proof (flag_connect o w1 ltac:(same)) as Hc;
        destruct (_connect o w1) as [w2 []]; cbn [fst] in Hc;
        try exact Hc; same
    end.
Qed.

Lemma flag_step w a w' : flag w -> step w a = Some w' -> flag w'.
Proof.
  intros H. destruct a; simpl.
  - destruct (request _ _ _ _ _ _) as [[w1 r]|] eqn:Hr; [|discriminate].
    intros E; inversion E; subst. eapply flag_request; eassumption.
  - intros E; inversion E; subst. now apply flag_close.
  - now apply flag_onMessage.
  - intros E; inversion E; subst. now apply flag_onClose.
  - intros E; inversion E; subst. now apply flag_fire.
Qed.

Lemma flag_run acts :
  forall w w', flag w -> run w acts = Some w' -> flag w'.
Proof.
  induction acts as [|a acts IH]; intros w w' H; simpl.
  - intros E; inversion E; subst. exact H.
  - destruct (step w a) as [w1|] eqn:Hs; [|discriminate].
    apply IH. eapply flag_step; eassumption.
Qed.

(** a constructed requestor starts with empty tables *)
End Model.


End WsTrust.
(** ** The HTTP requestor: retries and statistics *)

Module HttpRetry.
Import OptimizedHttpRequestor HttpProps HttpMore HttpFacts HttpRequest.

Section Request.
Variable snakeCase : string -> string.
Variable cfg : Config.
Variable fragment : string -> HashParams.
Variable _shouldRetry : error -> list string -> bool.

Local Abbreviation request := (request snakeCase cfg fragment _shouldRetry).
Local Abbreviation retry_loop := (retry_loop _shouldRetry).
Local Abbreviation run := (run snakeCase cfg fragment _shouldRetry).

(** [stats.retryCount++] *)
Local Abbreviation count_retry :=
  (with_stats (fun s => mkStats (totalRequests s) (successfulRequests s)
                          (failedRequests s) (S (stats_retryCount s)))).

Lemma makeRequest_pooled w url method payload o :
  poolManager (self w) = true ->
  makeRequest w url method payload o =
  (sent method payload w,
   match o with
   | NetError e => inl e
   | NetResponse resp => handleResponse resp
   end).
Proof.
  intros Hp. unfold makeRequest, getClientConfig. rewrite Hp.
  destruct (_usePools (self w)); destruct o; reflexivity.
Qed.

(** an attempt that fails and is retried *)
Lemma retry_loop_failure fuel w url method payload net m pol rcount le e :
  poolManager (self w) = true ->
  outcome_error (net rcount) = Some e ->
  Z.of_nat (S rcount) <= m ->
  _shouldRetry e pol = true ->
  retry_loop (S fuel) w url method payload net (Num m) pol rcount le =
  retry_loop fuel
    (sleep (Retry.http_delay (backoffMs (self w)) (S rcount))
       (count_retry (sent method payload w)))
    url method payload net (Num m) pol (S rcount) (Some e).
Proof.
  intros Hp Ho Hle Hr. cbn [OptimizedHttpRequestor.retry_loop JsNumber.leb].
  assert (Hle0 : (Z.of_nat rcount <=? m) = true) by (apply Z.leb_le; lia).
  rewrite Hle0, (makeRequest_pooled _ _ _ _ _ Hp).
  unfold outcome_error in Ho.
  assert (Hres : match net rcount with
                 | NetError e0 => inl e0
                 | NetResponse resp => handleResponse resp
                 end = inl e).
  { destruct (net rcount) as [e0|resp]; [congruence|].
    destruct (handleResponse resp); congruence. }
  rewrite Hres. apply Z.leb_le in Hle. rewrite Hle, Hr. reflexivity.
Qed.

(** an attempt that succeeds *)
Lemma retry_loop_success fuel w url method payload net m pol rcount le resp j :
  poolManager (self w) = true ->
  Z.of_nat rcount <= m ->
  net rcount = NetResponse resp ->
  handleResponse resp = inr j ->
  retry_loop (S fuel) w url method payload net (Num m) pol rcount le =
  Some (sent method payload w, le, j).
Proof.
  intros Hp Hle Hn Hj. cbn [OptimizedHttpRequestor.retry_loop JsNumber.leb].
  apply Z.leb_le in Hle. rewrite Hle, (makeRequest_pooled _ _ _ _ _ Hp), Hn, Hj.
  reflexivity.
Qed.

(** [k] failed attempts that are retried, then a response that is accepted *)
Lemma retry_loop_failures k : forall fuel w url method payload net m pol rcount le
    resp j,
  poolManager (self w) = true ->
  (forall i, (rcount <= i < rcount + k)%nat ->
             exists e, outcome_error (net i) = Some e /\ _shouldRetry e pol = true) ->
  Z.of_nat (rcount + k) <= m ->
  net (rcount + k)%nat = NetResponse resp ->
  handleResponse resp = inr j ->
  exists w' le',
    retry_loop (S (k + fuel)) w url method payload net (Num m) pol rcount le
    = Some (w', le', j) /\
    (k = 0%nat -> le' = le) /\
    (k <> 0%nat -> exists e, le' = Some e /\
                             outcome_error (net (rcount + k - 1)%nat) = Some e) /\
    poolManager (self w') = true /\
    totalRequests (stats (self w')) = totalRequests (stats (self w)) /\
    successfulRequests (stats (self w')) = successfulRequests (stats (self w)) /\
    failedRequests (stats (self w')) = failedRequests (stats (self w)) /\
    stats_retryCount (stats (self w')) = (stats_retryCount (stats (self w)) + k)%nat /\
    alerts w' = alerts w /\
    requestsSent w' = requestsSent w ++ repeat (attempt method payload) (S k).
Proof.
  induction k as [|k IH]; intros fuel w url method payload net m pol rcount le
    resp j Hp Hfail Hle Hn Hj.
  - rewrite Nat.add_0_r in *. eexists _, _.
    split; [eapply retry_loop_success; eassumption|].
    simpl. repeat split; try reflexivity; try assumption; try lia.
  - destruct (Hfail rcount ltac:(lia)) as (e & He & Hr).
    assert (Hle1 : Z.of_nat (S rcount) <= m) by lia.
    cbn [Nat.add]. rewrite (retry_loop_failure _ _ _ _ _ _ _ _ _ _ e Hp He Hle1 Hr).
    match goal with
    | |- context [retry_loop _ ?w1 _ _ _ _ _ _ _ _] =>
        destruct (IH fuel w1 url method payload net m pol (S rcount) (Some e) resp j)
          as (w' & le' & Hl & H0 & Hk & Hp' & Ht & Hs & Hf & Hrc & Ha & Hsent)
    end.
    + exact Hp.
    + intros i Hi. apply Hfail. lia.
    + lia.
    + replace (S rcount + k)%nat with (rcount + S k)%nat by lia. exact Hn.
    + exact Hj.
    + exists w', le'. split; [exact Hl|].
      split; [intros H; discriminate|].
      split.
      * intros _. destruct k as [|k'].
        -- exists e. split; [now apply H0|].
           replace (rcount + 1 - 1)%nat with rcount by lia. exact He.
        -- destruct (Hk ltac:(discriminate)) as (e' & -> & He').
           exists e'. split; [reflexivity|].
           replace (rcount + S (S k') - 1)%nat with (S rcount + S k' - 1)%nat by lia.
           exact He'.
      * simpl in *. repeat split; try assumption.
        -- rewrite Hrc. lia.
        -- rewrite Hsent. unfold sent. simpl. rewrite <- app_assoc. reflexivity.
Qed.

(** what the loop does to the statistics: it counts the retries *)
Lemma retry_loop_stats fuel :
  forall w url method payload net m pol rcount le w' le' resp,
    retry_loop fuel w url method payload net (Num m) pol rcount le
    = Some (w', le', resp) ->
    totalRequests (stats (self w')) = totalRequests (stats (self w)) /\
    successfulRequests (stats (self w')) = successfulRequests (stats (self w)) /\
    failedRequests (stats (self w')) = failedRequests (stats (self w)) /\
    exists n : nat,
      stats_retryCount (stats (self w')) = (stats_retryCount (stats (self w)) + n)%nat /\
      (n <> 0%nat -> Z.of_nat (rcount + n) <= m).
Proof.
  induction fuel as [|fuel IH]; intros w url method payload net m pol rcount le
    w' le' resp H; simpl in H; [discriminate|].
  destruct (Z.of_nat rcount <=? m) eqn:Hle.
  2:{ inversion H; subst. repeat split. exists 0%nat. split; lia. }
  destruct (makeRequest w url method payload (net rcount)) as [w1 [e|response]] eqn:Hmk.
  2:{ inversion H; subst. apply makeRequest_frame in Hmk as (Hs & _).
      rewrite Hs. repeat split. exists 0%nat. split; lia. }
  apply makeRequest_frame in Hmk as (Hs & _).
  destruct ((Z.of_nat (S rcount) <=? m) && _shouldRetry e pol) eqn:Hretry.
  2:{ inversion H; subst. rewrite Hs. repeat split. exists 0%nat. split; lia. }
  apply andb_prop in Hretry as [Hle' _]. apply Z.leb_le in Hle'.
  apply IH in H as (Ht & Hsu & Hf & n & Hn & Hb).
  simpl in *. rewrite Hs in *. repeat split; try assumption.
  exists (S n). split; [lia|]. intros _.
  destruct n as [|n]; [lia|]. specialize (Hb ltac:(lia)). lia.
Qed.

(** what one call of [request] does to the statistics *)
Lemma request_stats w type hook params hs net w' r :
  request w type hook params hs net = Some (w', r) ->
  (stats (self w') = stats (self w)) \/
  (totalRequests (stats (self w')) = S (totalRequests (stats (self w))) /\
   (finished w <= finished w' <= S (finished w))%nat /\
   (stats_retryCount (stats (self w)) <= stats_retryCount (stats (self w'))
    <= stats_retryCount (stats (self w)) + 5)%nat).
Proof.
  unfold OptimizedHttpRequestor.request, finished.
  destruct (String.eqb type "jambonz:error"); [intros E; inversion E; now left|].
  destruct (negb _); [intros E; inversion E; now left|].
  cbv zeta.
  assert (Hdone : forall res w1,
             stats (self w1) = stats (self (count_request w)) ->
             Some (w1, res) = Some (w', r) ->
             totalRequests (stats (self w')) = S (totalRequests (stats (self w))) /\
             (finished w <= finished w' <= S (finished w))%nat /\
             (stats_retryCount (stats (self w)) <= stats_retryCount (stats (self w'))
              <= stats_retryCount (stats (self w)) + 5)%nat).
  { intros res w1 Hs E. inversion E; subst. unfold finished. rewrite Hs. simpl. lia. }
  fold (count_request w).
  destruct (hook_url hook) as [url|]; [|intros E; right; eapply Hdone; [|exact E]; reflexivity].
  destruct (String.eqb url ""); [intros E; right; eapply Hdone; [|exact E]; reflexivity|].
  destruct (negb _); [intros E; right; eapply Hdone; [|exact E]; reflexivity|].
  destruct (_ && _).
  { intros E; right; eapply Hdone; [|exact E].
    destruct (String.eqb type "session:redirect"); reflexivity. }
  match goal with
  | |- context [Retry.maxRetries ?h] =>
      destruct (maxRetries_cases h) as [Hn | (m & Hm & Hb)];
      [rewrite Hn | rewrite Hm]
  end.
  - simpl. intros E. inversion E; subst. right. unfold finished. simpl. lia.
  - destruct (OptimizedHttpRequestor.retry_loop _ _ _ _ _ _ _ _ _ _ _)
      as [[[w1 le] resp]|] eqn:Hl; [|discriminate].
    apply retry_loop_stats in Hl as (Ht & Hsu & Hf & n & Hn & Hbound).
    assert (Hn5 : (n <= 5)%nat).
    { destruct n as [|n]; [lia|]. specialize (Hbound ltac:(lia)). lia. }
    simpl in Ht, Hsu, Hf, Hn.
    assert (Hup : forall b,
              totalRequests (stats (self (updateStats b w1)))
              = S (totalRequests (stats (self w))) /\
              (successfulRequests (stats (self (updateStats b w1)))
               + failedRequests (stats (self (updateStats b w1)))
               = S (successfulRequests (stats (self w)) + failedRequests (stats (self w))))%nat /\
              stats_retryCount (stats (self (updateStats b w1)))
              = (stats_retryCount (stats (self w)) + n)%nat).
    { intros b. destruct b; simpl; lia. }
    intros E. right.
    assert (Hcase : exists b, stats (self w') = stats (self (updateStats b w1))).
    { destruct le as [e|]; [destruct (negb (Js.truthy _))|]; inversion E; subst;
        eexists; reflexivity. }
    destruct Hcase as [b Hst]. destruct (Hup b) as (H1 & H2 & H3).
    unfold finished. rewrite Hst. lia.
Qed.

(** X5: the statistics of the HTTP requestor over any sequence of
    requests: [totalRequests] grows by at most one per call, the requests
    counted as successful or failed never outnumber it (a request that ends
    in a handover or fails an assertion is counted in the total only), and
    [retryCount] grows by at most 5 per counted request. *)
Theorem stats_accounted (calls : list Call) (w : World) :
  exists w',
    run w calls = Some w' /\
    let s := stats (self w) in
    let s' := stats (self w') in
    (totalRequests s <= totalRequests s' <= totalRequests s + length calls)%nat /\
    (finished w <= finished w')%nat /\
    (finished w' - finished w <= totalRequests s' - totalRequests s)%nat /\
    (stats_retryCount s' - stats_retryCount s
     <= 5 * (totalRequests s' - totalRequests s))%nat.
Proof.
  revert w. induction calls as [|c calls IH]; intros w.
  - exists w. split; [reflexivity|]. simpl. lia.
  - cbn [HttpMore.run].
    destruct (http_request_total snakeCase cfg fragment _shouldRetry w
                (call_type c) (call_hook c) (call_params c) (call_headers c)
                (call_net c)) as [[w1 r] Hr].
    rewrite Hr. destruct (IH w1) as (w' & Hrun & H1 & H2 & H3 & H4).
    exists w'. split; [exact Hrun|]. cbv zeta in *.
    apply request_stats in Hr. unfold finished in *. cbn [length].
    destruct Hr as [Hs | (Ht & Hf & Hrc)]; [rewrite <- Hs; lia | lia].
Qed.

(** X6: [k] attempts fail with errors the policy retries, then a response
    is accepted with body [j].  When no attempt failed or [j] is truthy the
    request resolves with [j].  When an attempt failed and [j] is falsy (the
    empty string [makeRequest] returns for a body that is not JSON, or a
    JSON [null], [false] or [0]) the request is rejected with the error of
    the last failed attempt and an alert is written for it, although the
    response was accepted; it is still counted as successful unless [j] is
    [null].  In both cases [k + 1] requests went out. *)
Theorem retry_outcome (w : World) (type : string) (hook : Hook) (url : string)
    (params : value) (hs : headers) (net : nat -> NetOutcome) (m : Z) (k : nat)
    (resp : Response) (j : json) :
  sends_over_http cfg type hook url ->
  poolManager (self w) = true ->
  Retry.maxRetries (fragment (absUrl w url)) = Num m ->
  Z.of_nat k <= m ->
  (forall i, (i < k)%nat ->
     exists e, outcome_error (net i) = Some e /\
               _shouldRetry e (Retry.retryPolicyValues (fragment (absUrl w url))) = true) ->
  net k = NetResponse resp ->
  handleResponse resp = inr j ->
  exists w',
    requestsSent w' =
      requestsSent w ++
      repeat (attempt (method_or_POST hook) (payload_of snakeCase params)) (S k) /\
    stats_retryCount (stats (self w')) = (stats_retryCount (stats (self w)) + k)%nat /\
    (j <> JNull ->
     successfulRequests (stats (self w')) = S (successfulRequests (stats (self w)))) /\
    ((k = 0%nat \/ Js.truthy (Some j) = true) ->
     request w type hook params hs net = Some (w', Return (Some j)) /\
     alerts w' = alerts w) /\
    (k <> 0%nat -> Js.truthy (Some j) = false ->
     exists e, outcome_error (net (k - 1)%nat) = Some e /\
               request w type hook params hs net = Some (w', Throw e) /\
               alerts w' = alerts w ++ [e]).
Proof.
  intros Hsend Hp Hm Hk Hfail Hn Hj.
  rewrite (request_http_path snakeCase cfg fragment _shouldRetry w type hook url
             params hs net Hsend).
  cbv zeta. rewrite Hm. cbn [Retry.loop_bound].
  assert (Hfuel : exists fuel, S (S (Z.to_nat m)) = S (k + fuel)).
  { exists (S (Z.to_nat m) - k)%nat. lia. }
  destruct Hfuel as [fuel ->].
  destruct (retry_loop_failures k fuel (count_request w) url (method_or_POST hook)
              (payload_of snakeCase params) net m
              (Retry.retryPolicyValues (fragment (absUrl w url))) 0 None resp j)
    as (w1 & le' & Hl & H0 & Hlast & _ & Ht & Hs & Hf & Hrc & Ha & Hsent);
    try assumption.
  - intros i Hi. apply Hfail. lia.
  - rewrite Hl. clear Hl.
    set (w2 := updateStats (negb (is_null j)) w1).
    assert (Hsent2 : requestsSent w2 = requestsSent w1) by reflexivity.
    assert (Hrc2 : stats_retryCount (stats (self w2)) = stats_retryCount (stats (self w1)))
      by (unfold w2, updateStats; destruct (negb _); reflexivity).
    assert (Hsu2 : j <> JNull ->
              successfulRequests (stats (self w2)) = S (successfulRequests (stats (self w1)))).
    { intros Hne. unfold w2, updateStats. destruct j; try reflexivity. contradiction. }
    assert (Ha2 : alerts w2 = alerts w1) by reflexivity.
    clearbody w2.
    simpl in Hsent, Hrc, Hs, Ha.
    destruct k as [|k].
    + rewrite (H0 eq_refl). exists w2.
      split; [now rewrite Hsent2, Hsent|]. split; [now rewrite Hrc2, Hrc|].
      split; [intros Hne; now rewrite (Hsu2 Hne), Hs|].
      split; [intros _; split; [reflexivity | congruence] | intros Hne; contradiction].
    + destruct (Hlast ltac:(discriminate)) as (e & -> & He).
      destruct (Js.truthy (Some j)) eqn:Htr; cbn [negb].
      * exists w2.
        split; [now rewrite Hsent2, Hsent|]. split; [now rewrite Hrc2, Hrc|].
        split; [intros Hne; now rewrite (Hsu2 Hne), Hs|].
        split; [intros _; split; [reflexivity | congruence] | intros _ Hfa; discriminate].
      * exists (handleError e w2).
        split; [simpl; now rewrite Hsent2, Hsent|].
        split; [simpl; now rewrite Hrc2, Hrc|].
        split; [intros Hne; simpl; now rewrite (Hsu2 Hne), Hs|].
        split; [intros [Hz | Hfa]; discriminate|].
        intros _ _. exists e. split; [exact He|]. split; [reflexivity|].
        simpl. now rewrite Ha2, Ha.
Qed.

(** X7: without a retry count in the fragment of the URL ([rc] absent or
    empty) the HTTP requestor makes one attempt and does not wait, whatever
    the attempt leads to and whatever the retry policy says. *)
Theorem no_retry_by_default (w : World) (type : string) (hook : Hook) (url : string)
    (params : value) (hs : headers) (net : nat -> NetOutcome) :
  sends_over_http cfg type hook url ->
  poolManager (self w) = true ->
  (rc (fragment (absUrl w url)) = None \/ rc (fragment (absUrl w url)) = Some "") ->
  exists w' r,
    request w type hook params hs net = Some (w', r) /\
    requestsSent w' =
      requestsSent w ++ [attempt (method_or_POST hook) (payload_of snakeCase params)] /\
    sleeps w' = sleeps w /\
    stats_retryCount (stats (self w')) = stats_retryCount (stats (self w)) /\
    (forall e, outcome_error (net 0%nat) = Some e -> r = Throw e).
Proof.
  intros Hsend Hp Hrc.
  rewrite (request_http_path snakeCase cfg fragment _shouldRetry w type hook url
             params hs net Hsend).
  cbv zeta.
  assert (Hm : Retry.maxRetries (fragment (absUrl w url)) = Num 0).
  { unfold Retry.maxRetries. destruct Hrc as [-> | ->]; reflexivity. }
  rewrite Hm. cbn [Retry.loop_bound Z.to_nat OptimizedHttpRequestor.retry_loop
                   JsNumber.leb Nat2Z.inj_0 Z.of_nat Z.leb Z.compare andb Pos.of_succ_nat].
  rewrite (makeRequest_pooled (count_request w) _ _ _ _ Hp).
  unfold outcome_error.
  destruct (net 0%nat) as [e|resp].
  - eexists _, _. split; [reflexivity|]. simpl. repeat split.
    try (intros e' He'; congruence).
  - destruct (handleResponse resp) as [e|j].
    + eexists _, _. split; [reflexivity|]. simpl. repeat split.
      try (intros e' He'; congruence).
    + eexists _, _. split; [reflexivity|]. simpl. repeat split.
      * destruct (negb _); reflexivity.
      * intros e' He'; discriminate.
Qed.

(** X8: when the [rc] option of the fragment does not start with a number,
    the retry count is NaN and the loop of [request] is never entered: no
    request goes out, the call resolves with [null] without any error, and
    the request is counted as failed. *)
Theorem unreadable_rc_sends_nothing (w : World) (type : string) (hook : Hook)
    (url : string) (params : value) (hs : headers) (net : nat -> NetOutcome)
    (s : string) :
  sends_over_http cfg type hook url ->
  rc (fragment (absUrl w url)) = Some s ->
  s <> "" ->
  JsNumber.parseInt s = NaN ->
  exists w',
    request w type hook params hs net = Some (w', Return (Some JNull)) /\
    requestsSent w' = requestsSent w /\ alerts w' = alerts w /\
    sleeps w' = sleeps w /\
    failedRequests (stats (self w')) = S (failedRequests (stats (self w))) /\
    totalRequests (stats (self w')) = S (totalRequests (stats (self w))).
Proof.
  intros Hsend Hrc Hs Hnan.
  rewrite (request_http_path snakeCase cfg fragment _shouldRetry w type hook url
             params hs net Hsend).
  cbv zeta.
  assert (Hm : Retry.maxRetries (fragment (absUrl w url)) = NaN).
  { unfold Retry.maxRetries. rewrite Hrc. apply String.eqb_neq in Hs. rewrite Hs.
    rewrite Hnan. reflexivity. }
  rewrite Hm. eexists. split; [reflexivity|]. simpl. repeat split.
Qed.

End Request.
Lemma verb_hook_over_http url :
  url <> "" ->
  (BaseRequestor._isAbsoluteUrl url && JsString.startsWith url "ws") = false ->
  sends_over_http Sample.cfg "verb:hook" (HookString url) url.
Proof.
  intros Hu Hno. constructor; try assumption.
  - discriminate.
  - simpl. tauto.
  - reflexivity.
  - simpl. tauto.
Qed.

(** X6, witness: the first connection is refused, the retry is answered
    200 with a text body; the request is rejected with the refusal *)
Lemma retry_outcome_witness :
  exists w',
    HttpScenario.request HttpScenario.fresh "verb:hook" (HookString "/hook#rc=2")
      None [] HttpScenario.refused_then_text
    = Some (w', Throw (TransportError "ECONNREFUSED")) /\
    successfulRequests (stats (self w')) = 1%nat /\
    length (requestsSent w') = 2%nat.
Proof.
  destruct (retry_outcome Sample.snake Sample.cfg BaseRequestor.fragment_spec
              BaseRequestor.shouldRetry_spec HttpScenario.fresh "verb:hook"
              (HookString "/hook#rc=2") "/hook#rc=2" None []
              HttpScenario.refused_then_text 2 1
              (mkResponse 200 (Some "text/plain") None) (JStr ""))
    as (w' & Hsent & _ & Hsu & _ & Hrej).
  - apply verb_hook_over_http; [discriminate | reflexivity].
  - reflexivity.
  - vm_compute. reflexivity.
  - lia.
  - intros i Hi. assert (i = 0%nat) as -> by lia.
    eexists. split; [reflexivity | vm_compute; reflexivity].
  - reflexivity.
  - reflexivity.
  - destruct (Hrej ltac:(discriminate) eq_refl) as (e & He & Hreq & _).
    exists w'. split.
    + simpl in He. inversion He; subst. exact Hreq.
    + split; [exact (Hsu ltac:(discriminate))|].
      rewrite Hsent. reflexivity.
Defined.

(** X7, witness: a hook without fragment whose connection is refused *)
Lemma no_retry_by_default_witness :
  exists w',
    HttpScenario.request HttpScenario.fresh "verb:hook" (HookString "/hook")
      None [] Sample.refused
    = Some (w', Throw (TransportError "ECONNREFUSED")) /\
    length (requestsSent w') = 1%nat /\ sleeps w' = [].
Proof.
  destruct (no_retry_by_default Sample.snake Sample.cfg BaseRequestor.fragment_spec
              BaseRequestor.shouldRetry_spec HttpScenario.fresh "verb:hook"
              (HookString "/hook") "/hook" None [] Sample.refused)
    as (w' & r & Hreq & Hsent & Hsl & _ & Hr).
  - apply verb_hook_over_http; [discriminate | reflexivity].
  - reflexivity.
  - left. vm_compute. reflexivity.
  - exists w'. rewrite (Hr _ eq_refl) in Hreq.
    split; [exact Hreq|]. split; [now rewrite Hsent | exact Hsl].
Defined.

(** X8, witness: [rc=abc] *)
Lemma unreadable_rc_sends_nothing_witness :
  exists w',
    HttpScenario.request HttpScenario.fresh "verb:hook" (HookString "/hook#rc=abc")
      None [] Sample.refused
    = Some (w', Return (Some JNull)) /\
    requestsSent w' = [].
Proof.
  destruct (unreadable_rc_sends_nothing Sample.snake Sample.cfg
              BaseRequestor.fragment_spec BaseRequestor.shouldRetry_spec
              HttpScenario.fresh "verb:hook" (HookString "/hook#rc=abc")
              "/hook#rc=abc" None [] Sample.refused "abc")
    as (w' & Hreq & Hsent & _).
  - apply verb_hook_over_http; [discriminate | reflexivity].
  - vm_compute. reflexivity.
  - discriminate.
  - reflexivity.
  - exists w'. split; [exact Hreq | exact Hsent].
Defined.

End HttpRetry.
(** ** The connection pool manager *)

Module PoolFacts.
Import ConnectionPoolManager PoolMore.

Lemma has_set {V} k k' (v : V) m :
  JsMap.has k' (JsMap.set k v m) = String.eqb k k' || JsMap.has k' m.
Proof.
  unfold JsMap.has. destruct (String.eqb k k') eqn:E.
  - apply String.eqb_eq in E. subst. now rewrite JsMap_get_set_eq.
  - apply String.eqb_neq in E. now rewrite (JsMap_get_set_ne _ _ _ _ E).
Qed.

Lemma has_delete {V} k k' (m : JsMap.t V) :
  JsMap.has k' (JsMap.delete k m) = negb (String.eqb k k') && JsMap.has k' m.
Proof.
  unfold JsMap.has. destruct (String.eqb k k') eqn:E.
  - apply String.eqb_eq in E. subst. now rewrite JsMap_get_delete_eq.
  - apply String.eqb_neq in E. now rewrite (JsMap_get_delete_ne _ _ _ E).
Qed.

Lemma has_get {V} k (m : JsMap.t V) :
  JsMap.has k m = true <-> exists v, JsMap.get k m = Some v.
Proof.
  unfold JsMap.has. destruct (JsMap.get k m); split; eauto; try discriminate.
  intros [v H]. discriminate.
Qed.

Section Keys.
Context {V : Type}.
Implicit Types (m : JsMap.t V) (k : string) (v : V).

Lemma In_delete k k' v m :
  In (k', v) (JsMap.delete k m) -> In (k', v) m /\ k' <> k.
Proof.
  induction m as [|[k0 v0] m IH]; simpl; [tauto|].
  destruct (String.eqb k k0) eqn:E.
  - intros H. destruct (IH H). tauto.
  - apply String.eqb_neq in E. intros [H | H].
    + inversion H; subst. split; [now left | congruence].
    + destruct (IH H). tauto.
Qed.

Lemma keys_delete k k' m :
  In k' (map fst (JsMap.delete k m)) -> In k' (map fst m) /\ k' <> k.
Proof.
  rewrite !in_map_iff. intros ([k0 v0] & <- & Hin).
  apply In_delete in Hin as [Hin Hne]. split; [|exact Hne].
  exists (k0, v0). auto.
Qed.

Lemma NoDup_delete k m : List.NoDup (map fst m) -> List.NoDup (map fst (JsMap.delete k m)).
Proof.
  induction m as [|[k0 v0] m IH]; simpl; [auto|].
  intros Hnd. apply List.NoDup_cons_iff in Hnd as [Hni Hnd].
  destruct (String.eqb k k0); [now apply IH|].
  simpl. apply List.NoDup_cons_iff. split; [|now apply IH].
  intros Hin. apply keys_delete in Hin. tauto.
Qed.

Lemma keys_set k k' v m :
  In k' (map fst (JsMap.set k v m)) -> k' = k \/ In k' (map fst m).
Proof.
  induction m as [|[k0 v0] m IH]; simpl.
  - intros [H | []]. now left.
  - destruct (String.eqb k k0) eqn:E; simpl.
    + intros [H | H]; [now left|]. apply keys_delete in H. tauto.
    + intros [H | H]; [tauto|]. apply IH in H. tauto.
Qed.

Lemma NoDup_set k v m : List.NoDup (map fst m) -> List.NoDup (map fst (JsMap.set k v m)).
Proof.
  induction m as [|[k0 v0] m IH]; simpl.
  - intros _. repeat constructor. simpl. tauto.
  - intros Hnd. apply List.NoDup_cons_iff in Hnd as [Hni Hnd].
    destruct (String.eqb k k0) eqn:E; simpl.
    + apply List.NoDup_cons_iff. split; [|now apply NoDup_delete].
      intros Hin. apply keys_delete in Hin. tauto.
    + apply String.eqb_neq in E. apply List.NoDup_cons_iff. split; [|now apply IH].
      intros Hin. apply keys_set in Hin as [-> | Hin]; tauto.
Qed.

Lemma NoDup_In_get k v m : List.NoDup (map fst m) -> In (k, v) m -> JsMap.get k m = Some v.
Proof.
  induction m as [|[k0 v0] m IH]; simpl; [tauto|].
  intros Hnd [H | H]; apply List.NoDup_cons_iff in Hnd as [Hni Hnd].
  - inversion H; subst. now rewrite String.eqb_refl.
  - destruct (String.eqb k k0) eqn:E; [|now apply IH].
    apply String.eqb_eq in E. subst. exfalso. apply Hni.
    apply in_map_iff. exists (k0, v). auto.
Qed.

Lemma get_In k v m : JsMap.get k m = Some v -> In (k, v) m.
Proof.
  induction m as [|[k0 v0] m IH]; simpl; [discriminate|].
  destruct (String.eqb k k0) eqn:E.
  - apply String.eqb_eq in E. subst. intros H. inversion H. now left.
  - intros H. right. now apply IH.
Qed.

End Keys.

Section Model.
Variable cfg : PoolConfig.
Variable clock : nat -> Z.

Local Abbreviation createPool := (createPool clock).
Local Abbreviation getPool := (getPool clock).
Local Abbreviation cleanup := (cleanup clock).
Local Abbreviation getStats := (getStats clock).
Local Abbreviation interval_fires := (interval_fires clock).
Local Abbreviation step := (step clock).
Local Abbreviation run := (run clock).

(** reading the clock, or arming and clearing intervals, leaves the books
    as they are *)
Lemma consistent_same w w' :
  consistent w ->
  pools (self w') = pools (self w) ->
  poolStats (self w') = poolStats (self w) ->
  closed (env w') = closed (env w) ->
  nextPool (env w') = nextPool (env w) ->
  consistent w'.
Proof.
  intros [H1 H2 H3 H4 H5 H6] Hp Hs Hc Hn.
  constructor; rewrite ?Hp, ?Hs, ?Hc, ?Hn; assumption.
Qed.

(** the statistics of a key that has a pool may be replaced *)
Lemma consistent_set_stats b s w :
  consistent w ->
  JsMap.has b (pools (self w)) = true ->
  consistent (on_self (fun r => set_poolStats (JsMap.set b s (poolStats r)) r) w).
Proof.
  intros [H1 H2 H3 H4 H5 H6] Hb. constructor; simpl; try assumption.
  - intros b'. rewrite has_set. destruct (String.eqb b b') eqn:E.
    + apply String.eqb_eq in E. subst. now rewrite Hb.
    + apply H1.
  - now apply NoDup_set.
Qed.

Lemma createPool_fields b w :
  let w' := createPool b w in
  pools (self w') =
    JsMap.set b (mkPool (nextPool (env w)) b (maxConnections (self w))
                   (pipelining (self w)) (keepAliveTimeout (self w)))
      (pools (self w)) /\
  poolStats (self w') =
    JsMap.set b (mkPoolStats (clock (reads (env w))) (clock (S (reads (env w)))) 0)
      (poolStats (self w)) /\
  closed (env w') = closed (env w) /\
  nextPool (env w') = S (nextPool (env w)) /\
  reads (env w') = S (S (reads (env w))) /\
  intervals (env w') = intervals (env w) /\
  cleanupTimer (self w') = cleanupTimer (self w) /\
  idleTimeout (self w') = idleTimeout (self w).
Proof. cbv zeta. repeat split. Qed.

Lemma consistent_createPool b w : consistent w -> consistent (createPool b w).
Proof.
  intros [H1 H2 H3 H4 H5 H6].
  destruct (createPool_fields b w) as (Hp & Hs & Hc & Hn & _).
  constructor; rewrite ?Hp, ?Hs, ?Hc, ?Hn.
  - intros b'. rewrite !has_set. now rewrite H1.
  - intros b' p Hg. destruct (String.eqb b b') eqn:E.
    + apply String.eqb_eq in E. subst. rewrite JsMap_get_set_eq in Hg.
      inversion Hg; subst. simpl. split; [reflexivity|]. split; [|lia].
      intros Hin. apply H4 in Hin. lia.
    + apply String.eqb_neq in E. rewrite (JsMap_get_set_ne _ _ _ _ E) in Hg.
      destruct (H2 b' p Hg) as (Ho & Hcl & Hlt). repeat split; try assumption. lia.
  - intros b1 b2 p1 p2 Hg1 Hg2 Hid.
    destruct (String.eqb b b1) eqn:E1; destruct (String.eqb b b2) eqn:E2.
    + apply String.eqb_eq in E1, E2. congruence.
    + apply String.eqb_eq in E1. apply String.eqb_neq in E2. subst.
      rewrite JsMap_get_set_eq in Hg1. rewrite (JsMap_get_set_ne _ _ _ _ E2) in Hg2.
      inversion Hg1; subst. simpl in Hid.
      destruct (H2 b2 p2 Hg2) as (_ & _ & Hlt). lia.
    + apply String.eqb_neq in E1. apply String.eqb_eq in E2. subst.
      rewrite JsMap_get_set_eq in Hg2. rewrite (JsMap_get_set_ne _ _ _ _ E1) in Hg1.
      inversion Hg2; subst. simpl in Hid.
      destruct (H2 b1 p1 Hg1) as (_ & _ & Hlt). lia.
    + apply String.eqb_neq in E1, E2.
      rewrite (JsMap_get_set_ne _ _ _ _ E1) in Hg1.
      rewrite (JsMap_get_set_ne _ _ _ _ E2) in Hg2. eapply H3; eassumption.
  - intros id Hin. apply H4 in Hin. lia.
  - now apply NoDup_set.
  - now apply NoDup_set.
Qed.

Lemma consistent_destroyPool b w : consistent w -> consistent (destroyPool b w).
Proof.
  intros Hc. destruct Hc as [H1 H2 H3 H4 H5 H6].
  unfold destroyPool. destruct (JsMap.get b (pools (self w))) as [p|] eqn:Hg;
    [|constructor; assumption].
  constructor; simpl.
  - intros b'. rewrite !has_delete. now rewrite H1.
  - intros b' p' Hg'. destruct (String.eqb b b') eqn:E.
    + apply String.eqb_eq in E. subst. rewrite JsMap_get_delete_eq in Hg'. discriminate.
    + apply String.eqb_neq in E. rewrite (JsMap_get_delete_ne _ _ _ E) in Hg'.
      destruct (H2 b' p' Hg') as (Ho & Hcl & Hlt). repeat split; try assumption.
      rewrite in_app_iff. intros [Hin | [Hid | []]]; [contradiction|].
      apply E. symmetry. eapply H3; eassumption || (symmetry; eassumption).
  - intros b1 b2 p1 p2 Hg1 Hg2 Hid.
    destruct (String.eqb b b1) eqn:E1.
    { apply String.eqb_eq in E1. subst. rewrite JsMap_get_delete_eq in Hg1. discriminate. }
    destruct (String.eqb b b2) eqn:E2.
    { apply String.eqb_eq in E2. subst. rewrite JsMap_get_delete_eq in Hg2. discriminate. }
    apply String.eqb_neq in E1, E2.
    rewrite (JsMap_get_delete_ne _ _ _ E1) in Hg1.
    rewrite (JsMap_get_delete_ne _ _ _ E2) in Hg2. eapply H3; eassumption.
  - intros id. rewrite in_app_iff. intros [Hin | [<- | []]]; [now apply H4|].
    apply (H2 b p Hg).
  - now apply NoDup_delete.
  - now apply NoDup_delete.
Qed.

(** [getPool] spelled out: the world after the pool was created if it was
    missing, then one reading of the clock and the statistics updated *)
Lemma getPool_eq b w :
  let w1 := if negb (JsMap.has b (pools (self w))) then createPool b w else w in
  forall s, JsMap.get b (poolStats (self w1)) = Some s ->
  getPool b w =
  (JsMap.get b (pools (self w1)),
   on_self (fun r =>
     set_poolStats
       (JsMap.set b (mkPoolStats (created s) (clock (reads (env w1)))
                       (S (requestCount s))) (poolStats r)) r)
     (on_env (set_reads (S (reads (env w1)))) w1)).
Proof.
  cbv zeta. intros s Hs. unfold ConnectionPoolManager.getPool. cbv zeta.
  rewrite Hs. reflexivity.
Qed.

(** after the first step of [getPool] the key has a pool and statistics *)
Lemma getPool_ready b w :
  consistent w ->
  let w1 := if negb (JsMap.has b (pools (self w))) then createPool b w else w in
  consistent w1 /\
  (exists p, JsMap.get b (pools (self w1)) = Some p) /\
  (exists s, JsMap.get b (poolStats (self w1)) = Some s).
Proof.
  intros Hc. cbv zeta.
  destruct (JsMap.has b (pools (self w))) eqn:Hh; cbn [negb].
  - split; [exact Hc|]. split; [now apply has_get|].
    apply has_get. now rewrite <- (same_keys _ Hc).
  - split; [now apply consistent_createPool|].
    destruct (createPool_fields b w) as (Hp & Hs & _).
    rewrite Hp, Hs, !JsMap_get_set_eq. eauto.
Qed.

Lemma consistent_getPool b w : consistent w -> consistent (snd (getPool b w)).
Proof.
  intros Hc. destruct (getPool_ready b w Hc) as (Hc1 & [p Hp] & [s Hs]).
  rewrite (getPool_eq b w s Hs). cbn [snd].
  apply consistent_set_stats.
  - eapply consistent_same; [exact Hc1 | reflexivity..].
  - apply has_get. simpl. eauto.
Qed.

Lemma consistent_cleanup_loop entries thr :
  forall w, consistent w -> consistent (cleanup_loop entries thr w).
Proof.
  induction entries as [|[b s] rest IH]; intros w Hc; simpl; [exact Hc|].
  apply IH. destruct (lastUsed s <? thr); [now apply consistent_destroyPool | exact Hc].
Qed.

Lemma consistent_cleanup w : consistent w -> consistent (cleanup w).
Proof.
  intros Hc. unfold ConnectionPoolManager.cleanup. cbn [Date_now].
  apply consistent_cleanup_loop. eapply consistent_same; [exact Hc | reflexivity..].
Qed.

Lemma getStats_loop_frame entries :
  forall w,
    self (snd (getStats_loop clock entries w)) = self w /\
    closed (env (snd (getStats_loop clock entries w))) = closed (env w) /\
    nextPool (env (snd (getStats_loop clock entries w))) = nextPool (env w) /\
    intervals (env (snd (getStats_loop clock entries w))) = intervals (env w).
Proof.
  induction entries as [|[b s] rest IH]; intros w; simpl; [auto|].
  match goal with
  | |- context [getStats_loop clock rest ?w1] =>
      specialize (IH w1); destruct (getStats_loop clock rest w1) as [reports w2]
  end.
  simpl in *. exact IH.
Qed.

Lemma getStats_frame w :
  self (snd (getStats w)) = self w /\
  closed (env (snd (getStats w))) = closed (env w) /\
  nextPool (env (snd (getStats w))) = nextPool (env w) /\
  intervals (env (snd (getStats w))) = intervals (env w).
Proof.
  unfold ConnectionPoolManager.getStats.
  pose proof (getStats_loop_frame (poolStats (self w)) w) as H.
  destruct (getStats_loop clock _ w) as [reports w1]. exact H.
Qed.

Lemma consistent_getStats w : consistent w -> consistent (snd (getStats w)).
Proof.
  intros Hc. destruct (getStats_frame w) as (Hs & Hcl & Hn & _).
  eapply consistent_same; [exact Hc | now rewrite Hs.. | exact Hcl | exact Hn].
Qed.

(** closing the pools of a list *)
Lemma close_all_frame (ps : list (string * Pool)) :
  forall w,
    let w' := fold_left (fun w kv => pool_close (snd kv) w) ps w in
    self w' = self w /\
    closed (env w') = closed (env w) ++ map (fun kv => pool_id (snd kv)) ps /\
    nextPool (env w') = nextPool (env w) /\
    intervals (env w') = intervals (env w).
Proof.
  induction ps as [|[b p] ps IH]; intros w; cbv zeta; simpl.
  - rewrite app_nil_r. auto.
  - destruct (IH (pool_close p w)) as (H1 & H2 & H3 & H4).
    rewrite H1, H2, H3, H4. simpl. rewrite <- app_assoc. auto.
Qed.

Lemma JsMap_In_get {V} (m : JsMap.t V) k v :
  In (k, v) m -> exists v', JsMap.get k m = Some v'.
Proof.
  induction m as [|[k' v'] m IH]; simpl; [tauto|].
  intros [H | H].
  - inversion H; subst. rewrite String.eqb_refl. eauto.
  - destruct (String.eqb k k'); eauto.
Qed.

Lemma consistent_destroy w : consistent w -> consistent (destroy w).
Proof.
  intros Hc. unfold destroy.
  set (w1 := match cleanupTimer (self w) with
             | Some id => on_self (set_cleanupTimer None) (clearInterval id w)
             | None => w
             end).
  assert (H1 : consistent w1).
  { unfold w1. destruct (cleanupTimer (self w));
      [eapply consistent_same; [exact Hc | reflexivity..] | exact Hc]. }
  destruct (close_all_frame (pools (self w1)) w1) as (Hs & Hcl & Hn & _).
  constructor; simpl; rewrite ?Hcl, ?Hn.
  - reflexivity.
  - intros b p Hg. discriminate.
  - intros b b' p p' Hg. discriminate.
  - intros id. rewrite in_app_iff, in_map_iff.
    intros [Hin | ([b p] & <- & Hin)]; [now apply (closed_created _ H1)|].
    apply (NoDup_In_get _ _ _ (pools_keys _ H1)) in Hin.
    apply (pools_open _ H1 b p Hin).
  - constructor.
  - constructor.
Qed.

Lemma consistent_interval_fires id w :
  consistent w -> consistent (interval_fires id w).
Proof.
  intros Hc. unfold ConnectionPoolManager.interval_fires.
  destruct (_ && _); [now apply consistent_cleanup | exact Hc].
Qed.

Lemma consistent_step a w : consistent w -> consistent (step w a).
Proof.
  intros Hc. destruct a; simpl.
  - now apply consistent_getPool.
  - now apply consistent_createPool.
  - now apply consistent_cleanup.
  - now apply consistent_destroyPool.
  - now apply consistent_getStats.
  - now apply consistent_destroy.
  - now apply consistent_interval_fires.
Qed.

Lemma consistent_run acts : forall w, consistent w -> consistent (run w acts).
Proof.
  induction acts as [|a acts IH]; intros w Hc; simpl; [exact Hc|].
  apply IH. now apply consistent_step.
Qed.

Lemma consistent_constructor options e :
  (forall id, In id (closed e) -> (id < nextPool e)%nat) ->
  consistent (constructor cfg options e).
Proof.
  intros He. constructor.
  - intros b. reflexivity.
  - intros b p H. discriminate.
  - intros b b' p p' H. discriminate.
  - exact He.
  - constructor.
  - constructor.
Qed.

Lemma destroyPool_get b w :
  consistent w ->
  (forall b', JsMap.get b' (pools (self (destroyPool b w))) =
              if String.eqb b b' then None else JsMap.get b' (pools (self w))) /\
  (forall b', JsMap.get b' (poolStats (self (destroyPool b w))) =
              if String.eqb b b' then None else JsMap.get b' (poolStats (self w))) /\
  (forall id, In id (closed (env (destroyPool b w))) <->
              In id (closed (env w)) \/
              exists p, JsMap.get b (pools (self w)) = Some p /\ pool_id p = id) /\
  idleTimeout (self (destroyPool b w)) = idleTimeout (self w).
Proof.
  intros Hc. unfold destroyPool.
  destruct (JsMap.get b (pools (self w))) as [p|] eqn:Hg; simpl.
  - repeat split.
    + intros b'. destruct (String.eqb b b') eqn:E.
      * apply String.eqb_eq in E. subst. apply JsMap_get_delete_eq.
      * apply String.eqb_neq in E. now apply JsMap_get_delete_ne.
    + intros b'. destruct (String.eqb b b') eqn:E.
      * apply String.eqb_eq in E. subst. apply JsMap_get_delete_eq.
      * apply String.eqb_neq in E. now apply JsMap_get_delete_ne.
    + rewrite in_app_iff. intros [H | [H | []]]; [now left | right; eauto].
    + rewrite in_app_iff. intros [H | (p' & Hp' & Hid)]; [now left|].
      inversion Hp'; subst. right. now left.
  - assert (Hs : JsMap.get b (poolStats (self w)) = None).
    { pose proof (same_keys _ Hc b) as Hk. unfold JsMap.has in Hk. rewrite Hg in Hk.
      destruct (JsMap.get b (poolStats (self w))); [discriminate | reflexivity]. }
    repeat split.
    + intros b'. destruct (String.eqb b b') eqn:E; [|reflexivity].
      apply String.eqb_eq in E. now subst.
    + intros b'. destruct (String.eqb b b') eqn:E; [|reflexivity].
      apply String.eqb_eq in E. now subst.
    + tauto.
    + intros [H | (p' & Hp' & _)]; [exact H | discriminate].
Qed.

Lemma doomed_cons b0 s0 rest thr b :
  doomed ((b0, s0) :: rest) thr b =
  (String.eqb b0 b && (lastUsed s0 <? thr)) || doomed rest thr b.
Proof. reflexivity. Qed.

Lemma cleanup_loop_spec entries thr : forall w,
  consistent w ->
  let w' := cleanup_loop entries thr w in
  (forall b, JsMap.get b (pools (self w')) =
             if doomed entries thr b then None else JsMap.get b (pools (self w))) /\
  (forall b, JsMap.get b (poolStats (self w')) =
             if doomed entries thr b then None else JsMap.get b (poolStats (self w))) /\
  (forall id, In id (closed (env w')) <->
              In id (closed (env w)) \/
              exists b p, doomed entries thr b = true /\
                          JsMap.get b (pools (self w)) = Some p /\ pool_id p = id).
Proof.
  induction entries as [|[b0 s0] rest IH]; intros w Hc; cbv zeta.
  - simpl. repeat split; try tauto. intros [H | (b & p & Hd & _)]; [exact H | discriminate].
  - cbn [cleanup_loop].
    set (w1 := if lastUsed s0 <? thr then destroyPool b0 w else w).
    assert (Hc1 : consistent w1).
    { unfold w1. destruct (lastUsed s0 <? thr); [now apply consistent_destroyPool | exact Hc]. }
    assert (H1 : (forall b', JsMap.get b' (pools (self w1)) =
                     if String.eqb b0 b' && (lastUsed s0 <? thr) then None
                     else JsMap.get b' (pools (self w))) /\
                 (forall b', JsMap.get b' (poolStats (self w1)) =
                     if String.eqb b0 b' && (lastUsed s0 <? thr) then None
                     else JsMap.get b' (poolStats (self w))) /\
                 (forall id, In id (closed (env w1)) <->
                     In id (closed (env w)) \/
                     exists p, (lastUsed s0 <? thr) = true /\
                               JsMap.get b0 (pools (self w)) = Some p /\ pool_id p = id)).
    { unfold w1. destruct (lastUsed s0 <? thr).
      - destruct (destroyPool_get b0 w Hc) as (Hp & Hs & Hcl & _).
        repeat split.
        + intros b'. rewrite andb_true_r. apply Hp.
        + intros b'. rewrite andb_true_r. apply Hs.
        + intros H. apply Hcl in H as [H | (p & Hg & Hid)]; [now left | right; eauto].
        + intros [H | (p & _ & Hg & Hid)]; apply Hcl; [now left | right; eauto].
      - repeat split; try (intros b'; now rewrite andb_false_r); try tauto.
        intros [H | (p & Hf & _)]; [exact H | discriminate]. }
    destruct H1 as (Hp1 & Hs1 & Hcl1).
    destruct (IH w1 Hc1) as (Hp & Hs & Hcl).
    repeat split.
    + intros b. rewrite Hp, Hp1, doomed_cons.
      destruct (doomed rest thr b); [now rewrite orb_true_r|].
      now rewrite orb_false_r.
    + intros b. rewrite Hs, Hs1, doomed_cons.
      destruct (doomed rest thr b); [now rewrite orb_true_r|].
      now rewrite orb_false_r.
    + intros H. apply Hcl in H as [H | (b & p & Hd & Hg & Hid)].
      * apply Hcl1 in H as [H | (p & Hlt & Hg & Hid)]; [now left|].
        right. exists b0, p. rewrite doomed_cons, String.eqb_refl, Hlt. auto.
      * right. exists b, p. rewrite Hp1 in Hg.
        destruct (String.eqb b0 b && (lastUsed s0 <? thr)); [discriminate|].
        rewrite doomed_cons, Hd, orb_true_r. auto.
    + intros [H | (b & p & Hd & Hg & Hid)]; apply Hcl.
      * left. apply Hcl1. now left.
      * rewrite doomed_cons in Hd.
        destruct (String.eqb b0 b && (lastUsed s0 <? thr)) eqn:E0.
        -- left. apply Hcl1. right.
           apply andb_prop in E0 as [Eb Elt]. apply String.eqb_eq in Eb. subst b0.
           eauto.
        -- simpl in Hd. right. exists b, p. rewrite Hp1, E0. auto.
Qed.

Lemma doomed_get (m : JsMap.t PoolStats) thr b :
  List.NoDup (map fst m) ->
  doomed m thr b =
  match JsMap.get b m with
  | Some s => lastUsed s <? thr
  | None => false
  end.
Proof.
  induction m as [|[k s] m IH]; intros Hnd; [reflexivity|].
  apply List.NoDup_cons_iff in Hnd as [Hni Hnd].
  rewrite doomed_cons, (IH Hnd). cbn [JsMap.get]. rewrite (String.eqb_sym k b).
  destruct (String.eqb b k) eqn:E; [|reflexivity].
  apply String.eqb_eq in E. subst. cbn [andb].
  destruct (JsMap.get k m) eqn:Hg; [|now rewrite orb_false_r].
  exfalso. apply Hni. apply get_In in Hg. apply in_map_iff. exists (k, p). auto.
Qed.

Lemma doomed_idle w now b :
  List.NoDup (map fst (poolStats (self w))) ->
  doomed (poolStats (self w)) (now - idleTimeout (self w)) b = idle w now b.
Proof. intros Hnd. unfold idle. now apply doomed_get. Qed.

(** [getPool] on a key that has a pool and statistics *)
Lemma getPool_hit b p s w :
  JsMap.get b (pools (self w)) = Some p ->
  JsMap.get b (poolStats (self w)) = Some s ->
  let w' := snd (getPool b w) in
  fst (getPool b w) = Some p /\
  pools (self w') = pools (self w) /\
  JsMap.get b (poolStats (self w')) =
    Some (mkPoolStats (created s) (clock (reads (env w))) (S (requestCount s))) /\
  reads (env w') = S (reads (env w)) /\
  nextPool (env w') = nextPool (env w) /\ closed (env w') = closed (env w).
Proof.
  intros Hp Hs. cbv zeta.
  assert (Hh : JsMap.has b (pools (self w)) = true) by (apply has_get; eauto).
  pose proof (getPool_eq b w) as Heq. cbv zeta in Heq. rewrite Hh in Heq.
  cbn [negb] in Heq. rewrite (Heq s Hs). cbn [fst snd]. simpl.
  rewrite JsMap_get_set_eq. repeat split; assumption || reflexivity.
Qed.

Lemma getPool_hits b p n : forall s w,
  JsMap.get b (pools (self w)) = Some p ->
  JsMap.get b (poolStats (self w)) = Some s ->
  let w' := run w (repeat (GetPool b) n) in
  JsMap.get b (pools (self w')) = Some p /\
  JsMap.get b (poolStats (self w')) =
    Some (mkPoolStats (created s)
            (match n with O => lastUsed s | S n' => clock (reads (env w) + n')%nat end)
            (requestCount s + n)) /\
  reads (env w') = (reads (env w) + n)%nat /\
  nextPool (env w') = nextPool (env w) /\ closed (env w') = closed (env w).
Proof.
  induction n as [|n IH]; intros s w Hp Hs; cbv zeta.
  - simpl. rewrite Hp, Hs, !Nat.add_0_r. destruct s; auto.
  - cbn [repeat ConnectionPoolManager.run fold_left ConnectionPoolManager.step].
    destruct (getPool_hit b p s w Hp Hs) as (_ & Hp1 & Hs1 & Hr1 & Hn1 & Hc1).
    rewrite <- Hp1 in Hp.
    destruct (IH _ _ Hp Hs1) as (Hp2 & Hs2 & Hr2 & Hn2 & Hc2).
    unfold ConnectionPoolManager.run in *.
    rewrite Hp2, Hs2, Hr2, Hn2, Hc2, Hr1, Hn1, Hc1. cbn [created requestCount lastUsed].
    repeat split; try lia.
    destruct n as [|n']; (do 2 f_equal; try lia; f_equal; lia).
Qed.

End Model.
End PoolFacts.

Module Pool.
Import ConnectionPoolManager PoolMore PoolFacts.

Section Model.
Variable cfg : PoolConfig.
Variable clock : nat -> Z.

(** X9: whatever has been done with a manager since its construction
    (pools obtained, created and destroyed, cleanups, even [destroy]),
    [getPool] hands out a pool: one that was created for the base URL asked
    for and that has not been closed. *)
Theorem getPool_hands_out_open_pool (options : Options) (e : Env)
    (acts : list Action) (b : string) :
  (forall id, In id (closed e) -> (id < nextPool e)%nat) ->
  let w := run clock (constructor cfg options e) acts in
  exists p,
    fst (getPool clock b w) = Some p /\
    pool_origin p = b /\
    ~ In (pool_id p) (closed (env (snd (getPool clock b w)))).
Proof.
  intros He. cbv zeta.
  set (w := run clock (constructor cfg options e) acts).
  assert (Hc : consistent w).
  { apply consistent_run. now apply consistent_constructor. }
  pose proof (consistent_getPool clock b w Hc) as Hc'.
  destruct (getPool_ready clock b w Hc) as (_ & [p Hp] & [s Hs]).
  rewrite (getPool_eq clock b w s Hs) in *. cbn [fst snd] in *.
  exists p. split; [exact Hp|].
  destruct (pools_open _ Hc' b p Hp) as (Ho & Hcl & _). auto.
Qed.

(** X10: the first [getPool] for a base URL creates its pool, with the
    limits of the manager, and the calls that follow reuse it; the
    statistics keep the time of the creation, count the calls, and record the
    time of the last one. *)
Theorem getPool_counts (b : string) (w : World) (n : nat) :
  JsMap.has b (pools (self w)) = false ->
  let w' := run clock w (repeat (GetPool b) (S n)) in
  JsMap.get b (pools (self w')) =
    Some (mkPool (nextPool (env w)) b (maxConnections (self w))
            (pipelining (self w)) (keepAliveTimeout (self w))) /\
  nextPool (env w') = S (nextPool (env w)) /\
  JsMap.get b (poolStats (self w')) =
    Some (mkPoolStats (clock (reads (env w))) (clock (reads (env w) + 2 + n)%nat)
            (S n)) /\
  closed (env w') = closed (env w).
Proof.
  intros Hh. cbv zeta.
  cbn [repeat ConnectionPoolManager.run fold_left ConnectionPoolManager.step].
  pose proof (getPool_eq clock b w) as Heq. cbv zeta in Heq. rewrite Hh in Heq.
  cbn [negb] in Heq.
  destruct (createPool_fields clock b w) as (Hp & Hs & Hc & Hn & Hr & _).
  rewrite Hs, JsMap_get_set_eq in Heq. rewrite (Heq _ eq_refl). cbn [snd].
  match goal with
  | |- context [fold_left _ _ ?w1] =>
      destruct (getPool_hits clock b
                  (mkPool (nextPool (env w)) b (maxConnections (self w))
                     (pipelining (self w)) (keepAliveTimeout (self w)))
                  n
                  (mkPoolStats (clock (reads (env w)))
                     (clock (reads (env (createPool clock b w)))) 1)
                  w1)
        as (Hp2 & Hs2 & _ & Hn2 & Hc2)
  end.
  - simpl. now rewrite JsMap_get_set_eq.
  - simpl. now rewrite JsMap_get_set_eq.
  - unfold ConnectionPoolManager.run in *. rewrite Hp2, Hs2, Hn2, Hc2.
    simpl. repeat split.
    destruct n as [|n']; (do 2 f_equal; try lia; f_equal; lia).
Qed.

(** X11: [cleanup] reads the clock once and removes the pools whose last
    use lies more than [idleTimeout] before that time, and only those: they
    leave both [Map]s and are closed; every other pool stays, with its
    statistics, and is not closed. *)
Theorem cleanup_removes_idle_pools (w : World) :
  consistent w ->
  let now := clock (reads (env w)) in
  let w' := cleanup clock w in
  (forall b, JsMap.get b (pools (self w')) =
             if idle w now b then None else JsMap.get b (pools (self w))) /\
  (forall b, JsMap.get b (poolStats (self w')) =
             if idle w now b then None else JsMap.get b (poolStats (self w))) /\
  (forall id, In id (closed (env w')) <->
              In id (closed (env w)) \/
              exists b p, idle w now b = true /\
                          JsMap.get b (pools (self w)) = Some p /\ pool_id p = id).
Proof.
  intros Hc. cbv zeta. unfold cleanup. cbn [Date_now].
  set (w1 := on_env (set_reads (S (reads (env w)))) w).
  assert (Hc1 : consistent w1) by (eapply consistent_same; [exact Hc | reflexivity..]).
  destruct (cleanup_loop_spec clock (poolStats (self w1))
              (clock (reads (env w)) - idleTimeout (self w1)) w1 Hc1)
    as (Hp & Hs & Hcl).
  assert (Hd : forall b,
            doomed (poolStats (self w1))
              (clock (reads (env w)) - idleTimeout (self w1)) b
            = idle w (clock (reads (env w))) b).
  { intros b. apply (doomed_idle w). exact (stats_keys _ Hc). }
  repeat split.
  - intros b. rewrite Hp, Hd. reflexivity.
  - intros b. rewrite Hs, Hd. reflexivity.
  - intros H. apply Hcl in H as [H | (b & p & Hdb & Hg & Hid)]; [now left|].
    right. exists b, p. rewrite <- Hd. auto.
  - intros [H | (b & p & Hi & Hg & Hid)]; apply Hcl; [now left|].
    right. exists b, p. rewrite Hd. auto.
Qed.

(** what closes no pool leaves a manager without cleanup timer as it is in
    that respect *)
Lemma harmless_step a w :
  harmless a ->
  cleanupTimer (self w) = None ->
  cleanupTimer (self (step clock w a)) = None /\
  closed (env (step clock w a)) = closed (env w) /\
  intervals (env (step clock w a)) = intervals (env w).
Proof.
  intros Ha Ht. destruct a; try contradiction; cbn [ConnectionPoolManager.step].
  - unfold getPool, createPool, Date_now.
    repeat (case_match; simplify_eq; cbn [fst snd]); simpl; auto.
  - destruct (createPool_fields clock baseUrl w) as (_ & _ & Hc & _ & _ & Hi & Hct & _).
    rewrite Hct. auto.
  - destruct (getStats_frame clock w) as (Hs & Hc & _ & Hi). rewrite Hs. auto.
  - unfold interval_fires. rewrite Ht, andb_false_r. auto.
Qed.

Lemma destroy_fields w :
  pools (self (destroy w)) = [] /\ poolStats (self (destroy w)) = [] /\
  cleanupTimer (self (destroy w)) = None /\
  closed (env (destroy w)) =
    closed (env w) ++ map (fun kv => pool_id (snd kv)) (pools (self w)) /\
  (forall id d, cleanupTimer (self w) = Some id ->
                ~ In (id, d) (intervals (env (destroy w)))).
Proof.
  unfold destroy.
  set (w1 := match cleanupTimer (self w) with
             | Some id => on_self (set_cleanupTimer None) (clearInterval id w)
             | None => w
             end).
  destruct (close_all_frame (pools (self w1)) w1) as (Hs & Hcl & _ & Hi).
  assert (H1 : pools (self w1) = pools (self w) /\ closed (env w1) = closed (env w) /\
               cleanupTimer (self w1) = None).
  { unfold w1. destruct (cleanupTimer (self w)) eqn:E; auto. }
  destruct H1 as (Hp1 & Hc1 & Ht1).
  simpl. rewrite Hcl, Hi, Hs, Hp1, Hc1, Ht1. repeat split.
  intros id d Hid. unfold w1. rewrite Hid. simpl.
  rewrite filter_In. simpl. rewrite Nat.eqb_refl. intros [_ H]. discriminate.
Qed.

(** X12: [destroy] closes every pool, empties both [Map]s and clears the
    cleanup interval.  The module keeps the destroyed manager as its
    instance: [getConnectionPoolManager] goes on returning it, whatever the
    options, and nothing arms its interval again.  Pools that [getPool]
    creates from then on are never closed, unless [cleanup], [destroyPool]
    or [destroy] is called by hand. *)
Theorem destroyed_instance_never_reclaims (m : Module) (r : t)
    (acts : list ModuleAction) :
  instance m = Some r ->
  Forall module_harmless acts ->
  let m1 := on_instance destroy m in
  let m' := module_run cfg clock m1 acts in
  (exists r1, instance m1 = Some r1 /\ pools r1 = [] /\ poolStats r1 = [] /\
              cleanupTimer r1 = None) /\
  (forall b p, JsMap.get b (pools r) = Some p -> In (pool_id p) (closed (menv m1))) /\
  (forall id d, cleanupTimer r = Some id -> ~ In (id, d) (intervals (menv m1))) /\
  (exists r', instance m' = Some r' /\ cleanupTimer r' = None) /\
  closed (menv m') = closed (menv m1) /\
  intervals (menv m') = intervals (menv m1).
Proof.
  intros Hi Hacts. cbv zeta.
  destruct (destroy_fields (mkWorld r (menv m))) as (Hp & Hs & Ht & Hc & Hiv).
  set (w1 := destroy (mkWorld r (menv m))) in *.
  assert (Hm1 : on_instance destroy m = mkModule (Some (self w1)) (env w1)).
  { unfold on_instance. rewrite Hi. reflexivity. }
  rewrite Hm1. cbn [instance menv].
  split; [eauto|]. split.
  { intros b p Hg. rewrite Hc. apply in_app_iff. right.
    apply in_map_iff. exists (b, p). split; [reflexivity | now apply get_In]. }
  split; [exact Hiv|].
  assert (Hgen : forall acts m0,
            Forall module_harmless acts ->
            (exists r0, instance m0 = Some r0 /\ cleanupTimer r0 = None) ->
            (exists r', instance (module_run cfg clock m0 acts) = Some r' /\
                        cleanupTimer r' = None) /\
            closed (menv (module_run cfg clock m0 acts)) = closed (menv m0) /\
            intervals (menv (module_run cfg clock m0 acts)) = intervals (menv m0)).
  { clear. induction acts as [|a acts IH]; intros m0 Hacts (r0 & Hr0 & Ht0).
    - simpl. eauto.
    - inversion Hacts as [|? ? Ha Hrest]; subst.
      unfold module_run in *. cbn [fold_left].
      assert (Hstep : (exists r1, instance (module_step cfg clock m0 a) = Some r1 /\
                                  cleanupTimer r1 = None) /\
                      closed (menv (module_step cfg clock m0 a)) = closed (menv m0) /\
                      intervals (menv (module_step cfg clock m0 a)) = intervals (menv m0)).
      { destruct a as [options | a]; simpl.
        - unfold getConnectionPoolManager. rewrite Hr0. eauto.
        - unfold on_instance. rewrite Hr0. cbn [instance menv].
          destruct (harmless_step a (mkWorld r0 (menv m0)) Ha Ht0) as (H1 & H2 & H3).
          eauto. }
      destruct Hstep as (Hex & Hc1 & Hi1).
      destruct (IH _ Hrest Hex) as (Hex' & Hc' & Hi').
      rewrite Hc', Hi', Hc1, Hi1. auto. }
  apply (Hgen acts (mkModule (Some (self w1)) (env w1)) Hacts).
  exists (self w1). auto.
Qed.

End Model.

(** X9, witness: a manager that was destroyed after handing out a pool
    hands out a new one *)
Lemma getPool_hands_out_open_pool_witness :
  let w := run PoolScenario.clock PoolScenario.manager
             [GetPool "https://a.example"; Destroy] in
  exists p,
    fst (getPool PoolScenario.clock "https://a.example" w) = Some p /\
    pool_origin p = "https://a.example" /\
    ~ In (pool_id p)
        (closed (env (snd (getPool PoolScenario.clock "https://a.example" w)))).
Proof.
  exact (getPool_hands_out_open_pool PoolScenario.cfg PoolScenario.clock no_options
           fresh [GetPool "https://a.example"; Destroy] "https://a.example"
           ltac:(intros id [])).
Defined.

(** X10, witness: three calls for one origin on a new manager *)
Lemma getPool_counts_witness :
  let w' := run PoolScenario.clock PoolScenario.manager
              (repeat (GetPool "https://a.example") 3) in
  JsMap.get "https://a.example" (pools (self w'))
  = Some (mkPool 0 "https://a.example" 10 1 30000) /\
  JsMap.get "https://a.example" (poolStats (self w'))
  = Some (mkPoolStats 0 400000 3).
Proof.
  destruct (getPool_counts PoolScenario.clock "https://a.example"
              PoolScenario.manager 2 eq_refl) as (Hp & _ & Hs & _).
  split; [exact Hp | exact Hs].
Defined.

(** X11, witness: of two pools last used at 200 s and 500 s, a cleanup at
    600 s with the default [idleTimeout] of 300 s removes the first *)
Lemma cleanup_removes_idle_pools_witness :
  let w' := cleanup PoolScenario.clock PoolScenario.two_pools in
  JsMap.get "https://a.example" (pools (self w')) = None /\
  JsMap.get "https://b.example" (pools (self w'))
  = Some (mkPool 1 "https://b.example" 10 1 30000) /\
  closed (env w') = [0%nat].
Proof.
  assert (Hc : consistent PoolScenario.two_pools).
  { apply consistent_run. apply (consistent_constructor PoolScenario.cfg).
    intros id []. }
  destruct (cleanup_removes_idle_pools PoolScenario.clock PoolScenario.two_pools Hc)
    as (Hp & _ & _).
  split; [exact (Hp "https://a.example")|].
  split; [exact (Hp "https://b.example") | reflexivity].
Defined.

(** X12, witness: after [destroy], a further
    [getConnectionPoolManager], a [getPool] and the old interval close
    nothing *)
Lemma destroyed_instance_never_reclaims_witness :
  let m1 := on_instance destroy PoolScenario.loaded in
  let m' := module_run PoolScenario.cfg PoolScenario.clock m1
              [Obtain (mkOptions (Some (Num 5)) None None None None);
               Call (GetPool "https://a.example"); Call (IntervalFires 0)] in
  closed (menv m1) = [0%nat] /\ closed (menv m') = [0%nat] /\
  intervals (menv m') = [].
Proof.
  destruct (destroyed_instance_never_reclaims PoolScenario.cfg PoolScenario.clock
              PoolScenario.loaded PoolScenario.loaded_instance
              [Obtain (mkOptions (Some (Num 5)) None None None None);
               Call (GetPool "https://a.example"); Call (IntervalFires 0)]
              eq_refl ltac:(repeat constructor))
    as (_ & _ & _ & _ & Hc & Hi).
  split; [reflexivity|]. split; [exact Hc | exact Hi].
Defined.

End Pool.
(** * The task loader: registration, caching and shared loads *)

Module Loader.
Import TaskLoader LoaderMore.

(** ** Strings and task names *)

Lemma endsWith_length s suffix :
  endsWith s suffix = true ->
  (String.length suffix <= String.length s)%nat /\
  (String.length s = String.length suffix -> s = suffix).
Proof.
  induction s as [|a s IH]; cbn [endsWith].
  - rewrite orb_false_r. intros H. apply String.eqb_eq in H. subst suffix.
    split; [lia | reflexivity].
  - intros H. apply orb_true_iff in H. destruct H as [H|H].
    + apply String.eqb_eq in H. subst suffix. split; [lia | reflexivity].
    + destruct (IH H) as [Hle _]. cbn [String.length].
      split; [lia | intros He; lia].
Qed.

Lemma task_file_longer file :
  is_task_file file = true -> (3 < String.length file)%nat.
Proof.
  unfold is_task_file. intros H.
  repeat (apply andb_true_iff in H; destruct H as [H ?]).
  destruct (endsWith_length _ _ H) as [Hle Heq]. simpl in Hle.
  destruct (Nat.eq_dec (String.length file) 3%nat) as [E|E]; [|lia].
  rewrite (Heq E) in H2. discriminate.
Qed.

Lemma mapping_truthy baseName n : mapping baseName = Some n -> truthy n = true.
Proof.
  unfold mapping, taskNameMappings. simpl.
  repeat match goal with
  | |- context [if ?b then _ else _] => destruct b
  end; intros H; inversion H; reflexivity.
Qed.

Lemma task_file_registered file :
  is_task_file file = true -> exists n, registered_name file = Some n.
Proof.
  intros H. pose proof (task_file_longer _ H) as Hlen.
  unfold is_task_file in H.
  repeat (apply andb_true_iff in H; destruct H as [H ?]).
  unfold registered_name, getTaskNameFromFile. rewrite H. simpl.
  destruct (mapping (slice_end 3 file)) as [n|] eqn:E.
  - rewrite (mapping_truthy _ _ E). eauto.
  - unfold slice_end. destruct file as [|a file]; [simpl in Hlen; lia|].
    destruct (String.length (String a file) - 3)%nat as [|k] eqn:Ek;
      [simpl in *; lia|].
    simpl. eauto.
Qed.

Lemma TaskName_eqb_eq a b : TaskName_eqb a b = true <-> a = b.
Proof.
  destruct a, b; simpl; try (split; [discriminate | congruence]);
    rewrite String.eqb_eq; split; congruence.
Qed.

Lemma TaskName_eqb_refl a : TaskName_eqb a a = true.
Proof. now apply TaskName_eqb_eq. Qed.

Lemma TaskName_eqb_neq a b : TaskName_eqb a b = false <-> a <> b.
Proof.
  rewrite <- TaskName_eqb_eq. destruct (TaskName_eqb a b); split; congruence.
Qed.

(** ** The map of tasks *)

Lemma name_get_delete_eq k m : name_get k (name_delete k m) = None.
Proof.
  induction m as [|[k' v] m IH]; simpl; [reflexivity|].
  destruct (TaskName_eqb k k') eqn:E; [exact IH|].
  simpl. rewrite E. exact IH.
Qed.

Lemma name_get_delete_ne k k' m :
  k <> k' -> name_get k' (name_delete k m) = name_get k' m.
Proof.
  intros Hne. induction m as [|[k0 v] m IH]; simpl; [reflexivity|].
  destruct (TaskName_eqb k k0) eqn:E.
  - apply TaskName_eqb_eq in E. subst k0.
    assert (E' : TaskName_eqb k' k = false) by (apply TaskName_eqb_neq; congruence).
    rewrite E'. exact IH.
  - simpl. now rewrite IH.
Qed.

Lemma name_get_set_eq k v m : name_get k (name_set k v m) = Some v.
Proof.
  induction m as [|[k' v'] m IH]; simpl.
  - now rewrite TaskName_eqb_refl.
  - destruct (TaskName_eqb k k') eqn:E; simpl.
    + now rewrite TaskName_eqb_refl.
    + now rewrite E.
Qed.

Lemma name_get_set_ne k k' v m :
  k <> k' -> name_get k' (name_set k v m) = name_get k' m.
Proof.
  intros Hne.
  assert (Hf : TaskName_eqb k' k = false) by (apply TaskName_eqb_neq; congruence).
  induction m as [|[k0 v0] m IH]; simpl.
  - now rewrite Hf.
  - destruct (TaskName_eqb k k0) eqn:E; simpl.
    + apply TaskName_eqb_eq in E. subst k0. rewrite Hf.
      now apply name_get_delete_ne.
    + now rewrite IH.
Qed.

Lemma name_delete_keys k m x :
  In x (map fst (name_delete k m)) -> In x (map fst m).
Proof.
  induction m as [|[k0 v0] m IH]; simpl; [tauto|].
  destruct (TaskName_eqb k k0); simpl; tauto.
Qed.

Lemma name_delete_NoDup k m :
  List.NoDup (map fst m) -> List.NoDup (map fst (name_delete k m)).
Proof.
  induction m as [|[k0 v0] m IH]; simpl; [auto|].
  intros H. apply List.NoDup_cons_iff in H. destruct H as [Hn Hd].
  destruct (TaskName_eqb k k0); simpl; [auto|].
  apply List.NoDup_cons_iff. split; [|auto].
  intros Hin. apply Hn. eapply name_delete_keys; eauto.
Qed.

Lemma name_delete_absent k m : ~ In k (map fst (name_delete k m)).
Proof.
  induction m as [|[k0 v0] m IH]; simpl; [tauto|].
  destruct (TaskName_eqb k k0) eqn:E; simpl; [exact IH|].
  apply TaskName_eqb_neq in E. intros [H|H]; [congruence | tauto].
Qed.

Lemma name_set_keys k v m x :
  In x (map fst (name_set k v m)) -> x = k \/ In x (map fst m).
Proof.
  induction m as [|[k0 v0] m IH]; simpl; [intuition|].
  destruct (TaskName_eqb k k0) eqn:E; simpl.
  - intros [H|H]; [auto|]. right. right. eapply name_delete_keys; eauto.
  - intros [H|H]; [auto|]. destruct (IH H); auto.
Qed.

Lemma name_set_NoDup k v m :
  List.NoDup (map fst m) -> List.NoDup (map fst (name_set k v m)).
Proof.
  induction m as [|[k0 v0] m IH]; simpl.
  - intros _. repeat constructor. simpl. tauto.
  - intros H. apply List.NoDup_cons_iff in H. destruct H as [Hn Hd].
    destruct (TaskName_eqb k k0) eqn:E; simpl; apply List.NoDup_cons_iff.
    + split; [apply name_delete_absent | now apply name_delete_NoDup].
    + split; [|auto]. intros Hin. apply name_set_keys in Hin.
      apply TaskName_eqb_neq in E. destruct Hin; [congruence | tauto].
Qed.

Lemma name_get_In k m path : name_get k m = Some path -> In k (map fst m).
Proof.
  induction m as [|[k0 v0] m IH]; simpl; [discriminate|].
  destruct (TaskName_eqb k k0) eqn:E; [|auto].
  apply TaskName_eqb_eq in E. auto.
Qed.

(** ** Registration *)

Section Registration.
Variable task_path : string -> string.
Variable readdir : nat -> failure + list string.
Variable require_ : nat -> string -> Required.

Lemma register_cons file rest m :
  register task_path (file :: rest) m =
  register task_path rest match registered_name file with
                | Some n => name_set n (task_path file) m
                | None => m
                end.
Proof.
  simpl. unfold registered_name.
  destruct (getTaskNameFromFile file) as [n|]; [|reflexivity].
  destruct (truthy n); reflexivity.
Qed.

Lemma register_app a b m :
  register task_path (a ++ b) m = register task_path b (register task_path a m).
Proof.
  revert m. induction a as [|file a IH]; intros m; [reflexivity|].
  rewrite <- app_comm_cons, !register_cons. apply IH.
Qed.

Lemma register_other files m n :
  (forall g, In g files -> registered_name g <> Some n) ->
  name_get n (register task_path files m) = name_get n m.
Proof.
  revert m. induction files as [|file rest IH]; intros m H; [reflexivity|].
  rewrite register_cons, IH by (intros g Hg; apply H; now right).
  destruct (registered_name file) as [k|] eqn:E; [|reflexivity].
  apply name_get_set_ne. intros ->. apply (H file); [now left | exact E].
Qed.

Lemma register_last pre file post m n :
  registered_name file = Some n ->
  (forall g, In g post -> registered_name g <> Some n) ->
  name_get n (register task_path (pre ++ file :: post) m) = Some (task_path file).
Proof.
  intros Hn Hpost. rewrite register_app, register_cons, Hn.
  rewrite register_other by exact Hpost. apply name_get_set_eq.
Qed.

Lemma register_keeps files m k path :
  name_get k m = Some path ->
  exists path', name_get k (register task_path files m) = Some path'.
Proof.
  revert m path. induction files as [|file rest IH]; intros m path H; [eauto|].
  rewrite register_cons. destruct (registered_name file) as [n|]; [|eauto].
  destruct (TaskName_eqb n k) eqn:E.
  - apply TaskName_eqb_eq in E. subst n.
    eapply IH. apply name_get_set_eq.
  - apply TaskName_eqb_neq in E. eapply IH.
    rewrite name_get_set_ne by exact E. exact H.
Qed.

Lemma register_NoDup files m :
  List.NoDup (map fst m) -> List.NoDup (map fst (register task_path files m)).
Proof.
  revert m. induction files as [|file rest IH]; intros m H; [exact H|].
  rewrite register_cons. apply IH.
  destruct (registered_name file); [now apply name_set_NoDup | exact H].
Qed.

(** the last file of a list that is registered under a name *)
Lemma last_named n files file :
  In file files -> registered_name file = Some n ->
  exists pre last post,
    files = pre ++ last :: post /\ registered_name last = Some n /\
    (forall g, In g post -> registered_name g <> Some n).
Proof.
  revert file. induction files as [|g rest IH]; simpl; [tauto|].
  intros file Hin Hn.
  assert (Hdec : (exists x, In x rest /\ registered_name x = Some n) \/
                 (forall x, In x rest -> registered_name x <> Some n)).
  { clear. induction rest as [|x rest IH]; [right; simpl; tauto|].
    destruct IH as [(y & Hy & Hny)|IH]; [left; exists y; simpl; auto|].
    destruct (registered_name x) as [k|] eqn:E.
    - destruct (TaskName_eqb k n) eqn:Ek.
      + apply TaskName_eqb_eq in Ek. subst k. left. exists x. simpl. auto.
      + apply TaskName_eqb_neq in Ek. right. intros y [<-|Hy]; [|auto].
        rewrite E. congruence.
    - right. intros y [<-|Hy]; [|auto]. rewrite E. discriminate. }
  destruct Hdec as [(x & Hx & Hnx)|Hnone].
  - destruct (IH _ Hx Hnx) as (pre & last & post & -> & Hl & Hp).
    exists (g :: pre), last, post. auto.
  - destruct Hin as [<-|Hin]; [|exfalso; exact (Hnone _ Hin Hn)].
    exists [], g, rest. auto.
Qed.

(** X13: a scan that succeeds initializes the loader and registers every
    task file of the directory (a name ending in [.js] that does not start
    with a dot and is neither [make_task.js] nor [task.js]): each has a name,
    and the name is bound to the path of the last task file of the listing
    with that name.  A name that no task file of the listing has keeps the
    binding it had. *)
Theorem scan_registers_task_files (w : World) (files : list string) :
  initialized (self w) = false ->
  readdir (scans w) = inr files ->
  let w' := fst (initialize task_path readdir w) in
  snd (initialize task_path readdir w) = None /\
  initialized (self w') = true /\
  (forall file, In file files -> is_task_file file = true ->
     exists n path, registered_name file = Some n /\
                    name_get n (taskMap (self w')) = Some path) /\
  (forall pre file post n,
     List.filter is_task_file files = pre ++ file :: post ->
     registered_name file = Some n ->
     (forall g, In g post -> registered_name g <> Some n) ->
     name_get n (taskMap (self w')) = Some (task_path file)) /\
  (forall n,
     (forall g, In g files -> is_task_file g = true -> registered_name g <> Some n) ->
     name_get n (taskMap (self w')) = name_get n (taskMap (self w))).
Proof.
  intros Hi Hr. unfold TaskLoader.initialize, scan. rewrite Hi, Hr. simpl.
  split; [reflexivity|]. split; [reflexivity|]. split; [|split].
  - intros file Hin Htask.
    destruct (task_file_registered _ Htask) as [n Hn].
    assert (Hin' : In file (List.filter is_task_file files))
      by (apply filter_In; auto).
    destruct (last_named _ _ _ Hin' Hn) as (pre & last & post & E & Hl & Hp).
    exists n, (task_path last). split; [exact Hn|].
    rewrite E. now apply register_last.
  - intros pre file post n E Hn Hp. rewrite E. now apply register_last.
  - intros n H. apply register_other. intros g Hg.
    apply filter_In in Hg. destruct Hg. auto.
Qed.

End Registration.

(** X13, witness: in a listing with [sip_decline.js] the task [sip:decline] is bound to
    the path of that file. *)
Lemma scan_registers_task_files_witness :
  exists n path,
    registered_name "sip_decline.js" = Some n /\
    name_get n (taskMap (self (fst (initialize LoaderScenario.task_path
                                      LoaderScenario.readdir
                                      (LoaderScenario.run constructor [Initialize])))))
    = Some path.
Proof.
  destruct (scan_registers_task_files LoaderScenario.task_path
              LoaderScenario.readdir
              (LoaderScenario.run constructor [Initialize])
              ["dial.js"; "sip_decline.js"; ".eslintrc.js"; "task.js";
               "README.md"; "say.js"; "constructor.js"]
              ltac:(reflexivity) ltac:(reflexivity))
    as (_ & _ & H & _).
  apply (H "sip_decline.js"); [simpl; tauto | reflexivity].
Defined.

(** ** The cache and the loads in progress *)

Lemma JsMap_get_key {V} k (m : JsMap.t V) v :
  JsMap.get k m = Some v -> In k (map fst m).
Proof.
  induction m as [|[k0 v0] m IH]; simpl; [discriminate|].
  destruct (String.eqb k k0) eqn:E; [|auto].
  apply String.eqb_eq in E. auto.
Qed.

Lemma JsMap_key_get {V} k (m : JsMap.t V) :
  In k (map fst m) -> exists v, JsMap.get k m = Some v.
Proof.
  induction m as [|[k0 v0] m IH]; simpl; [tauto|].
  destruct (String.eqb k k0) eqn:E; [eauto|].
  apply String.eqb_neq in E. intros [H|H]; [congruence | auto].
Qed.

Lemma JsMap_delete_keys {V} k (m : JsMap.t V) x :
  In x (map fst (JsMap.delete k m)) -> In x (map fst m).
Proof.
  induction m as [|[k0 v0] m IH]; simpl; [tauto|].
  destruct (String.eqb k k0); simpl; tauto.
Qed.

Lemma JsMap_delete_NoDup {V} k (m : JsMap.t V) :
  List.NoDup (map fst m) -> List.NoDup (map fst (JsMap.delete k m)).
Proof.
  induction m as [|[k0 v0] m IH]; simpl; [auto|].
  intros H. apply List.NoDup_cons_iff in H. destruct H as [Hn Hd].
  destruct (String.eqb k k0); simpl; [auto|].
  apply List.NoDup_cons_iff. split; [|auto].
  intros Hin. apply Hn. eapply JsMap_delete_keys; eauto.
Qed.

Lemma JsMap_delete_absent {V} k (m : JsMap.t V) :
  ~ In k (map fst (JsMap.delete k m)).
Proof.
  intros H. apply JsMap_key_get in H. destruct H as [v H].
  rewrite JsMap_get_delete_eq in H. discriminate.
Qed.

Lemma JsMap_set_keys {V} k (v : V) m x :
  In x (map fst (JsMap.set k v m)) -> x = k \/ In x (map fst m).
Proof.
  induction m as [|[k0 v0] m IH]; simpl; [intuition|].
  destruct (String.eqb k k0) eqn:E; simpl.
  - intros [H|H]; [auto|]. right. right. eapply JsMap_delete_keys; eauto.
  - intros [H|H]; [auto|]. destruct (IH H); auto.
Qed.

Lemma JsMap_set_NoDup {V} k (v : V) m :
  List.NoDup (map fst m) -> List.NoDup (map fst (JsMap.set k v m)).
Proof.
  induction m as [|[k0 v0] m IH]; simpl.
  - intros _. repeat constructor. simpl. tauto.
  - intros H. apply List.NoDup_cons_iff in H. destruct H as [Hn Hd].
    destruct (String.eqb k k0) eqn:E; simpl; apply List.NoDup_cons_iff.
    + split; [apply JsMap_delete_absent | now apply JsMap_delete_NoDup].
    + split; [|auto]. intros Hin. apply JsMap_set_keys in Hin.
      apply String.eqb_neq in E. destruct Hin; [congruence | tauto].
Qed.

Lemma JsMap_get_delete_Some {V} k k' (m : JsMap.t V) v :
  JsMap.get k' (JsMap.delete k m) = Some v -> JsMap.get k' m = Some v.
Proof.
  destruct (string_dec k k') as [->|Hne].
  - rewrite JsMap_get_delete_eq. discriminate.
  - now rewrite JsMap_get_delete_ne.
Qed.

Section Calls.
Variable task_path : string -> string.
Variable readdir : nat -> failure + list string.
Variable require_ : nat -> string -> Required.

Lemma initialize_books w :
  let w' := fst (initialize task_path readdir w) in
  taskCache (self w') = taskCache (self w) /\
  loadingPromises (self w') = loadingPromises (self w) /\
  promises w' = promises w /\ required w' = required w /\
  (snd (initialize task_path readdir w) = None -> initialized (self w') = true) /\
  (snd (initialize task_path readdir w) <> None ->
   self w' = self w /\ initialized (self w) = false).
Proof.
  unfold initialize, scan. destruct (initialized (self w)) eqn:Hi; simpl.
  - rewrite Hi. repeat split; auto; congruence.
  - destruct (readdir (scans w)) as [e|files]; simpl;
      repeat split; auto; congruence.
Qed.

Lemma initialize_done w :
  initialized (self w) = true -> initialize task_path readdir w = (w, None).
Proof. unfold initialize. now intros ->. Qed.

Lemma loadTaskModule_eq taskPath taskName w :
  loadTaskModule require_ taskPath taskName w =
  (length (promises w),
   mkWorld (self w)
     (promises w ++ [load_result taskName (require_ (length (required w)) taskPath)])
     (scans w) (required w ++ [taskPath])).
Proof.
  unfold loadTaskModule, load_result.
  destruct (require_ (length (required w)) taskPath) as [e|[f|]]; reflexivity.
Qed.

(** the cases of [loadTask_begin] *)
Lemma loadTask_begin_cases n w :
  (exists f, JsMap.get n (taskCache (self w)) = Some f /\
             loadTask_begin require_ n w = (Cached f, w)) \/
  (JsMap.get n (taskCache (self w)) = None /\
   ((exists p, JsMap.get n (loadingPromises (self w)) = Some p /\
               loadTask_begin require_ n w = (Joined p, w)) \/
    (JsMap.get n (loadingPromises (self w)) = None /\
     ((loadTask_begin require_ n w = (NotFound, w) /\
       forall path, name_get (Name n) (taskMap (self w)) = Some path -> path = "") \/
      (exists path,
         name_get (Name n) (taskMap (self w)) = Some path /\ path <> "" /\
         loadTask_begin require_ n w =
         (Loading (length (promises w)),
          mkWorld
            (set_loadingPromises
               (JsMap.set n (length (promises w)) (loadingPromises (self w)))
               (self w))
            (promises w ++ [load_result n (require_ (length (required w)) path)])
            (scans w) (required w ++ [path]))))))).
Proof.
  unfold loadTask_begin.
  destruct (JsMap.get n (taskCache (self w))) as [f|]; [left; eauto|].
  right. split; [reflexivity|].
  destruct (JsMap.get n (loadingPromises (self w))) as [p|]; [left; eauto|].
  right. split; [reflexivity|].
  destruct (name_get (Name n) (taskMap (self w))) as [path|];
    [|left; split; [reflexivity | discriminate]].
  destruct (String.eqb path "") eqn:E.
  - apply String.eqb_eq in E. left. split; [reflexivity | congruence].
  - apply String.eqb_neq in E. right. exists path.
    rewrite loadTaskModule_eq. auto.
Qed.

Lemma settlement_last {A} p (ps : list A) x d :
  p = length ps -> nth p (ps ++ [x]) d = x.
Proof. intros ->. rewrite app_nth2 by lia. now rewrite Nat.sub_diag. Qed.

End Calls.

End Loader.
(** * The task loader: calls awaited one after the other *)

Module LoaderCalls.
Import TaskLoader LoaderMore Loader.

Section Calls.
Variable task_path : string -> string.
Variable readdir : nat -> failure + list string.
Variable require_ : nat -> string -> Required.

(** [loadTask] when no load is in progress *)
Lemma loadTask_quiet n w :
  loadingPromises (self w) = [] ->
  let w0 := fst (initialize task_path readdir w) in
  (exists e, snd (initialize task_path readdir w) = Some e /\
             loadTask task_path readdir require_ n w = (inl e, w0)) \/
  (snd (initialize task_path readdir w) = None /\
   ((exists f, JsMap.get n (taskCache (self w0)) = Some f /\
               loadTask task_path readdir require_ n w = (inr f, w0)) \/
    (JsMap.get n (taskCache (self w0)) = None /\
     (forall path, name_get (Name n) (taskMap (self w0)) = Some path -> path = "") /\
     loadTask task_path readdir require_ n w =
     (inl (Error (not_found_message n)), w0)) \/
    (exists path,
       JsMap.get n (taskCache (self w0)) = None /\
       name_get (Name n) (taskMap (self w0)) = Some path /\ path <> "" /\
       let r := load_result n (require_ (length (required w0)) path) in
       loadTask task_path readdir require_ n w =
       (r, mkWorld
             (mk match r with
                 | inr f => JsMap.set n f (taskCache (self w0))
                 | inl _ => taskCache (self w0)
                 end (taskMap (self w0)) [] (initialized (self w0)))
             (promises w0 ++ [r]) (scans w0) (required w0 ++ [path]))))).
Proof.
  intros Hq. pose proof (initialize_books task_path readdir w) as Hb.
  unfold loadTask. destruct (initialize task_path readdir w) as [w0 [e|]] eqn:Ei;
    simpl in *; [left; eauto|].
  right. split; [reflexivity|].
  destruct Hb as (_ & Hl & _). rewrite Hq in Hl.
  destruct (loadTask_begin_cases require_ n w0)
    as [(f & Hc & ->)|(Hc & [(p & Hp & _)|(_ & [(-> & Hnf)|(path & Hm & Hne & ->)])])].
  - left. eauto.
  - rewrite Hl in Hp. discriminate.
  - right. left. auto.
  - right. right. exists path. repeat (split; [assumption|]).
    unfold loadTask_finish, settlement, on_self. cbn [promises self scans required].
    rewrite settlement_last by reflexivity.
    rewrite Hl.
    destruct (load_result n (require_ (length (required w0)) path));
      simpl; rewrite String.eqb_refl; reflexivity.
Qed.

Lemma loadTask_cached n f w :
  initialized (self w) = true ->
  JsMap.get n (taskCache (self w)) = Some f ->
  loadTask task_path readdir require_ n w = (inr f, w).
Proof.
  intros Hi Hc. unfold loadTask, loadTask_begin.
  rewrite (initialize_done _ _ _ Hi), Hc. reflexivity.
Qed.

(** a call that spares a cached task leaves it cached *)
Lemma spares_step n f w a :
  spares n a ->
  loadingPromises (self w) = [] -> initialized (self w) = true ->
  JsMap.get n (taskCache (self w)) = Some f ->
  let w' := step task_path readdir require_ w a in
  loadingPromises (self w') = [] /\ initialized (self w') = true /\
  JsMap.get n (taskCache (self w')) = Some f.
Proof.
  intros Ha Hq Hi Hc. destruct a as [|m|[m|]]; simpl in *.
  - rewrite (initialize_done _ _ _ Hi). auto.
  - destruct (loadTask_quiet m w Hq) as [(e & He & _)|(_ & H)];
      rewrite (initialize_done _ _ _ Hi) in *; simpl in *; [discriminate|].
    destruct H as [(g & _ & ->)|[(_ & _ & ->)|(path & Hm & _ & _ & ->)]];
      simpl; auto.
    split; [reflexivity|]. split; [exact Hi|].
    assert (m <> n) by congruence.
    destruct (load_result m _); [exact Hc|].
    now rewrite JsMap_get_set_ne.
  - destruct Ha as [Hne Hmn]. apply String.eqb_neq in Hne. rewrite Hne. simpl.
    rewrite JsMap_get_delete_ne by exact Hmn. auto.
  - tauto.
Qed.

(** X14: a task that a call of [loadTask] has delivered stays in the cache:
    whatever calls follow, as long as none clears the cache or this task's
    entry, a further [loadTask] for the task returns the same module and
    changes nothing, so that nothing is read again. *)
Theorem loaded_task_served_from_cache (w w1 : World) (n : string) (f : nat) :
  loadingPromises (self w) = [] ->
  loadTask task_path readdir require_ n w = (inr f, w1) ->
  forall acts, Forall (spares n) acts ->
  let w2 := run task_path readdir require_ w1 acts in
  loadTask task_path readdir require_ n w2 = (inr f, w2).
Proof.
  intros Hq Hl.
  assert (H1 : loadingPromises (self w1) = [] /\ initialized (self w1) = true /\
               JsMap.get n (taskCache (self w1)) = Some f).
  { pose proof (initialize_books task_path readdir w) as (_ & Hl0 & _ & _ & Hi & _).
    destruct (loadTask_quiet n w Hq) as [(e & _ & E)|(Hn & H)];
      [rewrite E in Hl; discriminate|].
    specialize (Hi Hn). rewrite Hq in Hl0.
    destruct H as [(g & Hg & E)|[(_ & _ & E)|(path & _ & _ & _ & E)]];
      rewrite E in Hl; clear E.
    - inversion Hl; subst. auto.
    - discriminate.
    - simpl in Hl. destruct (load_result n _) as [e|g] eqn:Er; [discriminate|].
      inversion Hl; subst. simpl. rewrite JsMap_get_set_eq. auto. }
  clear Hq Hl. intros acts Hacts. revert w1 H1.
  induction Hacts as [|a acts Ha _ IH]; intros w1 (Hq & Hi & Hc); simpl.
  - now apply loadTask_cached.
  - apply IH. now apply spares_step.
Qed.

(** X15: a load that failed is not remembered: when a call of [loadTask]
    on a task of the map has been rejected, the task is not cached, and the
    next call requires the file again and returns what [require] gives this
    time. *)
Theorem failed_load_tried_again (w w1 : World) (n path : string) (e : failure) :
  loadingPromises (self w) = [] ->
  loadTask task_path readdir require_ n w = (inl e, w1) ->
  initialized (self w1) = true ->
  name_get (Name n) (taskMap (self w1)) = Some path -> path <> "" ->
  JsMap.get n (taskCache (self w1)) = None /\
  fst (loadTask task_path readdir require_ n w1) =
    load_result n (require_ (length (required w1)) path) /\
  required (snd (loadTask task_path readdir require_ n w1)) = required w1 ++ [path].
Proof.
  intros Hq Hl Hi Hm Hne.
  assert (H1 : loadingPromises (self w1) = [] /\
               JsMap.get n (taskCache (self w1)) = None).
  { pose proof (initialize_books task_path readdir w) as (_ & Hl0 & _ & _ & _ & Hf).
    rewrite Hq in Hl0.
    destruct (loadTask_quiet n w Hq) as [(e' & He & E)|(Hn & H)].
    - rewrite E in Hl. inversion Hl; subst.
      destruct Hf as [Hs Hfalse]; [congruence|]. rewrite Hs in Hi. congruence.
    - destruct H as [(g & Hg & E)|[(Hc & _ & E)|(path' & Hc & _ & _ & E)]];
        rewrite E in Hl; clear E.
      + discriminate.
      + inversion Hl; subst. auto.
      + simpl in Hl. destruct (load_result n _) as [e'|g] eqn:Er; [|discriminate].
        inversion Hl; subst. simpl. auto. }
  destruct H1 as [Hq1 Hc1]. split; [exact Hc1|].
  destruct (loadTask_quiet n w1 Hq1) as [(e' & He & _)|(_ & H)];
    rewrite (initialize_done _ _ _ Hi) in *; simpl in *; [discriminate|].
  destruct H as [(g & Hg & _)|[(_ & Hnf & _)|(path' & _ & Hm' & _ & ->)]].
  - congruence.
  - elim Hne. now apply Hnf.
  - assert (path' = path) by congruence. subst path'. simpl. auto.
Qed.

(** ** Loads in progress *)

Lemma piece_keeps n p w c :
  not_finish_of n c ->
  JsMap.get n (taskCache (self w)) = None ->
  JsMap.get n (loadingPromises (self w)) = Some p ->
  (p < length (promises w))%nat ->
  let w' := piece require_ w c in
  JsMap.get n (taskCache (self w')) = None /\
  JsMap.get n (loadingPromises (self w')) = Some p /\
  (p < length (promises w'))%nat /\
  settlement p w' = settlement p w.
Proof.
  intros Hc Hn Hp Hlt. destruct c as [m|m q]; simpl in *.
  - destruct (loadTask_begin_cases require_ m w)
      as [(f & _ & ->)|(_ & [(p' & _ & ->)|(Hl & [(-> & _)|(path & _ & _ & ->)])])];
      simpl; auto.
    assert (m <> n) by congruence.
    rewrite JsMap_get_set_ne by assumption.
    rewrite length_app. simpl. repeat split; auto; [lia|].
    unfold settlement. simpl. now rewrite app_nth1.
  - unfold loadTask_finish. simpl.
    rewrite JsMap_get_delete_ne by exact Hc.
    destruct (settlement q w) as [e|f]; simpl; auto.
    rewrite JsMap_get_set_ne by exact Hc. auto.
Qed.

(** X16: while a load of a task is in progress, every further [loadTask]
    for it joins the promise of that load and requires nothing, whatever
    other loads begin or end meanwhile; the promise keeps its outcome, and
    once the load has ended with a module, the task is served from the
    cache. *)
Theorem load_in_progress_is_shared (w w1 : World) (n : string) (p : nat) :
  loadTask_begin require_ n w = (Loading p, w1) ->
  forall cs, Forall (not_finish_of n) cs ->
  let w2 := pieces require_ w1 cs in
  loadTask_begin require_ n w2 = (Joined p, w2) /\
  settlement p w2 = settlement p w1 /\
  forall f, settlement p w1 = inr f ->
    let w3 := piece require_ w2 (Finish n p) in
    loadTask_begin require_ n w3 = (Cached f, w3).
Proof.
  intros Hb.
  assert (H1 : JsMap.get n (taskCache (self w1)) = None /\
               JsMap.get n (loadingPromises (self w1)) = Some p /\
               (p < length (promises w1))%nat).
  { destruct (loadTask_begin_cases require_ n w)
      as [(f & _ & E)|(Hc & [(p' & _ & E)|(Hl & [(E & _)|(path & _ & _ & E)])])];
      rewrite E in Hb; try discriminate.
    inversion Hb; subst. simpl. rewrite JsMap_get_set_eq, length_app. simpl.
    repeat split; auto. lia. }
  clear Hb. intros cs Hcs.
  enough (H : forall w1,
            JsMap.get n (taskCache (self w1)) = None ->
            JsMap.get n (loadingPromises (self w1)) = Some p ->
            (p < length (promises w1))%nat ->
            let w2 := pieces require_ w1 cs in
            JsMap.get n (taskCache (self w2)) = None /\
            JsMap.get n (loadingPromises (self w2)) = Some p /\
            settlement p w2 = settlement p w1).
  { destruct H1 as (Hc & Hp & Hlt). destruct (H w1 Hc Hp Hlt) as (Hc2 & Hp2 & Hs).
    cbv zeta. split; [|split; [exact Hs|]].
    - unfold loadTask_begin. now rewrite Hc2, Hp2.
    - intros f Hf. simpl. unfold loadTask_finish, loadTask_begin.
      rewrite Hs, Hf. simpl. now rewrite JsMap_get_set_eq. }
  clear w1 H1. induction Hcs as [|c cs Hc _ IH]; intros w1 Hn Hp Hlt; simpl.
  - auto.
  - destruct (piece_keeps n p w1 c Hc Hn Hp Hlt) as (Hn' & Hp' & Hlt' & Hs).
    destruct (IH _ Hn' Hp' Hlt') as (? & ? & Hs'). cbv zeta in *.
    repeat split; auto. congruence.
Qed.

(** ** The books between calls *)

Lemma tidy_self w w' : self w' = self w -> tidy w -> tidy w'.
Proof. intros E [? ? ? ?]. constructor; rewrite E; assumption. Qed.

Lemma tidy_initialize w : tidy w -> tidy (fst (initialize task_path readdir w)).
Proof.
  intros Hw. unfold initialize, scan.
  destruct (initialized (self w)); [exact Hw|].
  destruct (readdir (scans w)) as [e|files]; simpl;
    [now apply (tidy_self w)|].
  destruct Hw as [Hq Hc Hk Hm]. constructor; simpl; auto.
  - intros n f Hf. destruct (Hc n f Hf) as [path Hp].
    eapply register_keeps; eauto.
  - now apply register_NoDup.
Qed.

Lemma tidy_step w a : tidy w -> tidy (step task_path readdir require_ w a).
Proof.
  intros Hw. destruct a as [|m|m]; simpl.
  - now apply tidy_initialize.
  - pose proof (tidy_initialize w Hw) as H0.
    destruct (loadTask_quiet m w (none_loading _ Hw))
      as [(e & _ & ->)|(_ & [(f & _ & ->)|[(_ & _ & ->)|(path & _ & Hm & _ & ->)]])];
      simpl; auto.
    destruct H0 as [Hq Hc Hk Hmk]. constructor; simpl; auto.
    + intros k f. destruct (load_result m _) as [e|g]; [apply Hc|].
      destruct (string_dec m k) as [<-|Hne]; [eauto|].
      rewrite JsMap_get_set_ne by exact Hne. apply Hc.
    + destruct (load_result m _); [exact Hk | now apply JsMap_set_NoDup].
  - destruct Hw as [Hq Hc Hk Hmk].
    assert (Hall : tidy (on_self (set_taskCache []) w)).
    { constructor; simpl; auto; [discriminate | constructor]. }
    destruct m as [m|]; simpl; [|exact Hall].
    destruct (String.eqb m ""); [exact Hall|].
    constructor; simpl; auto.
    + intros k f Hf. apply JsMap_get_delete_Some in Hf. eauto.
    + now apply JsMap_delete_NoDup.
Qed.

Lemma tidy_counts w :
  tidy w -> (length (taskCache (self w)) <= length (taskMap (self w)))%nat.
Proof.
  intros [_ Hc Hk _].
  rewrite <- (length_map fst (taskMap (self w))).
  rewrite <- (length_map fst (taskCache (self w))).
  rewrite <- (length_map Name (map fst (taskCache (self w)))).
  apply List.NoDup_incl_length.
  - clear Hc. induction Hk as [|k ks Hn _ IH]; simpl; constructor; [|exact IH].
    rewrite in_map_iff. intros (k' & E & Hin). congruence.
  - intros x Hx. apply in_map_iff in Hx. destruct Hx as (k & <- & Hin).
    destruct (JsMap_key_get _ _ Hin) as [f Hf].
    destruct (Hc _ _ Hf) as [path Hp]. eapply name_get_In; eauto.
Qed.

(** X17: however a loader is used, each call awaited before the next, its
    books stay in order: between calls no load is in progress, every cached
    task is a task of the map, and so [getStats] never reports more cached
    tasks than tasks. *)
Theorem cached_tasks_within_task_map (acts : list Action) :
  let w := run task_path readdir require_ constructor acts in
  tidy w /\
  forall total cached loading i,
    getStats w = (total, cached, loading, i) ->
    (cached <= total)%nat /\ loading = 0%nat.
Proof.
  assert (H : forall w, tidy w -> tidy (run task_path readdir require_ w acts)).
  { induction acts as [|a acts IH]; intros w Hw; simpl; [exact Hw|].
    apply IH. now apply tidy_step. }
  assert (H0 : tidy constructor).
  { constructor; simpl; try constructor. discriminate. }
  specialize (H _ H0). cbv zeta. split; [exact H|].
  intros total cached loading i E. unfold getStats in E. inversion E; subst.
  split; [now apply tidy_counts|]. now rewrite (none_loading _ H).
Qed.

End Calls.

(** X14, witness: after a failed attempt [dial] is loaded, and is then served from the
    cache whatever else is loaded or cleared. *)
Lemma loaded_task_served_from_cache_witness :
  let w2 := LoaderScenario.run LoaderScenario.loaded
              [LoadTask "say"; ClearCache (Some "say"); Initialize] in
  loadTask LoaderScenario.task_path LoaderScenario.readdir LoaderScenario.require_
    "dial" w2 = (inr 1%nat, w2).
Proof.
  apply (loaded_task_served_from_cache
           LoaderScenario.task_path LoaderScenario.readdir LoaderScenario.require_
           (LoaderScenario.run LoaderScenario.scanned [LoadTask "dial"])
           LoaderScenario.loaded "dial" 1%nat).
  - vm_compute. reflexivity.
  - vm_compute. reflexivity.
  - repeat constructor; simpl; discriminate.
Defined.

(** X15, witness: the first [require] of [dial.js] throws; the next call requires the file
    again. *)
Lemma failed_load_tried_again_witness :
  let w1 := LoaderScenario.run LoaderScenario.scanned [LoadTask "dial"] in
  fst (loadTask LoaderScenario.task_path LoaderScenario.readdir
         LoaderScenario.require_ "dial" w1) =
  load_result "dial"
    (LoaderScenario.require_ (length (required w1)) "/app/lib/tasks/dial.js").
Proof.
  intros w1.
  destruct (failed_load_tried_again
              LoaderScenario.task_path LoaderScenario.readdir LoaderScenario.require_
              LoaderScenario.scanned w1 "dial" "/app/lib/tasks/dial.js"
              (Thrown "SyntaxError"))
    as (_ & H & _).
  - vm_compute. reflexivity.
  - vm_compute. reflexivity.
  - vm_compute. reflexivity.
  - vm_compute. reflexivity.
  - discriminate.
  - exact H.
Defined.

(** X16, witness: while [dial] is being loaded, other loads begin and end; a second call
    for [dial] joins the first. *)
Lemma load_in_progress_is_shared_witness :
  let w1 := snd (loadTask_begin LoaderScenario.require_ "dial" LoaderScenario.scanned) in
  let w2 := pieces LoaderScenario.require_ w1
              [Begin "say"; Begin "dial"; Finish "say" 1%nat] in
  loadTask_begin LoaderScenario.require_ "dial" w2 = (Joined 0%nat, w2).
Proof.
  intros w1 w2.
  destruct (load_in_progress_is_shared LoaderScenario.require_
              LoaderScenario.scanned w1 "dial" 0%nat
              ltac:(vm_compute; reflexivity)
              [Begin "say"; Begin "dial"; Finish "say" 1%nat]) as (H & _).
  - repeat constructor; simpl; discriminate.
  - exact H.
Defined.

End LoaderCalls.
(** * The task loader: loading several tasks at once *)

Module LoaderBatch.
Import TaskLoader LoaderMore Loader.

Lemma JsMap_all_absent {V} (m : JsMap.t V) :
  (forall k, JsMap.get k m = None) -> m = [].
Proof.
  destruct m as [|[k v] m]; [reflexivity|].
  intros H. specialize (H k). simpl in H. rewrite String.eqb_refl in H.
  discriminate.
Qed.

Section Batch.
Variable require_ : nat -> string -> Required.

(** the calls as they begin *)
Lemma begin_all_spec names : forall w,
  let begun := fst (begin_all require_ names w) in
  let w1 := snd (begin_all require_ names w) in
  taskCache (self w1) = taskCache (self w) /\
  taskMap (self w1) = taskMap (self w) /\
  initialized (self w1) = initialized (self w) /\
  map fst begun = names /\
  (forall k p, JsMap.get k (loadingPromises (self w)) = Some p ->
               JsMap.get k (loadingPromises (self w1)) = Some p) /\
  (forall k p, JsMap.get k (loadingPromises (self w1)) = Some p ->
               JsMap.get k (loadingPromises (self w)) = Some p \/
               In (k, Loading p) begun) /\
  (forall k p, In (k, Loading p) begun ->
               exists path, name_get (Name k) (taskMap (self w)) = Some path /\
                            path <> "") /\
  Forall (begun_ok (taskCache (self w)) (loadingPromises (self w1))) begun.
Proof.
  induction names as [|n rest IH]; intros w; simpl.
  - repeat split; auto. intros k p []. 
  - destruct (loadTask_begin require_ n w) as [b wb] eqn:Eb.
    specialize (IH wb).
    destruct (begin_all require_ rest wb) as [bs w1] eqn:Er. simpl in *.
    destruct IH as (Hc & Hm & Hi & Hn & Hst & Hor & Hld & Hok).
    assert (Hhead :
      taskCache (self wb) = taskCache (self w) /\
      taskMap (self wb) = taskMap (self w) /\
      initialized (self wb) = initialized (self w) /\
      (forall k p, JsMap.get k (loadingPromises (self w)) = Some p ->
                   JsMap.get k (loadingPromises (self wb)) = Some p) /\
      (forall k p, JsMap.get k (loadingPromises (self wb)) = Some p ->
                   JsMap.get k (loadingPromises (self w)) = Some p \/
                   (k, Loading p) = (n, b)) /\
      (forall p, b = Loading p ->
                 exists path, name_get (Name n) (taskMap (self w)) = Some path /\
                              path <> "") /\
      match b with
      | Cached f => JsMap.get n (taskCache (self w)) = Some f
      | NotFound =>
          JsMap.get n (taskCache (self w)) = None /\
          JsMap.get n (loadingPromises (self wb)) = None /\
          forall path, name_get (Name n) (taskMap (self w)) = Some path -> path = ""
      | Joined p | Loading p =>
          JsMap.get n (taskCache (self w)) = None /\
          JsMap.get n (loadingPromises (self wb)) = Some p
      end).
    { destruct (loadTask_begin_cases require_ n w)
        as [(f & Hf & E)|(Hf & [(p & Hp & E)|(Hl & [(E & Hnf)|(path & Hp & Hne & E)])])];
        rewrite E in Eb; inversion Eb; subst; clear Eb E;
        repeat split; auto; try discriminate.
      - simpl. intros k p Hk. destruct (string_dec n k) as [<-|Hnk]; [congruence|].
        now rewrite JsMap_get_set_ne.
      - simpl. intros k p Hk. destruct (string_dec n k) as [<-|Hnk].
        + rewrite JsMap_get_set_eq in Hk. inversion Hk. auto.
        + rewrite JsMap_get_set_ne in Hk by exact Hnk. auto.
      - eauto.
      - simpl. apply JsMap_get_set_eq. }
    destruct Hhead as (Hc0 & Hm0 & Hi0 & Hst0 & Hor0 & Hld0 & Hb).
    repeat split.
    + congruence.
    + congruence.
    + congruence.
    + now f_equal.
    + auto.
    + intros k p Hk. destruct (Hor k p Hk) as [H|H]; [|auto].
      destruct (Hor0 k p H) as [H'|H']; [auto|]. right. left. now symmetry.
    + intros k p [H|H].
      * inversion H; subst. eapply Hld0; eauto.
      * rewrite <- Hm0. eauto.
    + constructor; [|now rewrite <- Hc0].
      unfold begun_ok. simpl. destruct b as [f|p| |p]; try exact Hb.
      * destruct Hb as [Hb1 Hb2]. auto.
      * destruct Hb as (Hb1 & Hb2 & Hnf). split; [exact Hb1|].
        destruct (JsMap.get n (loadingPromises (self w1))) as [p|] eqn:E;
          [|reflexivity].
        destruct (Hor n p E) as [H|H]; [congruence|].
        destruct (Hld n p H) as (path & Hp & Hne). rewrite Hm0 in Hp.
        elim Hne. now apply Hnf.
      * destruct Hb as [Hb1 Hb2]. auto.
Qed.

Lemma Loading_dec (n : string) (begun : list (string * Begun)) :
  (exists p, In (n, Loading p) begun) \/ (forall p, ~ In (n, Loading p) begun).
Proof.
  induction begun as [|[m b] rest IH]; [right; simpl; tauto|].
  destruct IH as [[p H]|H]; [left; exists p; now right|].
  destruct (string_dec m n) as [->|Hne].
  - destruct b as [f|q| |q];
      try (right; intros p [E|E]; [discriminate | exact (H _ E)]).
    left. exists q. now left.
  - right. intros p [E|E]; [congruence | exact (H _ E)].
Qed.

(** the calls as they end *)
Lemma finish_all_spec begun : forall w1,
  let results := fst (finish_all begun w1) in
  let w' := snd (finish_all begun w1) in
  results = map (result_of (promises w1)) begun /\
  (forall n, (exists p, In (n, Loading p) begun) ->
             JsMap.get n (loadingPromises (self w')) = None) /\
  (forall n, (forall p, ~ In (n, Loading p) begun) ->
             JsMap.get n (loadingPromises (self w')) =
             JsMap.get n (loadingPromises (self w1)) /\
             JsMap.get n (taskCache (self w')) = JsMap.get n (taskCache (self w1))) /\
  (forall n f,
     (forall p, In (n, Loading p) begun -> settlement p w1 = inr f) ->
     (exists p, In (n, Loading p) begun) ->
     JsMap.get n (taskCache (self w')) = Some f) /\
  (forall n,
     (forall p, In (n, Loading p) begun -> exists e, settlement p w1 = inl e) ->
     JsMap.get n (taskCache (self w')) = JsMap.get n (taskCache (self w1))).
Proof.
  induction begun as [|[n0 b] rest IH]; intros w1; simpl.
  - split; [reflexivity|]. split; [intros n [p []]|]. split; [auto|].
    split; [intros n f _ [p []] | auto].
  - set (step := match b with
                 | Cached f => (inr f, w1)
                 | Joined p => (settlement p w1, w1)
                 | NotFound => (inl (Error (not_found_message n0)), w1)
                 | Loading p => loadTask_finish n0 p w1
                 end).
    assert (Hstep :
      fst step = snd (result_of (promises w1) (n0, b)) /\
      promises (snd step) = promises w1 /\
      (forall n, (forall p, (n0, b) <> (n, Loading p)) ->
         JsMap.get n (loadingPromises (self (snd step))) =
         JsMap.get n (loadingPromises (self w1)) /\
         JsMap.get n (taskCache (self (snd step))) =
         JsMap.get n (taskCache (self w1))) /\
      (forall p, b = Loading p ->
         JsMap.get n0 (loadingPromises (self (snd step))) = None /\
         match settlement p w1 with
         | inr f => JsMap.get n0 (taskCache (self (snd step))) = Some f
         | inl _ => JsMap.get n0 (taskCache (self (snd step))) =
                    JsMap.get n0 (taskCache (self w1))
         end)).
    { subst step. destruct b as [f|p| |p]; simpl;
        try (repeat split; auto; discriminate).
      unfold loadTask_finish, settlement. simpl. split; [reflexivity|].
      split; [destruct (nth p (promises w1) _); reflexivity|]. split.
      - intros n Hn. assert (n0 <> n) by (intros ->; now apply (Hn p)).
        rewrite JsMap_get_delete_ne by assumption.
        destruct (nth p (promises w1) _); simpl; auto.
        now rewrite JsMap_get_set_ne.
      - intros q E. inversion E; subst q. rewrite JsMap_get_delete_eq.
        split; [reflexivity|].
        destruct (nth p (promises w1) _); simpl; [reflexivity|].
        apply JsMap_get_set_eq. }
    clearbody step. destruct step as [r wh]. simpl in Hstep.
    destruct Hstep as (Hr & Hps & Hother & Hload).
    specialize (IH wh). destruct (finish_all rest wh) as [rs w'] eqn:Ef.
    simpl in *. destruct IH as (IHr & IHdone & IHnone & IHsome & IHfail).
    assert (Hset : forall p, settlement p wh = settlement p w1)
      by (intros p; unfold settlement; now rewrite Hps).
    split; [|split; [|split; [|split]]].
    + rewrite IHr, Hps. unfold result_of at 2. simpl. now rewrite Hr.
    + intros n [p Hp]. destruct (Loading_dec n rest) as [Hex|Hno]; [auto|].
      destruct Hp as [E|E]; [|elim (Hno _ E)]. inversion E; subst.
      destruct (IHnone n Hno) as [-> _]. now destruct (Hload p eq_refl).
    + intros n Hn.
      destruct (IHnone n (fun p H => Hn p (or_intror H))) as [-> ->].
      apply Hother. intros p E. apply (Hn p). now left.
    + intros n f Hall [p Hp]. destruct (Loading_dec n rest) as [Hex|Hno].
      * apply IHsome; [|exact Hex]. intros q Hq. rewrite Hset. auto.
      * destruct Hp as [E|E]; [|elim (Hno _ E)]. inversion E; subst.
        destruct (IHnone n Hno) as [_ ->].
        destruct (Hload p eq_refl) as [_ H].
        rewrite (Hall p (or_introl eq_refl)) in H. exact H.
    + intros n Hall.
      rewrite IHfail by (intros q Hq; rewrite Hset; auto).
      destruct b as [f|p| |p];
        try (apply Hother; intros; discriminate).
      destruct (string_dec n0 n) as [->|Hne];
        [|apply Hother; intros; congruence].
      destruct (Hload p eq_refl) as [_ H].
      destruct (Hall p (or_introl eq_refl)) as [e He]. now rewrite He in H.
Qed.

(** the object built from the results *)
Lemma loaded_tasks_other n results : forall acc,
  (forall r, In (n, r) results -> n = "__proto__" \/ exists e, r = inl e) ->
  JsMap.get n (loaded_tasks results acc) = JsMap.get n acc.
Proof.
  induction results as [|[m r] rest IH]; intros acc H; [reflexivity|].
  simpl. destruct r as [e|f]; [apply IH; intros; apply H; now right|].
  rewrite IH by (intros; apply H; now right).
  destruct (String.eqb m "__proto__") eqn:E; [reflexivity|].
  apply JsMap_get_set_ne. intros ->.
  destruct (H (inr f) (or_introl eq_refl)) as [->|[e He]]; discriminate.
Qed.

Lemma loaded_tasks_keep n f results : forall acc,
  (forall r, In (n, r) results -> r = inr f) ->
  JsMap.get n acc = Some f ->
  JsMap.get n (loaded_tasks results acc) = Some f.
Proof.
  induction results as [|[m r] rest IH]; intros acc H Hacc; [exact Hacc|].
  simpl. destruct r as [e|g]; [apply IH; auto; intros; apply H; now right|].
  apply IH; [intros; apply H; now right|].
  destruct (String.eqb m "__proto__"); [exact Hacc|].
  destruct (string_dec m n) as [->|Hne].
  - specialize (H (inr g) (or_introl eq_refl)). inversion H; subst.
    apply JsMap_get_set_eq.
  - now rewrite JsMap_get_set_ne.
Qed.

Lemma loaded_tasks_some n f results : forall acc,
  n <> "__proto__" ->
  (forall r, In (n, r) results -> r = inr f) ->
  (exists r, In (n, r) results) ->
  JsMap.get n (loaded_tasks results acc) = Some f.
Proof.
  induction results as [|[m r] rest IH]; intros acc Hn H [r0 Hin];
    [destruct Hin|].
  destruct (string_dec m n) as [->|Hne].
  - pose proof (H r (or_introl eq_refl)) as ->. simpl.
    apply String.eqb_neq in Hn. rewrite Hn.
    apply loaded_tasks_keep; [intros; apply H; now right|].
    apply JsMap_get_set_eq.
  - destruct Hin as [E|Hin]; [congruence|].
    simpl. destruct r as [e|g]; apply IH; eauto; intros; apply H; now right.
Qed.

(** X18: [loadTasks] on an initialized loader with no load in progress:
    the object returned has, for each name asked for other than [__proto__],
    exactly the module that the cache holds for it afterwards, and nothing
    for a task that could not be loaded or was not asked for.  Tasks cached
    before stay cached, tasks not asked for are left alone, and no load is
    left in progress. *)
Theorem loadTasks_returns_cached_modules (taskNames : list string) (w : World) :
  initialized (self w) = true ->
  loadingPromises (self w) = [] ->
  let loadedTasks := fst (loadTasks require_ taskNames w) in
  let w' := snd (loadTasks require_ taskNames w) in
  loadingPromises (self w') = [] /\
  (forall n, In n taskNames -> n <> "__proto__" ->
     JsMap.get n loadedTasks = JsMap.get n (taskCache (self w'))) /\
  (forall n, ~ In n taskNames ->
     JsMap.get n loadedTasks = None /\
     JsMap.get n (taskCache (self w')) = JsMap.get n (taskCache (self w))) /\
  (forall n f, JsMap.get n (taskCache (self w)) = Some f ->
     JsMap.get n (taskCache (self w')) = Some f).
Proof.
  intros _ Hq. unfold loadTasks.
  pose proof (begin_all_spec taskNames w) as Hb.
  destruct (begin_all require_ taskNames w) as [begun w1]. simpl in Hb.
  destruct Hb as (Hc & _ & _ & Hnames & _ & Hor & _ & Hok).
  pose proof (finish_all_spec begun w1) as Hf.
  destruct (finish_all begun w1) as [results w']. simpl in Hf. simpl.
  destruct Hf as (-> & Hdone & Hnone & Hsome & Hfail).
  rewrite List.Forall_forall in Hok.
  assert (Horigin : forall k p, JsMap.get k (loadingPromises (self w1)) = Some p ->
                                In (k, Loading p) begun).
  { intros k p H. destruct (Hor k p H) as [H'|H']; [|exact H'].
    rewrite Hq in H'. discriminate. }
  assert (Hnamed : forall n b, In (n, b) begun -> In n taskNames).
  { intros n b H. rewrite <- Hnames. apply (in_map fst _ _ H). }
  assert (Hresult : forall n r,
            In (n, r) (map (result_of (promises w1)) begun) ->
            exists b, In (n, b) begun /\ r = snd (result_of (promises w1) (n, b))).
  { intros n r H. apply in_map_iff in H. destruct H as ([m b] & E & Hin).
    unfold result_of in E. simpl in E. inversion E; subst. eauto. }
  split; [|split; [|split]].
  - apply JsMap_all_absent. intros k.
    destruct (Loading_dec k begun) as [Hex|Hno]; [auto|].
    destruct (Hnone k Hno) as [-> _].
    destruct (JsMap.get k (loadingPromises (self w1))) as [p|] eqn:E;
      [|reflexivity].
    elim (Hno p). auto.
  - intros n Hin Hproto.
    assert (Hex : exists b, In (n, b) begun).
    { rewrite <- Hnames in Hin. apply in_map_iff in Hin.
      destruct Hin as ([m b] & E & Hin). simpl in E. subst m. eauto. }
    destruct (JsMap.get n (taskCache (self w))) as [f|] eqn:Ec.
    + assert (Hall : forall b, In (n, b) begun -> b = Cached f).
      { intros b Hb. specialize (Hok _ Hb). unfold begun_ok in Hok. simpl in Hok.
        destruct b; try (destruct Hok; congruence). congruence. }
      destruct (Hnone n) as [_ ->].
      { intros p Hp. specialize (Hall _ Hp). discriminate. }
      rewrite Hc, Ec. apply loaded_tasks_some; [exact Hproto| |].
      * intros r Hr. destruct (Hresult _ _ Hr) as (b & Hb & ->).
        now rewrite (Hall _ Hb).
      * destruct Hex as [b Hb]. exists (snd (result_of (promises w1) (n, b))).
        apply in_map_iff. exists (n, b). auto.
    + destruct (JsMap.get n (loadingPromises (self w1))) as [p|] eqn:El.
      * assert (Hall : forall b, In (n, b) begun -> b = Joined p \/ b = Loading p).
        { intros b Hb. specialize (Hok _ Hb). unfold begun_ok in Hok. simpl in Hok.
          destruct b as [g|q| |q].
          - congruence.
          - destruct Hok. left. congruence.
          - destruct Hok. congruence.
          - destruct Hok. right. congruence. }
        pose proof (Horigin _ _ El) as Hload.
        destruct (settlement p w1) as [e|f] eqn:Es.
        -- rewrite Hfail, Hc, Ec.
           ++ apply loaded_tasks_other. intros r Hr.
              destruct (Hresult _ _ Hr) as (b & Hb & ->). right. exists e.
              unfold settlement in Es.
              destruct (Hall _ Hb) as [-> | ->]; exact Es.
           ++ intros q Hq'. destruct (Hall _ Hq') as [E|E]; inversion E; subst.
              eauto.
        -- rewrite (Hsome n f).
           ++ apply loaded_tasks_some; [exact Hproto| |].
              ** intros r Hr. destruct (Hresult _ _ Hr) as (b & Hb & ->).
                 unfold settlement in Es.
                 destruct (Hall _ Hb) as [-> | ->]; exact Es.
              ** exists (snd (result_of (promises w1) (n, Loading p))).
                 apply in_map_iff. exists (n, Loading p). auto.
           ++ intros q Hq'. destruct (Hall _ Hq') as [E|E]; inversion E; subst.
              exact Es.
           ++ eauto.
      * assert (Hall : forall b, In (n, b) begun -> b = NotFound).
        { intros b Hb. specialize (Hok _ Hb). unfold begun_ok in Hok. simpl in Hok.
          destruct b; try (destruct Hok; congruence). congruence. }
        destruct (Hnone n) as [_ ->].
        { intros q Hq'. specialize (Hall _ Hq'). discriminate. }
        rewrite Hc, Ec. apply loaded_tasks_other. intros r Hr.
        destruct (Hresult _ _ Hr) as (b & Hb & ->). right.
        rewrite (Hall _ Hb). simpl. eauto.
  - intros n Hn. split.
    + apply loaded_tasks_other. intros r Hr.
      destruct (Hresult _ _ Hr) as (b & Hb & _). elim Hn. eauto.
    + destruct (Hnone n) as [_ ->]; [|now rewrite Hc].
      intros p Hp. apply Hn. eauto.
  - intros n f Hcached. destruct (Hnone n) as [_ ->]; [|now rewrite Hc].
    intros p Hp. specialize (Hok _ Hp). unfold begun_ok in Hok. simpl in Hok.
    destruct Hok. congruence.
Qed.

End Batch.

(** X18, witness: [dial] is asked for twice and fails to load, [say] loads, [nope] is not
    a task: the object has [say], as the cache has. *)
Lemma loadTasks_returns_cached_modules_witness :
  let names := ["dial"; "say"; "dial"; "nope"] in
  JsMap.get "say" (fst (loadTasks LoaderScenario.require_ names LoaderScenario.scanned)) =
  JsMap.get "say"
    (taskCache (self (snd (loadTasks LoaderScenario.require_ names
                             LoaderScenario.scanned)))).
Proof.
  intros names.
  destruct (loadTasks_returns_cached_modules LoaderScenario.require_ names
              LoaderScenario.scanned
              ltac:(vm_compute; reflexivity) ltac:(vm_compute; reflexivity))
    as (_ & H & _).
  apply H; [simpl; tauto | discriminate].
Defined.

End LoaderBatch.
(** * The event manager: the books and the listeners *)

Module EventFacts.
Import EventManager EventsMore.

(** ** Functions, sets and maps of functions *)

Lemma Fn_eqb_eq a b : Fn_eqb a b = true <-> a = b.
Proof.
  revert b. induction a as [i|k t IH|k e t IH]; intros [j|k' t'|k' e' t']; simpl;
    try (split; [discriminate | congruence]).
  - rewrite Nat.eqb_eq. split; congruence.
  - rewrite andb_true_iff, Nat.eqb_eq, IH. split; [intros [-> ->]|intros H];
      [reflexivity | inversion H; auto].
  - rewrite !andb_true_iff, Nat.eqb_eq, String.eqb_eq, IH.
    split; [intros [[-> ->] ->]|intros H]; [reflexivity | inversion H; auto].
Qed.

Lemma Fn_eqb_refl a : Fn_eqb a a = true.
Proof. now apply Fn_eqb_eq. Qed.

Lemma Fn_eqb_neq a b : Fn_eqb a b = false <-> a <> b.
Proof.
  rewrite <- Fn_eqb_eq. destruct (Fn_eqb a b); split; congruence.
Qed.

Lemma Fn_dec (a b : Fn) : a = b \/ a <> b.
Proof.
  destruct (Fn_eqb a b) eqn:E; [left; now apply Fn_eqb_eq | right; now apply Fn_eqb_neq].
Qed.

Lemma set_has_In f s : set_has f s = true <-> In f s.
Proof.
  induction s as [|g s IH]; simpl; [split; [discriminate | tauto]|].
  rewrite orb_true_iff, IH, Fn_eqb_eq. split; intros [H|H]; auto.
Qed.

Lemma set_add_In g f s : In g (set_add f s) <-> g = f \/ In g s.
Proof.
  unfold set_add. destruct (set_has f s) eqn:E.
  - apply set_has_In in E. split; [auto | intros [->|H]; auto].
  - rewrite in_app_iff. simpl. split; intros [H|H]; auto.
    destruct H as [H|[]]; auto.
Qed.

Lemma set_add_NoDup f s : List.NoDup s -> List.NoDup (set_add f s).
Proof.
  intros H. unfold set_add. destruct (set_has f s) eqn:E; [exact H|].
  assert (Hn : ~ In f s) by (rewrite <- set_has_In, E; discriminate).
  clear E. induction H as [|g s Hg Hs IH]; simpl.
  - repeat constructor. simpl. tauto.
  - apply List.NoDup_cons_iff. split.
    + rewrite in_app_iff. simpl. intros [H|[H|[]]]; [auto|].
      apply Hn. now left.
    + apply IH. intros H. apply Hn. now right.
Qed.

Lemma set_add_length f s :
  ~ In f s -> length (set_add f s) = S (length s).
Proof.
  intros Hn. unfold set_add. destruct (set_has f s) eqn:E.
  - apply set_has_In in E. tauto.
  - rewrite length_app. simpl. lia.
Qed.

Lemma set_delete_In g f s : In g (set_delete f s) <-> In g s /\ g <> f.
Proof.
  induction s as [|x s IH]; simpl; [tauto|].
  destruct (Fn_eqb f x) eqn:E.
  - apply Fn_eqb_eq in E. subst x. rewrite IH. intuition congruence.
  - apply Fn_eqb_neq in E. simpl. rewrite IH. intuition congruence.
Qed.

Lemma set_delete_NoDup f s : List.NoDup s -> List.NoDup (set_delete f s).
Proof.
  induction 1 as [|g s Hg Hs IH]; simpl; [constructor|].
  destruct (Fn_eqb f g); [exact IH|].
  apply List.NoDup_cons_iff. split; [|exact IH].
  rewrite set_delete_In. tauto.
Qed.

Lemma set_delete_absent f s : ~ In f s -> set_delete f s = s.
Proof.
  induction s as [|g s IH]; simpl; [reflexivity|].
  intros Hn. destruct (Fn_eqb f g) eqn:E.
  - apply Fn_eqb_eq in E. subst g. tauto.
  - rewrite IH; [reflexivity | tauto].
Qed.

Lemma set_delete_length f s :
  List.NoDup s -> In f s -> S (length (set_delete f s)) = length s.
Proof.
  induction 1 as [|g s Hg Hs IH]; simpl; [tauto|].
  intros [->|Hin].
  - rewrite Fn_eqb_refl, set_delete_absent by exact Hg. reflexivity.
  - destruct (Fn_eqb f g) eqn:E.
    + apply Fn_eqb_eq in E. subst g. tauto.
    + simpl. now rewrite IH.
Qed.

Lemma set_delete_twice f s : set_delete f (set_delete f s) = set_delete f s.
Proof.
  apply set_delete_absent. rewrite set_delete_In. tauto.
Qed.

Lemma fn_get_delete_eq k m : fn_get k (fn_delete k m) = None.
Proof.
  induction m as [|[k' v] m IH]; simpl; [reflexivity|].
  destruct (Fn_eqb k k') eqn:E; [exact IH|].
  simpl. rewrite E. exact IH.
Qed.

Lemma fn_get_delete_ne k k' m :
  k <> k' -> fn_get k' (fn_delete k m) = fn_get k' m.
Proof.
  intros Hne. induction m as [|[k0 v] m IH]; simpl; [reflexivity|].
  destruct (Fn_eqb k k0) eqn:E.
  - apply Fn_eqb_eq in E. subst k0.
    assert (E' : Fn_eqb k' k = false) by (apply Fn_eqb_neq; congruence).
    rewrite E'. exact IH.
  - simpl. now rewrite IH.
Qed.

Lemma fn_get_set_eq k v m : fn_get k (fn_set k v m) = Some v.
Proof.
  induction m as [|[k' v'] m IH]; simpl.
  - now rewrite Fn_eqb_refl.
  - destruct (Fn_eqb k k') eqn:E; simpl.
    + now rewrite Fn_eqb_refl.
    + now rewrite E.
Qed.

Lemma fn_get_set_ne k k' v m :
  k <> k' -> fn_get k' (fn_set k v m) = fn_get k' m.
Proof.
  intros Hne.
  assert (Hf : Fn_eqb k' k = false) by (apply Fn_eqb_neq; congruence).
  induction m as [|[k0 v0] m IH]; simpl.
  - now rewrite Hf.
  - destruct (Fn_eqb k k0) eqn:E; simpl.
    + apply Fn_eqb_eq in E. subst k0. rewrite Hf.
      now apply fn_get_delete_ne.
    + now rewrite IH.
Qed.

Lemma fn_delete_absent k m : fn_get k m = None -> fn_delete k m = m.
Proof.
  induction m as [|[k' v] m IH]; simpl; [reflexivity|].
  destruct (Fn_eqb k k'); [discriminate|]. intros H. now rewrite IH.
Qed.

Lemma fn_delete_twice k m : fn_delete k (fn_delete k m) = fn_delete k m.
Proof. apply fn_delete_absent, fn_get_delete_eq. Qed.

(** ** The number of listeners in the sets *)

Lemma total_absent e (m : JsMap.t FnSet) :
  JsMap.get e m = None -> JsMap.delete e m = m.
Proof.
  induction m as [|[k s] m IH]; simpl; [reflexivity|].
  destruct (String.eqb e k); [discriminate|]. intros H. now rewrite IH.
Qed.

Lemma total_delete e (m : JsMap.t FnSet) s :
  List.NoDup (map fst m) -> JsMap.get e m = Some s ->
  (total (JsMap.delete e m) + length s = total m)%nat.
Proof.
  induction m as [|[k s0] m IH]; simpl; [discriminate|].
  intros Hnd Hg. apply List.NoDup_cons_iff in Hnd. destruct Hnd as [Hk Hm].
  destruct (String.eqb e k) eqn:E.
  - apply String.eqb_eq in E. subst k. inversion Hg; subst s0.
    rewrite total_absent; [lia|].
    destruct (JsMap.get e m) as [s1|] eqn:E1; [|reflexivity].
    elim Hk. eapply Loader.JsMap_get_key; eauto.
  - simpl. specialize (IH Hm Hg). lia.
Qed.

Lemma total_set_new e (m : JsMap.t FnSet) s :
  JsMap.get e m = None -> total (JsMap.set e s m) = (total m + length s)%nat.
Proof.
  induction m as [|[k s0] m IH]; simpl; [lia|].
  destruct (String.eqb e k); [discriminate|]. intros H. simpl. rewrite IH by exact H.
  lia.
Qed.

Lemma total_set_old e (m : JsMap.t FnSet) s0 s :
  List.NoDup (map fst m) -> JsMap.get e m = Some s0 ->
  (total (JsMap.set e s m) + length s0 = total m + length s)%nat.
Proof.
  induction m as [|[k s1] m IH]; simpl; [discriminate|].
  intros Hnd Hg. apply List.NoDup_cons_iff in Hnd. destruct Hnd as [Hk Hm].
  destruct (String.eqb e k) eqn:E.
  - apply String.eqb_eq in E. subst k. inversion Hg; subst s1. simpl.
    rewrite total_absent; [lia|].
    destruct (JsMap.get e m) as [s2|] eqn:E1; [|reflexivity].
    elim Hk. eapply Loader.JsMap_get_key; eauto.
  - simpl. specialize (IH Hm Hg). lia.
Qed.

(** ** Removing a listener *)

Lemma removeListener_eq e f w :
  removeListener e f w =
  mkWorld
    (mk (maxListeners (self w))
       match JsMap.get e (listeners (self w)) with
       | Some s =>
           if Nat.eqb (length (set_delete f s)) 0
           then JsMap.delete e (listeners (self w))
           else JsMap.set e (set_delete f s) (listeners (self w))
       | None => listeners (self w)
       end
       (set_delete f (onceListeners (self w)))
       (fn_delete f (timeoutListeners (self w)))
       (created (self w)) (listenerCount (self w) - 1))
    match fn_get f (timeoutListeners (self w)) with
    | Some h => delete h (timers w)
    | None => timers w
    end
    (nextTimer w) (nextSerial w)
    (supers w ++ [SuperRemoveListener e f]) (called w).
Proof.
  unfold removeListener, on_self, super, clearTimeout. simpl.
  destruct (JsMap.get e (listeners (self w))) as [s|];
    destruct (fn_get f (timeoutListeners (self w))) as [h|] eqn:E; simpl;
    rewrite ?E; simpl; try reflexivity;
    rewrite (fn_delete_absent _ _ E); reflexivity.
Qed.

Lemma tracked_removeListener e f w e' g :
  tracked (removeListener e f w) e' g <-> tracked w e' g /\ ~ (e' = e /\ g = f).
Proof.
  rewrite removeListener_eq. unfold tracked. cbn [self listeners].
  destruct (JsMap.get e (listeners (self w))) as [s|] eqn:Es.
  - destruct (Nat.eqb (length (set_delete f s)) 0) eqn:El.
    + apply Nat.eqb_eq, length_zero_iff_nil in El.
      destruct (string_dec e e') as [<-|Hne].
      * rewrite JsMap_get_delete_eq. split; [intros (? & ? & _); discriminate|].
        intros [(s' & Hs' & Hin) Hn]. rewrite Es in Hs'. inversion Hs'; subst s'.
        assert (Hd : In g (set_delete f s)) by (apply set_delete_In; split; intuition).
        rewrite El in Hd. destruct Hd.
      * rewrite JsMap_get_delete_ne by exact Hne. intuition congruence.
    + destruct (string_dec e e') as [<-|Hne].
      * rewrite JsMap_get_set_eq. split.
        -- intros (s' & Hs' & Hin). inversion Hs'; subst s'.
           apply set_delete_In in Hin. split; [exists s; tauto | tauto].
        -- intros [(s' & Hs' & Hin) Hn]. rewrite Es in Hs'. inversion Hs'; subst s'.
           exists (set_delete f s). split; [reflexivity|].
           apply set_delete_In. split; [exact Hin|]. intros ->. tauto.
      * rewrite JsMap_get_set_ne by exact Hne. intuition congruence.
  - split; [|tauto]. intros (s & Hs & Hin). split; [eauto|].
    intros [-> _]. congruence.
Qed.

Lemma tidy_removeListener e f w :
  tidy w -> tracked w e f -> tidy (removeListener e f w).
Proof.
  intros Hw Ht.
  assert (Htr : forall e' g, tracked (removeListener e f w) e' g <->
                             tracked w e' g /\ ~ (e' = e /\ g = f))
    by (intros; apply tracked_removeListener).
  assert (Hother : forall e' g, tracked w e' g -> g <> f ->
                                tracked (removeListener e f w) e' g).
  { intros e' g H Hne. apply Htr. split; [exact H | tauto]. }
  destruct Hw as [Hcount Hkeys Hsets Hone Htimer Hrec Honce Hser].
  destruct Ht as (s & Hs & Hin).
  destruct (Hsets _ _ Hs) as [Hnd Hne].
  pose proof (set_delete_length f s Hnd Hin) as Hlen.
  constructor.
  - rewrite removeListener_eq. cbn [self listeners listenerCount]. rewrite Hs, Hcount.
    destruct (Nat.eqb (length (set_delete f s)) 0) eqn:El.
    + apply Nat.eqb_eq in El. pose proof (total_delete _ _ _ Hkeys Hs). lia.
    + pose proof (total_set_old _ _ _ (set_delete f s) Hkeys Hs). lia.
  - rewrite removeListener_eq. cbn [self listeners]. rewrite Hs.
    destruct (Nat.eqb (length (set_delete f s)) 0);
      [now apply Loader.JsMap_delete_NoDup | now apply Loader.JsMap_set_NoDup].
  - rewrite removeListener_eq. cbn [self listeners]. rewrite Hs.
    intros e' s'. destruct (Nat.eqb (length (set_delete f s)) 0) eqn:El.
    + intros H. apply Loader.JsMap_get_delete_Some in H. eauto.
    + destruct (string_dec e e') as [<-|Hn].
      * rewrite JsMap_get_set_eq. intros H. inversion H; subst s'.
        split; [now apply set_delete_NoDup|].
        intros E. rewrite E in El. discriminate.
      * rewrite JsMap_get_set_ne by exact Hn. eauto.
  - intros e1 e2 g H1 H2. apply Htr in H1, H2. destruct H1, H2. eauto.
  - intros h e' g. rewrite removeListener_eq. cbn [self timers timeoutListeners nextTimer].
    intros Hh.
    assert (Hold : timers w !! h = Some (e', g)).
    { destruct (fn_get f (timeoutListeners (self w))); [|exact Hh].
      apply lookup_delete_Some in Hh. tauto. }
    destruct (Htimer _ _ _ Hold) as (Hg & Htg & Hlt).
    assert (Hgf : g <> f).
    { intros ->. rewrite Hg in Hh. rewrite lookup_delete_eq in Hh. discriminate. }
    rewrite fn_get_delete_ne by congruence.
    split; [exact Hg|]. split; [|exact Hlt].
    rewrite <- (removeListener_eq e f w). now apply Hother.
  - intros g h. rewrite removeListener_eq. cbn [self timers timeoutListeners].
    intros Hg. destruct (Fn_dec f g) as [<-|Hgf];
      [rewrite fn_get_delete_eq in Hg; discriminate|].
    rewrite fn_get_delete_ne in Hg by exact Hgf.
    destruct (Hrec _ _ Hg) as [e' He']. exists e'.
    destruct (fn_get f (timeoutListeners (self w))) as [h0|] eqn:E0; [|exact He'].
    rewrite lookup_delete_ne; [exact He'|].
    intros ->. destruct (Hrec _ _ E0) as [e0 He0]. congruence.
  - intros g Hg.
    assert (Hg' : In g (onceListeners (self w)) /\ g <> f).
    { rewrite removeListener_eq in Hg. cbn [self onceListeners] in Hg.
      now apply set_delete_In in Hg. }
    destruct Hg' as [Hg1 Hg2]. destruct (Honce _ Hg1) as [e' He']. eauto.
  - intros e' g H. apply Htr in H. destruct H as [H _].
    rewrite removeListener_eq. cbn [nextSerial]. eauto.
Qed.

(** ** Adding a listener *)

Lemma addListener_eq e l o w :
  let a1 := if opt_context o then Bound (nextSerial w) l else l in
  let n1 := if opt_context o then S (nextSerial w) else nextSerial w in
  let actual := if opt_once o then OnceListener n1 e a1 else a1 in
  let timed := timeout_truthy (opt_timeout o) in
  addListener e l o w =
  ((e, actual),
   mkWorld
     (mk (maxListeners (self w))
        (JsMap.set e
           (set_add actual match JsMap.get e (listeners (self w)) with
                           | Some s => s
                           | None => []
                           end)
           (listeners (self w)))
        (if opt_once o then set_add actual (onceListeners (self w))
         else onceListeners (self w))
        (if timed then fn_set actual (nextTimer w) (timeoutListeners (self w))
         else timeoutListeners (self w))
        (created (self w)) (listenerCount (self w) + 1))
     (if timed then <[nextTimer w := (e, actual)]> (timers w) else timers w)
     (if timed then S (nextTimer w) else nextTimer w)
     (if opt_once o then S n1 else n1)
     (supers w ++ [SuperAddListener e actual]) (called w)).
Proof.
  unfold addListener. cbv zeta.
  destruct (opt_context o), (opt_once o), (timeout_truthy (opt_timeout o));
    reflexivity.
Qed.

(** the end of [addListener], for a function that is in no set *)
Lemma tidy_track w e actual (once_ timed : bool) n' :
  tidy w ->
  (forall e', ~ tracked w e' actual) ->
  (nextSerial w <= n')%nat -> serial_below n' actual ->
  tidy
    (mkWorld
       (mk (maxListeners (self w))
          (JsMap.set e
             (set_add actual match JsMap.get e (listeners (self w)) with
                             | Some s => s
                             | None => []
                             end)
             (listeners (self w)))
          (if once_ then set_add actual (onceListeners (self w))
           else onceListeners (self w))
          (if timed then fn_set actual (nextTimer w) (timeoutListeners (self w))
           else timeoutListeners (self w))
          (created (self w)) (listenerCount (self w) + 1))
       (if timed then <[nextTimer w := (e, actual)]> (timers w) else timers w)
       (if timed then S (nextTimer w) else nextTimer w)
       n' (supers w ++ [SuperAddListener e actual]) (called w)).
Proof.
  intros Hw Hfresh Hn Hbelow.
  destruct Hw as [Hcount Hkeys Hsets Hone Htimer Hrec Honce Hser].
  set (s0 := match JsMap.get e (listeners (self w)) with
             | Some s => s
             | None => []
             end).
  assert (Hs0 : forall g, In g s0 <-> tracked w e g).
  { intros g. subst s0. unfold tracked.
    destruct (JsMap.get e (listeners (self w))) as [s|].
    - split; [eauto|]. intros (s' & E & Hin). now inversion E; subst.
    - split; [intros []|]. intros (s' & E & _). discriminate. }
  assert (Hnot : ~ In actual s0) by (rewrite Hs0; apply Hfresh).
  assert (Hnd0 : List.NoDup s0).
  { subst s0. destruct (JsMap.get e (listeners (self w))) as [s|] eqn:E;
      [apply (Hsets _ _ E) | constructor]. }
  match goal with |- tidy ?x => set (w' := x) end.
  assert (Htr : forall e' g, tracked w' e' g <->
                             tracked w e' g \/ (e' = e /\ g = actual)).
  { intros e' g. unfold tracked at 1. subst w'. cbn [self listeners].
    destruct (string_dec e e') as [<-|Hne].
    - rewrite JsMap_get_set_eq. split.
      + intros (s & E & Hin). inversion E; subst s.
        apply set_add_In in Hin. destruct Hin as [->|Hin]; [auto|].
        left. now apply Hs0.
      + intros H. exists (set_add actual s0). split; [reflexivity|].
        apply set_add_In. destruct H as [H|[_ ->]]; [right; now apply Hs0 | auto].
    - rewrite JsMap_get_set_ne by exact Hne. unfold tracked.
      split; [auto|]. intros [H|[E _]]; [exact H | congruence]. }
  constructor.
  - subst w'. cbn [self listeners listenerCount]. rewrite Hcount.
    pose proof (set_add_length actual s0 Hnot) as Hl.
    destruct (JsMap.get e (listeners (self w))) as [s|] eqn:E.
    + pose proof (total_set_old _ _ _ (set_add actual s0) Hkeys E).
      subst s0. lia.
    + rewrite (total_set_new _ _ (set_add actual s0) E). subst s0.
      cbn [length] in Hl. lia.
  - subst w'. cbn [self listeners]. now apply Loader.JsMap_set_NoDup.
  - subst w'. cbn [self listeners]. intros e' s.
    destruct (string_dec e e') as [<-|Hne].
    + rewrite JsMap_get_set_eq. intros E. inversion E; subst s.
      split; [now apply set_add_NoDup|].
      intros E0. assert (Hin : In actual (set_add actual s0))
        by (apply set_add_In; auto).
      rewrite E0 in Hin. destruct Hin.
    + rewrite JsMap_get_set_ne by exact Hne. apply Hsets.
  - intros e1 e2 g H1 H2. apply Htr in H1, H2.
    destruct H1 as [H1|[-> ->]], H2 as [H2|[-> E2]]; eauto;
      try subst g; try (exfalso; eapply Hfresh; eassumption); reflexivity.
  - intros h e' g. subst w'. cbn [self timers timeoutListeners nextTimer].
    intros Hh.
    assert (Hcases : (timed = true /\ h = nextTimer w /\ e' = e /\ g = actual) \/
                     timers w !! h = Some (e', g)).
    { destruct timed; [|auto].
      destruct (Nat.eq_dec (nextTimer w) h) as [<-|Hne].
      - rewrite lookup_insert_eq in Hh. inversion Hh; subst. auto.
      - rewrite lookup_insert_ne in Hh by exact Hne. auto. }
    destruct Hcases as [(-> & -> & -> & ->)|Hold].
    + rewrite fn_get_set_eq. split; [reflexivity|]. split; [|lia].
      apply Htr. auto.
    + destruct (Htimer _ _ _ Hold) as (Hg & Htg & Hlt).
      assert (Hga : actual <> g) by (intros <-; eapply Hfresh; eassumption).
      split; [|split].
      * destruct timed; [now rewrite fn_get_set_ne | exact Hg].
      * apply Htr. auto.
      * destruct timed; lia.
  - intros g h. subst w'. cbn [self timers timeoutListeners].
    intros Hg.
    assert (Hcases : (timed = true /\ g = actual /\ h = nextTimer w) \/
                     fn_get g (timeoutListeners (self w)) = Some h).
    { destruct timed; [|auto].
      destruct (Fn_dec actual g) as [<-|Hne].
      - rewrite fn_get_set_eq in Hg. inversion Hg. auto.
      - rewrite fn_get_set_ne in Hg by exact Hne. auto. }
    destruct Hcases as [(-> & -> & ->)|Hold].
    + exists e. apply lookup_insert_eq.
    + destruct (Hrec _ _ Hold) as [e' He']. exists e'.
      destruct timed; [|exact He'].
      rewrite lookup_insert_ne; [exact He'|].
      destruct (Htimer _ _ _ He') as (_ & _ & Hlt). lia.
  - intros g. subst w'. cbn [self onceListeners]. intros Hg.
    assert (Hcases : g = actual \/ In g (onceListeners (self w))).
    { destruct once_; [|auto]. now apply set_add_In in Hg. }
    destruct Hcases as [->|Hold].
    + exists e. apply Htr. auto.
    + destruct (Honce _ Hold) as [e' He']. exists e'. apply Htr. auto.
  - intros e' g H. apply Htr in H. subst w'. cbn [nextSerial].
    destruct H as [H|[_ ->]]; [|exact Hbelow].
    specialize (Hser _ _ H). destruct g; simpl in *; lia.
Qed.

(** a function the class has just made is in no set *)
Lemma new_function_fresh w f :
  tidy w -> ~ serial_below (nextSerial w) f -> forall e, ~ tracked w e f.
Proof. intros Hw Hn e H. apply Hn. eapply serials; eauto. Qed.

Lemma tidy_addListener e l o w :
  tidy w ->
  (opt_once o = false -> opt_context o = false ->
   forall e', ~ tracked w e' (Given l)) ->
  tidy (snd (addListener e (Given l) o w)).
Proof.
  intros Hw Hallowed. rewrite addListener_eq. cbv zeta. cbn [snd].
  apply tidy_track; [exact Hw| | |].
  - destruct (opt_once o) eqn:Eo.
    + apply new_function_fresh; [exact Hw|]. simpl.
      destruct (opt_context o); lia.
    + destruct (opt_context o) eqn:Ec.
      * apply new_function_fresh; [exact Hw|]. simpl. lia.
      * now apply Hallowed.
  - destruct (opt_once o), (opt_context o); lia.
  - destruct (opt_once o), (opt_context o); simpl; lia.
Qed.

(** ** Timers, once listeners, and the loops *)

Lemma tidy_same w w' :
  self w' = self w -> timers w' = timers w -> nextTimer w' = nextTimer w ->
  nextSerial w' = nextSerial w -> tidy w -> tidy w'.
Proof.
  intros Es Et En Ek [? ? ? ? ? ? ? ?].
  constructor; unfold tracked in *; rewrite ?Es, ?Et, ?En, ?Ek; assumption.
Qed.

(** the callback of a timer does what [removeListener] does *)
Lemma fire_eq h e f w :
  tidy w -> timers w !! h = Some (e, f) -> fire h w = removeListener e f w.
Proof.
  intros Hw Hh. destruct (timer_recorded _ Hw _ _ _ Hh) as (Hf & _ & _).
  unfold fire, timeout_callback. rewrite Hh, !removeListener_eq.
  unfold on_self, clearTimeout. cbn. rewrite Hf.
  now rewrite set_delete_twice, fn_delete_twice, delete_delete_eq.
Qed.

(** an [onceListener] removes itself and calls its target *)
Lemma invoke_eq k e target w :
  invoke (OnceListener k e target) w =
  call target (removeListener e (OnceListener k e target) w).
Proof.
  unfold invoke. rewrite removeListener_eq. unfold on_self, call. cbn.
  now rewrite fn_get_delete_eq, set_delete_twice.
Qed.

Lemma timers_removeListener e f w h e' g :
  tidy w -> tracked w e f ->
  timers (removeListener e f w) !! h = Some (e', g) <->
  timers w !! h = Some (e', g) /\ ~ (e' = e /\ g = f).
Proof.
  intros Hw Ht. rewrite removeListener_eq. cbn [timers].
  destruct (fn_get f (timeoutListeners (self w))) as [h0|] eqn:E0.
  - destruct (recorded_timer _ Hw _ _ E0) as [e0 He0].
    destruct (timer_recorded _ Hw _ _ _ He0) as (_ & Ht0 & _).
    assert (e0 = e) by (eapply one_event; eauto). subst e0.
    rewrite lookup_delete_Some. split.
    + intros [Hne Hh]. split; [exact Hh|]. intros [-> ->].
      destruct (timer_recorded _ Hw _ _ _ Hh) as (Hf & _ & _). congruence.
    + intros [Hh Hn]. split; [|exact Hh]. intros <-.
      rewrite He0 in Hh. inversion Hh; subst. tauto.
  - split; [|tauto]. intros Hh. split; [exact Hh|]. intros [-> ->].
    destruct (timer_recorded _ Hw _ _ _ Hh) as (Hf & _ & _). congruence.
Qed.

Local Abbreviation remove_pairs :=
  (fold_left (fun w (p : string * Fn) => removeListener (fst p) (snd p) w)).

Lemma remove_each_pairs e s w :
  remove_each e s w = remove_pairs (map (pair e) s) w.
Proof.
  unfold remove_each. revert w. induction s as [|f s IH]; intros w; simpl; auto.
Qed.

Lemma remove_every_pairs entries w :
  remove_every entries w =
  remove_pairs (flat_map (fun entry : string * FnSet =>
                            map (pair (fst entry)) (snd entry)) entries) w.
Proof.
  unfold remove_every. revert w.
  induction entries as [|[e s] entries IH]; intros w; simpl; [reflexivity|].
  rewrite fold_left_app, <- remove_each_pairs. apply IH.
Qed.

Lemma tidy_remove_pairs ps : forall w,
  tidy w -> List.NoDup ps ->
  (forall p, In p ps -> tracked w (fst p) (snd p)) ->
  let w' := remove_pairs ps w in
  tidy w' /\
  (forall e g, tracked w' e g <-> tracked w e g /\ ~ In (e, g) ps) /\
  (forall h e g, timers w' !! h = Some (e, g) <->
                 timers w !! h = Some (e, g) /\ ~ In (e, g) ps).
Proof.
  induction ps as [|[e f] ps IH]; intros w Hw Hnd Hall; simpl.
  - split; [exact Hw|]. split; intros; tauto.
  - apply List.NoDup_cons_iff in Hnd. destruct Hnd as [Hnotin Hnd].
    pose proof (Hall (e, f) (or_introl eq_refl)) as Hef. simpl in Hef.
    pose proof (tidy_removeListener e f w Hw Hef) as Hw1.
    destruct (IH (removeListener e f w) Hw1 Hnd) as (Hw' & Htr & Htm).
    { intros [e' g] Hin. simpl. apply tracked_removeListener.
      split; [apply (Hall (e', g)); now right|].
      intros [-> ->]. tauto. }
    split; [exact Hw'|]. split.
    + intros e' g. rewrite Htr, tracked_removeListener.
      split.
      * intros [[H1 H2] H3]. split; [exact H1|].
        intros [E|E]; [inversion E; subst; tauto | tauto].
      * intros [H1 H2]. split; [split; [exact H1|]|]; [|tauto].
        intros [-> ->]. tauto.
    + intros h e' g. rewrite Htm, (timers_removeListener e f w h e' g Hw Hef).
      split.
      * intros [[H1 H2] H3]. split; [exact H1|].
        intros [E|E]; [inversion E; subst; tauto | tauto].
      * intros [H1 H2]. split; [split; [exact H1|]|]; [|tauto].
        intros [-> ->]. tauto.
Qed.

Lemma pairs_of_set (e : string) (s : FnSet) (p : string * Fn) :
  In p (map (pair e) s) <-> fst p = e /\ In (snd p) s.
Proof.
  rewrite in_map_iff. destruct p as [e' g]. simpl. split.
  - intros (x & E & Hin). inversion E; subst. auto.
  - intros [-> Hin]. eauto.
Qed.

Lemma pairs_of_set_NoDup (e : string) (s : FnSet) :
  List.NoDup s -> List.NoDup (map (pair e) s).
Proof.
  induction 1 as [|g s Hg Hs IH]; simpl; constructor; [|exact IH].
  rewrite pairs_of_set. simpl. tauto.
Qed.

Lemma pairs_of_entries (entries : JsMap.t FnSet) p :
  In p (flat_map (fun entry : string * FnSet =>
                    map (pair (fst entry)) (snd entry)) entries) <->
  exists s, In (fst p, s) entries /\ In (snd p) s.
Proof.
  rewrite in_flat_map. split.
  - intros ([e s] & Hin & Hp). apply pairs_of_set in Hp. simpl in Hp.
    destruct Hp as [<- Hp]. eauto.
  - intros (s & Hin & Hp). exists (fst p, s). split; [exact Hin|].
    apply pairs_of_set. auto.
Qed.

Lemma pairs_of_entries_NoDup (entries : JsMap.t FnSet) :
  List.NoDup (map fst entries) ->
  (forall e s, In (e, s) entries -> List.NoDup s) ->
  List.NoDup (flat_map (fun entry : string * FnSet =>
                          map (pair (fst entry)) (snd entry)) entries).
Proof.
  induction entries as [|[e s] entries IH]; simpl; [constructor|].
  intros Hk Hs. apply List.NoDup_cons_iff in Hk. destruct Hk as [He Hk].
  apply List.NoDup_app.
  - apply pairs_of_set_NoDup. apply (Hs e s). now left.
  - apply IH; [exact Hk|]. intros e' s' Hin. apply (Hs e' s'). now right.
  - intros p Hp Hq.
    apply pairs_of_set in Hp. destruct Hp as [Hp _].
    apply pairs_of_entries in Hq. destruct Hq as (s' & Hin & _).
    apply He. rewrite <- Hp. apply (in_map fst _ _ Hin).
Qed.

End EventFacts.
(** * The event manager: what its books guarantee *)

Module Events.
Import EventManager EventsMore EventFacts.

Lemma tracked_entries w e g :
  List.NoDup (map fst (listeners (self w))) ->
  tracked w e g <-> exists s, In (e, s) (listeners (self w)) /\ In g s.
Proof.
  intros Hk. unfold tracked. split; intros (s & Hs & Hg); exists s; split; auto.
  - now apply WsClose.JsMap_get_In.
  - now apply PoolFacts.NoDup_In_get.
Qed.

Lemma removeAllListeners_spec event w :
  tidy w ->
  let w' := removeAllListeners event w in
  tidy w' /\
  (forall e g, tracked w' e g <-> tracked w e g /\ ~ in_scope event e) /\
  (forall h e g, timers w' !! h = Some (e, g) <->
                 timers w !! h = Some (e, g) /\ ~ in_scope event e).
Proof.
  intros Hw. cbv zeta. unfold removeAllListeners.
  match goal with
  | |- context [super _ ?x] => set (w1 := x)
  end.
  enough (H : tidy w1 /\
              (forall e g, tracked w1 e g <-> tracked w e g /\ ~ in_scope event e) /\
              (forall h e g, timers w1 !! h = Some (e, g) <->
                             timers w !! h = Some (e, g) /\ ~ in_scope event e)).
  { destruct H as (H1 & H2 & H3). split; [|split].
    - now apply (tidy_same w1).
    - exact H2.
    - exact H3. }
  subst w1.
  assert (Hpend : forall h e g, timers w !! h = Some (e, g) -> tracked w e g).
  { intros h e g Hh. now destruct (timer_recorded _ Hw _ _ _ Hh) as (_ & ? & _). }
  assert (Hall : forall ps,
            List.NoDup ps ->
            (forall e g, In (e, g) ps <-> tracked w e g /\ in_scope event e) ->
            let w1 := fold_left
                        (fun w (p : string * Fn) => removeListener (fst p) (snd p) w)
                        ps w in
            tidy w1 /\
            (forall e g, tracked w1 e g <-> tracked w e g /\ ~ in_scope event e) /\
            (forall h e g, timers w1 !! h = Some (e, g) <->
                           timers w !! h = Some (e, g) /\ ~ in_scope event e)).
  { intros ps Hnd Hps.
    destruct (tidy_remove_pairs ps w Hw Hnd) as (H1 & H2 & H3).
    { intros [e g] Hin. apply Hps in Hin. tauto. }
    split; [exact H1|]. split.
    - intros e g. rewrite H2, Hps. tauto.
    - intros h e g. rewrite H3, Hps. split; [|tauto].
      intros [Hh Hn]. split; [exact Hh|]. intros Hs. apply Hn. eauto. }
  pose proof (event_keys _ Hw) as Hk.
  destruct event as [name|]; cbn [default from_option id negb].
  - destruct (String.eqb name "") eqn:En; cbn [negb].
    + apply String.eqb_eq in En. subst name. rewrite remove_every_pairs.
      apply Hall.
      * apply pairs_of_entries_NoDup; [exact Hk|].
        intros e s Hin. apply (sets_proper _ Hw e s).
        now apply PoolFacts.NoDup_In_get.
      * intros e g. rewrite pairs_of_entries. simpl.
        rewrite <- (tracked_entries w e g Hk). tauto.
    + apply String.eqb_neq in En.
      destruct (JsMap.get name (listeners (self w))) as [s|] eqn:Es.
      * rewrite remove_each_pairs. apply Hall.
        -- apply pairs_of_set_NoDup. apply (sets_proper _ Hw _ _ Es).
        -- intros e g. rewrite pairs_of_set. simpl. unfold tracked. split.
           ++ intros [-> Hg]. eauto.
           ++ intros [(s' & Hs' & Hg) [E | ->]]; [congruence|].
              rewrite Es in Hs'. inversion Hs'; subst. auto.
      * split; [exact Hw|]. split.
        -- intros e g. split; [|tauto]. intros H. split; [exact H|].
           simpl. intros [E| ->]; [congruence|].
           destruct H as (s & Hs & _). congruence.
        -- intros h e g. split; [|tauto]. intros H. split; [exact H|].
           simpl. intros [E| ->]; [congruence|].
           destruct (Hpend _ _ _ H) as (s & Hs & _). congruence.
  - rewrite remove_every_pairs. apply Hall.
    + apply pairs_of_entries_NoDup; [exact Hk|].
      intros e s Hin. apply (sets_proper _ Hw e s).
      now apply PoolFacts.NoDup_In_get.
    + intros e g. rewrite pairs_of_entries. simpl.
      rewrite <- (tracked_entries w e g Hk). tauto.
Qed.

Lemma fn_get_entry f h (m : FnMap) : fn_get f m = Some h -> In (f, h) m.
Proof.
  induction m as [|[k v] m IH]; simpl; [discriminate|].
  destruct (Fn_eqb f k) eqn:E; [|auto].
  apply Fn_eqb_eq in E. subst k. intros H. inversion H. now left.
Qed.

Lemma clear_all_spec (entries : FnMap) : forall w,
  let w' := fold_left (fun w (entry : Fn * nat) => clearTimeout (snd entry) w)
              entries w in
  self w' = self w /\ nextTimer w' = nextTimer w /\ nextSerial w' = nextSerial w /\
  supers w' = supers w /\ called w' = called w /\
  forall h, In h (map snd entries) -> timers w' !! h = None.
Proof.
  assert (Hkeep : forall entries w h,
            timers w !! h = None ->
            timers (fold_left
                      (fun w (entry : Fn * nat) => clearTimeout (snd entry) w)
                      entries w) !! h = None).
  { clear. induction entries as [|[f h0] entries IH]; intros w h Hh; simpl;
      [exact Hh|].
    apply IH. cbn [timers clearTimeout]. apply lookup_delete_None. auto. }
  induction entries as [|[f h0] entries IH]; intros w; simpl.
  - repeat split; try reflexivity. intros h [].
  - destruct (IH (clearTimeout h0 w)) as (H1 & H2 & H3 & H4 & H5 & H6).
    repeat split; try assumption.
    intros h [<-|Hin]; [|now apply H6].
    apply Hkeep. cbn [timers clearTimeout]. apply lookup_delete_eq.
Qed.

Lemma cleanup_spec w :
  tidy w ->
  tidy (cleanup w) /\ timers (cleanup w) = ∅ /\
  listeners (self (cleanup w)) = [] /\ onceListeners (self (cleanup w)) = [] /\
  timeoutListeners (self (cleanup w)) = [] /\ listenerCount (self (cleanup w)) = 0.
Proof.
  intros Hw. unfold cleanup.
  destruct (clear_all_spec (timeoutListeners (self w)) w)
    as (H1 & H2 & H3 & H4 & H5 & H6).
  set (w1 := fold_left _ _ w) in *.
  assert (Hsub : forall h x, timers w1 !! h = Some x -> timers w !! h = Some x).
  { subst w1. clear. generalize (timeoutListeners (self w)) as entries. intros entries.
    revert w. induction entries as [|[f h0] entries IH]; intros w h x; simpl;
      [auto|].
    intros H. apply IH in H. cbn [timers clearTimeout] in H.
    apply lookup_delete_Some in H. tauto. }
  assert (Hempty : timers w1 = ∅).
  { apply map_empty. intros h.
    destruct (in_dec Nat.eq_dec h (map snd (timeoutListeners (self w))))
      as [Hin|Hout]; [now apply H6|].
    destruct (timers w1 !! h) as [[e f]|] eqn:Eh; [|reflexivity].
    exfalso. apply Hout.
    assert (Hold : timers w !! h = Some (e, f)) by (eapply Hsub; eauto).
    destruct (timer_recorded _ Hw _ _ _ Hold) as (Hf & _ & _).
    apply (in_map snd _ _ (fn_get_entry _ _ _ Hf)). }
  unfold super, on_self. cbn.
  split; [|split; [exact Hempty | repeat split]].
  constructor; unfold tracked; cbn.
  - reflexivity.
  - constructor.
  - discriminate.
  - intros e1 e2 f (s & Hs & _). discriminate.
  - intros h e f. rewrite Hempty, lookup_empty. discriminate.
  - discriminate.
  - intros f [].
  - intros e f (s & Hs & _). discriminate.
Qed.

Lemma tidy_after_step w a : tidy w -> allowed w a -> tidy (step w a).
Proof.
  intros Hw Ha. destruct a as [e l o|e l o|e l t o|e f|h|f|event|]; cbn [step].
  - now apply tidy_addListener.
  - unfold once. apply tidy_addListener; [exact Hw|]. simpl. discriminate.
  - unfold timedListener. apply tidy_addListener; [exact Hw|]. exact Ha.
  - now apply tidy_removeListener.
  - destruct (timers w !! h) as [[e f]|] eqn:Eh;
      [|unfold fire; rewrite Eh; exact Hw].
    rewrite (fire_eq h e f w Hw Eh).
    apply tidy_removeListener; [exact Hw|].
    now destruct (timer_recorded _ Hw _ _ _ Eh) as (_ & ? & _).
  - destruct f as [i|k g|k e g].
    + now apply (tidy_same w).
    + now apply (tidy_same w).
    + rewrite invoke_eq.
      apply (tidy_same (removeListener e (OnceListener k e g) w));
        try reflexivity.
      now apply tidy_removeListener.
  - now apply removeAllListeners_spec.
  - now apply cleanup_spec.
Qed.

Lemma tidy_run acts : forall w, tidy w -> allowed_run w acts -> tidy (run w acts).
Proof.
  induction acts as [|a acts IH]; intros w Hw Hall; [exact Hw|].
  destruct Hall as [Ha Hrest]. simpl. apply IH; [now apply tidy_after_step | exact Hrest].
Qed.

Lemma tidy_constructor mx now : tidy (constructor mx now).
Proof.
  constructor; unfold tracked; cbn.
  - reflexivity.
  - constructor.
  - discriminate.
  - intros e1 e2 f (s & Hs & _). discriminate.
  - intros h e f. rewrite lookup_empty. discriminate.
  - discriminate.
  - intros f [].
  - intros e f (s & Hs & _). discriminate.
Qed.

Lemma JsMap_set_same {V} e (s : V) (m : JsMap.t V) :
  List.NoDup (map fst m) -> JsMap.get e m = Some s -> JsMap.set e s m = m.
Proof.
  induction m as [|[k v] m IH]; simpl; [discriminate|].
  intros Hnd Hg. apply List.NoDup_cons_iff in Hnd. destruct Hnd as [Hk Hm].
  destruct (String.eqb e k) eqn:E.
  - apply String.eqb_eq in E. subst k. inversion Hg; subst v. f_equal.
    clear IH Hg. induction m as [|[k v] m IH]; simpl; [reflexivity|].
    simpl in Hk. destruct (String.eqb e k) eqn:E.
    + apply String.eqb_eq in E. subst k. tauto.
    + f_equal. apply IH; [tauto|]. now apply List.NoDup_cons_iff in Hm.
  - f_equal. now apply IH.
Qed.

(** the manager of [EventScenario] is used as allowed *)
Lemma scenario_allowed :
  allowed_run (constructor None 0) (EventScenario.registered ++ EventScenario.later).
Proof.
  simpl. repeat split.
  - intros _ _ e (s & Hs & _). discriminate.
  - discriminate.
  - exists [OnceListener 0 "dtmf" (Given 2)]. split; [vm_compute; reflexivity|].
    simpl. auto.
  - exists [Given 1]. split; [vm_compute; reflexivity|]. simpl. auto.
Qed.

Lemma busy_tidy : tidy EventScenario.busy.
Proof.
  apply tidy_run; [apply tidy_constructor|].
  simpl. repeat split.
  - intros _ _ e (s & Hs & _). discriminate.
  - discriminate.
Qed.









End Events.
(** * The WebSocket requestor: flushing the queue *)

Module Flush.
Import WsRequestor WsFlush FlushMore.

Section Model.
Variable snakeCase : string -> string.
Variable cfg : Config.
Variable short_generate : nat -> string.

Local Abbreviation request_now := (request_now snakeCase cfg short_generate).
Local Abbreviation flush_loop := (flush_loop snakeCase cfg short_generate).
Local Abbreviation sendQueuedMsgs := (sendQueuedMsgs snakeCase cfg short_generate).

(** a plain message passes the first part of [request] unchanged *)
Lemma request_entry_plain q sock w :
  plain cfg q -> open_on sock w ->
  request_entry cfg w (q_type q) (q_hook q) (q_params q) (q_httpHeaders q) = (w, None).
Proof.
  intros (Hty & Hnew & Hrec & url & Hurl & Hne & Hhttp) (Hws & Hm & Hc).
  unfold request_entry. rewrite Hty, Hm, Hc. cbn [negb].
  apply String.eqb_neq in Hnew, Hrec. rewrite Hnew, Hrec, Hurl, Hhttp, Hws.
  reflexivity.
Qed.

(** while a reconnect awaits its ack, the call queues the message again *)
Lemma request_now_requeues q sock rp w :
  plain cfg q -> open_on sock w -> _reconnectPromise (self w) = Some rp ->
  exists w' r q',
    request_now q w = (w', Some r) /\
    queuedMsg (self w') = queuedMsg (self w) ++ [q'] /\
    q_type q' = q_type q /\ q_hook q' = q_hook q /\
    has_promise q' = wantsAck (q_type q) /\
    open_on sock w' /\ _reconnectPromise (self w') = Some rp /\
    wire w' = wire w.
Proof.
  intros Hq Ho Hr. unfold WsFlush.request_now.
  rewrite (request_entry_plain q sock w Hq Ho).
  destruct Hq as (Hty & Hnew & Hrec & url & Hurl & Hne & Hhttp).
  destruct Ho as (Hws & Hm & Hc). rewrite Hws.
  unfold request_send. cbv zeta.
  apply String.eqb_neq in Hrec. rewrite Hrec, Hr. cbn [negb andb].
  rewrite bool_decide_eq_true_2 by eauto.
  unfold queueMsg, new_promise, wantsAck, open_on.
  destruct (negb (JsString.array_includes MTYPE_WANTS_ACK (q_type q)));
    simpl; do 3 eexists; (split; [reflexivity|]); simpl; auto 10.
Qed.

(** otherwise it writes the message to the socket *)
Lemma request_now_sends q sock w :
  plain cfg q -> open_on sock w -> _reconnectPromise (self w) = None ->
  exists w' r fr,
    request_now q w = (w', Some r) /\
    wire w' = wire w ++ [(sock, fr)] /\ f_type fr = q_type q /\
    queuedMsg (self w') = queuedMsg (self w) /\
    open_on sock w' /\ _reconnectPromise (self w') = None.
Proof.
  intros Hq Ho Hr. unfold WsFlush.request_now.
  rewrite (request_entry_plain q sock w Hq Ho).
  destruct Hq as (Hty & Hnew & Hrec & url & Hurl & Hne & Hhttp).
  destruct Ho as (Hws & Hm & Hc). rewrite Hws.
  unfold request_send. cbv zeta.
  apply String.eqb_neq in Hrec, Hnew, Hne. rewrite Hrec, Hr, Hws, Hurl, Hne, Hnew.
  cbn [negb andb].
  rewrite bool_decide_eq_false_2 by (intros [? ?]; discriminate).
  unfold new_promise, setTimeout, send, open_on.
  repeat (case_match; simplify_eq; cbn [fst snd]);
    do 3 eexists; (split; [reflexivity|]); simpl; auto 10.
Qed.

Lemma plain_same q q' :
  q_type q' = q_type q -> q_hook q' = q_hook q -> plain cfg q -> plain cfg q'.
Proof. unfold plain. intros -> ->. auto. Qed.

(** the loop does not end while an ack-wanting message is ahead *)
Lemma flush_loop_unfinished sock rp fuel : forall i f,
  open_on sock (world f) -> _reconnectPromise (self (world f)) = Some rp ->
  Forall (plain cfg) (queuedMsg (self (world f))) ->
  (exists j q, (i <= j)%nat /\ nth_error (queuedMsg (self (world f))) j = Some q /\
               has_promise q = true /\ wantsAck (q_type q) = true) ->
  flush_loop fuel i f = Unfinished.
Proof.
  induction fuel as [|fuel IH]; intros i f Ho Hr Hall (j & q & Hij & Hj & Hp & Ha);
    [reflexivity|].
  cbn [WsFlush.flush_loop].
  destruct (nth_error (queuedMsg (self (world f))) i) as [qi|] eqn:Ei.
  2:{ apply nth_error_None in Ei.
      assert (j < length (queuedMsg (self (world f))))%nat
        by (apply nth_error_Some; congruence).
      lia. }
  destruct (q_promise qi) as [p|] eqn:Ep.
  - assert (Hqi : plain cfg qi).
    { rewrite List.Forall_forall in Hall. apply Hall. eapply nth_error_In; eauto. }
    destruct (request_now_requeues qi sock rp (world f) Hqi Ho Hr)
      as (w' & r & q' & -> & Hq' & Hty & Hhook & Hhas & Ho' & Hr' & _).
    apply IH; cbn [world]; auto.
    + rewrite Hq'. apply Forall_app. split; [exact Hall|].
      constructor; [|constructor]. eapply plain_same; eauto.
    + rewrite Hq'. destruct (Nat.eq_dec i j) as [->|Hne].
      * assert (qi = q) by congruence. subst qi.
        exists (length (queuedMsg (self (world f)))), q'.
        assert (j < length (queuedMsg (self (world f))))%nat
          by (apply nth_error_Some; congruence).
        split; [lia|]. split.
        -- rewrite nth_error_app2 by lia. now rewrite Nat.sub_diag.
        -- split; [now rewrite Hhas | now rewrite Hty].
      * exists j, q. split; [lia|]. split; [|auto].
        rewrite nth_error_app1; [exact Hj|]. apply nth_error_Some. congruence.
  - apply IH; cbn [world]; auto.
    exists j, q. split; [|auto].
    destruct (Nat.eq_dec i j) as [->|Hne]; [|lia].
    assert (qi = q) by congruence. subst qi.
    unfold has_promise in Hp. rewrite Ep in Hp. discriminate.
Qed.

(** with no reconnect pending the loop sends what is left of the queue *)
Lemma flush_loop_sends sock rest : forall pre f,
  open_on sock (world f) -> _reconnectPromise (self (world f)) = None ->
  queuedMsg (self (world f)) = pre ++ rest ->
  Forall (plain cfg) rest ->
  exists f' frames,
    (forall fuel, (length rest < fuel)%nat ->
       flush_loop fuel (length pre) f = Finished f') /\
    queuedMsg (self (world f')) = [] /\
    immediates f' =
      immediates f ++ List.filter (fun q => negb (has_promise q)) rest /\
    map fst (chained f') = map fst (chained f) ++ omap q_promise rest /\
    wire (world f') = wire (world f) ++ frames /\
    map (fun sf : nat * Frame => (fst sf, f_type (snd sf))) frames =
      map (fun q => (sock, q_type q)) (List.filter has_promise rest) /\
    open_on sock (world f') /\ _reconnectPromise (self (world f')) = None.
Proof.
  induction rest as [|q rest IH]; intros pre f Ho Hr Hq Hall.
  - exists (mkFlushed (on_self (set_queuedMsg []) (world f)) (immediates f)
              (chained f)), [].
    split; [|cbn; rewrite !app_nil_r; auto 10].
    intros [|fuel] Hlt; [simpl in Hlt; lia|]. cbn [WsFlush.flush_loop].
    rewrite Hq, app_nil_r.
    now rewrite (proj2 (nth_error_None pre (length pre)) (le_n _)).
  - apply Forall_cons_1 in Hall. destruct Hall as [Hplain Hall].
    assert (Hnth : nth_error (queuedMsg (self (world f))) (length pre) = Some q).
    { rewrite Hq, nth_error_app2 by lia. now rewrite Nat.sub_diag. }
    assert (Hpre : forall l : list Queued, l = pre ++ q :: rest ->
                     l = (pre ++ [q]) ++ rest)
      by (intros l ->; now rewrite <- app_assoc).
    assert (Hlen : length (pre ++ [q]) = S (length pre))
      by (rewrite length_app; simpl; lia).
    destruct (q_promise q) as [p|] eqn:Ep.
    + assert (Hhp : has_promise q = true) by (unfold has_promise; now rewrite Ep).
      destruct (request_now_sends q sock (world f) Hplain Ho Hr)
        as (w' & r & fr & Hreq & Hwire & Hty & Hqueue & Ho' & Hr').
      destruct (IH (pre ++ [q]) (mkFlushed w' (immediates f) (chained f ++ [(p, r)])))
        as (f' & frames & Hrun & Hempty & Him & Hch & Hw & Hfr & Ho2 & Hr2);
        cbn [world immediates chained]; auto.
      { rewrite Hqueue. now apply Hpre. }
      cbn [world immediates chained] in *.
      exists f', ((sock, fr) :: frames).
      split; [|split; [exact Hempty|split; [|split; [|split; [|split]]]]].
      * intros [|fuel] Hlt; [lia|]. cbn [WsFlush.flush_loop].
        rewrite Hnth, Ep, Hreq. rewrite <- Hlen. apply Hrun. simpl in Hlt. lia.
      * rewrite Him. cbn [List.filter]. rewrite Hhp. reflexivity.
      * rewrite Hch. cbn [omap list_omap]. rewrite Ep, List.map_app, <- app_assoc.
        reflexivity.
      * rewrite Hw, Hwire, <- app_assoc. reflexivity.
      * cbn [List.filter]. rewrite Hhp. cbn [map fst snd].
        now rewrite Hty, Hfr.
      * auto.
    + assert (Hhp : has_promise q = false) by (unfold has_promise; now rewrite Ep).
      destruct (IH (pre ++ [q]) (mkFlushed (world f) (immediates f ++ [q]) (chained f)))
        as (f' & frames & Hrun & Hempty & Him & Hch & Hw & Hfr & Ho2 & Hr2);
        cbn [world immediates chained]; auto.
      cbn [world immediates chained] in *.
      exists f', frames.
      split; [|split; [exact Hempty|split; [|split; [|split; [|split]]]]].
      * intros [|fuel] Hlt; [lia|]. cbn [WsFlush.flush_loop].
        rewrite Hnth, Ep. rewrite <- Hlen. apply Hrun. simpl in Hlt. lia.
      * rewrite Him. cbn [List.filter]. rewrite Hhp.
        cbn [negb]. now rewrite <- app_assoc.
      * rewrite Hch. cbn [omap list_omap]. now rewrite Ep.
      * exact Hw.
      * cbn [List.filter]. rewrite Hhp. exact Hfr.
      * auto.
Qed.

(** X23: when the socket has taken a notification and no reconnect awaits
    its ack, [sendQueuedMsgs] on an open requestor whose queued messages are
    plain ones ends and empties the queue: the messages that carry a promise
    are written to the socket, one frame each, in the order they were queued,
    and their promises are chained to the calls; the others are handed to
    [setImmediate], in order. *)
Theorem flush_sends_the_queue (w : World) (sock : nat) :
  open_on sock w -> _reconnectPromise (self w) = None ->
  Forall (plain cfg) (queuedMsg (self w)) ->
  exists f frames,
    (forall fuel, (length (queuedMsg (self w)) < fuel)%nat ->
       sendQueuedMsgs fuel w = Finished f) /\
    queuedMsg (self (world f)) = [] /\
    immediates f =
      List.filter (fun q => negb (has_promise q)) (queuedMsg (self w)) /\
    map fst (chained f) = omap q_promise (queuedMsg (self w)) /\
    wire (world f) = wire w ++ frames /\
    map (fun sf : nat * Frame => (fst sf, f_type (snd sf))) frames =
      map (fun q => (sock, q_type q)) (List.filter has_promise (queuedMsg (self w))).
Proof.
  intros Ho Hr Hall. unfold WsFlush.sendQueuedMsgs.
  destruct (queuedMsg (self w)) as [|q0 rest] eqn:Eq.
  - exists (mkFlushed w [] []), []. cbn. rewrite app_nil_r. auto 10.
  - destruct (flush_loop_sends sock (q0 :: rest) [] (mkFlushed w [] []))
      as (f & frames & Hrun & Hempty & Him & Hch & Hw & Hfr & _); auto.
    exists f, frames. cbn [world immediates chained app map length] in *.
    split; [|auto 10]. intros fuel Hlt. cbn [Nat.ltb Nat.leb]. now apply Hrun.
Qed.

(** X24: while a reconnect awaits its ack, [sendQueuedMsgs] on an open
    requestor does not end if the queue of plain messages holds one that
    wants an ack: the call of [request] that the loop makes for it queues the
    message again, at the end of the array the loop is walking, so that
    however many steps the loop is given it is still running. *)
Theorem flush_hangs_during_reconnect (w : World) (sock rp : nat) (q : Queued) :
  open_on sock w -> _reconnectPromise (self w) = Some rp ->
  Forall (plain cfg) (queuedMsg (self w)) ->
  In q (queuedMsg (self w)) -> has_promise q = true -> wantsAck (q_type q) = true ->
  forall fuel, sendQueuedMsgs fuel w = Unfinished.
Proof.
  intros Ho Hr Hall Hin Hp Ha fuel. unfold WsFlush.sendQueuedMsgs.
  destruct (queuedMsg (self w)) as [|q0 rest] eqn:Eq; [destruct Hin|].
  cbn [length Nat.ltb Nat.leb].
  destruct (In_nth_error _ _ Hin) as [j Hj].
  apply (flush_loop_unfinished sock rp); cbn [world]; auto.
  - now rewrite Eq.
  - exists j, q. rewrite Eq. split; [lia | auto].
Qed.

End Model.

Lemma answer_plain :
  plain Sample.cfg (mkQueued "verb:hook" (HookString "/answer") (Some (JObj [])) []
                      (Some 2%nat)).
Proof.
  repeat split; try discriminate. exists "/answer". repeat split; discriminate.
Qed.

Lemma status_plain :
  plain Sample.cfg (mkQueued "call:status" (HookString "/status") (Some (JObj [])) []
                      None).
Proof.
  repeat split; try discriminate. exists "/status". repeat split; discriminate.
Qed.

Lemma scenario_queue (w : World) :
  queuedMsg (self w) =
    [mkQueued "verb:hook" (HookString "/answer") (Some (JObj [])) [] (Some 2%nat);
     mkQueued "call:status" (HookString "/status") (Some (JObj [])) [] None] ->
  Forall (plain Sample.cfg) (queuedMsg (self w)).
Proof.
  intros ->. constructor; [apply answer_plain|].
  constructor; [apply status_plain | constructor].
Qed.

(** X23, witness: the queue of the requestor that reconnected twice, once
    no reconnect awaits its ack: [verb:hook] goes out, [call:status] is left
    to [setImmediate] *)
Lemma flush_sends_the_queue_witness :
  exists f frames,
    sendQueuedMsgs Sample.snake Sample.cfg Sample.uuid 3 FlushScenario.settled
      = Finished f /\
    wire (world f) = wire FlushScenario.settled ++ frames /\
    map (fun sf : nat * Frame => (fst sf, f_type (snd sf))) frames =
      map (fun q => (2%nat, q_type q))
        (List.filter has_promise (queuedMsg (self FlushScenario.settled))).
Proof.
  destruct (flush_sends_the_queue Sample.snake Sample.cfg Sample.uuid
              FlushScenario.settled 2)
    as (f & frames & Hrun & _ & _ & _ & Hw & Hfr).
  - repeat split; vm_compute; reflexivity.
  - vm_compute. reflexivity.
  - apply scenario_queue. vm_compute. reflexivity.
  - exists f, frames. split; [|auto]. apply Hrun.
    replace (queuedMsg (self FlushScenario.settled)) with
      [mkQueued "verb:hook" (HookString "/answer") (Some (JObj [])) [] (Some 2%nat);
       mkQueued "call:status" (HookString "/status") (Some (JObj [])) [] None]
      by (vm_compute; reflexivity).
    simpl. lia.
Defined.

(** X24, witness: after the second reconnect the socket takes the
    [session:reconnect]; the flush of the queue with its [verb:hook] is still
    running after a thousand steps *)
Lemma flush_hangs_during_reconnect_witness :
  sendQueuedMsgs Sample.snake Sample.cfg Sample.uuid 1000
    FlushScenario.twice_reconnected = Unfinished.
Proof.
  apply (flush_hangs_during_reconnect Sample.snake Sample.cfg Sample.uuid
           FlushScenario.twice_reconnected 2 3
           (mkQueued "verb:hook" (HookString "/answer") (Some (JObj [])) []
              (Some 2%nat))).
  - repeat split; vm_compute; reflexivity.
  - vm_compute. reflexivity.
  - apply scenario_queue. vm_compute. reflexivity.
  - replace (queuedMsg (self FlushScenario.twice_reconnected)) with
      [mkQueued "verb:hook" (HookString "/answer") (Some (JObj [])) [] (Some 2%nat);
       mkQueued "call:status" (HookString "/status") (Some (JObj [])) [] None]
      by (vm_compute; reflexivity).
    now left.
  - reflexivity.
  - reflexivity.
Defined.

End Flush.
